(** * LogiMaster: the propositional-logic core of [App.js]

    A shallow embedding of the logic engine of LogiMaster (tokenizer,
    precedence parser, canonical rendering, evaluator, sub-expression
    extractor, truth-table generator and strict reduction engine) together
    with the properties of its specification.

    JavaScript strings are sequences of UTF-16 code units, so a string is a
    [list N] here; [js] turns a literal of this file (UTF-8) into that
    representation.  Arrays are lists, [a[i]] is the lookup [a !! i] and
    [undefined] is [None]. *)

From Stdlib Require Import ZArith NArith List Lia Bool String Ascii.
From stdpp Require Import base decidable option list gmap.

Local Open Scope Z_scope.

(** ** JavaScript strings *)

Abbreviation jsstring := (list N).

(** Decoding of the UTF-8 bytes of a literal into UTF-16 code units; all the
    literals of the program lie in the Basic Multilingual Plane (one, two or
    three bytes). *)
Fixpoint utf16_of_utf8 (bs : list N) : jsstring :=
  match bs with
  | [] => []
  | b :: r =>
      if (b <? 128)%N then b :: utf16_of_utf8 r
      else if (b <? 224)%N then
        match r with
        | b2 :: r2 => ((b - 192) * 64 + (b2 - 128))%N :: utf16_of_utf8 r2
        | [] => []
        end
      else
        match r with
        | b2 :: b3 :: r3 =>
            ((b - 224) * 4096 + (b2 - 128) * 64 + (b3 - 128))%N
              :: utf16_of_utf8 r3
        | _ => []
        end
  end.

Definition js (s : string) : jsstring :=
  utf16_of_utf8 (List.map N_of_ascii (list_ascii_of_string s)).

(** [Array.prototype.slice(start, end)]: a negative index counts from the end
    and both indices are clamped to the array; [end] omitted is the length. *)
Definition slice_index {A} (l : list A) (k : Z) : Z :=
  if k <? 0 then Z.max (Z.of_nat (length l) + k) 0
  else Z.min k (Z.of_nat (length l)).

Definition slice {A} (l : list A) (start : Z) (end_ : option Z) : list A :=
  let s := slice_index l start in
  let e := match end_ with
           | Some e => slice_index l e
           | None => Z.of_nat (length l)
           end in
  take (Z.to_nat (e - s)) (drop (Z.to_nat s) l).

(** [a[i]] for a number [i]: [undefined] outside of the array. *)
Definition at_index {A} (l : list A) (i : Z) : option A :=
  if i <? 0 then None else l !! Z.to_nat i.

(** ** Constants *)

Module SYMBOLS.
Definition NOT : jsstring := js "¬".
Definition AND : jsstring := js "∧".
Definition OR : jsstring := js "∨".
Definition IMP : jsstring := js "⇒".
Definition IFF : jsstring := js "⇔".
End SYMBOLS.

Definition LPAREN : jsstring := js "(".
Definition RPAREN : jsstring := js ")".
Definition ERR : jsstring := js "ERR".

(** The table [PRECEDENCE]; a key that is not in it reads as [undefined]. *)
Definition PRECEDENCE (t : jsstring) : option Z :=
  if decide (t = SYMBOLS.NOT) then Some 5
  else if decide (t = SYMBOLS.AND) then Some 4
  else if decide (t = SYMBOLS.OR) then Some 3
  else if decide (t = SYMBOLS.IMP) then Some 2
  else if decide (t = SYMBOLS.IFF) then Some 1
  else None.

(** ** Expression trees *)

(** [new ASTNode(type, value, left, right)]: the parser builds the three
    shapes ['ATOM'] (no child), ['NOT'] (its [left] field is the child) and
    ['BIN'] (operator, [left] and [right]). *)
Inductive ASTNode : Type :=
| ATOM (value : jsstring)
| NOT (child : ASTNode)
| BIN (value : jsstring) (lhs rhs : ASTNode).

Fixpoint toFullString (n : ASTNode) : jsstring :=
  match n with
  | ATOM value => value
  | NOT child => js "(" ++ SYMBOLS.NOT ++ js " " ++ toFullString child ++ js ")"
  | BIN value lhs rhs =>
      js "(" ++ toFullString lhs ++ js " " ++ value ++ js " "
        ++ toFullString rhs ++ js ")"
  end.

(** ** Parser *)

Fixpoint isBalanced_loop (toks : list jsstring) (bal : Z) : bool :=
  match toks with
  | [] => bool_decide (bal = 0)
  | t :: rest =>
      let bal := if decide (t = LPAREN) then bal + 1 else bal in
      let bal := if decide (t = RPAREN) then bal - 1 else bal in
      if bal <? 0 then false else isBalanced_loop rest bal
  end.

Definition isBalanced (toks : list jsstring) : bool := isBalanced_loop toks 0.

(** The state of the loop of [findSplit]. *)
Record split_state : Type := SplitState {
  balance : Z;
  splitIdx : Z;
  minPrec : Z
}.

(** One iteration of the loop, at index [i] holding token [t].  In
    [PRECEDENCE[t] || 100] a token outside of the table gives 100; a name
    inherited from [Object.prototype] gives an object, for which both
    comparisons are false as they are for 100. *)
Definition findSplit_body (t : jsstring) (i : Z) (st : split_state) : split_state :=
  if decide (t = RPAREN) then
    SplitState (balance st + 1) (splitIdx st) (minPrec st)
  else if decide (t = LPAREN) then
    SplitState (balance st - 1) (splitIdx st) (minPrec st)
  else if decide (balance st = 0) then
    if decide (t = SYMBOLS.NOT) then st
    else
      let prec := default 100 (PRECEDENCE t) in
      if (prec <? 100) && (prec <? minPrec st)
      then SplitState (balance st) i prec
      else st
  else st.

(** [for (let i = n - 1; i >= 0; i--)]. *)
Fixpoint findSplit_loop (toks : list jsstring) (n : nat) (st : split_state)
  : split_state :=
  match n with
  | O => st
  | S i =>
      findSplit_loop toks i
        (match toks !! i with
         | Some t => findSplit_body t (Z.of_nat i) st
         | None => st
         end)
  end.

Definition findSplit (toks : list jsstring) : Z :=
  splitIdx (findSplit_loop toks (length toks) (SplitState 0 (-1) 100)).

(** The condition of the loop that strips outer parentheses. *)
Definition strippable (tokens : list jsstring) : bool :=
  bool_decide (tokens !! 0%nat = Some LPAREN)
  && bool_decide (last tokens = Some RPAREN)
  && isBalanced (slice tokens 1 (Some (-1))).

(** The loop itself; every iteration removes two tokens, so [fuel] set to
    the length of the list is never exhausted ([strip_outer_exit]). *)
Fixpoint strip_loop (fuel : nat) (tokens : list jsstring) : list jsstring :=
  match fuel with
  | O => tokens
  | S fuel' =>
      if strippable tokens then strip_loop fuel' (slice tokens 1 (Some (-1)))
      else tokens
  end.

Definition strip_outer (tokens : list jsstring) : list jsstring :=
  strip_loop (length tokens) tokens.

(** The body of [parseToAST], [rec] standing for the function in its
    recursive calls. *)
Definition parse_body (rec : list jsstring → option ASTNode)
    (tokens : list jsstring) : option ASTNode :=
  let tokens := strip_outer tokens in
  if decide (length tokens = 0%nat) then Some (ATOM ERR)
  else if decide (length tokens = 1%nat) then ATOM <$> tokens !! 0%nat
  else if bool_decide (tokens !! 0%nat = Some SYMBOLS.NOT)
          && bool_decide (findSplit tokens = -1)
  then NOT <$> rec (slice tokens 1 None)
  else
    let split := findSplit tokens in
    if decide (split ≠ -1) then
      value ← at_index tokens split;
      lhs ← rec (slice tokens 0 (Some split));
      rhs ← rec (slice tokens (split + 1) None);
      Some (BIN value lhs rhs)
    else if decide (tokens !! 0%nat = Some SYMBOLS.NOT) then
      NOT <$> rec (slice tokens 1 None)
    else Some (ATOM ERR).

(** [parseToAST] with a bound on the depth of the recursion; [None] means
    that the bound was reached (or that an array was read out of range where
    a string is needed). *)
Fixpoint parse_fuel (fuel : nat) (tokens : list jsstring) : option ASTNode :=
  match fuel with
  | O => None
  | S fuel' => parse_body (parse_fuel fuel') tokens
  end.

(** Every recursive call is on a strictly shorter list: one more than the
    length is enough ([parseToAST_total], [parseToAST_unfold]). *)
Definition parseToAST (tokens : list jsstring) : option ASTNode :=
  parse_fuel (S (length tokens)) tokens.

(** ** Notions used to state the properties of the parser *)

(** The four binary connectives. *)
Definition is_binop (t : jsstring) : Prop :=
  t = SYMBOLS.AND ∨ t = SYMBOLS.OR ∨ t = SYMBOLS.IMP ∨ t = SYMBOLS.IFF.

#[global] Instance is_binop_dec t : Decision (is_binop t).
Proof. unfold is_binop; apply _. Defined.

(** The contribution of a token to the balance of the right-to-left scan. *)
Definition paren_delta (t : jsstring) : Z :=
  if decide (t = RPAREN) then 1 else if decide (t = LPAREN) then -1 else 0.

Fixpoint net (toks : list jsstring) : Z :=
  match toks with
  | [] => 0
  | t :: rest => paren_delta t + net rest
  end.

(** A split candidate, in the words of the specification: a binary
    connective (never NOT, never a parenthesis) at an index where the balance
    of the tokens to its right is zero. *)
Definition candidate (toks : list jsstring) (i : nat) (t : jsstring) : Prop :=
  toks !! i = Some t ∧ is_binop t ∧ net (drop (S i) toks) = 0.

(** The rank of the precedence table: NOT 5, AND 4, OR 3, IMPLIES 2, IFF 1. *)
Definition rank (t : jsstring) : Z := default 100 (PRECEDENCE t).

(** The split point in the words of the specification: a candidate of the
    lowest rank, the rightmost one among those of that rank. *)
Definition split_point (toks : list jsstring) (k : nat) : Prop :=
  ∃ t, candidate toks k t ∧
    ∀ j u, candidate toks j u → j ≠ k →
      rank t < rank u ∨ (rank u = rank t ∧ (j < k)%nat).

Definition no_candidate_from (toks : list jsstring) (n : nat) : Prop :=
  ∀ j u, (n ≤ j)%nat → ¬ candidate toks j u.

(** The invariant of the loop of [findSplit] before the iteration at index
    [n - 1], indices [n] and above having been scanned. *)
Definition split_inv (toks : list jsstring) (n : nat) (st : split_state) : Prop :=
  balance st = net (drop n toks) ∧
  ((splitIdx st = -1 ∧ minPrec st = 100 ∧ no_candidate_from toks n) ∨
   (∃ k t, splitIdx st = Z.of_nat k ∧ (n ≤ k)%nat ∧ candidate toks k t ∧
      rank t = minPrec st ∧
      ∀ j u, (n ≤ j)%nat → candidate toks j u → j ≠ k →
        minPrec st < rank u ∨ (rank u = minPrec st ∧ (j < k)%nat))).

(** A list is balanced when its parentheses cancel and no suffix closes more
    than it opens, which is what [isBalanced] checks from the left. *)
Definition balanced (toks : list jsstring) : Prop :=
  net toks = 0 ∧ ∀ n, 0 ≤ net (drop n toks).

(** ** Tokenizer *)

(** The class [\s] of regular expressions: the white space and line
    terminators of ECMAScript. *)
Definition is_ws (c : N) : bool :=
  bool_decide (c ∈ [9; 10; 11; 12; 13; 32; 160; 5760; 8232; 8233; 8239;
                    8287; 12288; 65279]%N)
  || ((8192 <=? c)%N && (c <=? 8202)%N).

(** The class [[¬∧∨⇒⇔()]] on which the formula is split. *)
Definition is_sep (c : N) : bool :=
  bool_decide ([c] ∈ [SYMBOLS.NOT; SYMBOLS.AND; SYMBOLS.OR; SYMBOLS.IMP;
                      SYMBOLS.IFF; LPAREN; RPAREN]).

(** [s.replace(/\s/g, '')]. *)
Definition remove_ws (s : jsstring) : jsstring :=
  List.filter (λ c, negb (is_ws c)) s.

(** [s.split(/([¬∧∨⇒⇔()])/)]: the pieces between the matches, empty ones
    included, with every matched character kept as a piece of its own;
    [cur] is the piece being read. *)
Fixpoint split_keep (cur : jsstring) (s : jsstring) : list jsstring :=
  match s with
  | [] => [cur]
  | c :: rest =>
      if is_sep c then cur :: [c] :: split_keep [] rest
      else split_keep (cur ++ [c]) rest
  end.

(** [pieces.filter(t => t)]: an empty string is falsy. *)
Definition nonempty_pieces (pieces : list jsstring) : list jsstring :=
  List.filter (λ t, negb (bool_decide (t = []))) pieces.

(** [formula.replace(/\s/g, '').split(/([¬∧∨⇒⇔()])/).filter(t => t)]. *)
Definition tokenize (formula : jsstring) : list jsstring :=
  nonempty_pieces (split_keep [] (remove_ws formula)).

(** ** Well-formed token sequences and trees *)

(** A token the tokenizer produces for an operand: a non-empty run of
    characters that are neither white space nor in the splitting class
    (variable names and the literals 0, 1, T, F among them). *)
Definition atom_token (a : jsstring) : Prop :=
  a ≠ [] ∧ Forall (λ c, is_sep c = false ∧ is_ws c = false) a.

(** The grammar of formulas over tokens: an operand, a negation, a binary
    connective between two formulas, a formula in parentheses. *)
Inductive wf_tokens : list jsstring → Prop :=
| wf_atom a : atom_token a → wf_tokens [a]
| wf_not ts : wf_tokens ts → wf_tokens (SYMBOLS.NOT :: ts)
| wf_bin l op r :
    is_binop op → wf_tokens l → wf_tokens r → wf_tokens (l ++ op :: r)
| wf_paren ts : wf_tokens ts → wf_tokens (LPAREN :: ts ++ [RPAREN]).

(** A tree whose leaves are operands and whose binary nodes carry a binary
    connective. *)
Fixpoint clean (n : ASTNode) : Prop :=
  match n with
  | ATOM value => atom_token value
  | NOT child => clean child
  | BIN value lhs rhs => is_binop value ∧ clean lhs ∧ clean rhs
  end.

(** The tokens of the canonical string of a tree. *)
Fixpoint canonical_tokens (n : ASTNode) : list jsstring :=
  match n with
  | ATOM value => [value]
  | NOT child => LPAREN :: SYMBOLS.NOT :: canonical_tokens child ++ [RPAREN]
  | BIN value lhs rhs =>
      LPAREN :: (canonical_tokens lhs ++ value :: canonical_tokens rhs)
        ++ [RPAREN]
  end.

(** The token list of an operand of a canonical string: one token, or a
    balanced list between parentheses. *)
Definition group (g : list jsstring) : Prop :=
  (∃ a, g = [a] ∧ atom_token a) ∨
  (∃ m, g = LPAREN :: m ++ [RPAREN] ∧ balanced m).

(** ** Evaluator *)

(** [String.prototype.toUpperCase] on a string of ASCII characters: the
    small letters are mapped to capitals and the other characters are kept.
    This is the conversion where the program applies it to a run of the
    letters [a-z] and [A-Z] ([parseVars]) and to ASCII operands; for
    operands of any characters see [upper_case] and [evalAST_upper]. *)
Definition toUpperCase (s : jsstring) : jsstring :=
  List.map (λ c, if (97 <=? c)%N && (c <=? 122)%N then (c - 32)%N else c) s.

(** [evalAST] inside [solveProposition] for operands of ASCII characters
    (it is [evalAST_upper toUpperCase]); [values] is the assignment object
    and [!!values[key]] is false for a key it does not have (a key in
    capitals is never a name inherited from [Object.prototype]). *)
Fixpoint evalAST (values : gmap jsstring bool) (node : ASTNode) : bool :=
  match node with
  | ATOM value =>
      if decide (value = js "1" ∨ value = js "T") then true
      else if decide (value = js "0" ∨ value = js "F") then false
      else
        let key := toUpperCase value in
        default false (values !! key)
  | NOT child => negb (evalAST values child)
  | BIN value lhs rhs =>
      let l := evalAST values lhs in
      let r := evalAST values rhs in
      if decide (value = SYMBOLS.AND) then l && r
      else if decide (value = SYMBOLS.OR) then l || r
      else if decide (value = SYMBOLS.IMP) then negb l || r
      else if decide (value = SYMBOLS.IFF) then bool_decide (l = r)
      else false
  end.

(** [solveProposition]: the [catch] branch answers [false]; the parser gives
    no tree only if its bound is reached, which does not happen. *)
Definition solveProposition (formula : jsstring) (values : gmap jsstring bool)
  : bool :=
  let tokens := tokenize formula in
  match parseToAST tokens with
  | Some ast => evalAST values ast
  | None => false
  end.

(** A string of ASCII characters. *)
Definition ascii_string (s : jsstring) : Prop := Forall (λ c, (c < 128)%N) s.

(** On any string [String.prototype.toUpperCase] is the conversion to
    capitals of the Unicode standard (é gives É, ß gives SS, ı gives I),
    which depends on the version of the standard that the engine has.  The
    evaluator for operands of any characters takes this function as the
    parameter [upper]; [upper_case] is what is known of it here: on a string
    of ASCII characters it is [toUpperCase], and its result has no small
    ASCII letter (every name inherited from [Object.prototype] has one, so
    that [values[key]] reads an own property of [values] or nothing). *)
Definition upper_case (upper : jsstring → jsstring) : Prop :=
  (∀ s, ascii_string s → upper s = toUpperCase s)
  ∧ ∀ s, Forall (λ c, ¬ (97 ≤ c ≤ 122)%N) (upper s).

(** [evalAST] inside [solveProposition], with [node.value.toUpperCase()]
    the string [upper value]. *)
Fixpoint evalAST_upper (upper : jsstring → jsstring)
    (values : gmap jsstring bool) (node : ASTNode) : bool :=
  match node with
  | ATOM value =>
      if decide (value = js "1" ∨ value = js "T") then true
      else if decide (value = js "0" ∨ value = js "F") then false
      else
        let key := upper value in
        default false (values !! key)
  | NOT child => negb (evalAST_upper upper values child)
  | BIN value lhs rhs =>
      let l := evalAST_upper upper values lhs in
      let r := evalAST_upper upper values rhs in
      if decide (value = SYMBOLS.AND) then l && r
      else if decide (value = SYMBOLS.OR) then l || r
      else if decide (value = SYMBOLS.IMP) then negb l || r
      else if decide (value = SYMBOLS.IFF) then bool_decide (l = r)
      else false
  end.

(** [solveProposition] for formulas of any characters. *)
Definition solveProposition_upper (upper : jsstring → jsstring)
    (formula : jsstring) (values : gmap jsstring bool) : bool :=
  let tokens := tokenize formula in
  match parseToAST tokens with
  | Some ast => evalAST_upper upper values ast
  | None => false
  end.

(** ** Sub-expressions *)

(** [Set.prototype.add] on a set kept in insertion order. *)
Definition set_add (x : jsstring) (s : list jsstring) : list jsstring :=
  if decide (x ∈ s) then s else s ++ [x].

(** [getSubExpressions(ast, list)]: the set [list] ([lst] here) is shared by
    all the calls and returned.  The parser never leaves a child empty, so
    the test [!ast] is never true. *)
Fixpoint getSubExpressions (ast : ASTNode) (lst : list jsstring)
  : list jsstring :=
  match ast with
  | BIN _ lhs rhs =>
      let lst := set_add (toFullString ast) lst in
      let lst := getSubExpressions lhs lst in
      getSubExpressions rhs lst
  | NOT child =>
      let lst := set_add (toFullString ast) lst in
      getSubExpressions child lst
  | ATOM _ => lst
  end.

(** The sub-expressions in the words of the specification: the canonical
    string of every Negation and Binary node, nothing for an Atom. *)
Fixpoint compound_renderings (n : ASTNode) : gset jsstring :=
  match n with
  | ATOM _ => ∅
  | NOT child => {[ toFullString n ]} ∪ compound_renderings child
  | BIN _ lhs rhs =>
      {[ toFullString n ]} ∪ compound_renderings lhs ∪ compound_renderings rhs
  end.

(** ** Truth table *)

(** 32-bit integers of the bitwise operators. *)
Definition to_int32 (z : Z) : Z :=
  let m := z mod 2 ^ 32 in if m <? 2 ^ 31 then m else m - 2 ^ 32.

(** [a << n], [a >> n] and [a & b]; the shift count is taken modulo 32. *)
Definition shl32 (a n : Z) : Z := to_int32 (Z.shiftl (to_int32 a) (n mod 32)).
Definition sar32 (a n : Z) : Z := Z.shiftr (to_int32 a) (n mod 32).
Definition and32 (a b : Z) : Z := to_int32 (Z.land (to_int32 a) (to_int32 b)).

(** The class [[a-z]] under the flag [i]: the ASCII letters. *)
Definition is_letter (c : N) : bool :=
  ((65 <=? c)%N && (c <=? 90)%N) || ((97 <=? c)%N && (c <=? 122)%N).

Definition flush (cur : jsstring) : list jsstring :=
  if decide (cur = []) then [] else [cur].

(** [str.match(/[a-z]+/gi)]: the maximal runs of letters from left to right
    ([null] when there is none is the empty list here). *)
Fixpoint letter_runs (cur : jsstring) (s : jsstring) : list jsstring :=
  match s with
  | [] => flush cur
  | c :: rest =>
      if is_letter c then letter_runs (cur ++ [c]) rest
      else flush cur ++ letter_runs [] rest
  end.

(** Comparison of strings by code units, the default order of [sort]. *)
Fixpoint string_ltb (a b : jsstring) : bool :=
  match a, b with
  | _, [] => false
  | [], _ :: _ => true
  | x :: a', y :: b' =>
      if (x <? y)%N then true
      else if (y <? x)%N then false
      else string_ltb a' b'
  end.

(** A stable sort by insertion for the order [lt]. *)
Fixpoint insert_sorted {A} (lt : A → A → bool) (x : A) (l : list A) : list A :=
  match l with
  | [] => [x]
  | y :: l' => if lt y x then y :: insert_sorted lt x l' else x :: l
  end.

Definition sort_by {A} (lt : A → A → bool) (l : list A) : list A :=
  foldr (insert_sorted lt) [] l.

Definition parseVars (str : jsstring) : list jsstring :=
  let found :=
    foldl (λ found v,
             let upper := toUpperCase v in
             if bool_decide (upper ≠ js "T") && bool_decide (upper ≠ js "F")
             then set_add upper found else found)
          [] (letter_runs [] str) in
  sort_by string_ltb found.

(** A row of the table; [inputs] and [subVals] are objects, kept as the
    lists of their keys and values in insertion order. *)
Record table_row : Type := TableRow {
  inputs : list (jsstring * Z);
  subVals : list (jsstring * jsstring);
  finalVal : jsstring;
  statusSub : list (jsstring * jsstring);
  statusFinal : jsstring
}.

(** What [generateTable] stores with [setVariables], [setSubExprs] and
    [setRows]. *)
Record table_state : Type := TableState {
  variables : list jsstring;
  subExprs : list jsstring;
  rows : list table_row
}.

(** [/^[a-z]+$/i.test(s) || s === '1' || s === '0']. *)
Definition isAtom (s : jsstring) : bool :=
  (negb (bool_decide (s = [])) && forallb is_letter s)
  || bool_decide (s = js "1") || bool_decide (s = js "0").

(** The body of the loop over [i] in [generateTable]. *)
Definition table_row_of (vars subs : list jsstring) (i : Z) : table_row :=
  let inputs :=
    imap (λ idx v,
            let shift := Z.of_nat (length vars) - 1 - Z.of_nat idx in
            (v, if decide (and32 (sar32 i shift) 1 ≠ 0) then 1 else 0))
         vars in
  let subVals := List.map (λ s, (s, js "")) subs in
  TableRow inputs subVals (js "") [] (js "idle").

Definition generateTable (expr : jsstring) : table_state :=
  let vars := parseVars expr in
  if decide (length vars = 0%nat) then TableState [] [] []
  else
    let tokens := tokenize expr in
    let subs :=
      match parseToAST tokens with
      | Some ast =>
          let allSubs := getSubExpressions ast [] in
          let fullStr := toFullString ast in
          sort_by (λ a b, (length a <? length b)%nat)
            (List.filter (λ s, negb (isAtom s) && negb (bool_decide (s = fullStr)))
                         allSubs)
      | None => []
      end in
    let count := shl32 1 (Z.of_nat (length vars)) in
    (* for (let i = count - 1; i >= 0; i--) *)
    let newRows := List.map (table_row_of vars subs) (reverse (seqZ 0 count)) in
    TableState vars subs newRows.

(** The bit of [i] at position [k], as the number 1 or 0. *)
Definition bit_of (i k : Z) : Z := if Z.testbit i k then 1 else 0.

(** The inputs of a row in the words of the specification: the variable of
    index [idx] among [n] gets the bit of position [n - 1 - idx] of the
    assignment integer [i]. *)
Definition assignment_of (vars : list jsstring) (i : Z) : list (jsstring * Z) :=
  imap (λ idx v, (v, bit_of i (Z.of_nat (length vars) - 1 - Z.of_nat idx))) vars.

(** A formula with 31 distinct variable names. *)
Definition formula_31 : jsstring :=
  js "A∧B∧C∧D∧E∧G∧H∧I∧J∧K∧L∧M∧N∧O∧P∧Q∧R∧S∧U∧V∧W∧X∧Y∧Z∧AA∧AB∧AC∧AD∧AE∧AG∧AH".

(** ** Strict reduction engine *)

Definition evaluateOp (left_ op right_ : option jsstring) : jsstring :=
  let l := bool_decide (left_ = Some (js "1")) in
  let r := bool_decide (right_ = Some (js "1")) in
  if decide (op = Some SYMBOLS.AND) then if l && r then js "1" else js "0"
  else if decide (op = Some SYMBOLS.OR) then if l || r then js "1" else js "0"
  else if decide (op = Some SYMBOLS.IMP) then
    if negb l || r then js "1" else js "0"
  else if decide (op = Some SYMBOLS.IFF) then
    if bool_decide (l = r) then js "1" else js "0"
  else js "0".

Definition evaluateNot (val : option jsstring) : jsstring :=
  if decide (val = Some (js "1")) then js "0" else js "1".

(** [s.replace(/c/g, by)] for a single character [c]. *)
Definition replace_char (c : N) (by_ : jsstring) (s : jsstring) : jsstring :=
  flat_map (λ d, if decide (d = c) then by_ else [d]) s.

(** [s.trim()], from the left and from the right. *)
Fixpoint trim_start (s : jsstring) : jsstring :=
  match s with
  | [] => []
  | c :: rest => if is_ws c then trim_start rest else s
  end.

Fixpoint trim_end (s : jsstring) : jsstring :=
  match s with
  | [] => []
  | c :: rest =>
      match trim_end rest with
      | [] => if is_ws c then [] else [c]
      | rest' => c :: rest'
      end
  end.

Definition trim (s : jsstring) : jsstring := trim_end (trim_start s).

(** [s.split(/\s+/)]: the pieces between the maximal runs of white space,
    empty ones at both ends included; [gap] tells that the scan is inside
    such a run and [cur] is the piece being read. *)
Fixpoint split_ws (gap : bool) (cur : jsstring) (s : jsstring) : list jsstring :=
  match s with
  | [] => [cur]
  | c :: rest =>
      if is_ws c then
        if gap then split_ws true [] rest else cur :: split_ws true [] rest
      else split_ws false (cur ++ [c]) rest
  end.

Definition getTokens (str : jsstring) : list jsstring :=
  if decide (str = []) then []
  else
    split_ws false []
      (trim (replace_char 41 (js " ) ") (replace_char 40 (js " ( ") str))).

(** [tokens.join(' ')]. *)
Fixpoint join_space (tokens : list jsstring) : jsstring :=
  match tokens with
  | [] => []
  | [t] => t
  | t :: rest => t ++ js " " ++ join_space rest
  end.

Fixpoint skip_ws (s : jsstring) : jsstring :=
  match s with
  | [] => []
  | c :: rest => if is_ws c then skip_ws rest else s
  end.

(** A match of [/\(\s*([01])\s*\)/] at the start of [s]: the digit of the
    group and what follows the match. *)
Definition match_paren_literal (s : jsstring) : option (N * jsstring) :=
  match s with
  | c :: rest =>
      if decide (c = 40%N) then
        match skip_ws rest with
        | d :: rest' =>
            if decide (d = 48%N ∨ d = 49%N) then
              match skip_ws rest' with
              | e :: rest'' => if decide (e = 41%N) then Some (d, rest'') else None
              | [] => None
              end
            else None
        | [] => None
        end
      else None
  | [] => None
  end.

(** [s.replace(/\(\s*([01])\s*\)/g, '$1')]: the matches are taken from left
    to right and do not overlap.  Each step consumes a character, so the
    bound [length s] is never reached ([strip_literals_unfold]). *)
Fixpoint strip_literals_fuel (fuel : nat) (s : jsstring) : jsstring :=
  match fuel with
  | O => s
  | S fuel' =>
      match s with
      | [] => []
      | c :: rest =>
          match match_paren_literal s with
          | Some (d, after) => d :: strip_literals_fuel fuel' after
          | None => c :: strip_literals_fuel fuel' rest
          end
      end
  end.

Definition strip_literals (s : jsstring) : jsstring :=
  strip_literals_fuel (length s) s.

(** An entry of the history and the state of the section: the history and
    the message. *)
Record history_entry : Type := HistoryEntry {
  step : nat;
  content : jsstring;
  type_ : jsstring
}.

Record eval_state : Type := EvalState {
  history : list history_entry;
  msg : jsstring
}.

(** The loop of [addToHistory]; a round that changes the string shortens
    it, so the bound is never reached ([normalize_fixed]). *)
Fixpoint normalize_loop (fuel : nat) (clean_ : jsstring) : jsstring :=
  match fuel with
  | O => clean_
  | S fuel' =>
      let temp := strip_literals clean_ in
      if decide (temp = clean_) then clean_ else normalize_loop fuel' temp
  end.

Definition normalize (newStr : jsstring) : jsstring :=
  normalize_loop (S (length newStr)) newStr.

Definition addToHistory (newStr : jsstring) (st : eval_state) : eval_state :=
  let clean_ := normalize newStr in
  EvalState
    (history st ++ [HistoryEntry (length (history st)) clean_ (js "reduction")])
    (msg st).

Definition isVal (v : option jsstring) : bool :=
  bool_decide (v = Some (js "1")) || bool_decide (v = Some (js "0")).

Definition is_binary_symbol (t : jsstring) : bool :=
  bool_decide (t ∈ [SYMBOLS.AND; SYMBOLS.OR; SYMBOLS.IMP; SYMBOLS.IFF]).

(** A candidate of [handleInteraction]: [{ idx, op, prec }]. *)
Record reducible : Type := Reducible {
  red_idx : nat;
  red_op : jsstring;
  red_prec : option Z
}.

(** The list [candidates] built by [tokens.forEach]. *)
Definition candidates (tokens : list jsstring) : list reducible :=
  concat
    (imap (λ i t,
       (if bool_decide (t = SYMBOLS.NOT) && isVal (tokens !! (i + 1)%nat)
        then [Reducible i t (PRECEDENCE t)] else [])
       ++
       (if is_binary_symbol t
           && isVal (at_index tokens (Z.of_nat i - 1))
           && isVal (tokens !! (i + 1)%nat)
        then [Reducible i t (PRECEDENCE t)] else []))
     tokens).

(** [Math.max(...precs)]; [None] stands for a result that is not a finite
    number ([-Infinity] for no argument, [NaN] when one is [undefined]), with
    which every comparison [p < max] is false. *)
Definition math_max (precs : list (option Z)) : option Z :=
  match precs with
  | [] => None
  | p :: rest => foldl (λ a b, a' ← a; b' ← b; Some (Z.max a' b')) p rest
  end.

Definition ORDER_MSG : jsstring :=
  js "⚠️ ¡Orden incorrecto! Resuelve primero los operadores de mayor jerarquía.".

(** [handleInteraction(idx, tokens)].  A comparison with [undefined] is
    false. *)
Definition handleInteraction (idx : nat) (tokens : list jsstring)
    (st : eval_state) : eval_state :=
  let st := EvalState (history st) (js "") in
  let token := tokens !! idx in
  let prev := at_index tokens (Z.of_nat idx - 1) in
  let next := tokens !! (idx + 1)%nat in
  let cands := candidates tokens in
  if decide (length cands = 0%nat) then st
  else
    let maxPrec := math_max (List.map red_prec cands) in
    let clickedPrec := token ≫= PRECEDENCE in
    if match clickedPrec, maxPrec with
       | Some p, Some m => p <? m
       | _, _ => false
       end
    then EvalState (history st) ORDER_MSG
    else if decide (token = Some SYMBOLS.NOT) then
      let res := evaluateNot next in
      let prePart := join_space (slice tokens 0 (Some (Z.of_nat idx))) in
      let postPart := join_space (slice tokens (Z.of_nat idx + 2) None) in
      addToHistory (trim (prePart ++ js " " ++ res ++ js " " ++ postPart)) st
    else
      let res := evaluateOp prev token next in
      let prePart := join_space (slice tokens 0 (Some (Z.of_nat idx - 1))) in
      let postPart := join_space (slice tokens (Z.of_nat idx + 2) None) in
      addToHistory (trim (prePart ++ js " " ++ res ++ js " " ++ postPart)) st.

(** The tokens shown are those of the last entry of the history, and a token
    reacts to a click only when it is [interactable]. *)
Definition interactable (tokens : list jsstring) (idx : nat) : bool :=
  match tokens !! idx with
  | Some token =>
      let isUnary :=
        bool_decide (token = SYMBOLS.NOT) && isVal (tokens !! (idx + 1)%nat) in
      let isBinary :=
        is_binary_symbol token
        && isVal (at_index tokens (Z.of_nat idx - 1))
        && isVal (tokens !! (idx + 1)%nat) in
      isUnary || isBinary
  | None => false
  end.

Definition current_tokens (st : eval_state) : list jsstring :=
  match last (history st) with
  | Some currentStep => getTokens (content currentStep)
  | None => []
  end.

(** [tokens.length === 1 && (tokens[0] === '1' || tokens[0] === '0')]. *)
Definition isSolved (tokens : list jsstring) : bool :=
  bool_decide (length tokens = 1%nat)
  && (bool_decide (tokens !! 0%nat = Some (js "1"))
      || bool_decide (tokens !! 0%nat = Some (js "0"))).

(** A click on the token of index [idx]: the tokens are shown when
    [!isSolved && history.length > 1], and the handler of a token is
    [onClick={() => interactable && handleInteraction(idx, tokens)}]. *)
Definition click (idx : nat) (st : eval_state) : eval_state :=
  let tokens := current_tokens st in
  if negb (isSolved tokens) && (1 <? length (history st))%nat
     && interactable tokens idx
  then handleInteraction idx tokens st else st.

(** A parenthesized single literal somewhere in a string, in the words of
    the specification: an opening parenthesis, white space, 0 or 1, white
    space, a closing parenthesis. *)
Definition has_paren_literal (s : jsstring) : Prop :=
  ∃ before ws1 d ws2 after,
    s = before ++ [40%N] ++ ws1 ++ [d] ++ ws2 ++ [41%N] ++ after
    ∧ Forall (λ c, is_ws c = true) ws1
    ∧ Forall (λ c, is_ws c = true) ws2
    ∧ (d = 48%N ∨ d = 49%N).

(** One parenthesized single literal of a string rewritten to its literal,
    in the words of the specification: [( v )] collapses to [v], and the
    rest of the string is kept. *)
Definition collapse (s s' : jsstring) : Prop :=
  ∃ before ws1 d ws2 after,
    s = before ++ [40%N] ++ ws1 ++ [d] ++ ws2 ++ [41%N] ++ after
    ∧ Forall (λ c, is_ws c = true) ws1
    ∧ Forall (λ c, is_ws c = true) ws2
    ∧ (d = 48%N ∨ d = 49%N)
    ∧ s' = before ++ [d] ++ after.

(** Any number of such rewritings, one after the other. *)
Inductive collapses : jsstring → jsstring → Prop :=
| collapses_refl s : collapses s s
| collapses_step s s' s'' :
    collapse s s' → collapses s' s'' → collapses s s''.

(** The rank of the token at an index. *)
Definition rank_at (tokens : list jsstring) (i : nat) : Z :=
  default 0 (tokens !! i ≫= PRECEDENCE).

(** The maximum rank among the reducible tokens, in the words of the
    specification. *)
Definition is_max_rank (tokens : list jsstring) (m : Z) : Prop :=
  (∃ j, interactable tokens j = true ∧ rank_at tokens j = m)
  ∧ ∀ j, interactable tokens j = true → rank_at tokens j ≤ m.

(** The string built by an accepted reduction at [idx], before it is
    normalized: [`${prePart} ${res} ${postPart}`.trim()]. *)
Definition reduced_string (idx : nat) (tokens : list jsstring) : jsstring :=
  if decide (tokens !! idx = Some SYMBOLS.NOT) then
    trim (join_space (slice tokens 0 (Some (Z.of_nat idx))) ++ js " "
          ++ evaluateNot (tokens !! (idx + 1)%nat) ++ js " "
          ++ join_space (slice tokens (Z.of_nat idx + 2) None))
  else
    trim (join_space (slice tokens 0 (Some (Z.of_nat idx - 1))) ++ js " "
          ++ evaluateOp (at_index tokens (Z.of_nat idx - 1)) (tokens !! idx)
               (tokens !! (idx + 1)%nat) ++ js " "
          ++ join_space (slice tokens (Z.of_nat idx + 2) None)).

(** A session after the substitution of the values: the formula, then the
    formula with its values. *)
Definition session (formula substituted : jsstring) : eval_state :=
  EvalState [HistoryEntry 0 formula (js "formula");
             HistoryEntry 1 substituted (js "substituted")] (js "").

(** ** Token view of the reduction engine *)

(** A token as [getTokens] produces it: a parenthesis alone, or a non-empty
    run of characters without white space or parenthesis. *)
Definition plain_char (c : N) : Prop := is_ws c = false ∧ c ≠ 40%N ∧ c ≠ 41%N.

Definition word (t : jsstring) : Prop :=
  t = LPAREN ∨ t = RPAREN ∨ (t ≠ [] ∧ Forall plain_char t).

(** The words of a string: its pieces between white space, the empty ones
    left out. *)
Definition words_of (gap : bool) (cur : jsstring) (s : jsstring) : list jsstring :=
  nonempty_pieces (split_ws gap cur s).

(** One pass of the normalization seen on tokens: from left to right, every
    literal between two parentheses loses them. *)
Fixpoint tok_strip (tokens : list jsstring) : list jsstring :=
  match tokens with
  | [] => []
  | t :: rest =>
      match rest with
      | v :: c :: rest' =>
          if bool_decide (t = LPAREN)
             && (bool_decide (v = js "0") || bool_decide (v = js "1"))
             && bool_decide (c = RPAREN)
          then v :: tok_strip rest'
          else t :: tok_strip rest
      | _ => t :: tok_strip rest
      end
  end.

(** The tokens left by a reduction at [idx] before the normalization: the
    operator and its operands make place for the result. *)
Definition reduced_tokens (idx : nat) (tokens : list jsstring) : list jsstring :=
  if decide (tokens !! idx = Some SYMBOLS.NOT) then
    take idx tokens ++ [evaluateNot (tokens !! (idx + 1)%nat)]
      ++ drop (idx + 2) tokens
  else
    take (idx - 1) tokens
      ++ [evaluateOp (tokens !! (idx - 1)%nat) (tokens !! idx)
            (tokens !! (idx + 1)%nat)]
      ++ drop (idx + 2) tokens.

(** [n] accepted reductions in a row, each a click that adds to the
    history. *)
Inductive reductions : nat → eval_state → eval_state → Prop :=
| reductions_O st : reductions 0 st st
| reductions_S n idx st st' :
    history (click idx st) ≠ history st →
    reductions n (click idx st) st' →
    reductions (S n) st st'.

(** The two replacements of [getTokens] that set the parentheses apart. *)
Definition pad_parens (str : jsstring) : jsstring :=
  replace_char 41 (js " ) ") (replace_char 40 (js " ( ") str).

(** What follows a token in a joined string: nothing, or a space and the
    tokens left. *)
Definition tail_join (tokens : list jsstring) : jsstring :=
  match tokens with
  | [] => []
  | _ => js " " ++ join_space tokens
  end.

(** The condition under which [tok_strip] removes the parentheses around the
    second token. *)
Definition literal_in_parens (t : jsstring) (rest : list jsstring) : Prop :=
  ∃ v rest', t = LPAREN ∧ rest = v :: RPAREN :: rest'
             ∧ (v = js "0" ∨ v = js "1").

(** A token that is not a parenthesis. *)
Definition non_paren (t : jsstring) : Prop := t ≠ LPAREN ∧ t ≠ RPAREN.

#[global] Instance non_paren_dec t : Decision (non_paren t).
Proof. unfold non_paren. apply _. Defined.

(** ** Notions used to state further properties *)

(** The number of occurrences of a token in a list. *)
Definition count_token (x : jsstring) (toks : list jsstring) : nat :=
  length (filter (λ t, t = x) toks).

(** A list in which every element is related to all the elements after
    it. *)
Fixpoint strongly_sorted {A} (R : A → A → Prop) (l : list A) : Prop :=
  match l with
  | [] => True
  | x :: l' => Forall (R x) l' ∧ strongly_sorted R l'
  end.

(** The assignment integer whose bits, read from the first of [n] variables
    (the highest bit) to the last (the lowest), are the truth values
    [f 0], ..., [f (n - 1)]. *)
Fixpoint assignment_index (f : nat → bool) (n : nat) : Z :=
  match n with
  | O => 0
  | S m => 2 * assignment_index f m + Z.b2z (f m)
  end.

(** [b ? '1' : '0']. *)
Definition digit (b : bool) : jsstring := if b then js "1" else js "0".

(** ** Syntax section *)

(** The field [type] of a node. *)
Definition node_type (n : ASTNode) : jsstring :=
  match n with
  | ATOM _ => js "ATOM"
  | NOT _ => js "NOT"
  | BIN _ _ _ => js "BIN"
  end.

(** What [check] and [handleCustomCheck] set: [status] and [errorMsg]. *)
Record syntax_result : Type := SyntaxResult {
  status : jsstring;
  errorMsg : jsstring
}.

(** [handleCustomCheck], for the text [input] of the field.  The [catch]
    branch is that of [throw new Error()]; the parser itself does not
    throw. *)
Definition handleCustomCheck (input : jsstring) : syntax_result :=
  let tokens := tokenize input in
  let failed :=
    SyntaxResult (js "error") (js "Error de sintaxis: Estructura inválida.") in
  match parseToAST tokens with
  | Some ast =>
      if decide (node_type ast = js "ERR") then failed
      else
        let ideal := remove_ws (toFullString ast) in
        let current := remove_ws input in
        if decide (current = ideal) then SyntaxResult (js "correct") (js "")
        else
          SyntaxResult (js "custom_valid_but_loose")
            (js "Sintaxis válida, pero no cumple con la agrupación estricta.")
  | None => failed
  end.

(** [s.split('')]: the code units of [s], each a string. *)
Definition split_chars (s : jsstring) : list jsstring := List.map (λ c, [c]) s.

(** [s.replace(/[()]/g, '')]. *)
Definition remove_parens (s : jsstring) : jsstring :=
  List.filter (λ c, negb (bool_decide (c = 40%N) || bool_decide (c = 41%N))) s.

(** [check], for the states [mode], [input], [expected] and [problemRaw]. *)
Definition check (mode input expected problemRaw : jsstring) : syntax_result :=
  if decide (mode = js "custom") then handleCustomCheck input
  else
    let cleanInput := remove_ws input in
    let cleanExp := remove_ws expected in
    let rawContent := remove_ws problemRaw in
    let inputContent := remove_parens cleanInput in
    if decide (cleanInput = cleanExp) then SyntaxResult (js "correct") (js "")
    else if negb (isBalanced (split_chars cleanInput)) then
      SyntaxResult (js "error") (js "Paréntesis desbalanceados.")
    else if decide (inputContent ≠ rawContent) then
      SyntaxResult (js "error") (js "Has modificado las variables o conectores.")
    else
      SyntaxResult (js "error") (js "Agrupación incorrecta. Revisa la jerarquía.").

(** ** Filling and checking the truth table *)

(** [obj[key]] for an object kept as the list of its keys and values. *)
Fixpoint obj_get {V} (key : jsstring) (obj : list (jsstring * V)) : option V :=
  match obj with
  | [] => None
  | (k, v) :: rest => if decide (k = key) then Some v else obj_get key rest
  end.

(** [{ ...obj, [key]: val }] and [obj[key] = val]: the value of a key of the
    object is replaced where it stands, a new key comes last.  (The keys
    are variables and sub-expressions, never the decimal form of an
    integer, for which the order would differ.) *)
Fixpoint obj_set {V} (key : jsstring) (val : V) (obj : list (jsstring * V))
  : list (jsstring * V) :=
  match obj with
  | [] => [(key, val)]
  | (k, v) :: rest =>
      if decide (k = key) then (k, val) :: rest
      else (k, v) :: obj_set key val rest
  end.

(** [updateRow(rowIdx, type, key, val)] on the rows; [key] is not used when
    [type] is not ['sub'].  The handler is attached to the cells of the rows
    shown, so that [rowIdx] is the index of a row: outside of the table
    JavaScript would extend the array by a partial row, which is [None]
    here. *)
Definition updateRow (rowIdx : nat) (type key val : jsstring)
    (prevRows : list table_row) : option (list table_row) :=
  if bool_decide (val ≠ js "0") && bool_decide (val ≠ js "1")
     && bool_decide (val ≠ js "")
  then Some prevRows
  else
    match prevRows !! rowIdx with
    | Some r =>
        let rowToUpdate :=
          if decide (type = js "sub") then
            TableRow (inputs r) (obj_set key val (subVals r)) (finalVal r)
              (obj_set key (js "idle") (statusSub r)) (statusFinal r)
          else
            TableRow (inputs r) (subVals r) val (statusSub r) (js "idle") in
        Some (<[rowIdx := rowToUpdate]> prevRows)
    | None => None
    end.

(** The object [boolInputs] that [checkTable] builds for a row, with
    [k.toUpperCase()] the string [upper k]. *)
Definition boolInputs (upper : jsstring → jsstring)
    (inputs : list (jsstring * Z)) : gmap jsstring bool :=
  foldl (λ m k, <[upper k := bool_decide (obj_get k inputs = Some 1)]> m)
        ∅ (inputs.*1).

(** [checkTable] on the states [formula], [subExprs] and [rows]; [upper] is
    [String.prototype.toUpperCase]. *)
Definition checkTable (upper : jsstring → jsstring) (formula : jsstring)
    (subExprs : list jsstring) (rows : list table_row) : list table_row :=
  List.map
    (λ r,
       let values := boolInputs upper (inputs r) in
       let expectedFinal :=
         digit (solveProposition_upper upper formula values) in
       let statusFinal :=
         if decide (finalVal r = expectedFinal) then js "correct"
         else js "error" in
       let statusSub :=
         foldl (λ statusSub sub,
                  let expSub :=
                    digit (solveProposition_upper upper sub values) in
                  obj_set sub
                    (if decide (obj_get sub (subVals r) = Some expSub)
                     then js "correct" else js "error")
                    statusSub)
               [] subExprs in
       TableRow (inputs r) (subVals r) (finalVal r) statusSub statusFinal)
    rows.

(** The nodes of a tree, the tree itself first. *)
Fixpoint nodes (n : ASTNode) : list ASTNode :=
  n :: match n with
       | ATOM _ => []
       | NOT child => nodes child
       | BIN _ lhs rhs => nodes lhs ++ nodes rhs
       end.

(** ** Fully parenthesized formulas *)

(** The tokens of a formula in which every binary connective stands with
    its two operands between parentheses of its own, and the tree that the
    formula denotes: an operand, a formula in parentheses, a negated
    formula, two formulas around a connective in parentheses.  These are
    the formulas that [generateStructuredFormula] writes. *)
Inductive unit_tokens : list jsstring → ASTNode → Prop :=
| unit_atom a : atom_token a → unit_tokens [a] (ATOM a)
| unit_paren ts t :
    unit_tokens ts t → unit_tokens (LPAREN :: ts ++ [RPAREN]) t
| unit_not ts t : unit_tokens ts t → unit_tokens (SYMBOLS.NOT :: ts) (NOT t)
| unit_bin l op r tl tr :
    is_binop op → unit_tokens l tl → unit_tokens r tr →
    unit_tokens (LPAREN :: (l ++ op :: r) ++ [RPAREN]) (BIN op tl tr).

(** A tree whose operands are the literals 0 and 1. *)
Fixpoint literals (n : ASTNode) : Prop :=
  match n with
  | ATOM value => value = js "0" ∨ value = js "1"
  | NOT child => literals child
  | BIN _ lhs rhs => literals lhs ∧ literals rhs
  end.

(** A literal between two parentheses somewhere in a list of tokens. *)
Definition has_literal_in_parens (tokens : list jsstring) : Prop :=
  ∃ a v b, tokens = a ++ LPAREN :: v :: RPAREN :: b
           ∧ (v = js "0" ∨ v = js "1").

(** ** Random formulas and the start of a session *)

Definition VARS : list jsstring :=
  [js "P"; js "Q"; js "R"; js "S"; js "T"; js "U"].

(** A number [r] returned by [Math.random()], seen through what the program
    does with such a number: the test [r < c] for a constant [c], given in
    hundredths, and the index [Math.floor(r * n)]. *)
Record draw : Type := Draw {
  below : Z → bool;
  floor_times : nat → nat
}.

(** [0 <= r < 1], for the indices: [Math.floor(r * n)] is below [n]. *)
Definition draw_ok (d : draw) : Prop :=
  ∀ n, (0 < n)%nat → (floor_times d n < n)%nat.

(** [a[i]] for an index of the array (outside of it, which [draw_ok] rules
    out, the text of [undefined]). *)
Definition pick (a : list jsstring) (i : nat) : jsstring :=
  nth i a (js "undefined").

(** [getRandomVar()] for the number drawn. *)
Definition getRandomVar (d : draw) : jsstring :=
  pick VARS (floor_times d (length VARS)).

(** [generateStructuredFormula(depth, maxDepth)].  [random i] is the number
    that the call of [Math.random()] of index [i] returns, and the function
    gives the formula with the number of calls made so far.  [fuel] bounds
    the depth of the recursion; [maxDepth - depth] is enough
    ([generateStructuredFormula_total]). *)
Fixpoint generateStructuredFormula_fuel (fuel : nat) (random : nat → draw)
    (depth maxDepth : nat) (i : nat) : option (jsstring * nat) :=
  if (maxDepth <=? depth)%nat then Some (getRandomVar (random i), S i)
  else
    let '(stop, i) :=
      if (0 <? depth)%nat then (below (random i) 20, S i) else (false, i) in
    if stop then Some (getRandomVar (random i), S i)
    else
      match fuel with
      | O => None
      | S fuel' =>
          let type := random i in
          let i := S i in
          if below type 30 then
            '(sub, i) ←
              generateStructuredFormula_fuel fuel' random (depth + 1) maxDepth i;
            Some (SYMBOLS.NOT ++ js " (" ++ sub ++ js ")", i)
          else
            '(left_, i) ←
              generateStructuredFormula_fuel fuel' random (depth + 1) maxDepth i;
            '(right_, i) ←
              generateStructuredFormula_fuel fuel' random (depth + 1) maxDepth i;
            let ops := [SYMBOLS.AND; SYMBOLS.OR; SYMBOLS.IMP; SYMBOLS.IFF] in
            let op := pick ops (floor_times (random i) (length ops)) in
            Some (js "(" ++ left_ ++ js " " ++ op ++ js " " ++ right_ ++ js ")",
                  S i)
      end.

Definition generateStructuredFormula (random : nat → draw)
    (depth maxDepth : nat) (i : nat) : option (jsstring * nat) :=
  generateStructuredFormula_fuel (maxDepth - depth) random depth maxDepth i.

(** [formula.match(/[PQRSTU]/g)], no match being the empty list. *)
Definition match_PQRSTU (formula : jsstring) : list jsstring :=
  List.map (λ c, [c]) (List.filter (λ c, (80 <=? c)%N && (c <=? 85)%N) formula).

(** [[...new Set(l)]]. *)
Definition set_of_list (l : list jsstring) : list jsstring :=
  foldl (λ s x, set_add x s) [] l.

(** The loop [varsFound.forEach(v => varsObj[v] = Math.random() < 0.5 ? '1'
    : '0')]. *)
Fixpoint draw_values (random : nat → draw) (varsFound : list jsstring) (i : nat)
  : list (jsstring * jsstring) * nat :=
  match varsFound with
  | [] => ([], i)
  | v :: rest =>
      let val := if below (random i) 50 then js "1" else js "0" in
      let '(obj, i') := draw_values random rest (S i) in
      ((v, val) :: obj, i')
  end.

(** The loop [while (formula.length < 15)] of [generate]; [fuel] bounds the
    number of formulas drawn. *)
Fixpoint generate_formula (fuel : nat) (random : nat → draw) (i : nat)
  : option (jsstring * nat) :=
  match fuel with
  | O => None
  | S fuel' =>
      '(formula, i) ← generateStructuredFormula random 0 4 i;
      if (length formula <? 15)%nat then generate_formula fuel' random i
      else Some (formula, i)
  end.

(** [generate]: the state of the section (history and message), the object
    [variables] and the number of calls of [Math.random()]. *)
Definition generate (fuel : nat) (random : nat → draw) (i : nat)
  : option (eval_state * list (jsstring * jsstring) * nat) :=
  '(formula, i) ← generate_formula fuel random i;
  let varsFound := sort_by string_ltb (set_of_list (match_PQRSTU formula)) in
  let '(varsObj, i) := draw_values random varsFound i in
  Some (EvalState [HistoryEntry 0 formula (js "formula")] (js ""), varsObj, i).

(** [next.replace(new RegExp(k, 'g'), val)] for a key of [variables]: a
    single letter, which as a regular expression matches this letter. *)
Definition replace_key (k val : jsstring) (next : jsstring) : jsstring :=
  match k with
  | [c] => replace_char c val next
  | _ => next
  end.

(** [handleSubstitute], for the object [variables]. *)
Definition handleSubstitute (variables : list (jsstring * jsstring))
    (st : eval_state) : eval_state :=
  if decide (length (history st) = 0%nat ∨ (1 < length (history st))%nat)
  then st
  else
    match history st !! 0%nat with
    | Some h0 =>
        let next :=
          foldl (λ next kv, replace_key kv.1 kv.2 next) (content h0) variables in
        EvalState (history st ++ [HistoryEntry 1 next (js "substituted")])
          (msg st)
    | None => st
    end.

(** The way [generateStructuredFormula] writes a tree: a variable, [¬ (f)],
    [(f op g)]. *)
Fixpoint structured_string (t : ASTNode) : jsstring :=
  match t with
  | ATOM value => value
  | NOT child => SYMBOLS.NOT ++ js " (" ++ structured_string child ++ js ")"
  | BIN value lhs rhs =>
      js "(" ++ structured_string lhs ++ js " " ++ value ++ js " "
        ++ structured_string rhs ++ js ")"
  end.

(** The tokens of this string. *)
Fixpoint structured_tokens (t : ASTNode) : list jsstring :=
  match t with
  | ATOM value => [value]
  | NOT child => SYMBOLS.NOT :: LPAREN :: structured_tokens child ++ [RPAREN]
  | BIN value lhs rhs =>
      LPAREN :: (structured_tokens lhs ++ value :: structured_tokens rhs)
        ++ [RPAREN]
  end.

(** A tree over the operands [atoms] with binary connectives at its Binary
    nodes. *)
Fixpoint tree_over (atoms : list jsstring) (t : ASTNode) : Prop :=
  match t with
  | ATOM value => value ∈ atoms
  | NOT child => tree_over atoms child
  | BIN value lhs rhs =>
      is_binop value ∧ tree_over atoms lhs ∧ tree_over atoms rhs
  end.

(** A tree with its operands replaced. *)
Fixpoint map_atoms (f : jsstring → jsstring) (t : ASTNode) : ASTNode :=
  match t with
  | ATOM value => ATOM (f value)
  | NOT child => NOT (map_atoms f child)
  | BIN value lhs rhs => BIN value (map_atoms f lhs) (map_atoms f rhs)
  end.

(** An operand after the replacements of [handleSubstitute]. *)
Definition subst_atom (variables : list (jsstring * jsstring)) (a : jsstring)
  : jsstring :=
  foldl (λ a kv, if decide (a = kv.1) then kv.2 else a) a variables.

(** The numbers 0, 0.25, 0.5 and 0.75 as results of [Math.random()]: for
    [r = k / 4] the test [r < c / 100] is [25 * k < c], and the product
    [r * n] is exact, so that [Math.floor(r * n)] is the quotient of [k * n]
    by 4. *)
Definition quarters (k : nat) : draw :=
  Draw (λ c, 25 * Z.of_nat k <? c)%Z (λ n, (k * n / 4)%nat).

(** ** Problems of the syntax section *)

(** The term [Math.random() < 0.3 ? `${SYMBOLS.NOT} ${getRandomVar()}` :
    getRandomVar()] of [generateFlatFormula]. *)
Definition flat_term (random : nat → draw) (i : nat) : jsstring * nat :=
  let negated := below (random i) 30 in
  let i := S i in
  let v := getRandomVar (random i) in
  (if negated then SYMBOLS.NOT ++ js " " ++ v else v, S i).

(** The loop [for (let i = 0; i < length; i++)] of [generateFlatFormula],
    with [n] iterations left. *)
Fixpoint flat_loop (n : nat) (random : nat → draw) (formula : list jsstring)
    (i : nat) : list jsstring * nat :=
  match n with
  | O => (formula, i)
  | S n' =>
      let opRand := random i in
      let i := S i in
      let op :=
        if below opRand 25 then SYMBOLS.OR
        else if below opRand 50 then SYMBOLS.IMP
        else if below opRand 75 then SYMBOLS.IFF
        else SYMBOLS.AND in
      let '(nextTerm, i) := flat_term random i in
      flat_loop n' random (formula ++ [op; nextTerm]) i
  end.

(** [generateFlatFormula(length)]. *)
Definition generateFlatFormula (random : nat → draw) (length : nat) (i : nat)
  : jsstring * nat :=
  let '(first, i) := flat_term random i in
  let '(formula, i) := flat_loop length random [first] i in
  (join_space formula, i).

(** The class [[¬∧∨⇒⇔]] on which [newProblem] splits the formula. *)
Definition is_connective (c : N) : bool :=
  bool_decide ([c] ∈ [SYMBOLS.NOT; SYMBOLS.AND; SYMBOLS.OR; SYMBOLS.IMP;
                      SYMBOLS.IFF]).

(** [s.split(/([¬∧∨⇒⇔])/)], as [split_keep] for the other class. *)
Fixpoint split_connectives (cur : jsstring) (s : jsstring) : list jsstring :=
  match s with
  | [] => [cur]
  | c :: rest =>
      if is_connective c then cur :: [c] :: split_connectives [] rest
      else split_connectives (cur ++ [c]) rest
  end.

(** The states of the syntax section that [newProblem] sets; a string that
    was never assigned is [None]. *)
Record syntax_state : Type := SyntaxState {
  problemRaw : option jsstring;
  expected : option jsstring;
  input : option jsstring;
  result : syntax_result;
  showAnswer : bool
}.

(** The loop [while (!valid && attempts < 10)] of [newProblem], with [n]
    the number of attempts left.  [parseToAST] and [toFullString] throw
    nothing; [None] of the model of the parser is treated as the exception
    that the source catches. *)
Fixpoint newProblem_loop (n : nat) (random : nat → draw) (attempts : nat)
    (valid : bool) (rawStr fullStr : option jsstring) (i : nat)
  : option jsstring * option jsstring * nat * nat :=
  match n with
  | O => (rawStr, fullStr, attempts, i)
  | S n' =>
      if valid then (rawStr, fullStr, attempts, i)
      else
        let length_ := (floor_times (random i) 2 + 3)%nat in
        let '(raw, i) := generateFlatFormula random length_ (S i) in
        let tokens := nonempty_pieces (split_connectives [] (remove_ws raw)) in
        let '(fullStr, valid) :=
          match parseToAST tokens with
          | Some ast =>
              let full := toFullString ast in
              (Some full, (length raw + 2 <? length full)%nat)
          | None => (fullStr, false)
          end in
        newProblem_loop n' random (S attempts) valid (Some raw) fullStr i
  end.

(** [newProblem]: the states set, the number of attempts made and the number
    of calls of [Math.random()]. *)
Definition newProblem (random : nat → draw) (i : nat)
  : syntax_state * nat * nat :=
  let '(rawStr, fullStr, attempts, i) :=
    newProblem_loop 10 random 0 false None None i in
  (SyntaxState rawStr fullStr rawStr (SyntaxResult (js "idle") (js "")) false,
   attempts, i).

(** The terms of a flat formula as tokens, and the token lists of the flat
    formulas with [k] binary connectives. *)
Definition is_term (tt : list jsstring) : Prop :=
  ∃ v, v ∈ VARS ∧ (tt = [v] ∨ tt = [SYMBOLS.NOT; v]).

Inductive flat : nat → list jsstring → Prop :=
| flat_first tt : is_term tt → flat 0 tt
| flat_next k ts op tt :
    flat k ts → is_binop op → is_term tt → flat (S k) (ts ++ op :: tt).

(** The number of connectives written in a string. *)
Definition connectives (s : jsstring) : nat :=
  length (List.filter is_connective s).

(** ** Generated truth tables *)

Definition tableVars : list jsstring := [js "P"; js "Q"; js "R"].

(** [generateRestrictedFormula(depth, maxDepth)] of [handleGenerate], as
    [generateStructuredFormula] with the variables [tableVars]. *)
Fixpoint generateRestrictedFormula_fuel (fuel : nat) (random : nat → draw)
    (depth maxDepth : nat) (i : nat) : option (jsstring * nat) :=
  if (maxDepth <=? depth)%nat
  then Some (pick tableVars (floor_times (random i) (length tableVars)), S i)
  else
    let '(stop, i) :=
      if (0 <? depth)%nat then (below (random i) 20, S i) else (false, i) in
    if stop
    then Some (pick tableVars (floor_times (random i) (length tableVars)), S i)
    else
      match fuel with
      | O => None
      | S fuel' =>
          let type := random i in
          let i := S i in
          if below type 30 then
            '(sub, i) ←
              generateRestrictedFormula_fuel fuel' random (depth + 1) maxDepth i;
            Some (SYMBOLS.NOT ++ js " (" ++ sub ++ js ")", i)
          else
            '(left_, i) ←
              generateRestrictedFormula_fuel fuel' random (depth + 1) maxDepth i;
            '(right_, i) ←
              generateRestrictedFormula_fuel fuel' random (depth + 1) maxDepth i;
            let ops := [SYMBOLS.AND; SYMBOLS.OR; SYMBOLS.IMP; SYMBOLS.IFF] in
            let op := pick ops (floor_times (random i) (length ops)) in
            Some (js "(" ++ left_ ++ js " " ++ op ++ js " " ++ right_ ++ js ")",
                  S i)
      end.

Definition generateRestrictedFormula (random : nat → draw)
    (depth maxDepth : nat) (i : nat) : option (jsstring * nat) :=
  generateRestrictedFormula_fuel (maxDepth - depth) random depth maxDepth i.

(** The loop [while (f.length < 5)] of [handleGenerate]; [fuel] bounds the
    number of formulas drawn in it. *)
Fixpoint handleGenerate_loop (fuel : nat) (random : nat → draw) (f : jsstring)
    (i : nat) : option (jsstring * nat) :=
  if (length f <? 5)%nat then
    match fuel with
    | O => None
    | S fuel' =>
        '(f, i) ← generateRestrictedFormula random 0 3 i;
        handleGenerate_loop fuel' random f i
    end
  else Some (f, i).

(** [handleGenerate]: the formula set, the table that [generateTable] sets
    for it and the number of calls of [Math.random()]. *)
Definition handleGenerate (fuel : nat) (random : nat → draw) (i : nat)
  : option (jsstring * table_state * nat) :=
  '(f, i) ← generateRestrictedFormula random 0 3 i;
  '(f, i) ← handleGenerate_loop fuel random f i;
  Some (f, generateTable f, i).

(** The operands of a tree from left to right. *)
Fixpoint leaves (t : ASTNode) : list jsstring :=
  match t with
  | ATOM value => [value]
  | NOT child => leaves child
  | BIN _ lhs rhs => leaves lhs ++ leaves rhs
  end.

(** ** The colours of the parentheses *)

(** The table [OP_COLORS]; a key that is not in it reads as [undefined]. *)
Definition OP_COLORS (k : jsstring) : option jsstring :=
  if decide (k = SYMBOLS.NOT) then Some (js "text-red-600")
  else if decide (k = SYMBOLS.AND) then Some (js "text-blue-600")
  else if decide (k = SYMBOLS.OR) then Some (js "text-green-600")
  else if decide (k = SYMBOLS.IMP) then Some (js "text-purple-600")
  else if decide (k = SYMBOLS.IFF) then Some (js "text-orange-500")
  else if decide (k = js "DEFAULT") then Some (js "text-slate-400")
  else None.

(** The variables [minPrec], [mainOp] and [balance] of [findMainOp]. *)
Record main_state : Type := MainState {
  main_minPrec : Z;
  mainOp : jsstring;
  main_balance : Z
}.

(** One iteration of the loop of [findMainOp], on the character [char]. *)
Definition findMainOp_step (st : main_state) (char : N) : main_state :=
  if decide (char = 40%N)
  then MainState (main_minPrec st) (mainOp st) (main_balance st + 1)
  else if decide (char = 41%N)
  then MainState (main_minPrec st) (mainOp st) (main_balance st - 1)
  else if decide (main_balance st = 0) then
    if is_connective char then
      let prec := default 100 (PRECEDENCE [char]) in
      if prec <=? main_minPrec st then MainState prec [char] (main_balance st)
      else st
    else st
  else st.

(** [findMainOp(start, end)]: the loop reads the characters of the indices
    [start + 1] to [end - 1]; an index outside of the string gives
    [undefined], on which an iteration does nothing. *)
Definition findMainOp (inputStr : jsstring) (start end_ : nat) : jsstring :=
  let chars := take (end_ - (start + 1)) (drop (start + 1) inputStr) in
  let st := foldl findMainOp_step (MainState 100 (js "DEFAULT") 0) chars in
  default (js "text-slate-400") (OP_COLORS (mainOp st)).

(** One iteration of the loop of [getParenthesisColors], at the index [i];
    the top of [stack] is the head of the list. *)
Definition color_step (inputStr : jsstring)
    (st : list (option jsstring) * list nat) (i : nat)
  : list (option jsstring) * list nat :=
  let '(colors, stack) := st in
  if decide (inputStr !! i = Some 40%N) then (colors, i :: stack)
  else if decide (inputStr !! i = Some 41%N) then
    match stack with
    | start :: stack' =>
        let colorClass := findMainOp inputStr start i in
        (<[i := Some colorClass]> (<[start := Some colorClass]> colors), stack')
    | [] => st
    end
  else st.

(** The loop from the index [a], [n] iterations. *)
Definition color_loop (inputStr : jsstring) (a n : nat)
    (st : list (option jsstring) * list nat)
  : list (option jsstring) * list nat :=
  foldl (color_step inputStr) st (seq a n).

(** [getParenthesisColors(inputStr)]; [null] is [None]. *)
Definition getParenthesisColors (inputStr : jsstring) : list (option jsstring) :=
  (color_loop inputStr 0 (length inputStr)
     (replicate (length inputStr) None, [])).1.

(** The colour of a connective. *)
Definition op_color (op : jsstring) : jsstring :=
  default (js "text-slate-400") (OP_COLORS op).

(** The colours of the canonical string of a tree: the parentheses of a node
    have the colour of its connective. *)
Fixpoint canonical_colors (t : ASTNode) : list (option jsstring) :=
  match t with
  | ATOM value => replicate (length value) None
  | NOT child =>
      [Some (op_color SYMBOLS.NOT); None; None] ++ canonical_colors child
        ++ [Some (op_color SYMBOLS.NOT)]
  | BIN value lhs rhs =>
      [Some (op_color value)] ++ canonical_colors lhs
        ++ [None] ++ replicate (length value) None ++ [None]
        ++ canonical_colors rhs ++ [Some (op_color value)]
  end.

(** The characters of the indices [a] to [b - 1] as tokens of one
    character, for the notions [net] and [balanced]. *)
Definition seg (s : jsstring) (a b : nat) : list jsstring :=
  split_chars (take (b - a) (drop a s)).

(** The stack of the loop of [getParenthesisColors] before the index [k]:
    opening parentheses, each followed by a balanced run up to the next one,
    the top one up to [k]. *)
Fixpoint stack_ok (s : jsstring) (k : nat) (stack : list nat) : Prop :=
  match stack with
  | [] => True
  | p :: rest =>
      (p < k)%nat ∧ s !! p = Some 40%N ∧ balanced (seg s (p + 1) k)
      ∧ stack_ok s p rest
  end.

(** A pair of parentheses that enclose a balanced run and have the colour
    [c], which is the one [findMainOp] gives for them. *)
Definition colored_pair (s : jsstring) (colors : list (option jsstring))
    (p q : nat) (c : jsstring) : Prop :=
  (p < q)%nat ∧ s !! p = Some 40%N ∧ s !! q = Some 41%N
  ∧ colors !! p = Some (Some c) ∧ colors !! q = Some (Some c)
  ∧ c = findMainOp s p q ∧ balanced (seg s (p + 1) q).

(** A closing parenthesis at [j] before which the parentheses cancel, the
    first one that has no partner. *)
Definition first_unmatched (s : jsstring) (j : nat) : Prop :=
  s !! j = Some 41%N ∧ net (seg s 0 j) = 0
  ∧ ∀ m, (m ≤ j)%nat → net (seg s 0 m) ≤ 0.

(** What holds of the colours and the stack before the index [k]. *)
Definition color_inv (s : jsstring) (k : nat)
    (st : list (option jsstring) * list nat) : Prop :=
  length st.1 = length s
  ∧ stack_ok s k st.2
  ∧ (∀ p, p ∈ st.2 → st.1 !! p = Some None)
  ∧ (∀ j c, st.1 !! j = Some (Some c) →
       ∃ p q, (q < k)%nat ∧ (j = p ∨ j = q) ∧ colored_pair s st.1 p q c)
  ∧ (∀ j, (j < k)%nat → s !! j = Some 40%N →
       j ∈ st.2 ∨ ∃ c, st.1 !! j = Some (Some c))
  ∧ ((∀ m, (m ≤ k)%nat → net (seg s 0 m) ≤ 0) →
       Z.of_nat (length st.2) = - net (seg s 0 k)
       ∧ ∀ j, (j < k)%nat → s !! j = Some 41%N →
           ∃ c, st.1 !! j = Some (Some c))
  ∧ (∀ j, (j < k)%nat → first_unmatched s j → st.1 !! j = Some None).

(** The six classes of [OP_COLORS]. *)
Definition color_classes : list jsstring :=
  [js "text-red-600"; js "text-blue-600"; js "text-green-600";
   js "text-purple-600"; js "text-orange-500"; js "text-slate-400"].

(** A binary connective between two operands somewhere in a tree. *)
Fixpoint operand_pair (t : ASTNode) : bool :=
  match t with
  | ATOM _ => false
  | NOT child => operand_pair child
  | BIN _ (ATOM _) (ATOM _) => true
  | BIN _ lhs rhs => operand_pair lhs || operand_pair rhs
  end.

(* ------------------------------------------------------------------ *)
(** * Properties of the parser *)

(** ** The constants are pairwise distinct *)

Ltac sym_discr :=
  repeat match goal with
  | H : ?a = ?b |- _ => vm_compute in H; discriminate H
  end.

Ltac sym_neq := let H := fresh in intros H; vm_compute in H; discriminate H.

Lemma PRECEDENCE_binop t :
  is_binop t ↔ t ≠ SYMBOLS.NOT ∧ ∃ p, PRECEDENCE t = Some p.
Proof.
  unfold is_binop, PRECEDENCE. split.
  - intros [-> | [-> | [-> | ->]]]; (split; [sym_neq | eexists; reflexivity]).
  - intros [Hn [p Hp]]. repeat case_decide; try congruence; auto.
Qed.

Lemma PRECEDENCE_range t p : PRECEDENCE t = Some p → 1 ≤ p ≤ 5.
Proof. unfold PRECEDENCE. repeat case_decide; intros [= <-]; lia. Qed.

Lemma binop_not_paren t : is_binop t → t ≠ LPAREN ∧ t ≠ RPAREN.
Proof. intros [-> | [-> | [-> | ->]]]; split; sym_neq. Qed.

(** ** Slices *)

Lemma slice_index_nonneg {A} (l : list A) k :
  0 ≤ k → slice_index l k = Z.min k (Z.of_nat (length l)).
Proof. intros Hk. unfold slice_index. destruct (Z.ltb_spec k 0); [lia | done]. Qed.

Lemma slice_prefix {A} (l : list A) (k : Z) :
  0 ≤ k → slice l 0 (Some k) = take (Z.to_nat k) l.
Proof.
  intros Hk. unfold slice. rewrite !slice_index_nonneg by lia.
  replace (Z.to_nat (Z.min 0 (Z.of_nat (length l)))) with 0%nat by lia.
  rewrite drop_0. destruct (Z.le_gt_cases k (Z.of_nat (length l))).
  - f_equal. lia.
  - rewrite !take_ge; auto; lia.
Qed.

Lemma slice_suffix {A} (l : list A) (k : Z) :
  0 ≤ k → slice l k None = drop (Z.to_nat k) l.
Proof.
  intros Hk. unfold slice. rewrite !slice_index_nonneg by lia.
  destruct (Z.le_gt_cases k (Z.of_nat (length l))).
  - rewrite Z.min_l by lia. apply take_ge. rewrite length_drop. lia.
  - rewrite Z.min_r by lia. rewrite Nat2Z.id, Z.sub_diag. simpl.
    rewrite take_0. symmetry. apply drop_ge. lia.
Qed.

Lemma slice_inner {A} (x y : A) (m : list A) :
  slice (x :: m ++ [y]) 1 (Some (-1)) = m.
Proof.
  unfold slice, slice_index.
  change (-1 <? 0) with true. change (1 <? 0) with false. cbv iota.
  rewrite length_cons, length_app. simpl length.
  replace (Z.to_nat (Z.min 1 _)) with 1%nat by lia.
  replace (Z.to_nat (Z.max _ 0 - Z.min 1 _)) with (length m) by lia.
  change (drop 1 (x :: m ++ [y])) with (m ++ [y]). apply take_app_length.
Qed.

Lemma slice_length_le {A} (l : list A) s e : (length (slice l s e) ≤ length l)%nat.
Proof. unfold slice. rewrite length_take, length_drop. lia. Qed.

(** ** Stripping outer parentheses *)

Lemma strippable_shape tokens :
  strippable tokens = true →
  ∃ m, tokens = LPAREN :: m ++ [RPAREN] ∧ isBalanced m = true.
Proof.
  unfold strippable. rewrite !andb_true_iff, !bool_decide_eq_true.
  intros [[H0 Hl] Hb].
  destruct tokens as [| x tl]; [discriminate |]. simpl in H0. injection H0 as ->.
  destruct (decide (tl = [])) as [-> | Hne].
  { simpl in Hl. sym_discr. }
  destruct (exists_last Hne) as (m & y & ->).
  rewrite last_cons, last_snoc in Hl. injection Hl as ->.
  rewrite slice_inner in Hb. eauto.
Qed.

Lemma strippable_intro m :
  isBalanced m = true → strippable (LPAREN :: m ++ [RPAREN]) = true.
Proof.
  intros Hb. unfold strippable. rewrite slice_inner, Hb.
  rewrite last_cons, last_snoc. reflexivity.
Qed.

Lemma strip_loop_length fuel tokens :
  (length (strip_loop fuel tokens) ≤ length tokens)%nat.
Proof.
  revert tokens. induction fuel as [| f IH]; intros tokens; simpl; [lia |].
  destruct (strippable tokens); [| lia].
  etrans; [apply IH |]. apply slice_length_le.
Qed.

Lemma strip_loop_exit fuel tokens :
  (length tokens ≤ 2 * fuel)%nat → strippable (strip_loop fuel tokens) = false.
Proof.
  revert tokens. induction fuel as [| f IH]; intros tokens Hlen; simpl.
  - destruct tokens; [| simpl in Hlen; lia]. reflexivity.
  - destruct (strippable tokens) eqn:Hs; [| done].
    apply strippable_shape in Hs as (m & -> & _).
    rewrite slice_inner. apply IH.
    rewrite length_cons, length_app in Hlen. simpl in Hlen. lia.
Qed.

(** The loop has left through its condition: the bound was enough. *)
Lemma strip_outer_exit tokens : strippable (strip_outer tokens) = false.
Proof. apply strip_loop_exit. lia. Qed.

Lemma strip_outer_length tokens :
  (length (strip_outer tokens) ≤ length tokens)%nat.
Proof. apply strip_loop_length. Qed.

Lemma strip_loop_fixed fuel tokens :
  strippable tokens = false → strip_loop fuel tokens = tokens.
Proof. intros H. destruct fuel; simpl; [done |]. by rewrite H. Qed.

Lemma strip_loop_fuel f1 f2 tokens :
  (length tokens ≤ 2 * f1)%nat → (length tokens ≤ 2 * f2)%nat →
  strip_loop f1 tokens = strip_loop f2 tokens.
Proof.
  revert f2 tokens. induction f1 as [| f1 IH]; intros f2 tokens H1 H2.
  - destruct tokens; [| simpl in H1; lia]. simpl.
    symmetry. by apply strip_loop_fixed.
  - destruct f2 as [| f2].
    { destruct tokens; [| simpl in H2; lia]. simpl. done. }
    simpl. destruct (strippable tokens) eqn:Hs; [| done].
    apply strippable_shape in Hs as (m & -> & _).
    rewrite slice_inner. rewrite length_cons, length_app in H1, H2.
    simpl in H1, H2. apply IH; lia.
Qed.

(** The loop seen as a recursive function. *)
Lemma strip_outer_unfold tokens :
  strip_outer tokens =
    if strippable tokens then strip_outer (slice tokens 1 (Some (-1)))
    else tokens.
Proof.
  unfold strip_outer. destruct tokens as [| x tl]; [done |].
  cbn [length strip_loop]. destruct (strippable (x :: tl)) eqn:Hs; [| done].
  apply strippable_shape in Hs as (m & Hm & _). rewrite Hm, slice_inner.
  injection Hm as -> ->. rewrite length_app. simpl.
  apply strip_loop_fuel; lia.
Qed.

Lemma strip_outer_idem tokens :
  strip_outer (strip_outer tokens) = strip_outer tokens.
Proof.
  rewrite (strip_outer_unfold (strip_outer tokens)).
  by rewrite strip_outer_exit.
Qed.

(** ** The split point *)

Lemma net_app a b : net (a ++ b) = net a + net b.
Proof. induction a as [| t a IH]; simpl; lia. Qed.

Lemma paren_delta_binop t : is_binop t → paren_delta t = 0.
Proof.
  intros [Hl Hr]%binop_not_paren. unfold paren_delta.
  by rewrite !decide_False.
Qed.

Lemma rank_binop t : is_binop t → 1 ≤ rank t ≤ 4.
Proof. intros [-> | [-> | [-> | ->]]]; vm_compute; split; discriminate. Qed.

Lemma rank_lt_100 t : t ≠ SYMBOLS.NOT → rank t < 100 → is_binop t.
Proof.
  intros Hn Hr. apply PRECEDENCE_binop. split; [done |].
  unfold rank in Hr. destruct (PRECEDENCE t); [eauto | simpl in Hr; lia].
Qed.

Lemma drop_lookup_cons (toks : list jsstring) i t :
  toks !! i = Some t → drop i toks = t :: drop (S i) toks.
Proof. intros H. by apply drop_S. Qed.

Lemma split_inv_step toks i t st :
  toks !! i = Some t →
  split_inv toks (S i) st →
  split_inv toks i (findSplit_body t (Z.of_nat i) st).
Proof.
  intros Hi [Hbal Hst].
  assert (Hnet : net (drop i toks) = paren_delta t + net (drop (S i) toks)).
  { by rewrite (drop_lookup_cons _ _ _ Hi). }
  (* what happens to the candidates when index [i] holds no candidate *)
  assert (Hsame : (∀ u, ¬ candidate toks i u) →
    (splitIdx st = -1 ∧ minPrec st = 100 ∧ no_candidate_from toks i) ∨
    (∃ k t, splitIdx st = Z.of_nat k ∧ (i ≤ k)%nat ∧ candidate toks k t ∧
      rank t = minPrec st ∧
      ∀ j u, (i ≤ j)%nat → candidate toks j u → j ≠ k →
        minPrec st < rank u ∨ (rank u = minPrec st ∧ (j < k)%nat))).
  { intros Hno. destruct Hst as [(Hs & Hm & Hnc) | (k & t' & Hs & Hk & Hc & Hr & Hall)].
    - left. split_and!; try done. intros j u Hj Hc.
      destruct (decide (j = i)) as [-> | Hne]; [by eapply Hno |].
      eapply Hnc; [| done]. lia.
    - right. exists k, t'. split_and!; try done; try lia.
      intros j u Hj Hcj Hjk.
      destruct (decide (j = i)) as [-> | Hne]; [by edestruct Hno |].
      apply Hall; try done. lia. }
  unfold findSplit_body, paren_delta in *.
  destruct (decide (t = RPAREN)) as [-> | HnR].
  { split; [simpl; lia |]. simpl. apply Hsame.
    intros u (Hu & Hb & _). rewrite Hi in Hu. injection Hu as <-.
    by apply binop_not_paren in Hb as [_ ?]. }
  destruct (decide (t = LPAREN)) as [-> | HnL].
  { split; [simpl; lia |]. simpl. apply Hsame.
    intros u (Hu & Hb & _). rewrite Hi in Hu. injection Hu as <-.
    by apply binop_not_paren in Hb as [? _]. }
  destruct (decide (balance st = 0)) as [Hz | Hnz]; cycle 1.
  { split; [simpl; lia |]. apply Hsame. intros u (_ & _ & Hb). lia. }
  destruct (decide (t = SYMBOLS.NOT)) as [-> | HnN].
  { split; [simpl; lia |]. apply Hsame.
    intros u (Hu & Hb & _). rewrite Hi in Hu. injection Hu as <-.
    by apply PRECEDENCE_binop in Hb as [? _]. }
  fold (rank t).
  destruct (Z.ltb_spec (rank t) 100) as [Hlt | Hge]; cycle 1.
  { simpl. split; [simpl; lia |]. apply Hsame.
    intros u (Hu & Hb & _). rewrite Hi in Hu. injection Hu as <-.
    apply rank_binop in Hb. lia. }
  assert (Hcand : candidate toks i t).
  { split; [done |]. split; [by apply rank_lt_100 | lia]. }
  destruct (Z.ltb_spec (rank t) (minPrec st)) as [Hlt' | Hge']; simpl.
  - split; [simpl; lia |]. right. exists i, t. split_and!; try done; try apply Hcand.
    intros j u Hj Hcj Hji. simpl.
    destruct Hst as [(Hs & Hm & Hnc) | (k & t' & Hs & Hk & Hc & Hr & Hall)].
    + exfalso. eapply (Hnc j u); [lia | done].
    + destruct (decide (j = k)) as [-> | Hjk].
      * left. destruct Hc as (Hk1 & _), Hcj as (Hk2 & _).
        rewrite Hk1 in Hk2. injection Hk2 as <-. lia.
      * destruct (Hall j u) as [? | [? ?]]; try done; try lia.
  - split; [simpl; lia |].
    destruct Hst as [(Hs & Hm & Hnc) | (k & t' & Hs & Hk & Hc & Hr & Hall)];
      [lia |].
    right. exists k, t'. split_and!; try done; try lia.
    intros j u Hj Hcj Hjk.
    destruct (decide (j = i)) as [-> | Hne].
    + destruct Hcand as (Hk1 & _), Hcj as (Hk2 & _).
      rewrite Hk1 in Hk2. injection Hk2 as <-. lia.
    + apply Hall; try done. lia.
Qed.

Lemma split_inv_loop toks n st :
  (n ≤ length toks)%nat →
  split_inv toks n st → split_inv toks 0 (findSplit_loop toks n st).
Proof.
  revert st. induction n as [| i IH]; intros st Hn Hinv; simpl; [done |].
  destruct (lookup_lt_is_Some_2 toks i) as [t Ht]; [lia |].
  rewrite Ht. apply IH; [lia |]. by apply split_inv_step.
Qed.

Lemma split_inv_final toks :
  split_inv toks 0 (findSplit_loop toks (length toks) (SplitState 0 (-1) 100)).
Proof.
  apply split_inv_loop; [done |]. split; simpl.
  - by rewrite drop_all.
  - left. split_and!; try done. intros j u Hj (Hu & _).
    apply lookup_lt_Some in Hu. lia.
Qed.

(** [findSplit] returns -1 exactly when there is no candidate, and the split
    point otherwise. *)
Lemma findSplit_spec toks :
  (findSplit toks = -1 ∧ ∀ j u, ¬ candidate toks j u) ∨
  (∃ k, findSplit toks = Z.of_nat k ∧ split_point toks k).
Proof.
  destruct (split_inv_final toks) as [_ [(Hs & _ & Hnc) | (k & t & Hs & _ & Hc & Hr & Hall)]].
  - left. split; [done |]. intros j u. apply Hnc. lia.
  - right. exists k. split; [done |]. exists t. split; [done |].
    intros j u Hcj Hjk. rewrite Hr. apply Hall; [lia | done | done].
Qed.

Lemma split_point_unique toks k k' :
  split_point toks k → split_point toks k' → k = k'.
Proof.
  intros (t & Hc & Hall) (t' & Hc' & Hall').
  destruct (decide (k = k')) as [| Hne]; [done | exfalso].
  destruct (Hall k' t' Hc') as [? | [? ?]]; [done | |];
    destruct (Hall' k t Hc) as [? | [? ?]]; try done; lia.
Qed.

Lemma findSplit_candidate toks k :
  findSplit toks = Z.of_nat k ↔ split_point toks k.
Proof.
  destruct (findSplit_spec toks) as [[Hs Hnc] | (k' & Hs & Hsp)].
  - split; [simpl; lia |]. intros (t & Hc & _). by edestruct Hnc.
  - split.
    + intros Hk. assert (k = k') as -> by lia. done.
    + intros Hk. by rewrite (split_point_unique _ _ _ Hk Hsp).
Qed.

Lemma findSplit_none toks :
  findSplit toks = -1 ↔ ∀ j u, ¬ candidate toks j u.
Proof.
  destruct (findSplit_spec toks) as [[Hs Hnc] | (k' & Hs & (t & Hc & _))].
  - done.
  - split; [simpl; lia |]. intros Hnc. by edestruct Hnc.
Qed.

Lemma findSplit_range toks :
  findSplit toks = -1 ∨
  ∃ k t, findSplit toks = Z.of_nat k ∧ toks !! k = Some t ∧ is_binop t.
Proof.
  destruct (findSplit_spec toks) as [[Hs _] | (k & Hs & (t & (Hk & Hb & _) & _))];
    [by left | right; eauto].
Qed.

(** ** Termination of the parser *)

Lemma slice_tail_length {A} (l : list A) :
  (2 ≤ length l)%nat → (length (slice l 1 None) < length l)%nat.
Proof. intros H. rewrite slice_suffix by lia. rewrite length_drop. lia. Qed.

Lemma slice_left_length {A} (l : list A) (k : nat) :
  (k < length l)%nat → (length (slice l 0 (Some (Z.of_nat k))) < length l)%nat.
Proof.
  intros H. rewrite slice_prefix by lia. rewrite length_take. lia.
Qed.

Lemma slice_right_length {A} (l : list A) (k : nat) :
  (k < length l)%nat → (length (slice l (Z.of_nat k + 1) None) < length l)%nat.
Proof.
  intros H. rewrite slice_suffix by lia. rewrite length_drop. lia.
Qed.

Lemma at_index_nat {A} (l : list A) (k : nat) : at_index l (Z.of_nat k) = l !! k.
Proof.
  unfold at_index. destruct (Z.ltb_spec (Z.of_nat k) 0); [lia |].
  by rewrite Nat2Z.id.
Qed.

(** The five ways through the body. *)
Section parse_body_cases.
Context (rec : list jsstring → option ASTNode) (tokens : list jsstring).
Let toks := strip_outer tokens.

Lemma parse_body_empty : toks = [] → parse_body rec tokens = Some (ATOM ERR).
Proof. unfold parse_body. fold toks. by intros ->. Qed.

Lemma parse_body_single t : toks = [t] → parse_body rec tokens = Some (ATOM t).
Proof. unfold parse_body. fold toks. by intros ->. Qed.

Lemma parse_body_split k t :
  (2 ≤ length toks)%nat → findSplit toks = Z.of_nat k → toks !! k = Some t →
  parse_body rec tokens =
    lhs ← rec (take k toks); rhs ← rec (drop (S k) toks); Some (BIN t lhs rhs).
Proof.
  intros Hlen Hk Ht. unfold parse_body. fold toks.
  rewrite !decide_False by lia.
  rewrite (bool_decide_eq_false_2 (findSplit toks = -1)) by lia.
  rewrite andb_false_r. simpl.
  rewrite decide_True by lia.
  rewrite Hk, at_index_nat, Ht. simpl.
  rewrite slice_prefix, slice_suffix by lia.
  rewrite Nat2Z.id. by replace (Z.to_nat (Z.of_nat k + 1)) with (S k) by lia.
Qed.

Lemma parse_body_not :
  (2 ≤ length toks)%nat → findSplit toks = -1 →
  toks !! 0%nat = Some SYMBOLS.NOT →
  parse_body rec tokens = NOT <$> rec (drop 1 toks).
Proof.
  intros Hlen Hk Ht. unfold parse_body. fold toks.
  rewrite !decide_False by lia.
  rewrite !bool_decide_eq_true_2 by done. simpl.
  by rewrite slice_suffix by lia.
Qed.

Lemma parse_body_err :
  (2 ≤ length toks)%nat → findSplit toks = -1 →
  toks !! 0%nat ≠ Some SYMBOLS.NOT →
  parse_body rec tokens = Some (ATOM ERR).
Proof.
  intros Hlen Hk Ht. unfold parse_body. fold toks.
  rewrite !decide_False by lia.
  rewrite (bool_decide_eq_false_2 (toks !! 0%nat = _)) by done. simpl.
  by rewrite decide_False.
Qed.

Lemma parse_body_cases :
  (toks = [] ∧ parse_body rec tokens = Some (ATOM ERR)) ∨
  (∃ t, toks = [t] ∧ parse_body rec tokens = Some (ATOM t)) ∨
  (∃ k t, (2 ≤ length toks)%nat ∧ findSplit toks = Z.of_nat k ∧
     toks !! k = Some t ∧ is_binop t ∧
     parse_body rec tokens =
       lhs ← rec (take k toks); rhs ← rec (drop (S k) toks);
       Some (BIN t lhs rhs)) ∨
  ((2 ≤ length toks)%nat ∧ findSplit toks = -1 ∧
     toks !! 0%nat = Some SYMBOLS.NOT ∧
     parse_body rec tokens = NOT <$> rec (drop 1 toks)) ∨
  ((2 ≤ length toks)%nat ∧ findSplit toks = -1 ∧
     toks !! 0%nat ≠ Some SYMBOLS.NOT ∧
     parse_body rec tokens = Some (ATOM ERR)).
Proof.
  destruct toks as [| t0 [| t1 tl]] eqn:Htoks.
  - left. split; [done |]. by apply parse_body_empty.
  - right; left. exists t0. split; [done |]. by apply parse_body_single.
  - right; right. rewrite <- Htoks.
    assert (Hlen : (2 ≤ length toks)%nat) by (rewrite Htoks; simpl; lia).
    destruct (findSplit_range toks) as [Hs | (k & t & Hk & Ht & Hb)].
    + right. destruct (decide (toks !! 0%nat = Some SYMBOLS.NOT)).
      * left. split_and!; try done. by apply parse_body_not.
      * right. split_and!; try done. by apply parse_body_err.
    + left. exists k, t. split_and!; try done. by apply parse_body_split.
Qed.
End parse_body_cases.

(** The body only calls [rec] on lists shorter than its argument. *)
Lemma parse_body_ext rec1 rec2 tokens :
  (∀ ts, (length ts < length tokens)%nat → rec1 ts = rec2 ts) →
  parse_body rec1 tokens = parse_body rec2 tokens.
Proof.
  intros Hrec.
  pose proof (strip_outer_length tokens) as Hlen.
  destruct (parse_body_cases rec1 tokens)
    as [[He ->] | [(t & He & ->) | [(k & t & H2 & Hk & Ht & _ & ->) |
        [(H2 & Hk & Ht & ->) | (H2 & Hk & Ht & ->)]]]].
  - by rewrite parse_body_empty.
  - by rewrite (parse_body_single _ _ t).
  - rewrite (parse_body_split _ _ k t) by done.
    apply lookup_lt_Some in Ht.
    rewrite !Hrec; [done | |]; rewrite ?length_take, ?length_drop; lia.
  - rewrite parse_body_not by done.
    rewrite Hrec; [done |]. rewrite length_drop. lia.
  - by rewrite parse_body_err.
Qed.

Lemma parse_body_is_Some rec tokens :
  (∀ ts, (length ts < length tokens)%nat → is_Some (rec ts)) →
  is_Some (parse_body rec tokens).
Proof.
  intros Hrec.
  pose proof (strip_outer_length tokens) as Hlen.
  destruct (parse_body_cases rec tokens)
    as [[He ->] | [(t & He & ->) | [(k & t & H2 & Hk & Ht & _ & ->) |
        [(H2 & Hk & Ht & ->) | (H2 & Hk & Ht & ->)]]]]; try done.
  - apply lookup_lt_Some in Ht.
    destruct (Hrec (take k (strip_outer tokens))) as [l ->].
    { rewrite length_take. lia. }
    destruct (Hrec (drop (S k) (strip_outer tokens))) as [r ->].
    { rewrite length_drop. lia. }
    done.
  - apply fmap_is_Some, Hrec. rewrite length_drop. lia.
Qed.

Lemma parse_fuel_indep f1 f2 tokens :
  (length tokens < f1)%nat → (length tokens < f2)%nat →
  parse_fuel f1 tokens = parse_fuel f2 tokens.
Proof.
  revert f2 tokens. induction f1 as [| f1 IH]; intros f2 tokens H1 H2; [lia |].
  destruct f2 as [| f2]; [lia |]. simpl.
  apply parse_body_ext. intros ts Hts. apply IH; lia.
Qed.

Lemma parse_fuel_is_Some fuel tokens :
  (length tokens < fuel)%nat → is_Some (parse_fuel fuel tokens).
Proof.
  revert tokens. induction fuel as [| f IH]; intros tokens Hlen; [lia |].
  simpl. apply parse_body_is_Some. intros ts Hts. apply IH. lia.
Qed.

(** [parseToAST] satisfies the recursive equation of the source. *)
Lemma parseToAST_unfold tokens :
  parseToAST tokens = parse_body parseToAST tokens.
Proof.
  unfold parseToAST at 1. simpl. apply parse_body_ext.
  intros ts Hts. apply parse_fuel_indep; lia.
Qed.

Lemma parseToAST_total tokens : is_Some (parseToAST tokens).
Proof. apply parse_fuel_is_Some. lia. Qed.

Lemma parseToAST_strip tokens :
  parseToAST (strip_outer tokens) = parseToAST tokens.
Proof.
  rewrite !parseToAST_unfold. unfold parse_body.
  by rewrite strip_outer_idem.
Qed.

(** ** Balanced token lists *)

Lemma net_take_drop toks n : net (take n toks) + net (drop n toks) = net toks.
Proof. by rewrite <- net_app, take_drop. Qed.

Lemma isBalanced_loop_spec toks bal :
  0 ≤ bal →
  isBalanced_loop toks bal = true ↔
  (∀ n, 0 ≤ bal - net (take n toks)) ∧ bal - net toks = 0.
Proof.
  revert bal. induction toks as [| t rest IH]; intros bal Hbal0; simpl.
  - rewrite bool_decide_eq_true. split.
    + intros ->. split; [| done]. intros n. rewrite take_nil. simpl. lia.
    + intros [_ H]. lia.
  - assert (Hbal :
      (if decide (t = RPAREN)
       then (if decide (t = LPAREN) then bal + 1 else bal) - 1
       else (if decide (t = LPAREN) then bal + 1 else bal))
      = bal - paren_delta t).
    { unfold paren_delta. repeat case_decide; subst; sym_discr; lia. }
    rewrite Hbal. clear Hbal.
    destruct (Z.ltb_spec (bal - paren_delta t) 0) as [Hneg | Hpos].
    + split; [done |]. intros [Hall _]. specialize (Hall 1%nat).
      change (take 1 (t :: rest)) with [t] in Hall. simpl in Hall. lia.
    + rewrite IH by done. split.
      * intros [Hall Hz]. split; [| lia]. intros [| n].
        -- change (take 0 (t :: rest)) with (@nil jsstring). simpl. lia.
        -- change (take (S n) (t :: rest)) with (t :: take n rest). simpl.
           specialize (Hall n). lia.
      * intros [Hall Hz]. split; [| lia]. intros n.
        specialize (Hall (S n)).
        change (take (S n) (t :: rest)) with (t :: take n rest) in Hall.
        simpl in Hall. lia.
Qed.

Lemma isBalanced_balanced toks : isBalanced toks = true ↔ balanced toks.
Proof.
  unfold isBalanced, balanced. rewrite isBalanced_loop_spec by done. split.
  - intros [Hall Hz]. split; [lia |]. intros n.
    pose proof (net_take_drop toks n). specialize (Hall n). lia.
  - intros [Hz Hall]. split; [| lia]. intros n.
    pose proof (net_take_drop toks n). specialize (Hall n). lia.
Qed.

Lemma balanced_prefix a b : balanced (a ++ b) → net a ≤ 0.
Proof.
  intros [Hz Hall]. specialize (Hall (length a)).
  rewrite drop_app_length in Hall. rewrite net_app in Hz. lia.
Qed.

Lemma net_drop_app_nonneg a b n :
  (∀ k, 0 ≤ net (drop k a)) → (∀ k, 0 ≤ net (drop k b)) →
  0 ≤ net (drop n (a ++ b)).
Proof.
  intros Ha Hb. rewrite drop_app, net_app.
  specialize (Ha n). specialize (Hb (n - length a)%nat). lia.
Qed.

Lemma balanced_app a b : balanced a → balanced b → balanced (a ++ b).
Proof.
  intros [Ha1 Ha2] [Hb1 Hb2]. split.
  - rewrite net_app. lia.
  - intros n. by apply net_drop_app_nonneg.
Qed.

Lemma balanced_single t : t ≠ LPAREN → t ≠ RPAREN → balanced [t].
Proof.
  intros Hl Hr. split.
  - simpl. unfold paren_delta. repeat case_decide; try done; lia.
  - intros [| n]; simpl; [| rewrite drop_nil; simpl; lia].
    unfold paren_delta. repeat case_decide; try done; lia.
Qed.

Lemma balanced_parens m : balanced m → balanced (LPAREN :: m ++ [RPAREN]).
Proof.
  intros [Hz Hall]. split.
  - simpl. rewrite net_app. simpl. vm_compute (paren_delta _).
    vm_compute (paren_delta RPAREN). lia.
  - intros [| n].
    + simpl. rewrite net_app. simpl.
      change (paren_delta LPAREN) with (-1).
      change (paren_delta RPAREN) with 1. lia.
    + simpl. rewrite drop_app, net_app.
      specialize (Hall n).
      assert (0 ≤ net (drop (n - length m) [RPAREN])); [| lia].
      destruct (n - length m)%nat; simpl; [| rewrite drop_nil; simpl; lia].
      change (paren_delta RPAREN) with 1. lia.
Qed.

(** ** Tokenizing a canonical string *)

Lemma remove_ws_app a b : remove_ws (a ++ b) = remove_ws a ++ remove_ws b.
Proof. apply List.filter_app. Qed.

Lemma remove_ws_id a :
  Forall (λ c, is_sep c = false ∧ is_ws c = false) a → remove_ws a = a.
Proof.
  induction 1 as [| c a [_ Hc] _ IH]; simpl; [done |].
  rewrite Hc. simpl. by rewrite IH.
Qed.

Lemma is_sep_not_ws c : is_sep c = true → is_ws c = false.
Proof.
  unfold is_sep. rewrite bool_decide_eq_true. rewrite !elem_of_cons.
  intros [H | [H | [H | [H | [H | [H | [H | H]]]]]]];
    try (vm_compute in H; injection H as ->; reflexivity).
  by apply elem_of_nil in H.
Qed.

Lemma pieces_sep cur a c b :
  is_sep c = true →
  nonempty_pieces (split_keep cur (a ++ c :: b)) =
    nonempty_pieces (split_keep cur a) ++ [c] :: nonempty_pieces (split_keep [] b).
Proof.
  intros Hc. revert cur. induction a as [| d a IH]; intros cur; simpl.
  - rewrite Hc. unfold nonempty_pieces. simpl.
    by destruct (negb (bool_decide (cur = []))).
  - destruct (is_sep d); [| apply IH].
    unfold nonempty_pieces in *. simpl.
    rewrite IH. by destruct (negb (bool_decide (cur = []))).
Qed.

Lemma pieces_atom cur a :
  Forall (λ c, is_sep c = false ∧ is_ws c = false) a →
  split_keep cur a = [cur ++ a].
Proof.
  intros Ha. revert cur. induction Ha as [| c a [Hc _] _ IH]; intros cur; simpl.
  - by rewrite app_nil_r.
  - rewrite Hc, IH. by rewrite <- app_assoc.
Qed.

Lemma tokenize_atom a : atom_token a → tokenize a = [a].
Proof.
  intros [Hne Ha]. unfold tokenize. rewrite remove_ws_id by done.
  rewrite pieces_atom by done. simpl.
  by rewrite bool_decide_eq_false_2.
Qed.

(** The tokenizer cuts at every character of the splitting class. *)
Lemma tokenize_sep a c b :
  is_sep c = true → tokenize (a ++ c :: b) = tokenize a ++ [c] :: tokenize b.
Proof.
  intros Hc. unfold tokenize. rewrite remove_ws_app. simpl.
  rewrite (is_sep_not_ws c Hc). simpl. by apply pieces_sep.
Qed.

Lemma tokenize_sep_head c b :
  is_sep c = true → tokenize (c :: b) = [c] :: tokenize b.
Proof. intros Hc. apply (tokenize_sep [] c b Hc). Qed.

Lemma tokenize_space_l b : tokenize (32%N :: b) = tokenize b.
Proof. done. Qed.

Lemma tokenize_space_r a : tokenize (a ++ [32%N]) = tokenize a.
Proof.
  unfold tokenize. rewrite remove_ws_app. simpl. by rewrite app_nil_r.
Qed.

Lemma tokenize_nil : tokenize [] = [].
Proof. done. Qed.

Lemma binop_char op : is_binop op → ∃ c, op = [c] ∧ is_sep c = true.
Proof. intros [-> | [-> | [-> | ->]]]; eexists; split; reflexivity. Qed.

Lemma tokenize_toFullString n :
  clean n → tokenize (toFullString n) = canonical_tokens n.
Proof.
  induction n as [a | n IH | op l IHl r IHr];
    cbn [toFullString canonical_tokens clean].
  - apply tokenize_atom.
  - intros Hn.
    change (js "(") with [40%N]. change (js ")") with [41%N].
    change (js " ") with [32%N]. change SYMBOLS.NOT with [172%N].
    change LPAREN with [40%N]. change RPAREN with [41%N].
    cbn [app].
    rewrite !tokenize_sep_head by done.
    rewrite tokenize_space_l.
    rewrite tokenize_sep by done. by rewrite IH.
  - intros (Hop & Hl & Hr). destruct (binop_char op Hop) as (c & -> & Hc).
    change (js "(") with [40%N]. change (js ")") with [41%N].
    change (js " ") with [32%N].
    change LPAREN with [40%N]. change RPAREN with [41%N].
    cbn [app].
    rewrite tokenize_sep_head by done.
    replace (toFullString l ++ 32%N :: c :: 32%N :: toFullString r ++ [41%N])
      with ((toFullString l ++ [32%N]) ++ c :: (32%N :: toFullString r) ++ [41%N])
      by (by rewrite <- !app_assoc).
    rewrite tokenize_sep by done.
    rewrite tokenize_space_r, IHl by done.
    rewrite tokenize_sep by done.
    rewrite tokenize_space_l, IHr by done.
    by rewrite <- app_assoc.
Qed.

(** ** Parsing canonical tokens *)

Lemma atom_token_not_sep a c : atom_token a → is_sep c = true → a ≠ [c].
Proof.
  intros [_ Ha] Hc ->. apply Forall_cons in Ha as [[Hs _] _]. congruence.
Qed.

Lemma atom_token_plain a :
  atom_token a →
  a ≠ LPAREN ∧ a ≠ RPAREN ∧ a ≠ SYMBOLS.NOT ∧ ¬ is_binop a.
Proof.
  intros Ha. split_and!.
  - by apply (atom_token_not_sep a 40%N).
  - by apply (atom_token_not_sep a 41%N).
  - by apply (atom_token_not_sep a 172%N).
  - intros (c & -> & Hc)%binop_char. by apply (atom_token_not_sep [c] c).
Qed.

Lemma net_LPAREN : paren_delta LPAREN = -1.
Proof. reflexivity. Qed.

Lemma net_RPAREN : paren_delta RPAREN = 1.
Proof. reflexivity. Qed.

Lemma paren_delta_plain t : t ≠ LPAREN → t ≠ RPAREN → paren_delta t = 0.
Proof. intros Hl Hr. unfold paren_delta. by rewrite !decide_False. Qed.

Lemma paren_delta_NOT : paren_delta SYMBOLS.NOT = 0.
Proof. reflexivity. Qed.

Lemma group_balanced g : group g → balanced g.
Proof.
  intros [(a & -> & Ha) | (m & -> & Hm)].
  - apply atom_token_plain in Ha as (? & ? & _). by apply balanced_single.
  - by apply balanced_parens.
Qed.

Lemma group_nonempty g : group g → g ≠ [].
Proof. by intros [(a & -> & _) | (m & -> & _)]. Qed.

(** Inside a group every binary connective sits at a positive balance of
    the right-to-left scan. *)
Lemma group_inner g j u :
  group g → g !! j = Some u → is_binop u → 1 ≤ net (drop (S j) g).
Proof.
  intros [(a & -> & Ha) | (m & -> & [Hz Hall])] Hj Hu.
  - destruct j; [| done]. injection Hj as ->.
    by apply atom_token_plain in Ha as (_ & _ & _ & ?).
  - destruct j as [| j]; simpl in Hj.
    { injection Hj as <-. by apply binop_not_paren in Hu as [? _]. }
    change (drop (S (S j)) (LPAREN :: m ++ [RPAREN]))
      with (drop (S j) (m ++ [RPAREN])).
    destruct (decide (j < length m)%nat) as [Hlt | Hge].
    + rewrite drop_app_le by lia. rewrite net_app. simpl.
      rewrite net_RPAREN. specialize (Hall (S j)). lia.
    + rewrite lookup_app_r in Hj by lia.
      destruct (j - length m)%nat; [| done]. injection Hj as <-.
      by apply binop_not_paren in Hu as [_ ?].
Qed.

Lemma group_not_strippable g x :
  group g → x ≠ [] → strippable (g ++ x) = false.
Proof.
  intros Hg Hx. destruct (strippable (g ++ x)) eqn:Hs; [| done]. exfalso.
  apply strippable_shape in Hs as (m' & Heq & Hb%isBalanced_balanced).
  destruct Hg as [(a & -> & Ha) | (m & -> & Hm)].
  - injection Heq as -> _. by apply atom_token_plain in Ha as (? & _).
  - destruct (exists_last Hx) as (x' & y & ->).
    simpl in Heq. injection Heq as Heq.
    rewrite app_assoc in Heq.
    apply app_inj_tail in Heq as [<- _].
    apply balanced_prefix in Hb.
    rewrite net_app in Hb. simpl in Hb. rewrite net_RPAREN in Hb.
    destruct Hm as [Hm _]. lia.
Qed.

Lemma strip_outer_parens m :
  balanced m → strip_outer (LPAREN :: m ++ [RPAREN]) = strip_outer m.
Proof.
  intros Hm%isBalanced_balanced. rewrite strip_outer_unfold.
  by rewrite strippable_intro, slice_inner.
Qed.

Lemma strip_outer_fixed tokens :
  strippable tokens = false → strip_outer tokens = tokens.
Proof. intros H. by apply strip_loop_fixed. Qed.

Lemma canonical_tokens_group n : clean n → group (canonical_tokens n).
Proof.
  induction n as [a | n IH | op l IHl r IHr]; cbn [clean canonical_tokens].
  - intros Ha. left. eauto.
  - intros Hn. right. exists (SYMBOLS.NOT :: canonical_tokens n).
    split; [done |]. apply (balanced_app [SYMBOLS.NOT]).
    + by apply balanced_single.
    + by apply group_balanced, IH.
  - intros (Hop & Hl & Hr). right. eexists. split; [done |].
    apply balanced_app; [by apply group_balanced, IHl |].
    apply (balanced_app [op]); [| by apply group_balanced, IHr].
    apply binop_not_paren in Hop as [? ?]. by apply balanced_single.
Qed.

Lemma drop_S_middle {A} (l : list A) x r :
  drop (S (length l)) (l ++ x :: r) = r.
Proof.
  replace (S (length l)) with (length l + 1)%nat by lia.
  by rewrite drop_app_add.
Qed.

(** Two groups around a binary connective: the connective is the only
    candidate. *)
Lemma candidate_between gl op gr j u :
  group gl → group gr → is_binop op →
  candidate (gl ++ op :: gr) j u → j = length gl.
Proof.
  intros Hl Hr Hop (Hj & Hu & Hnet).
  destruct (Nat.lt_trichotomy j (length gl)) as [Hlt | [-> | Hgt]]; [| done |];
    exfalso.
  - rewrite lookup_app_l in Hj by done.
    pose proof (group_inner _ _ _ Hl Hj Hu) as Hin.
    rewrite drop_app_le in Hnet by lia. rewrite net_app in Hnet.
    simpl in Hnet. rewrite (paren_delta_binop op Hop) in Hnet.
    destruct (group_balanced _ Hr) as [Hz _]. lia.
  - rewrite lookup_app_r in Hj by lia.
    destruct (j - length gl)%nat as [| j'] eqn:Hj'; [lia |]. simpl in Hj.
    pose proof (group_inner _ _ _ Hr Hj Hu) as Hin.
    replace (S j) with (length gl + S (S j'))%nat in Hnet by lia.
    rewrite drop_app_add in Hnet. done || (simpl in Hnet; lia).
Qed.

Lemma findSplit_between gl op gr :
  group gl → group gr → is_binop op →
  findSplit (gl ++ op :: gr) = Z.of_nat (length gl).
Proof.
  intros Hl Hr Hop. apply findSplit_candidate. exists op. split.
  - split_and!; [by rewrite list_lookup_middle | done |].
    rewrite drop_S_middle.
    by destruct (group_balanced _ Hr).
  - intros j u Hc Hne. by apply candidate_between in Hc.
Qed.

Lemma findSplit_negation g :
  group g → findSplit (SYMBOLS.NOT :: g) = -1.
Proof.
  intros Hg. apply findSplit_none. intros [| j] u (Hj & Hu & Hnet).
  - injection Hj as <-. by apply PRECEDENCE_binop in Hu as [? _].
  - simpl in Hj. pose proof (group_inner _ _ _ Hg Hj Hu) as Hin.
    change (drop (S (S j)) (SYMBOLS.NOT :: g)) with (drop (S j) g) in Hnet.
    lia.
Qed.

(** Parsing the tokens of the canonical string of a tree gives the tree. *)
Lemma parseToAST_canonical_tokens n :
  clean n → parseToAST (canonical_tokens n) = Some n.
Proof.
  induction n as [a | n IH | op l IHl r IHr]; cbn [clean canonical_tokens].
  - intros Ha. rewrite parseToAST_unfold.
    apply parse_body_single. apply strip_outer_fixed.
    unfold strippable. simpl.
    apply atom_token_plain in Ha as (? & _).
    rewrite bool_decide_eq_false_2; [done | congruence].
  - intros Hn. pose proof (canonical_tokens_group n Hn) as Hg.
    assert (Hs : strip_outer (LPAREN :: SYMBOLS.NOT :: canonical_tokens n ++ [RPAREN])
                 = SYMBOLS.NOT :: canonical_tokens n).
    { etrans; [apply (strip_outer_parens (SYMBOLS.NOT :: canonical_tokens n)) |].
      - apply (balanced_app [SYMBOLS.NOT]); [by apply balanced_single |].
        by apply group_balanced.
      - by apply strip_outer_fixed. }
    rewrite parseToAST_unfold, parse_body_not; rewrite Hs.
    + simpl. rewrite drop_0. by rewrite IH.
    + apply group_nonempty in Hg. destruct (canonical_tokens n); [done |].
      simpl. lia.
    + by apply findSplit_negation.
    + done.
  - intros (Hop & Hl & Hr).
    pose proof (canonical_tokens_group l Hl) as Hgl.
    pose proof (canonical_tokens_group r Hr) as Hgr.
    set (gl := canonical_tokens l) in *. set (gr := canonical_tokens r) in *.
    assert (Hs : strip_outer (LPAREN :: (gl ++ op :: gr) ++ [RPAREN])
                 = gl ++ op :: gr).
    { rewrite strip_outer_parens.
      - apply strip_outer_fixed. by apply group_not_strippable.
      - apply balanced_app; [by apply group_balanced |].
        apply (balanced_app [op]); [| by apply group_balanced].
        apply binop_not_paren in Hop as [? ?]. by apply balanced_single. }
    rewrite parseToAST_unfold.
    rewrite (parse_body_split _ _ (length gl) op); rewrite Hs.
    + rewrite take_app_length, drop_S_middle.
      by rewrite IHl, IHr.
    + rewrite length_app. simpl. apply group_nonempty in Hgl.
      destruct gl; [done |]. simpl. lia.
    + by apply findSplit_between.
    + by apply list_lookup_middle.
Qed.

(** ** Parsing well-formed token sequences *)

Lemma app_cons_snoc {A} (l : list A) x r y :
  l ++ x :: r ++ [y] = (l ++ x :: r) ++ [y].
Proof. by rewrite <- app_assoc. Qed.

Lemma wf_tokens_nonempty ts : wf_tokens ts → ts ≠ [].
Proof. induction 1; try done. by destruct l. Qed.

Lemma wf_tokens_balanced ts : wf_tokens ts → balanced ts.
Proof.
  induction 1 as [a Ha | ts _ IH | l op r Hop _ IHl _ IHr | ts _ IH].
  - apply atom_token_plain in Ha as (? & ? & _). by apply balanced_single.
  - apply (balanced_app [SYMBOLS.NOT]); [by apply balanced_single | done].
  - apply balanced_app; [done |]. apply (balanced_app [op]); [| done].
    apply binop_not_paren in Hop as [? ?]. by apply balanced_single.
  - by apply balanced_parens.
Qed.

Lemma wf_tokens_single t : wf_tokens [t] → atom_token t.
Proof.
  inversion 1 as [a Ha | ts Hts | l op r Hop Hl Hr Heq | ts Hts Heq]; subst.
  - done.
  - by apply wf_tokens_nonempty in Hts.
  - apply wf_tokens_nonempty in Hl. destruct l as [| ? [| ? ?]]; done.
  - destruct ts; done.
Qed.

(** Inside its outer parentheses a well-formed sequence is well formed,
    when what is inside is balanced. *)
Lemma wf_tokens_inner m :
  wf_tokens (LPAREN :: m ++ [RPAREN]) → balanced m → wf_tokens m.
Proof.
  intros Hwf Hm.
  inversion Hwf as [a Ha Heq | ts Hts Heq | l op r Hop Hl Hr Heq | ts Hts Heq].
  - destruct m; done.
  - exfalso.
    pose proof (wf_tokens_nonempty _ Hl) as Hnl.
    pose proof (wf_tokens_nonempty _ Hr) as Hnr.
    destruct l as [| x l']; [done |]. simpl in Heq. injection Heq as -> Heq.
    destruct (exists_last Hnr) as (r' & y & ->).
    rewrite app_cons_snoc in Heq.
    apply app_inj_tail in Heq as [<- _].
    apply balanced_prefix in Hm.
    apply wf_tokens_balanced in Hl as [Hl _]. simpl in Hl.
    rewrite net_LPAREN in Hl. lia.
  - by apply app_inj_tail in Heq as [<- _].
Qed.

Lemma wf_tokens_strip_loop fuel ts :
  wf_tokens ts → wf_tokens (strip_loop fuel ts).
Proof.
  revert ts. induction fuel as [| f IH]; intros ts Hwf; simpl; [done |].
  destruct (strippable ts) eqn:Hs; [| done].
  apply strippable_shape in Hs as (m & -> & Hm%isBalanced_balanced).
  rewrite slice_inner. by apply IH, wf_tokens_inner.
Qed.

Lemma wf_tokens_strip_outer ts : wf_tokens ts → wf_tokens (strip_outer ts).
Proof. apply wf_tokens_strip_loop. Qed.

(** Cutting a well-formed sequence at a binary connective of balance zero
    leaves two well-formed sequences. *)
Lemma wf_tokens_cut ts :
  wf_tokens ts →
  ∀ l op r, ts = l ++ op :: r → is_binop op → net r = 0 →
    wf_tokens l ∧ wf_tokens r.
Proof.
  induction 1 as [a Ha | ts Hts IH | l1 op1 r1 Hop1 Hl1 IHl Hr1 IHr | ts Hts IH];
    intros l op r Heq Hop Hnet.
  - destruct l as [| ? [| ? ?]]; try done. injection Heq as -> _.
    by apply atom_token_plain in Ha as (_ & _ & _ & ?).
  - destruct l as [| x l']; simpl in Heq; injection Heq as Hx Heq.
    + subst op. by apply PRECEDENCE_binop in Hop as [? _].
    + subst x. destruct (IH l' op r Heq Hop Hnet) as [Hl' Hr'].
      split; [by constructor | done].
  - apply app_eq_app in Heq as (m & [[-> Heq] | [-> Heq]]).
    + (* the cut is in [l1] or at [op1] *)
      destruct m as [| x m]; simpl in Heq.
      * injection Heq as -> ->. rewrite app_nil_r in Hl1. done.
      * injection Heq as <- ->.
        assert (Hnm : net m = 0).
        { rewrite net_app in Hnet. simpl in Hnet.
          rewrite (paren_delta_binop op1 Hop1) in Hnet.
          apply wf_tokens_balanced in Hr1 as [Hr1 _]. lia. }
        destruct (IHl l op m eq_refl Hop Hnm) as [Hl Hm].
        split; [done |]. by constructor.
    + (* the cut is in [r1] or at [op1] *)
      destruct m as [| x m]; simpl in Heq.
      * injection Heq as -> ->. rewrite app_nil_r. done.
      * injection Heq as <- ->.
        destruct (IHr m op r eq_refl Hop Hnet) as [Hm Hr].
        split; [| done]. by constructor.
  - exfalso. destruct l as [| x l']; simpl in Heq; injection Heq as Hx Heq.
    { subst op. by apply binop_not_paren in Hop as [? _]. }
    destruct (decide (r = [])) as [-> | Hnr].
    { apply app_inj_tail in Heq as [_ <-].
      by apply binop_not_paren in Hop as [_ ?]. }
    destruct (exists_last Hnr) as (r' & y & ->).
    rewrite app_cons_snoc in Heq.
    apply app_inj_tail in Heq as [-> <-].
    rewrite net_app in Hnet. simpl in Hnet. rewrite net_RPAREN in Hnet.
    apply wf_tokens_balanced in Hts as [_ Hall].
    specialize (Hall (S (length l'))).
    rewrite drop_S_middle in Hall. lia.
Qed.

Lemma wf_tokens_candidate toks k t :
  wf_tokens toks → candidate toks k t →
  wf_tokens (take k toks) ∧ wf_tokens (drop (S k) toks).
Proof.
  intros Hwf (Hk & Hop & Hnet).
  apply (wf_tokens_cut toks Hwf _ t); try done.
  rewrite <- (drop_lookup_cons _ _ _ Hk). by rewrite take_drop.
Qed.

(** Without a candidate a well-formed sequence of several tokens that is
    not in parentheses is a negation. *)
Lemma wf_tokens_negation toks :
  wf_tokens toks → (∀ j u, ¬ candidate toks j u) →
  strippable toks = false → (2 ≤ length toks)%nat →
  ∃ ts, toks = SYMBOLS.NOT :: ts ∧ wf_tokens ts.
Proof.
  intros Hwf Hnc Hs Hlen.
  inversion Hwf as [a Ha Heq | ts Hts Heq | l op r Hop Hl Hr Heq | ts Hts Heq];
    subst.
  - simpl in Hlen. lia.
  - eauto.
  - exfalso. apply (Hnc (length l) op). split_and!; [| done |].
    + by apply list_lookup_middle.
    + rewrite drop_S_middle. by apply wf_tokens_balanced in Hr as [? _].
  - apply wf_tokens_balanced, isBalanced_balanced in Hts.
    rewrite strippable_intro in Hs; done.
Qed.

(** The parser turns a well-formed sequence into a tree without the
    parse-error atom: operands at the leaves, connectives inside. *)
Lemma parseToAST_wf_tokens tokens :
  wf_tokens tokens → ∃ n, parseToAST tokens = Some n ∧ clean n.
Proof.
  remember (length tokens) as len eqn:Hlen.
  revert tokens Hlen.
  induction (lt_wf len) as [len _ IH]. intros tokens -> Hwf.
  pose proof (strip_outer_length tokens) as Hsl.
  pose proof (wf_tokens_strip_outer _ Hwf) as Hwfs.
  rewrite parseToAST_unfold.
  destruct (parse_body_cases parseToAST tokens)
    as [[He ->] | [(t & He & ->) | [(k & t & H2 & Hk & Ht & Hop & ->) |
        [(H2 & Hk & Ht & ->) | (H2 & Hk & Ht & ->)]]]].
  - by apply wf_tokens_nonempty in Hwfs.
  - rewrite He in Hwfs. apply wf_tokens_single in Hwfs. eauto.
  - apply findSplit_candidate in Hk as (t' & Hc & _).
    assert (t' = t) as ->.
    { destruct Hc as (Ht' & _). congruence. }
    destruct (wf_tokens_candidate _ _ _ Hwfs Hc) as [Hwl Hwr].
    apply lookup_lt_Some in Ht.
    destruct (IH (length (take k (strip_outer tokens)))
                ltac:(rewrite length_take; lia) _ eq_refl Hwl) as (l & -> & Hl).
    destruct (IH (length (drop (S k) (strip_outer tokens)))
                ltac:(rewrite length_drop; lia) _ eq_refl Hwr) as (r & -> & Hr).
    simpl. exists (BIN t l r). by split_and!.
  - pose proof (proj1 (findSplit_none _) Hk) as Hnc.
    destruct (wf_tokens_negation _ Hwfs Hnc) as (ts & Heq & Hts); [| done |].
    { apply strip_outer_exit. }
    rewrite Heq. simpl. rewrite drop_0.
    destruct (IH (length ts) ltac:(rewrite Heq in Hsl; simpl in Hsl; lia)
                _ eq_refl Hts) as (n & -> & Hn).
    simpl. by exists (NOT n).
  - exfalso. pose proof (proj1 (findSplit_none _) Hk) as Hnc.
    destruct (wf_tokens_negation _ Hwfs Hnc) as (ts & Heq & Hts); [| done |].
    { apply strip_outer_exit. }
    by rewrite Heq in Ht.
Qed.

(** * The parser: claims *)

(** C1. Round trip: for a well-formed token sequence, rendering the parsed
    tree, tokenizing the string and parsing again gives a tree (the same
    tree) whose rendering is that string. *)
Theorem C1_roundtrip (ts : list jsstring) :
  wf_tokens ts →
  ∃ t, parseToAST ts = Some t ∧
    let s := toFullString t in
    ∃ t', parseToAST (tokenize s) = Some t' ∧ t' = t ∧ toFullString t' = s.
Proof.
  intros Hwf. destruct (parseToAST_wf_tokens ts Hwf) as (t & Ht & Hclean).
  exists t. split; [done |]. cbn zeta. exists t.
  rewrite tokenize_toFullString by done.
  by rewrite parseToAST_canonical_tokens.
Qed.

Lemma C1_roundtrip_witness :
  ∃ t, parseToAST [js "¬"; js "("; js "P"; js "∨"; js "Q"; js ")"; js "⇒"; js "R"]
       = Some t ∧
    let s := toFullString t in
    ∃ t', parseToAST (tokenize s) = Some t' ∧ t' = t ∧ toFullString t' = s.
Proof.
  apply C1_roundtrip.
  apply (wf_bin [js "¬"; js "("; js "P"; js "∨"; js "Q"; js ")"] (js "⇒") [js "R"]).
  - right; right; left; reflexivity.
  - apply wf_not. apply (wf_paren [js "P"; js "∨"; js "Q"]).
    apply (wf_bin [js "P"] (js "∨") [js "Q"]).
    + right; left; reflexivity.
    + apply wf_atom. split; [discriminate |]. by repeat constructor.
    + apply wf_atom. split; [discriminate |]. by repeat constructor.
  - apply wf_atom. split; [discriminate |]. by repeat constructor.
Defined.

(** C2 as stated fails twice: a slice of one token that is a binary
    connective is parsed as an Atom, and two occurrences of one connective
    group to the left, not to the right. *)
Lemma C2_counterexample :
  (candidate [js "∧"] 0 (js "∧")
   ∧ parseToAST [js "∧"] = Some (ATOM (js "∧")))
  ∧ (toFullString <$> parseToAST [js "P"; js "⇒"; js "Q"; js "⇒"; js "R"]
       = Some (js "((P ⇒ Q) ⇒ R)")
     ∧ toFullString <$> parseToAST [js "P"; js "⇒"; js "Q"; js "⇒"; js "R"]
       ≠ Some (js "(P ⇒ (Q ⇒ R))")).
Proof.
  split; [split | split].
  - split_and!; [done | | done]. left. reflexivity.
  - reflexivity.
  - reflexivity.
  - vm_compute. discriminate.
Qed.

(** C2, amended. After the outer parentheses are stripped, a slice of two
    tokens or more with a binary connective at balance zero is parsed as the
    Binary node of the split point: the candidate (balance zero, binary
    connective, never NOT) of lowest rank, the rightmost one of that rank;
    both sides are parsed recursively.  So [P ∨ Q ∧ R] gives
    [(P ∨ (Q ∧ R))] and repeated occurrences of a connective group to the
    left: [P ⇒ Q ⇒ R] gives [((P ⇒ Q) ⇒ R)]. *)
Theorem C2_split_selection (tokens : list jsstring) :
  (let toks := strip_outer tokens in
   (2 ≤ length toks)%nat → (∃ i t, candidate toks i t) →
   ∃ k t lhs rhs,
     split_point toks k ∧ findSplit toks = Z.of_nat k ∧ toks !! k = Some t ∧
     parseToAST (take k toks) = Some lhs ∧
     parseToAST (drop (S k) toks) = Some rhs ∧
     parseToAST tokens = Some (BIN t lhs rhs))
  ∧ toFullString <$> parseToAST [js "P"; js "∨"; js "Q"; js "∧"; js "R"]
      = Some (js "(P ∨ (Q ∧ R))")
  ∧ toFullString <$> parseToAST [js "P"; js "⇒"; js "Q"; js "⇒"; js "R"]
      = Some (js "((P ⇒ Q) ⇒ R)").
Proof.
  split; [| split; reflexivity].
  intros toks Hlen (i & u & Hc).
  destruct (findSplit_spec toks) as [[_ Hnc] | (k & Hk & Hsp)].
  { by edestruct Hnc. }
  pose proof Hsp as (t & (Ht & _) & _).
  destruct (parseToAST_total (take k toks)) as [lhs Hl].
  destruct (parseToAST_total (drop (S k) toks)) as [rhs Hr].
  exists k, t, lhs, rhs. split_and!; try done.
  rewrite parseToAST_unfold, (parse_body_split _ _ k t) by done.
  fold toks. by rewrite Hl, Hr.
Qed.

Lemma C2_split_selection_witness :
  ∃ k t lhs rhs,
    split_point [js "P"; js "∨"; js "Q"; js "∧"; js "R"] k ∧
    findSplit [js "P"; js "∨"; js "Q"; js "∧"; js "R"] = Z.of_nat k ∧
    [js "P"; js "∨"; js "Q"; js "∧"; js "R"] !! k = Some t ∧
    parseToAST (take k [js "P"; js "∨"; js "Q"; js "∧"; js "R"]) = Some lhs ∧
    parseToAST (drop (S k) [js "P"; js "∨"; js "Q"; js "∧"; js "R"]) = Some rhs ∧
    parseToAST [js "(";  js "P"; js "∨"; js "Q"; js "∧"; js "R"; js ")"]
      = Some (BIN t lhs rhs).
Proof.
  apply (proj1 (C2_split_selection
                  [js "(";  js "P"; js "∨"; js "Q"; js "∧"; js "R"; js ")"])).
  - vm_compute. lia.
  - exists 1%nat, (js "∨"). split_and!; [done | | done].
    right; left; reflexivity.
Defined.

(** C3. The parser is total: for every token list the recursion ends (any
    bound above the length gives the same node) and a node is returned; it
    is the parse-error Atom when the stripped slice is empty and when a
    slice of several tokens has no split point and does not start with
    NOT. *)
Theorem C3_parser_total (tokens : list jsstring) :
  (∃ node, parseToAST tokens = Some node ∧
     ∀ fuel, (length tokens < fuel)%nat → parse_fuel fuel tokens = Some node)
  ∧ (strip_outer tokens = [] → parseToAST tokens = Some (ATOM ERR))
  ∧ ((2 ≤ length (strip_outer tokens))%nat →
     findSplit (strip_outer tokens) = -1 →
     strip_outer tokens !! 0%nat ≠ Some SYMBOLS.NOT →
     parseToAST tokens = Some (ATOM ERR)).
Proof.
  split_and!.
  - destruct (parseToAST_total tokens) as [node Hn]. exists node.
    split; [done |]. intros fuel Hf. rewrite <- Hn.
    apply parse_fuel_indep; lia.
  - intros He. rewrite parseToAST_unfold. by apply parse_body_empty.
  - intros H2 Hs Hn. rewrite parseToAST_unfold. by apply parse_body_err.
Qed.

Lemma C3_parser_total_witness :
  parseToAST [js "("; js ")"] = Some (ATOM ERR)
  ∧ parseToAST [js "P"; js "Q"; js ")"] = Some (ATOM ERR).
Proof.
  split.
  - apply (proj1 (proj2 (C3_parser_total [js "("; js ")"]))). reflexivity.
  - apply (proj2 (proj2 (C3_parser_total [js "P"; js "Q"; js ")"]))).
    + vm_compute. lia.
    + reflexivity.
    + vm_compute. discriminate.
Defined.

(** C10 as stated fails on the token [ERR]: the Atom that carries it is the
    parse-error atom. *)
Lemma C10_counterexample :
  ¬ (∀ t, parseToAST [t] = Some (ATOM t) ∧ parseToAST [t] ≠ Some (ATOM ERR)).
Proof. intros H. by destruct (H ERR) as [_ Hne]. Qed.

(** C10, amended. When one token [t] is left after the outer parentheses
    are stripped, the parser returns the Atom that carries [t], also for a
    lone connective or parenthesis; it differs from the parse-error atom
    unless [t] is the string [ERR] itself. *)
Theorem C10_single_token (tokens : list jsstring) (t : jsstring) :
  strip_outer tokens = [t] →
  parseToAST tokens = Some (ATOM t)
  ∧ (t ≠ ERR → parseToAST tokens ≠ Some (ATOM ERR)).
Proof.
  intros Hs. rewrite parseToAST_unfold, (parse_body_single _ _ t) by done.
  split; [done |]. congruence.
Qed.

Lemma C10_single_token_witness :
  (parseToAST [js "∧"] = Some (ATOM (js "∧"))
   ∧ parseToAST [js "∧"] ≠ Some (ATOM ERR))
  ∧ (parseToAST [js "("] = Some (ATOM (js "("))
     ∧ parseToAST [js "("] ≠ Some (ATOM ERR))
  ∧ parseToAST [js "("; js "("; js "P"; js ")"; js ")"] = Some (ATOM (js "P")).
Proof.
  split_and!.
  - apply (C10_single_token [js "∧"] (js "∧")). reflexivity.
  - apply (C10_single_token [js "∧"] (js "∧")); [reflexivity |].
    vm_compute. discriminate.
  - apply (C10_single_token [js "("] (js "(")). reflexivity.
  - apply (C10_single_token [js "("] (js "(")); [reflexivity |].
    vm_compute. discriminate.
  - apply (C10_single_token [js "("; js "("; js "P"; js ")"; js ")"] (js "P")).
    reflexivity.
Defined.

(** * The evaluator *)

Lemma toUpperCase_ERR : toUpperCase ERR = ERR.
Proof. reflexivity. Qed.

(** C6 as stated fails for an assignment that binds the name [ERR]: the
    formula [()] parses to the parse-error atom and evaluates to true. *)
Lemma C6_counterexample :
  parseToAST (tokenize (js "()")) = Some (ATOM ERR)
  ∧ solveProposition (js "()") {[ ERR := true ]} = true.
Proof. split; reflexivity. Qed.

Lemma toUpperCase_no_small s :
  Forall (λ c, ¬ (97 ≤ c ≤ 122)%N) (toUpperCase s).
Proof.
  unfold toUpperCase. induction s as [| c s IH]; simpl; constructor; [| done].
  destruct (N.leb_spec 97 c), (N.leb_spec c 122); simpl; lia.
Qed.

(** The conversion of ASCII letters is one of the functions that [upper]
    ranges over. *)
Lemma upper_case_toUpperCase : upper_case toUpperCase.
Proof. split; [done | apply toUpperCase_no_small]. Qed.

(** On operands of ASCII characters the evaluator is [evalAST]. *)
Lemma evalAST_upper_toUpperCase values t :
  evalAST_upper toUpperCase values t = evalAST values t.
Proof.
  induction t as [a | c IH | op l IHl r IHr]; simpl; [done | |].
  - by rewrite IH.
  - by rewrite IHl, IHr.
Qed.

Lemma solveProposition_upper_toUpperCase formula values :
  solveProposition_upper toUpperCase formula values
  = solveProposition formula values.
Proof.
  unfold solveProposition_upper, solveProposition.
  destruct (parseToAST (tokenize formula)); [| done].
  apply evalAST_upper_toUpperCase.
Qed.

Lemma upper_ERR upper : upper_case upper → upper ERR = ERR.
Proof.
  intros [Hascii _]. rewrite Hascii; [done |].
  repeat constructor.
Qed.

(** C6, amended. [solveProposition] is total: the parser always gives a
    tree, whose value is the boolean returned (the [catch] branch is not
    taken).  The parse-error atom is looked up like a variable named [ERR]:
    it evaluates to false unless the assignment binds [ERR] to true.  A
    variable whose name in capitals the assignment does not bind evaluates
    to false, and the literals 1 and T evaluate to true, 0 and F to false.
    This holds for operands of any characters, whatever
    [String.prototype.toUpperCase] does outside of ASCII. *)
Theorem C6_evaluator_total (upper : jsstring → jsstring) (formula : jsstring)
    (values : gmap jsstring bool) :
  upper_case upper →
  (∃ ast, parseToAST (tokenize formula) = Some ast
          ∧ solveProposition_upper upper formula values
            = evalAST_upper upper values ast)
  ∧ evalAST_upper upper values (ATOM ERR) = default false (values !! ERR)
  ∧ (values !! ERR ≠ Some true → evalAST_upper upper values (ATOM ERR) = false)
  ∧ (∀ a, values !! upper a = None → a ≠ js "1" → a ≠ js "T" →
          evalAST_upper upper values (ATOM a) = false)
  ∧ evalAST_upper upper values (ATOM (js "1")) = true
  ∧ evalAST_upper upper values (ATOM (js "T")) = true
  ∧ evalAST_upper upper values (ATOM (js "0")) = false
  ∧ evalAST_upper upper values (ATOM (js "F")) = false.
Proof.
  intros Hupper.
  assert (Herr : evalAST_upper upper values (ATOM ERR)
                 = default false (values !! ERR)).
  { cbn [evalAST_upper]. rewrite !decide_False by (by intros [? | ?]).
    cbn zeta. by rewrite (upper_ERR upper Hupper). }
  split_and!; try reflexivity.
  - destruct (parseToAST_total (tokenize formula)) as [ast Hast].
    exists ast. split; [done |]. unfold solveProposition_upper. by rewrite Hast.
  - done.
  - intros Hne. rewrite Herr. destruct (values !! ERR) as [[|] |]; done.
  - intros a Ha H1 HT. simpl.
    rewrite decide_False by (by intros [? | ?]).
    case_decide; [done |]. by rewrite Ha.
Qed.

Lemma C6_evaluator_total_witness :
  evalAST_upper toUpperCase {[ js "P" := true ]} (ATOM ERR) = false
  ∧ evalAST_upper toUpperCase {[ js "P" := true ]} (ATOM (js "q")) = false.
Proof.
  destruct (C6_evaluator_total toUpperCase (js "P ∧") {[ js "P" := true ]}
              upper_case_toUpperCase)
    as (_ & _ & Herr & Habsent & _).
  split.
  - apply Herr. vm_compute. discriminate.
  - apply Habsent; [reflexivity | vm_compute; discriminate ..].
Defined.

(** * Sub-expressions *)

Lemma set_add_elements x (s : list jsstring) :
  list_to_set (set_add x s) =@{gset jsstring} {[ x ]} ∪ list_to_set s.
Proof.
  unfold set_add. case_decide as Hx.
  - apply (elem_of_list_to_set (C:=gset jsstring)) in Hx. set_solver.
  - rewrite list_to_set_app_L. simpl. set_solver.
Qed.

Lemma set_add_NoDup x (s : list jsstring) : NoDup s → NoDup (set_add x s).
Proof.
  intros Hs. unfold set_add. case_decide as Hx; [done |].
  apply NoDup_app. split_and!; [done | | apply NoDup_singleton].
  intros y Hy ->%list_elem_of_singleton. done.
Qed.

Lemma getSubExpressions_elements ast (lst : list jsstring) :
  list_to_set (getSubExpressions ast lst)
  =@{gset jsstring} list_to_set lst ∪ compound_renderings ast.
Proof.
  revert lst. induction ast as [a | n IH | op l IHl r IHr]; intros lst.
  - simpl. set_solver.
  - cbn [getSubExpressions compound_renderings].
    rewrite IH, set_add_elements. set_solver.
  - cbn [getSubExpressions compound_renderings].
    rewrite IHr, IHl, set_add_elements. set_solver.
Qed.

Lemma getSubExpressions_NoDup ast (lst : list jsstring) :
  NoDup lst → NoDup (getSubExpressions ast lst).
Proof.
  revert lst. induction ast as [a | n IH | op l IHl r IHr]; intros lst Hl.
  - done.
  - cbn [getSubExpressions]. by apply IH, set_add_NoDup.
  - cbn [getSubExpressions]. by apply IHr, IHl, set_add_NoDup.
Qed.

(** C8. The result of [getSubExpressions] is, as a set, the set of the
    canonical strings of the Negation and Binary nodes of the tree; it has
    no duplicate, and for the tree of [(P ∧ Q)] it is [{"(P ∧ Q)"}]. *)
Theorem C8_sub_expressions (ast : ASTNode) :
  list_to_set (getSubExpressions ast []) =@{gset jsstring} compound_renderings ast
  ∧ NoDup (getSubExpressions ast [])
  ∧ (∀ a, getSubExpressions (ATOM a) [] = [])
  ∧ (λ t, getSubExpressions t []) <$> parseToAST (tokenize (js "(P ∧ Q)"))
      = Some [js "(P ∧ Q)"]
  ∧ (λ t, getSubExpressions t [])
      <$> parseToAST (tokenize (js "(P ∧ Q) ∨ ¬ (P ∧ Q)"))
      = Some [js "((P ∧ Q) ∨ (¬ (P ∧ Q)))"; js "(P ∧ Q)"; js "(¬ (P ∧ Q))"].
Proof.
  split_and!; try reflexivity.
  - rewrite getSubExpressions_elements. set_solver.
  - apply getSubExpressions_NoDup, NoDup_nil_2.
Qed.

(** * Truth table *)

Lemma to_int32_small z : 0 ≤ z < 2 ^ 31 → to_int32 z = z.
Proof.
  intros Hz. unfold to_int32. rewrite Z.mod_small by lia.
  destruct (Z.ltb_spec z (2 ^ 31)); [done | lia].
Qed.

Lemma pow2_le_30 n : 0 ≤ n ≤ 30 → 1 ≤ 2 ^ n ≤ 2 ^ 30.
Proof.
  intros Hn. split.
  - pose proof (Z.pow_pos_nonneg 2 n ltac:(lia) ltac:(lia)). lia.
  - apply Z.pow_le_mono_r; lia.
Qed.

Lemma shl32_pow2 n : 0 ≤ n ≤ 30 → shl32 1 n = 2 ^ n.
Proof.
  intros Hn. unfold shl32. rewrite (to_int32_small 1) by lia.
  rewrite Z.mod_small by lia. rewrite Z.shiftl_1_l.
  apply to_int32_small. pose proof (pow2_le_30 n Hn). lia.
Qed.

Lemma and32_sar32_bit i k :
  0 ≤ i < 2 ^ 31 → 0 ≤ k < 32 →
  (if decide (and32 (sar32 i k) 1 ≠ 0) then 1 else 0) = bit_of i k.
Proof.
  intros Hi Hk. unfold and32, sar32, bit_of.
  rewrite (to_int32_small i) by done. rewrite (Z.mod_small k) by lia.
  assert (Hs : 0 ≤ Z.shiftr i k < 2 ^ 31).
  { rewrite Z.shiftr_div_pow2 by lia. split.
    - apply Z.div_pos; [lia |]. apply Z.pow_pos_nonneg; lia.
    - apply Z.le_lt_trans with i; [| lia].
      apply Z.div_le_upper_bound; [apply Z.pow_pos_nonneg; lia |].
      pose proof (Z.pow_pos_nonneg 2 k ltac:(lia) ltac:(lia)). nia. }
  rewrite (to_int32_small (Z.shiftr i k)) by done.
  rewrite (to_int32_small 1) by lia.
  assert (Hland : Z.land (Z.shiftr i k) 1 = Z.b2z (Z.testbit i k)).
  { pose proof (Z.land_ones (Z.shiftr i k) 1 ltac:(lia)) as H1.
    change (Z.ones 1) with 1 in H1. change (2 ^ 1) with 2 in H1.
    rewrite H1, <- Z.bit0_mod, Z.shiftr_spec by lia. by rewrite Z.add_0_l. }
  rewrite Hland.
  by destruct (Z.testbit i k).
Qed.

Lemma table_row_inputs vars subs i :
  (length vars ≤ 30)%nat → 0 ≤ i < 2 ^ 30 →
  inputs (table_row_of vars subs i) = assignment_of vars i.
Proof.
  intros Hn Hi. unfold table_row_of, assignment_of. simpl.
  apply imap_ext. intros idx v Hv. simpl. f_equal.
  apply lookup_lt_Some in Hv.
  apply and32_sar32_bit; lia.
Qed.

Lemma lookup_count_down (count : Z) (k : nat) :
  Z.of_nat k < count →
  reverse (seqZ 0 count) !! k = Some (count - 1 - Z.of_nat k).
Proof.
  intros Hk. rewrite reverse_lookup by (rewrite length_seqZ; lia).
  rewrite length_seqZ. rewrite lookup_seqZ_lt by lia. f_equal. lia.
Qed.

Lemma bit_of_all_ones n k : 0 ≤ k < n → bit_of (2 ^ n - 1) k = 1.
Proof.
  intros Hk. unfold bit_of.
  replace (2 ^ n - 1) with (Z.ones n) by (rewrite Z.ones_equiv; lia).
  by rewrite Z.ones_spec_low by lia.
Qed.

Lemma bit_of_zero k : bit_of 0 k = 0.
Proof. unfold bit_of. by rewrite Z.bits_0. Qed.

Lemma generateTable_rows expr :
  parseVars expr ≠ [] →
  rows (generateTable expr) =
    List.map (table_row_of (parseVars expr) (subExprs (generateTable expr)))
      (reverse (seqZ 0 (shl32 1 (Z.of_nat (length (parseVars expr)))))).
Proof.
  intros Hne. unfold generateTable.
  rewrite decide_False; [done |]. by destruct (parseVars expr).
Qed.

(** C5 as stated fails for a formula with 31 variables: [1 << 31] is
    negative and the table has no row. *)
Lemma C5_counterexample :
  length (parseVars formula_31) = 31%nat
  ∧ rows (generateTable formula_31) = [].
Proof. split; vm_compute; reflexivity. Qed.

(** C5, amended. For a formula with [n] distinct variables, [n] from 1 to 30
    (the range in which [1 << n] is [2 ^ n]), the table has exactly [2 ^ n]
    rows; the row of index [k] is that of the assignment integer
    [2 ^ n - 1 - k], in which the variable of index [idx] gets the bit of
    position [n - 1 - idx]; the first row gives 1 to every variable and the
    last row 0.  A formula without variable gives no row. *)
Theorem C5_truth_table (expr : jsstring) :
  let vars := parseVars expr in
  let n := length vars in
  let table := generateTable expr in
  (n = 0%nat → rows table = [])
  ∧ ((1 ≤ n ≤ 30)%nat →
     variables table = vars
     ∧ Z.of_nat (length (rows table)) = 2 ^ Z.of_nat n
     ∧ (∀ k : nat, Z.of_nat k < 2 ^ Z.of_nat n →
          ∃ row, rows table !! k = Some row
                 ∧ inputs row = assignment_of vars (2 ^ Z.of_nat n - 1 - Z.of_nat k))
     ∧ (∃ row, rows table !! 0%nat = Some row
               ∧ inputs row = List.map (λ v, (v, 1)) vars)
     ∧ (∃ row, last (rows table) = Some row
               ∧ inputs row = List.map (λ v, (v, 0)) vars)).
Proof.
  intros vars n table. split.
  - intros Hn. unfold table, generateTable. fold vars. fold n.
    by rewrite decide_True.
  - intros Hn.
    assert (Hne : vars ≠ []) by (unfold n in Hn; destruct vars; simpl in *; [lia | done]).
    pose proof (pow2_le_30 (Z.of_nat n) ltac:(lia)) as Hpow.
    assert (Hrows : rows table =
      List.map (table_row_of vars (subExprs table))
               (reverse (seqZ 0 (2 ^ Z.of_nat n)))).
    { unfold table. rewrite generateTable_rows by done.
      fold vars. fold n. by rewrite shl32_pow2 by lia. }
    assert (Hk : ∀ k : nat, Z.of_nat k < 2 ^ Z.of_nat n →
       ∃ row, rows table !! k = Some row
              ∧ inputs row = assignment_of vars (2 ^ Z.of_nat n - 1 - Z.of_nat k)).
    { intros k Hk. rewrite Hrows.
      change (List.map ?f ?l) with (f <$> l).
      rewrite list_lookup_fmap, lookup_count_down by done. simpl.
      eexists. split; [done |]. apply table_row_inputs; [lia | lia]. }
    split_and!.
    + unfold table, generateTable. fold vars. fold n.
      rewrite decide_False by lia. done.
    + rewrite Hrows, length_map, length_reverse, length_seqZ. lia.
    + done.
    + destruct (Hk 0%nat) as (row & Hrow & Hin); [lia |].
      exists row. split; [done |]. rewrite Hin. unfold assignment_of.
      change (List.map ?f ?l) with (f <$> l).
      rewrite <- (imap_const (λ v, (v, 1)) vars).
      apply imap_ext. intros idx v Hv. simpl. f_equal.
      apply lookup_lt_Some in Hv. fold n in Hv |- *.
      replace (2 ^ Z.of_nat n - 1 - Z.of_nat 0) with (2 ^ Z.of_nat n - 1) by lia.
      apply bit_of_all_ones. lia.
    + destruct (Hk (Z.to_nat (2 ^ Z.of_nat n - 1))) as (row & Hrow & Hin); [lia |].
      exists row. split.
      * rewrite last_lookup. rewrite <- Hrow. f_equal.
        rewrite Hrows, length_map, length_reverse, length_seqZ. lia.
      * rewrite Hin. unfold assignment_of.
        change (List.map ?f ?l) with (f <$> l).
        rewrite <- (imap_const (λ v, (v, 0)) vars).
        apply imap_ext. intros idx v Hv. simpl. f_equal.
        rewrite Z2Nat.id by lia.
        replace (2 ^ Z.of_nat n - 1 - (2 ^ Z.of_nat n - 1)) with 0 by lia.
        apply bit_of_zero.
Qed.

Lemma C5_truth_table_witness :
  rows (generateTable (js "1 ∧ 0")) = []
  ∧ Z.of_nat (length (rows (generateTable (js "(P ∧ Q) ∨ ¬ R")))) = 2 ^ 3.
Proof.
  split.
  - apply (proj1 (C5_truth_table (js "1 ∧ 0"))). reflexivity.
  - refine (proj1 (proj2 (proj2 (C5_truth_table (js "(P ∧ Q) ∨ ¬ R")) _))).
    vm_compute. split; lia.
Defined.

(** * Strict reduction engine *)

(** ** Normalization of parentheses *)

Lemma skip_ws_length s : (length (skip_ws s) ≤ length s)%nat.
Proof.
  induction s as [| c s IH]; simpl; [lia |].
  destruct (is_ws c); simpl; lia.
Qed.

Lemma skip_ws_app ws s :
  Forall (λ c, is_ws c = true) ws → skip_ws (ws ++ s) = skip_ws s.
Proof. induction 1 as [| c ws Hc _ IH]; simpl; [done |]. by rewrite Hc. Qed.

Lemma skip_ws_split s :
  ∃ ws, s = ws ++ skip_ws s ∧ Forall (λ c, is_ws c = true) ws.
Proof.
  induction s as [| c s (ws & Hs & Hws)]; simpl.
  - by exists [].
  - destruct (is_ws c) eqn:Hc.
    + exists (c :: ws). split; [simpl; congruence | by constructor].
    + by exists [].
Qed.

Lemma skip_ws_head c s : is_ws c = false → skip_ws (c :: s) = c :: s.
Proof. intros Hc. simpl. by rewrite Hc. Qed.

Lemma match_paren_literal_length s d after :
  match_paren_literal s = Some (d, after) → (length after + 3 ≤ length s)%nat.
Proof.
  unfold match_paren_literal. destruct s as [| c rest]; [done |].
  case_decide; [| done].
  pose proof (skip_ws_length rest) as H1.
  destruct (skip_ws rest) as [| d' rest']; [done |].
  case_decide; [| done].
  pose proof (skip_ws_length rest') as H2.
  destruct (skip_ws rest') as [| e rest'']; [done |].
  case_decide; [| done]. intros [= <- <-]. simpl in *. lia.
Qed.

(** The function agrees with the words of the specification. *)
Lemma match_paren_literal_spec s d after :
  match_paren_literal s = Some (d, after) ↔
  ∃ ws1 ws2,
    s = [40%N] ++ ws1 ++ [d] ++ ws2 ++ [41%N] ++ after
    ∧ Forall (λ c, is_ws c = true) ws1
    ∧ Forall (λ c, is_ws c = true) ws2
    ∧ (d = 48%N ∨ d = 49%N).
Proof.
  split.
  - unfold match_paren_literal. destruct s as [| c rest]; [done |].
    case_decide as Hc; [subst c | done].
    destruct (skip_ws_split rest) as (ws1 & Hr & Hws1).
    destruct (skip_ws rest) as [| d' rest']; [done |].
    case_decide as Hd; [| done].
    destruct (skip_ws_split rest') as (ws2 & Hr' & Hws2).
    destruct (skip_ws rest') as [| e rest'']; [done |].
    case_decide as He; [subst e | done]. intros [= <- <-].
    exists ws1, ws2. split_and!; try done.
    simpl. rewrite Hr. do 2 f_equal. simpl. by rewrite Hr' at 1.
  - intros (ws1 & ws2 & -> & Hws1 & Hws2 & Hd). simpl.
    rewrite skip_ws_app by done.
    assert (Hdw : is_ws d = false) by (by destruct Hd as [-> | ->]).
    simpl. rewrite Hdw. rewrite decide_True by done.
    rewrite skip_ws_app by done. simpl. done.
Qed.

Lemma strip_literals_fuel_indep f1 f2 s :
  (length s ≤ f1)%nat → (length s ≤ f2)%nat →
  strip_literals_fuel f1 s = strip_literals_fuel f2 s.
Proof.
  revert f2 s. induction f1 as [| f1 IH]; intros f2 s H1 H2.
  - destruct s; [| simpl in H1; lia]. by destruct f2.
  - destruct f2 as [| f2].
    { destruct s; [done | simpl in H2; lia]. }
    simpl. destruct s as [| c rest]; [done |].
    destruct (match_paren_literal (c :: rest)) as [[d after] |] eqn:Hm.
    + apply match_paren_literal_length in Hm. simpl in *.
      f_equal. apply IH; lia.
    + simpl in *. f_equal. apply IH; lia.
Qed.

(** The replacement as a recursive function over the string. *)
Lemma strip_literals_unfold s :
  strip_literals s =
    match s with
    | [] => []
    | c :: rest =>
        match match_paren_literal s with
        | Some (d, after) => d :: strip_literals after
        | None => c :: strip_literals rest
        end
    end.
Proof.
  unfold strip_literals. destruct s as [| c rest]; [done |].
  cbn [length strip_literals_fuel].
  destruct (match_paren_literal (c :: rest)) as [[d after] |] eqn:Hm.
  - apply match_paren_literal_length in Hm. simpl in Hm.
    f_equal. apply strip_literals_fuel_indep; lia.
  - done.
Qed.

Lemma strip_literals_length s :
  (length (strip_literals s) ≤ length s)%nat
  ∧ (length (strip_literals s) = length s → strip_literals s = s).
Proof.
  remember (length s) as n eqn:Hn. revert s Hn.
  induction (lt_wf n) as [n _ IH]. intros s ->.
  rewrite strip_literals_unfold. destruct s as [| c rest]; [done |].
  destruct (match_paren_literal (c :: rest)) as [[d after] |] eqn:Hm.
  - apply match_paren_literal_length in Hm. simpl in Hm.
    destruct (IH (length after) ltac:(simpl; lia) after eq_refl) as [Hle _].
    simpl. split; lia.
  - destruct (IH (length rest) ltac:(simpl; lia) rest eq_refl) as [Hle Heq].
    simpl. split; [lia |]. intros H. f_equal. apply Heq. lia.
Qed.

Lemma strip_literals_shorter s :
  strip_literals s ≠ s → (length (strip_literals s) < length s)%nat.
Proof.
  intros Hne. destruct (strip_literals_length s) as [Hle Heq].
  destruct (decide (length (strip_literals s) = length s)); [| lia].
  by destruct Hne; apply Heq.
Qed.

Lemma normalize_loop_fixed fuel s :
  (length s < fuel)%nat →
  strip_literals (normalize_loop fuel s) = normalize_loop fuel s.
Proof.
  revert s. induction fuel as [| f IH]; intros s Hlen; [lia |].
  simpl. case_decide as Heq; [done |].
  apply IH. apply strip_literals_shorter in Heq. lia.
Qed.

(** The loop of [addToHistory] ends on a fixed point of the replacement. *)
Lemma normalize_fixed s : strip_literals (normalize s) = normalize s.
Proof. apply normalize_loop_fixed. lia. Qed.

(** A fixed point of the replacement holds no parenthesized literal. *)
Lemma strip_literals_fixed_no_match before s :
  strip_literals (before ++ s) = before ++ s → match_paren_literal s = None.
Proof.
  induction before as [| c before IH]; simpl; intros Hfix.
  - destruct (match_paren_literal s) as [[d after] |] eqn:Hm; [| done].
    exfalso. pose proof (match_paren_literal_length _ _ _ Hm) as Hlen.
    rewrite strip_literals_unfold in Hfix. destruct s as [| c rest]; [done |].
    rewrite Hm in Hfix.
    pose proof (proj1 (strip_literals_length after)) as Hle.
    apply (f_equal length) in Hfix. simpl in *. lia.
  - rewrite strip_literals_unfold in Hfix.
    destruct (match_paren_literal (c :: before ++ s)) as [[d after] |] eqn:Hm.
    + exfalso. pose proof (match_paren_literal_length _ _ _ Hm) as Hlen.
      pose proof (proj1 (strip_literals_length after)) as Hle.
      apply (f_equal length) in Hfix. simpl in *. lia.
    + injection Hfix as Hfix. by apply IH.
Qed.

Lemma strip_literals_fixed_clean s :
  strip_literals s = s → ¬ has_paren_literal s.
Proof.
  intros Hfix (before & ws1 & d & ws2 & after & Hs & Hws1 & Hws2 & Hd).
  rewrite Hs in Hfix. apply strip_literals_fixed_no_match in Hfix.
  assert (match_paren_literal ([40%N] ++ ws1 ++ [d] ++ ws2 ++ [41%N] ++ after)
          = Some (d, after)) as Hm.
  { apply match_paren_literal_spec. by exists ws1, ws2. }
  congruence.
Qed.

(** ** Legal moves *)

Lemma interactable_token tokens i :
  interactable tokens i = true →
  ∃ t, tokens !! i = Some t ∧ (t = SYMBOLS.NOT ∨ is_binop t).
Proof.
  unfold interactable. destruct (tokens !! i) as [t |]; [| done].
  intros H. exists t. split; [done |].
  apply orb_true_iff in H as [H | H].
  - apply andb_true_iff in H as [H%bool_decide_eq_true _]. by left.
  - apply andb_true_iff in H as [H _]. apply andb_true_iff in H as [H _].
    unfold is_binary_symbol in H. apply bool_decide_eq_true in H.
    right. unfold is_binop. set_solver.
Qed.

Lemma is_binary_symbol_not_NOT t :
  is_binary_symbol t = true → bool_decide (t = SYMBOLS.NOT) = false.
Proof.
  unfold is_binary_symbol. rewrite bool_decide_eq_true, bool_decide_eq_false.
  rewrite !elem_of_cons. intros [-> | [-> | [-> | [-> | H]]]]; try sym_neq.
  by apply elem_of_nil in H.
Qed.

Lemma candidates_elem tokens c :
  c ∈ candidates tokens ↔
  ∃ i t, tokens !! i = Some t ∧ interactable tokens i = true
         ∧ c = Reducible i t (PRECEDENCE t).
Proof.
  unfold candidates. rewrite list_elem_of_In, in_concat. split.
  - intros (l & Hl & Hc). apply list_elem_of_In in Hl, Hc.
    apply elem_of_lookup_imap in Hl as (i & t & -> & Ht).
    exists i, t. split; [done |]. unfold interactable. rewrite Ht.
    apply elem_of_app in Hc as [Hc | Hc].
    + destruct (_ && _) eqn:Hu in Hc; [| by apply elem_of_nil in Hc].
      apply list_elem_of_singleton in Hc. rewrite Hu. done.
    + destruct (_ && _) eqn:Hb in Hc; [| by apply elem_of_nil in Hc].
      apply list_elem_of_singleton in Hc. rewrite Hb, orb_true_r. done.
  - intros (i & t & Ht & Hi & ->). unfold interactable in Hi. rewrite Ht in Hi.
    eexists. split.
    + apply list_elem_of_In, elem_of_lookup_imap. by exists i, t.
    + apply list_elem_of_In. simpl. apply elem_of_app.
      apply orb_true_iff in Hi as [Hi | Hi]; rewrite Hi.
      * left. apply list_elem_of_here.
      * right. apply list_elem_of_here.
Qed.

Lemma math_max_fold a zs :
  ∃ m, foldl (λ a b : option Z, a' ← a; b' ← b; Some (Z.max a' b'))
         (Some a) (Some <$> zs) = Some m
       ∧ a ≤ m ∧ (∀ z, z ∈ zs → z ≤ m) ∧ (m = a ∨ m ∈ zs).
Proof.
  revert a. induction zs as [| z zs IH]; intros a; simpl.
  - exists a. split_and!; [done | lia | | by left].
    intros z Hz. by apply elem_of_nil in Hz.
  - destruct (IH (Z.max a z)) as (m & Hm & Ha & Hall & Hin).
    exists m. split_and!; [done | lia | |].
    + intros z' [-> | Hz']%elem_of_cons; [lia | by apply Hall].
    + destruct Hin as [-> | Hin].
      * destruct (Z.max_spec a z) as [[_ ->] | [_ ->]];
          [right; apply list_elem_of_here | by left].
      * right. by apply list_elem_of_further.
Qed.

Lemma math_max_spec zs :
  zs ≠ [] →
  ∃ m, math_max (Some <$> zs) = Some m ∧ m ∈ zs ∧ ∀ z, z ∈ zs → z ≤ m.
Proof.
  destruct zs as [| a zs]; [done |]. intros _. simpl.
  destruct (math_max_fold a zs) as (m & Hm & Ha & Hall & Hin).
  exists m. split_and!; [done | |].
  - destruct Hin as [-> | Hin];
      [apply list_elem_of_here | by apply list_elem_of_further].
  - intros z [-> | Hz]%elem_of_cons; [done | by apply Hall].
Qed.

Lemma candidates_precs tokens :
  List.map red_prec (candidates tokens)
  = Some <$> ((λ c, rank_at tokens (red_idx c)) <$> candidates tokens).
Proof.
  rewrite <- list_fmap_compose. change (List.map ?f ?l) with (f <$> l).
  apply list_fmap_ext. intros k c Hc.
  apply list_elem_of_lookup_2, candidates_elem in Hc
    as (i & t & Ht & Hi & ->). simpl.
  unfold rank_at. rewrite Ht. simpl.
  apply interactable_token in Hi as (t' & Ht' & Hop).
  assert (t' = t) as -> by congruence.
  destruct Hop as [-> | Hop]; [done |].
  apply PRECEDENCE_binop in Hop as [_ [p ->]]. done.
Qed.

(** The maximum that [handleInteraction] computes is the maximum rank among
    the reducible tokens. *)
Lemma candidates_max tokens idx :
  interactable tokens idx = true →
  ∃ m, math_max (List.map red_prec (candidates tokens)) = Some m
       ∧ is_max_rank tokens m.
Proof.
  intros Hidx. rewrite candidates_precs.
  destruct (interactable_token _ _ Hidx) as (t & Ht & _).
  assert (Hin : Reducible idx t (PRECEDENCE t) ∈ candidates tokens).
  { apply candidates_elem. by exists idx, t. }
  destruct (math_max_spec ((λ c, rank_at tokens (red_idx c)) <$> candidates tokens))
    as (m & Hm & Hmin & Hall).
  { intros Hnil. apply fmap_nil_inv in Hnil. rewrite Hnil in Hin.
    by apply elem_of_nil in Hin. }
  exists m. split; [done |]. split.
  - apply list_elem_of_fmap in Hmin as (c & -> & Hc).
    apply candidates_elem in Hc as (i & u & Hu & Hi & ->). by exists i.
  - intros j Hj. apply Hall.
    destruct (interactable_token _ _ Hj) as (u & Hu & _).
    apply list_elem_of_fmap. exists (Reducible j u (PRECEDENCE u)).
    split; [done |]. apply candidates_elem. by exists j, u.
Qed.

Lemma rank_at_PRECEDENCE tokens idx :
  interactable tokens idx = true →
  tokens !! idx ≫= PRECEDENCE = Some (rank_at tokens idx).
Proof.
  intros (t & Ht & Hop)%interactable_token. unfold rank_at. rewrite Ht. simpl.
  destruct Hop as [-> | Hop]; [done |].
  apply PRECEDENCE_binop in Hop as [_ [p ->]]. done.
Qed.

(** The three outcomes of [handleInteraction] on a reducible token. *)
Lemma handleInteraction_cases idx tokens st :
  interactable tokens idx = true →
  ∃ m, is_max_rank tokens m ∧ rank_at tokens idx ≤ m ∧
    handleInteraction idx tokens st =
      if decide (rank_at tokens idx < m)
      then EvalState (history st) ORDER_MSG
      else addToHistory (reduced_string idx tokens)
             (EvalState (history st) (js "")).
Proof.
  intros Hidx. destruct (candidates_max _ _ Hidx) as (m & Hm & Hmax).
  exists m. split; [done |]. split; [by apply Hmax |].
  unfold handleInteraction. cbn zeta.
  rewrite decide_False; cycle 1.
  { destruct (candidates tokens); [done | simpl; lia]. }
  rewrite Hm, (rank_at_PRECEDENCE _ _ Hidx).
  destruct (Z.ltb_spec (rank_at tokens idx) m) as [Hlt | Hge].
  - by rewrite decide_True.
  - rewrite (decide_False (P := rank_at tokens idx < m)) by lia.
    unfold reduced_string.
    by destruct (decide (tokens !! idx = Some SYMBOLS.NOT)).
Qed.

(** C4. When a reducible token is selected, its rank is at most the maximum
    rank among the reducible tokens; below the maximum the move is rejected
    with the advisory message and the history (so the token sequence) is
    unchanged; at the maximum the reduction fires and one entry is added.
    On [1 ∧ 0 ∨ 1] the selection of [∨] is rejected, that of [∧] gives
    [0 ∨ 1] and then [∨] gives [1]. *)
Theorem C4_strict_ordering (idx : nat) (tokens : list jsstring) (st : eval_state) :
  (interactable tokens idx = true →
   ∃ m, is_max_rank tokens m ∧ rank_at tokens idx ≤ m
     ∧ (rank_at tokens idx < m →
        handleInteraction idx tokens st = EvalState (history st) ORDER_MSG)
     ∧ (rank_at tokens idx = m →
        ∃ e, handleInteraction idx tokens st
             = EvalState (history st ++ [e]) (js ""))
     ∧ (history (handleInteraction idx tokens st) ≠ history st →
        rank_at tokens idx = m))
  ∧ current_tokens (session (js "P ∧ Q ∨ R") (js "1 ∧ 0 ∨ 1"))
      = [js "1"; js "∧"; js "0"; js "∨"; js "1"]
  ∧ click 3 (session (js "P ∧ Q ∨ R") (js "1 ∧ 0 ∨ 1"))
      = EvalState (history (session (js "P ∧ Q ∨ R") (js "1 ∧ 0 ∨ 1"))) ORDER_MSG
  ∧ content <$> last (history (click 1 (session (js "P ∧ Q ∨ R") (js "1 ∧ 0 ∨ 1"))))
      = Some (js "0 ∨ 1")
  ∧ content <$> last (history (click 1 (click 1
        (session (js "P ∧ Q ∨ R") (js "1 ∧ 0 ∨ 1")))))
      = Some (js "1").
Proof.
  split; [| split_and!; reflexivity].
  intros Hidx.
  destruct (handleInteraction_cases idx tokens st Hidx) as (m & Hmax & Hle & ->).
  exists m. split_and!; try done.
  - intros Hlt. by rewrite decide_True.
  - intros Heq. rewrite decide_False by lia. by eexists.
  - case_decide; [done | lia].
Qed.

Lemma C4_strict_ordering_witness :
  ∃ m, is_max_rank [js "1"; js "∧"; js "0"; js "∨"; js "1"] m
    ∧ rank_at [js "1"; js "∧"; js "0"; js "∨"; js "1"] 3 ≤ m
    ∧ (rank_at [js "1"; js "∧"; js "0"; js "∨"; js "1"] 3 < m →
       handleInteraction 3 [js "1"; js "∧"; js "0"; js "∨"; js "1"]
         (session (js "P ∧ Q ∨ R") (js "1 ∧ 0 ∨ 1"))
       = EvalState (history (session (js "P ∧ Q ∨ R") (js "1 ∧ 0 ∨ 1"))) ORDER_MSG)
    ∧ (rank_at [js "1"; js "∧"; js "0"; js "∨"; js "1"] 3 = m →
       ∃ e, handleInteraction 3 [js "1"; js "∧"; js "0"; js "∨"; js "1"]
              (session (js "P ∧ Q ∨ R") (js "1 ∧ 0 ∨ 1"))
            = EvalState (history (session (js "P ∧ Q ∨ R") (js "1 ∧ 0 ∨ 1")) ++ [e])
                (js ""))
    ∧ (history (handleInteraction 3 [js "1"; js "∧"; js "0"; js "∨"; js "1"]
                  (session (js "P ∧ Q ∨ R") (js "1 ∧ 0 ∨ 1")))
       ≠ history (session (js "P ∧ Q ∨ R") (js "1 ∧ 0 ∨ 1")) →
       rank_at [js "1"; js "∧"; js "0"; js "∨"; js "1"] 3 = m).
Proof.
  apply (proj1 (C4_strict_ordering 3 [js "1"; js "∧"; js "0"; js "∨"; js "1"]
                  (session (js "P ∧ Q ∨ R") (js "1 ∧ 0 ∨ 1")))).
  reflexivity.
Defined.

Lemma normalize_loop_iter fuel s :
  ∃ k, normalize_loop fuel s = Nat.iter k strip_literals s.
Proof.
  revert s. induction fuel as [| f IH]; intros s; simpl.
  - by exists 0%nat.
  - case_decide; [by exists 0%nat |].
    destruct (IH (strip_literals s)) as [k Hk]. exists (S k).
    rewrite Hk. clear. induction k as [| k IHk]; simpl; [done |].
    by rewrite IHk.
Qed.

(** [handleInteraction] leaves the history as it is or records one string
    through [addToHistory]. *)
Lemma handleInteraction_history idx tokens st :
  history (handleInteraction idx tokens st) = history st
  ∨ ∃ newStr, handleInteraction idx tokens st
              = addToHistory newStr (EvalState (history st) (js "")).
Proof.
  unfold handleInteraction. cbn zeta.
  case_decide; [by left |].
  destruct (match _ with Some p => _ | None => _ end); [by left |].
  right. case_decide; eauto.
Qed.

(** An accepted reduction records the string [reduced_string] through
    [addToHistory]. *)
Lemma handleInteraction_accepted idx tokens st :
  history (handleInteraction idx tokens st) ≠ history st →
  handleInteraction idx tokens st
  = addToHistory (reduced_string idx tokens) (EvalState (history st) (js "")).
Proof.
  unfold handleInteraction, reduced_string. cbn zeta.
  case_decide; [by intros Hne; exfalso; apply Hne |].
  destruct (match _ with Some p => _ | None => _ end);
    [by intros Hne; exfalso; apply Hne |].
  intros _. by case_decide.
Qed.

(** ** The rewriting of parenthesized literals *)

Lemma has_paren_literal_collapse s :
  has_paren_literal s ↔ ∃ s', collapse s s'.
Proof.
  split.
  - intros (before & ws1 & d & ws2 & after & ? & ? & ? & ?).
    exists (before ++ [d] ++ after), before, ws1, d, ws2, after. done.
  - intros (s' & before & ws1 & d & ws2 & after & ? & ? & ? & ? & _).
    by exists before, ws1, d, ws2, after.
Qed.

Lemma collapse_cons c s s' : collapse s s' → collapse (c :: s) (c :: s').
Proof.
  intros (before & ws1 & d & ws2 & after & -> & ? & ? & ? & ->).
  by exists (c :: before), ws1, d, ws2, after.
Qed.

Lemma collapses_cons c s s' : collapses s s' → collapses (c :: s) (c :: s').
Proof.
  induction 1 as [s | s s' s'' Hstep _ IH]; [constructor |].
  eapply collapses_step; [by apply collapse_cons | done].
Qed.

Lemma collapses_trans s s' s'' :
  collapses s s' → collapses s' s'' → collapses s s''.
Proof.
  induction 1 as [s | s t s' Hstep _ IH]; [done |].
  intros H. eapply collapses_step; [done | by apply IH].
Qed.

(** One call of [replace] rewrites parenthesized literals and keeps the
    rest of the string. *)
Lemma collapses_strip_literals s : collapses s (strip_literals s).
Proof.
  remember (length s) as n eqn:Hn. revert s Hn.
  induction (lt_wf n) as [n _ IH]. intros s ->.
  rewrite strip_literals_unfold. destruct s as [| c rest]; [constructor |].
  destruct (match_paren_literal (c :: rest)) as [[d after] |] eqn:Hm.
  - pose proof (match_paren_literal_length _ _ _ Hm) as Hlen.
    apply match_paren_literal_spec in Hm as (ws1 & ws2 & Hs & Hws1 & Hws2 & Hd).
    eapply collapses_step.
    + exists [], ws1, d, ws2, after. split_and!; [exact Hs | done ..].
    + apply collapses_cons. apply (IH (length after)); [simpl in *; lia | done].
  - apply collapses_cons. apply (IH (length rest)); [simpl; lia | done].
Qed.

Lemma collapses_iter k s : collapses s (Nat.iter k strip_literals s).
Proof.
  induction k as [| k IH]; simpl; [constructor |].
  eapply collapses_trans; [exact IH | apply collapses_strip_literals].
Qed.

(** The string that [addToHistory] records is obtained by rewriting
    parenthesized literals. *)
Lemma collapses_normalize s : collapses s (normalize s).
Proof.
  unfold normalize. destruct (normalize_loop_iter (S (length s)) s) as [k ->].
  apply collapses_iter.
Qed.

Lemma collapses_normal s s' :
  ¬ has_paren_literal s → collapses s s' → s' = s.
Proof.
  intros Hs H. destruct H as [s | s t s' Hstep _]; [done |].
  exfalso. apply Hs, has_paren_literal_collapse. by exists t.
Qed.

(** C7. The string recorded by [addToHistory] is obtained from the new
    string by rewriting parenthesized literals, [( v )] to [v] with the
    rest of the string kept, until none remains: it is reached by a sequence
    of such rewritings, it holds no parenthesized literal (none can be
    rewritten in it), and it is the new string itself when that holds none.
    The loop of the code reaches it by repeating the replacement, of which
    it is a fixed point.  Every accepted reduction records in this way the
    string that the reduction builds, and reducing [¬] in [(¬ 1)] records
    [0]. *)
Theorem C7_parenthesis_normalization
    (newStr : jsstring) (idx : nat) (tokens : list jsstring) (st : eval_state) :
  (∃ e, history (addToHistory newStr st) = history st ++ [e]
        ∧ content e = normalize newStr)
  ∧ collapses newStr (normalize newStr)
  ∧ ¬ has_paren_literal (normalize newStr)
  ∧ (∀ s', ¬ collapse (normalize newStr) s')
  ∧ (¬ has_paren_literal newStr → normalize newStr = newStr)
  ∧ (∃ k, normalize newStr = Nat.iter k strip_literals newStr)
  ∧ strip_literals (normalize newStr) = normalize newStr
  ∧ (history (handleInteraction idx tokens st) ≠ history st →
     ∃ e, history (handleInteraction idx tokens st) = history st ++ [e]
          ∧ collapses (reduced_string idx tokens) (content e)
          ∧ ¬ has_paren_literal (content e)
          ∧ strip_literals (content e) = content e)
  ∧ current_tokens (session (js "(¬ P)") (js "(¬ 1)"))
      = [js "("; js "¬"; js "1"; js ")"]
  ∧ reduced_string 1 [js "("; js "¬"; js "1"; js ")"] = js "( 0 )"
  ∧ content <$> last (history (click 1 (session (js "(¬ P)") (js "(¬ 1)"))))
      = Some (js "0").
Proof.
  assert (Hclean : ∀ s, ¬ has_paren_literal (normalize s)).
  { intros s. apply strip_literals_fixed_clean, normalize_fixed. }
  split_and!; try reflexivity.
  - by eexists.
  - apply collapses_normalize.
  - apply Hclean.
  - intros s' Hs'. apply (Hclean newStr), has_paren_literal_collapse. by exists s'.
  - intros Hno. apply (collapses_normal newStr); [done |].
    apply collapses_normalize.
  - apply normalize_loop_iter.
  - apply normalize_fixed.
  - intros Hne. rewrite (handleInteraction_accepted idx tokens st Hne).
    eexists. split; [reflexivity |]. simpl. split_and!.
    + apply collapses_normalize.
    + apply Hclean.
    + apply normalize_fixed.
Qed.

Lemma C7_parenthesis_normalization_witness :
  normalize (js "0 ∨ 1") = js "0 ∨ 1"
  ∧ ∃ e, history (handleInteraction 1 [js "("; js "¬"; js "1"; js ")"]
                    (session (js "(¬ P)") (js "(¬ 1)")))
         = history (session (js "(¬ P)") (js "(¬ 1)")) ++ [e]
         ∧ collapses (reduced_string 1 [js "("; js "¬"; js "1"; js ")"])
             (content e)
         ∧ ¬ has_paren_literal (content e)
         ∧ strip_literals (content e) = content e.
Proof.
  destruct (C7_parenthesis_normalization (js "0 ∨ 1") 1
              [js "("; js "¬"; js "1"; js ")"]
              (session (js "(¬ P)") (js "(¬ 1)")))
    as (_ & _ & _ & _ & Hsame & _ & _ & Hacc & _).
  split.
  - apply Hsame. apply strip_literals_fixed_clean. reflexivity.
  - apply Hacc. vm_compute. discriminate.
Defined.

(** ** Words of a string *)

Lemma nonempty_pieces_cons t l :
  nonempty_pieces (t :: l) = flush t ++ nonempty_pieces l.
Proof.
  unfold nonempty_pieces, flush. simpl.
  destruct (decide (t = [])) as [Ht | Ht].
  - by rewrite bool_decide_eq_true_2.
  - by rewrite bool_decide_eq_false_2.
Qed.

Lemma nonempty_pieces_id l : Forall (λ t, t ≠ []) l → nonempty_pieces l = l.
Proof.
  induction 1 as [| t l Ht _ IH]; [done |].
  rewrite nonempty_pieces_cons, IH. unfold flush. by rewrite decide_False.
Qed.

Lemma words_of_gap s : words_of true [] s = words_of false [] s.
Proof.
  unfold words_of. destruct s as [| c rest]; [done |]. simpl.
  destruct (is_ws c); [| done]. by rewrite nonempty_pieces_cons.
Qed.

Lemma words_of_ws cur c s :
  is_ws c = true →
  words_of false cur (c :: s) = flush cur ++ words_of false [] s.
Proof.
  intros Hc. rewrite <- words_of_gap. unfold words_of. simpl. rewrite Hc.
  by rewrite nonempty_pieces_cons.
Qed.

Lemma words_of_char cur c s :
  is_ws c = false → words_of false cur (c :: s) = words_of false (cur ++ [c]) s.
Proof. intros Hc. unfold words_of. simpl. by rewrite Hc. Qed.

Lemma words_of_nil cur : words_of false cur [] = flush cur.
Proof.
  unfold words_of. cbn [split_ws]. by rewrite nonempty_pieces_cons, app_nil_r.
Qed.

(** A run of characters without white space is read into the current
    piece. *)
Lemma words_of_run cur t s :
  Forall (λ c, is_ws c = false) t →
  words_of false cur (t ++ s) = words_of false (cur ++ t) s.
Proof.
  intros Ht. revert cur. induction Ht as [| c t Hc Ht IH]; intros cur.
  - by rewrite app_nil_r.
  - simpl. rewrite words_of_char by done. rewrite IH.
    by rewrite <- app_assoc.
Qed.

Lemma words_of_all_ws cur s :
  Forall (λ c, is_ws c = true) s → words_of false cur s = flush cur.
Proof.
  intros Hs. revert cur. induction Hs as [| c s Hc _ IH]; intros cur.
  - apply words_of_nil.
  - rewrite words_of_ws by done. rewrite IH. apply app_nil_r.
Qed.

Lemma trim_end_nil s : trim_end s = [] → Forall (λ c, is_ws c = true) s.
Proof.
  induction s as [| c s IH]; simpl; [done |].
  destruct (trim_end s) eqn:Hs; [| done].
  destruct (is_ws c) eqn:Hc; [| done]. intros _. constructor; auto.
Qed.

Lemma words_of_trim_end cur s :
  words_of false cur (trim_end s) = words_of false cur s.
Proof.
  revert cur. induction s as [| c s IH]; intros cur; [done |].
  cbn [trim_end]. destruct (trim_end s) as [| d r] eqn:Hs.
  - apply trim_end_nil in Hs. destruct (is_ws c) eqn:Hc.
    + rewrite words_of_nil, words_of_ws, words_of_all_ws by done.
      by rewrite app_nil_r.
    + rewrite (words_of_char cur c []), (words_of_char cur c s) by done.
      by rewrite words_of_nil, words_of_all_ws.
  - destruct (is_ws c) eqn:Hc.
    + rewrite (words_of_ws cur c (d :: r)), (words_of_ws cur c s) by done.
      by rewrite IH.
    + rewrite (words_of_char cur c (d :: r)), (words_of_char cur c s) by done.
      by rewrite IH.
Qed.

Lemma words_of_trim_start s :
  words_of false [] (trim_start s) = words_of false [] s.
Proof.
  induction s as [| c s IH]; [done |]. simpl.
  destruct (is_ws c) eqn:Hc; [| done].
  by rewrite words_of_ws, IH.
Qed.

Lemma words_of_trim s : words_of false [] (trim s) = words_of false [] s.
Proof. unfold trim. by rewrite words_of_trim_end, words_of_trim_start. Qed.

Lemma trim_end_fixed_cons c s :
  trim_end (c :: s) = c :: s →
  trim_end s = s ∧ (s = [] → is_ws c = false).
Proof.
  cbn [trim_end]. destruct (trim_end s) as [| d r] eqn:Hs.
  - destruct (is_ws c); [done |]. intros [= <-]. done.
  - intros [= <-]. done.
Qed.

(** A string without white space at its ends has no empty piece. *)
Lemma split_ws_pieces t :
  trim_end t = t →
  (∀ cur, (t ≠ [] ∨ cur ≠ []) →
          (cur = [] → ∀ c r, t = c :: r → is_ws c = false) →
          Forall (λ p, p ≠ []) (split_ws false cur t))
  ∧ (t ≠ [] → Forall (λ p, p ≠ []) (split_ws true [] t)).
Proof.
  induction t as [| c t IH]; intros Hfix.
  - split; [| done]. intros cur [? | Hcur] _; [done |]. by repeat constructor.
  - apply trim_end_fixed_cons in Hfix as [Hfix Hlast].
    destruct (IH Hfix) as [IHf IHt]. split.
    + intros cur _ Hhead. simpl. destruct (is_ws c) eqn:Hc.
      * assert (t ≠ []) by (intros ->; specialize (Hlast eq_refl); congruence).
        constructor; [| by apply IHt].
        intros ->. specialize (Hhead eq_refl c t eq_refl). congruence.
      * apply IHf; [right; by destruct cur | by destruct cur].
    + intros _. simpl. destruct (is_ws c) eqn:Hc.
      * apply IHt. intros ->. specialize (Hlast eq_refl). congruence.
      * apply IHf; [by right | done].
Qed.

Lemma trim_end_cons c s :
  trim_end (c :: s) =
    match trim_end s with
    | [] => if is_ws c then [] else [c]
    | rest' => c :: rest'
    end.
Proof. done. Qed.

Lemma trim_end_idem s : trim_end (trim_end s) = trim_end s.
Proof.
  induction s as [| c s IH]; [done |]. rewrite trim_end_cons.
  destruct (trim_end s) as [| d r] eqn:Hs.
  - destruct (is_ws c) eqn:Hc; [done |]. simpl. by rewrite Hc.
  - by rewrite trim_end_cons, IH.
Qed.

Lemma trim_end_head s c r : trim_end s = c :: r → ∃ r', s = c :: r'.
Proof.
  destruct s as [| d s]; [done |]. cbn [trim_end].
  destruct (trim_end s); [destruct (is_ws d) |]; intros [= -> _]; eauto.
Qed.

Lemma trim_start_head s c r : trim_start s = c :: r → is_ws c = false.
Proof.
  induction s as [| d s IH]; [done |]. simpl.
  destruct (is_ws d) eqn:Hd; [done |]. by intros [= <- _].
Qed.

Lemma split_ws_not_nil gap cur s : split_ws gap cur s ≠ [].
Proof.
  revert gap cur. induction s as [| c s IH]; intros gap cur; simpl; [done |].
  destruct (is_ws c); [destruct gap |]; auto.
Qed.

(** [str.trim().split(/\s+/)] gives the words of the string, or one empty
    piece when there is no word. *)
Lemma split_ws_trim s :
  split_ws false [] (trim s) =
    match words_of false [] s with
    | [] => [[]]
    | ws => ws
    end.
Proof.
  rewrite <- (words_of_trim s).
  destruct (trim s) as [| c r] eqn:Ht; [done |].
  assert (Hall : Forall (λ p, p ≠ []) (split_ws false [] (c :: r))).
  { apply split_ws_pieces.
    - rewrite <- Ht. apply trim_end_idem.
    - by left.
    - intros _ c' r' [= <- <-]. unfold trim in Ht.
      destruct (trim_end_head _ _ _ Ht) as [r' Hr'].
      by apply trim_start_head in Hr'. }
  unfold words_of. rewrite nonempty_pieces_id by done.
  destruct (split_ws false [] (c :: r)) eqn:Hs; [| done].
  by apply split_ws_not_nil in Hs.
Qed.

(** ** Tokens of a string *)

Lemma getTokens_words_of str :
  getTokens str =
    if decide (str = []) then []
    else match words_of false [] (pad_parens str) with
         | [] => [[]]
         | ws => ws
         end.
Proof. unfold getTokens. case_decide; [done |]. apply split_ws_trim. Qed.

Lemma replace_char_app c by_ a b :
  replace_char c by_ (a ++ b) = replace_char c by_ a ++ replace_char c by_ b.
Proof. unfold replace_char. apply flat_map_app. Qed.

Lemma pad_parens_app a b : pad_parens (a ++ b) = pad_parens a ++ pad_parens b.
Proof. unfold pad_parens. by rewrite !replace_char_app. Qed.

Lemma pad_parens_cons c s : pad_parens (c :: s) = pad_parens [c] ++ pad_parens s.
Proof. apply (pad_parens_app [c] s). Qed.

Lemma pad_parens_plain_char c :
  c ≠ 40%N → c ≠ 41%N → pad_parens [c] = [c].
Proof.
  intros H40 H41. unfold pad_parens, replace_char. simpl.
  rewrite (decide_False (P := c = 40%N)) by done. simpl.
  by rewrite (decide_False (P := c = 41%N)) by done.
Qed.

Lemma pad_parens_plain t : Forall plain_char t → pad_parens t = t.
Proof.
  induction 1 as [| c t (_ & H40 & H41) _ IH]; [done |].
  rewrite pad_parens_cons, IH. by rewrite pad_parens_plain_char.
Qed.

Lemma plain_char_not_ws t :
  Forall plain_char t → Forall (λ c, is_ws c = false) t.
Proof. intros H. eapply Forall_impl; [done |]. by intros c (? & _). Qed.

Lemma word_not_ws t : word t → Forall (λ c, is_ws c = false) t.
Proof.
  intros [-> | [-> | [_ Ht]]]; [by repeat constructor .. |].
  by apply plain_char_not_ws.
Qed.

Lemma word_nonempty t : word t → t ≠ [].
Proof. by intros [-> | [-> | [? _]]]. Qed.

(** The words of a padded string are tokens: a parenthesis is always alone. *)
Lemma words_of_pad_parens cur s :
  Forall plain_char cur → Forall word (words_of false cur (pad_parens s)).
Proof.
  assert (Hflush : ∀ cur, Forall plain_char cur → Forall word (flush cur)).
  { intros c Hc. unfold flush. case_decide; [constructor |].
    constructor; [| constructor]. right; right. done. }
  revert cur. induction s as [| c s IH]; intros cur Hcur.
  - rewrite words_of_nil. by apply Hflush.
  - rewrite pad_parens_cons.
    destruct (decide (c = 40%N)) as [-> | H40];
      [| destruct (decide (c = 41%N)) as [-> | H41]].
    + change (pad_parens [40%N]) with [32%N; 40%N; 32%N]. simpl.
      rewrite words_of_ws, words_of_char, words_of_ws by done.
      apply Forall_app. split; [by apply Hflush |].
      apply Forall_app. split; [| by apply IH].
      constructor; [by left | constructor].
    + change (pad_parens [41%N]) with [32%N; 41%N; 32%N]. simpl.
      rewrite words_of_ws, words_of_char, words_of_ws by done.
      apply Forall_app. split; [by apply Hflush |].
      apply Forall_app. split; [| by apply IH].
      constructor; [right; by left | constructor].
    + rewrite pad_parens_plain_char by done. simpl.
      destruct (is_ws c) eqn:Hc.
      * rewrite words_of_ws by done.
        apply Forall_app. split; [by apply Hflush | by apply IH].
      * rewrite words_of_char by done. apply IH.
        apply Forall_app. split; [done |]. by repeat constructor.
Qed.

(** The tokens of any string are words, unless the string has none. *)
Lemma getTokens_words str :
  getTokens str = [] ∨ getTokens str = [[]] ∨ Forall word (getTokens str).
Proof.
  rewrite getTokens_words_of. case_decide; [by left |]. right.
  pose proof (words_of_pad_parens [] str ltac:(constructor)) as Hw.
  destruct (words_of false [] (pad_parens str)); [by left | by right].
Qed.

Lemma pad_parens_word t :
  word t →
  pad_parens t = (if decide (t = LPAREN ∨ t = RPAREN) then js " " else [])
                 ++ t ++
                 (if decide (t = LPAREN ∨ t = RPAREN) then js " " else []).
Proof.
  intros [-> | [-> | [_ Ht]]]; [done | done |].
  rewrite decide_False.
  - rewrite app_nil_r. by apply pad_parens_plain.
  - intros [-> | ->]; apply Forall_cons in Ht as [(_ & ? & ?) _]; done.
Qed.

(** A word in front of a string, then white space or the end. *)
Lemma words_of_word t s :
  word t → (s = [] ∨ ∃ c r, s = c :: r ∧ is_ws c = true) →
  words_of false [] (pad_parens t ++ s) = t :: words_of false [] s.
Proof.
  intros Ht Hs. rewrite pad_parens_word by done.
  assert (Hrun : words_of false [] (t ++ s) = t :: words_of false [] s).
  { rewrite words_of_run by (by apply word_not_ws). simpl.
    destruct Hs as [-> | (c & r & -> & Hc)].
    - rewrite words_of_nil. unfold flush.
      rewrite decide_False by (by apply word_nonempty). done.
    - rewrite words_of_ws by done. unfold flush.
      rewrite decide_False by (by apply word_nonempty).
      by rewrite (words_of_ws [] c r). }
  case_decide; [| simpl; rewrite app_nil_r; exact Hrun].
  rewrite <- !app_assoc. change (js " " ++ ?x) with (32%N :: x).
  rewrite words_of_ws by done. simpl.
  rewrite words_of_run by (by apply word_not_ws). simpl.
  rewrite words_of_ws by done. unfold flush.
  by rewrite decide_False by (by apply word_nonempty).
Qed.

Lemma join_space_cons t rest :
  rest ≠ [] → join_space (t :: rest) = t ++ js " " ++ join_space rest.
Proof. by destruct rest. Qed.

Lemma words_of_join_space tokens :
  Forall word tokens → words_of false [] (pad_parens (join_space tokens)) = tokens.
Proof.
  induction 1 as [| t rest Ht Hrest IH]; [done |].
  destruct rest as [| u rest'].
  - simpl. rewrite <- (app_nil_r (pad_parens t)).
    rewrite words_of_word by (done || by left). done.
  - rewrite join_space_cons by done. rewrite !pad_parens_app.
    rewrite words_of_word; [| done | right; by eexists _, _].
    change (pad_parens (js " ")) with [32%N]. cbn [app].
    rewrite words_of_ws by done. change (flush [] ++ ?x) with x.
    by rewrite IH.
Qed.

Lemma join_space_nonempty tokens :
  tokens ≠ [] → Forall word tokens → join_space tokens ≠ [].
Proof.
  intros Hne Hw. destruct Hw as [| t rest Ht _]; [done |].
  apply word_nonempty in Ht. destruct rest; simpl; [done |].
  by destruct t.
Qed.

(** Joining tokens with spaces and reading them again gives the tokens. *)
Lemma getTokens_join_space tokens :
  tokens ≠ [] → Forall word tokens → getTokens (join_space tokens) = tokens.
Proof.
  intros Hne Hw. rewrite getTokens_words_of.
  rewrite decide_False by (by apply join_space_nonempty).
  rewrite words_of_join_space by done. by destruct tokens.
Qed.

(** ** The string of a reduction *)

Lemma join_space_tail t rest : join_space (t :: rest) = t ++ tail_join rest.
Proof. destruct rest; simpl; [by rewrite app_nil_r | done]. Qed.

Lemma join_space_app a b :
  a ≠ [] → b ≠ [] →
  join_space (a ++ b) = join_space a ++ js " " ++ join_space b.
Proof.
  intros Ha Hb. induction a as [| t a IH]; [done |].
  destruct a as [| u a'].
  - simpl. by destruct b.
  - change ((t :: u :: a') ++ b) with (t :: (u :: a') ++ b).
    rewrite !join_space_cons by done. rewrite IH by done.
    by rewrite <- !app_assoc.
Qed.

Lemma trim_start_fixed c s : is_ws c = false → trim_start (c :: s) = c :: s.
Proof. intros Hc. simpl. by rewrite Hc. Qed.

Lemma trim_end_snoc_ws s c : is_ws c = true → trim_end (s ++ [c]) = trim_end s.
Proof.
  intros Hc. induction s as [| d s IH]; simpl.
  - by rewrite Hc.
  - by rewrite IH.
Qed.

Lemma trim_end_run t :
  t ≠ [] → Forall (λ c, is_ws c = false) t → trim_end t = t.
Proof.
  intros Hne Ht. induction Ht as [| c t Hc Ht IH]; [done |].
  rewrite trim_end_cons. destruct t as [| d t'].
  - simpl. by rewrite Hc.
  - by rewrite IH.
Qed.

Lemma trim_end_app_run s t :
  t ≠ [] → Forall (λ c, is_ws c = false) t → trim_end (s ++ t) = s ++ t.
Proof.
  intros Hne Ht. induction s as [| c s IH]; [by apply trim_end_run |].
  simpl app. rewrite trim_end_cons, IH. destruct (s ++ t) eqn:Hs; [| done].
  by destruct s, t.
Qed.

Lemma join_space_snoc l t :
  l ≠ [] → join_space (l ++ [t]) = (join_space l ++ js " ") ++ t.
Proof. intros Hl. rewrite join_space_app by done. by rewrite <- app_assoc. Qed.

(** A joined string of words has no white space at its ends. *)
Lemma trim_join_space tokens :
  tokens ≠ [] → Forall word tokens → trim (join_space tokens) = join_space tokens.
Proof.
  intros Hne Hw. unfold trim.
  assert (Hhead : ∃ c r, join_space tokens = c :: r ∧ is_ws c = false).
  { destruct Hw as [| t rest Ht _]; [done |].
    rewrite join_space_tail.
    pose proof (word_nonempty _ Ht). pose proof (word_not_ws _ Ht) as Hnw.
    destruct t as [| c t']; [done |]. apply Forall_cons in Hnw as [Hc _].
    by eexists _, _. }
  destruct Hhead as (c & r & Hj & Hc). rewrite Hj, trim_start_fixed by done.
  rewrite <- Hj.
  destruct (exists_last Hne) as (l & t & ->).
  apply Forall_app in Hw as [_ Ht]. apply Forall_cons in Ht as [Ht _].
  destruct (decide (l = [])) as [-> | Hl].
  - simpl. apply trim_end_run; [by apply word_nonempty | by apply word_not_ws].
  - rewrite join_space_snoc by done.
    apply trim_end_app_run; [by apply word_nonempty | by apply word_not_ws].
Qed.

Lemma trim_spaces_around x (lead trail : bool) :
  x ≠ [] → trim x = x →
  trim ((if lead then js " " else []) ++ x ++ (if trail then js " " else [])) = x.
Proof.
  intros Hne Hx.
  assert (Hhead : ∃ c r, x = c :: r ∧ is_ws c = false).
  { destruct x as [| c r]; [done |]. exists c, r. split; [done |].
    unfold trim in Hx. destruct (trim_end_head _ _ _ Hx) as [r' Hr'].
    by apply trim_start_head in Hr'. }
  destruct Hhead as (c & r & -> & Hc).
  assert (Hend : trim_end (c :: r) = c :: r).
  { unfold trim in Hx. by rewrite trim_start_fixed in Hx. }
  assert (Htrail : trim ((c :: r) ++ (if trail then js " " else [])) = c :: r).
  { unfold trim. simpl app. rewrite trim_start_fixed by done.
    destruct trail.
    - change (c :: r ++ js " ") with ((c :: r) ++ [32%N]).
      by rewrite trim_end_snoc_ws.
    - by rewrite app_nil_r. }
  destruct lead; [| done].
  unfold trim in *. simpl app in *. simpl trim_start.
  rewrite Hc. by rewrite trim_start_fixed in Htrail by done.
Qed.

(** The string of an accepted reduction is the joined string of the tokens
    with the result in place of the operator and its operands. *)
Lemma trim_reduction a r b :
  Forall word a → word r → Forall word b →
  trim (join_space a ++ js " " ++ r ++ js " " ++ join_space b)
  = join_space (a ++ [r] ++ b).
Proof.
  intros Ha Hr Hb.
  assert (Hall : Forall word (a ++ [r] ++ b)).
  { apply Forall_app. split; [done |]. by constructor. }
  assert (Hne : a ++ [r] ++ b ≠ []) by (by destruct a).
  pose proof (trim_join_space _ Hne Hall) as Htrim.
  pose proof (join_space_nonempty _ Hne Hall) as Hjne.
  pose proof (trim_spaces_around _ (bool_decide (a = [])) (bool_decide (b = []))
                Hjne Htrim) as Hsp.
  etrans; [| exact Hsp]. f_equal. clear Hsp Htrim Hjne Hne Hall Ha Hb Hr.
  destruct a as [| t a']; destruct b as [| u b'].
  - simpl. done.
  - rewrite bool_decide_eq_true_2, bool_decide_eq_false_2 by done.
    change (join_space ([] ++ [r] ++ u :: b')) with (join_space (r :: u :: b')).
    rewrite (join_space_cons r (u :: b')) by done.
    rewrite app_nil_r. by change (join_space [] ++ ?x) with x.
  - rewrite bool_decide_eq_false_2, bool_decide_eq_true_2 by done.
    change ([r] ++ []) with [r].
    rewrite (join_space_app (t :: a') [r]) by done.
    change (join_space [r]) with r. change (join_space []) with (@nil N).
    rewrite app_nil_r. change ([] ++ ?x) with x.
    by rewrite <- !app_assoc.
  - rewrite !bool_decide_eq_false_2 by done. rewrite app_nil_r.
    change ([] ++ ?x) with x.
    rewrite (join_space_app (t :: a') ([r] ++ u :: b')) by done.
    change ([r] ++ u :: b') with (r :: u :: b').
    by rewrite (join_space_cons r (u :: b')) by done.
Qed.

(** ** The normalization on tokens *)

Lemma literal_in_parens_dec t rest :
  {literal_in_parens t rest} + {¬ literal_in_parens t rest}.
Proof.
  unfold literal_in_parens.
  destruct rest as [| v [| c rest']];
    [right; by intros (? & ? & _ & ? & _) .. |].
  destruct (decide (t = LPAREN ∧ c = RPAREN ∧ (v = js "0" ∨ v = js "1")))
    as [(-> & -> & Hv) | Hn].
  - left. by exists v, rest'.
  - right. intros (v' & r' & Ht & [= Hv1 Hc1 Hr1] & Hv). apply Hn. by subst.
Qed.

Lemma tok_strip_match v rest' :
  v = js "0" ∨ v = js "1" →
  tok_strip (LPAREN :: v :: RPAREN :: rest') = v :: tok_strip rest'.
Proof. by intros [-> | ->]. Qed.

Lemma tok_strip_skip t rest :
  ¬ literal_in_parens t rest → tok_strip (t :: rest) = t :: tok_strip rest.
Proof.
  intros Hn. destruct rest as [| v [| c rest']]; [done | done |].
  cbn [tok_strip].
  destruct (bool_decide (t = LPAREN)
            && (bool_decide (v = js "0") || bool_decide (v = js "1"))
            && bool_decide (c = RPAREN)) eqn:Hb; [| done].
  exfalso. apply Hn.
  apply andb_true_iff in Hb as [Hb Hc%bool_decide_eq_true].
  apply andb_true_iff in Hb as [Ht%bool_decide_eq_true Hv].
  apply orb_true_iff in Hv. rewrite !bool_decide_eq_true in Hv.
  subst. by exists v, rest'.
Qed.

Lemma tok_strip_length tokens : (length (tok_strip tokens) ≤ length tokens)%nat.
Proof.
  remember (length tokens) as n eqn:Hn. revert tokens Hn.
  induction (lt_wf n) as [n _ IH]. intros tokens ->.
  destruct tokens as [| t rest]; [done |].
  destruct (literal_in_parens_dec t rest) as [(v & rest' & -> & -> & Hv) | Hn].
  - rewrite tok_strip_match by done. simpl.
    pose proof (IH (length rest') ltac:(simpl; lia) rest' eq_refl). lia.
  - rewrite tok_strip_skip by done. simpl.
    pose proof (IH (length rest) ltac:(simpl; lia) rest eq_refl). lia.
Qed.

Lemma tok_strip_words tokens : Forall word tokens → Forall word (tok_strip tokens).
Proof.
  remember (length tokens) as n eqn:Hn. revert tokens Hn.
  induction (lt_wf n) as [n _ IH]. intros tokens -> Hw.
  destruct tokens as [| t rest]; [done |].
  destruct (literal_in_parens_dec t rest) as [(v & rest' & -> & -> & Hv) | Hn].
  - rewrite tok_strip_match by done.
    apply Forall_cons in Hw as [_ Hw]. apply Forall_cons in Hw as [Hv' Hw].
    apply Forall_cons in Hw as [_ Hw]. constructor; [done |].
    apply (IH (length rest')); [simpl; lia | done | done].
  - rewrite tok_strip_skip by done.
    apply Forall_cons in Hw as [Ht Hw]. constructor; [done |].
    apply (IH (length rest)); [simpl; lia | done | done].
Qed.

Lemma tok_strip_nil tokens : tok_strip tokens = [] → tokens = [].
Proof.
  destruct tokens as [| t rest]; [done |].
  destruct (literal_in_parens_dec t rest) as [(v & rest' & -> & -> & Hv) | Hn].
  - by rewrite tok_strip_match.
  - by rewrite tok_strip_skip.
Qed.

(** Outside of an opening parenthesis nothing is replaced. *)
Lemma strip_literals_skip t s :
  Forall (λ c, c ≠ 40%N) t → strip_literals (t ++ s) = t ++ strip_literals s.
Proof.
  induction 1 as [| c t Hc _ IH]; [done |].
  simpl app. rewrite strip_literals_unfold.
  assert (match_paren_literal (c :: t ++ s) = None) as ->.
  { simpl. by rewrite decide_False. }
  by rewrite IH.
Qed.

Lemma word_head t : word t → ∃ c t', t = c :: t' ∧ is_ws c = false.
Proof.
  intros Ht. pose proof (word_nonempty _ Ht).
  pose proof (word_not_ws _ Ht) as Hnw.
  destruct t as [| c t']; [done |]. apply Forall_cons in Hnw as [Hc _].
  by eexists _, _.
Qed.

Lemma skip_ws_tail_join tokens :
  Forall word tokens → skip_ws (tail_join tokens) = join_space tokens.
Proof.
  intros Hw. destruct Hw as [| t rest Ht _]; [done |].
  unfold tail_join. change (js " " ++ ?x) with (32%N :: x).
  change (skip_ws (32%N :: ?x)) with (skip_ws x).
  rewrite join_space_tail.
  destruct (word_head _ Ht) as (c & t' & -> & Hc).
  simpl app. by rewrite skip_ws_head.
Qed.

Lemma match_paren_literal_join v rest' :
  v = js "0" ∨ v = js "1" →
  match_paren_literal (LPAREN ++ tail_join (v :: RPAREN :: rest'))
  = Some (hd 0%N v, tail_join rest').
Proof.
  intros Hv. apply match_paren_literal_spec. exists [32%N], [32%N].
  split_and!; [| by repeat constructor | by repeat constructor
               | destruct Hv as [-> | ->]; [by left | by right]].
  unfold tail_join at 1. rewrite join_space_tail.
  unfold tail_join at 1. rewrite join_space_tail.
  by destruct Hv as [-> | ->].
Qed.

(** After an opening parenthesis the replacement applies only to a literal
    followed by a closing parenthesis. *)
Lemma match_paren_literal_none rest :
  Forall word rest → ¬ literal_in_parens LPAREN rest →
  match_paren_literal (LPAREN ++ tail_join rest) = None.
Proof.
  intros Hw Hn.
  change (LPAREN ++ ?x) with (40%N :: x). cbn [match_paren_literal].
  rewrite decide_True by done. rewrite skip_ws_tail_join by done.
  destruct Hw as [| v rest1 Hv Hw1]; [done |]. rewrite join_space_tail.
  destruct (word_head _ Hv) as (d & v' & -> & Hd). simpl app. lazy beta iota.
  case_decide as Hd01; [| done].
  assert (Hplain : Forall plain_char (d :: v')).
  { destruct Hv as [Hv | [Hv | [_ Hv]]]; [| | done];
      injection Hv as -> _; by destruct Hd01. }
  apply Forall_cons in Hplain as [_ Hv'].
  destruct v' as [| e v''].
  - simpl app. rewrite skip_ws_tail_join by done.
    destruct Hw1 as [| c rest' Hc Hw']; [done |]. rewrite join_space_tail.
    destruct (word_head _ Hc) as (e & c' & -> & He). simpl app. lazy beta iota.
    case_decide as He41; [| done]. subst e. exfalso. apply Hn.
    exists [d], rest'. split; [done |]. split.
    + do 2 f_equal. destruct Hc as [Hc | [Hc | [_ Hc]]]; [done | done |].
      apply Forall_cons in Hc as [(_ & _ & ?) _]. done.
    + destruct Hd01 as [-> | ->]; [by left | by right].
  - apply Forall_cons in Hv' as [(He & _ & He41) _].
    simpl app. rewrite skip_ws_head by done. by rewrite decide_False.
Qed.

Lemma strip_literals_space s : strip_literals (32%N :: s) = 32%N :: strip_literals s.
Proof. apply (strip_literals_skip [32%N] s). by repeat constructor. Qed.

Lemma strip_literals_lparen x :
  strip_literals (LPAREN ++ x) =
    match match_paren_literal (LPAREN ++ x) with
    | Some (d, after) => d :: strip_literals after
    | None => LPAREN ++ strip_literals x
    end.
Proof. by rewrite strip_literals_unfold. Qed.

(** One pass of the replacement on a joined string is one pass of
    [tok_strip] on its tokens. *)
Lemma strip_literals_join_space tokens :
  Forall word tokens →
  strip_literals (join_space tokens) = join_space (tok_strip tokens).
Proof.
  remember (length tokens) as n eqn:Hn. revert tokens Hn.
  induction (lt_wf n) as [n _ IH]. intros tokens -> Hw.
  destruct tokens as [| t rest]; [done |].
  assert (Htail : ∀ l, (length l < length (t :: rest))%nat → Forall word l →
            strip_literals (tail_join l) = tail_join (tok_strip l)).
  { intros l Hl Hwl. destruct l as [| u l']; [done |].
    unfold tail_join at 1. change (js " " ++ ?x) with (32%N :: x).
    rewrite strip_literals_space.
    rewrite (IH (length (u :: l')) Hl (u :: l') eq_refl Hwl).
    destruct (tok_strip (u :: l')) eqn:Hts; [| done].
    by apply tok_strip_nil in Hts. }
  pose proof Hw as Hw0. apply Forall_cons in Hw as [Ht Hrest].
  destruct (literal_in_parens_dec t rest) as [(v & rest' & -> & -> & Hv) | Hn].
  - rewrite tok_strip_match by done. rewrite !join_space_tail.
    rewrite strip_literals_lparen, match_paren_literal_join by done.
    apply Forall_cons in Hrest as [_ Hrest].
    apply Forall_cons in Hrest as [_ Hrest].
    rewrite Htail by (done || simpl; lia).
    by destruct Hv as [-> | ->].
  - rewrite tok_strip_skip by done. rewrite !join_space_tail.
    destruct (decide (t = LPAREN)) as [-> | HnL].
    + rewrite strip_literals_lparen, match_paren_literal_none by done.
      by rewrite Htail by (done || simpl; lia).
    + rewrite strip_literals_skip.
      * by rewrite Htail by (done || simpl; lia).
      * destruct Ht as [-> | [-> | [_ Ht]]]; [done | by repeat constructor |].
        eapply Forall_impl; [done |]. by intros c (_ & ? & _).
Qed.

Lemma strip_literals_iter k tokens :
  Forall word tokens →
  Nat.iter k strip_literals (join_space tokens)
  = join_space (Nat.iter k tok_strip tokens)
  ∧ Forall word (Nat.iter k tok_strip tokens).
Proof.
  intros Hw. induction k as [| k [IH1 IH2]]; [done |]. simpl.
  rewrite IH1. split; [by apply strip_literals_join_space |].
  by apply tok_strip_words.
Qed.

Lemma tok_strip_iter_length k tokens :
  (length (Nat.iter k tok_strip tokens) ≤ length tokens)%nat.
Proof.
  induction k as [| k IH]; simpl; [done |].
  pose proof (tok_strip_length (Nat.iter k tok_strip tokens)). lia.
Qed.

Lemma tok_strip_iter_nil k tokens :
  Nat.iter k tok_strip tokens = [] → tokens = [].
Proof.
  induction k as [| k IH]; simpl; [done |].
  intros H. by apply IH, tok_strip_nil.
Qed.

(** ** Accepted reductions shorten the token sequence *)

Lemma tok_strip_non_paren tokens :
  filter non_paren (tok_strip tokens) = filter non_paren tokens.
Proof.
  remember (length tokens) as n eqn:Hn. revert tokens Hn.
  induction (lt_wf n) as [n _ IH]. intros tokens ->.
  destruct tokens as [| t rest]; [done |].
  destruct (literal_in_parens_dec t rest) as [(v & rest' & -> & -> & Hv) | Hn].
  - rewrite tok_strip_match by done.
    rewrite (filter_cons_False non_paren LPAREN) by (by intros [? _]).
    rewrite !(filter_cons non_paren v).
    rewrite (filter_cons_False non_paren RPAREN) by (by intros [_ ?]).
    by rewrite (IH (length rest') ltac:(simpl; lia) rest' eq_refl).
  - rewrite tok_strip_skip by done. rewrite !(filter_cons non_paren t).
    by rewrite (IH (length rest) ltac:(simpl; lia) rest eq_refl).
Qed.

Lemma isVal_word v : isVal v = true → ∃ t, v = Some t ∧ (t = js "1" ∨ t = js "0").
Proof.
  unfold isVal. rewrite orb_true_iff, !bool_decide_eq_true.
  intros [-> | ->]; eauto.
Qed.

Lemma evaluateNot_literal v : evaluateNot v = js "0" ∨ evaluateNot v = js "1".
Proof. unfold evaluateNot. case_decide; auto. Qed.

Lemma evaluateOp_literal l op r :
  evaluateOp l op r = js "0" ∨ evaluateOp l op r = js "1".
Proof.
  unfold evaluateOp. repeat case_decide;
    repeat match goal with |- context [if ?b then _ else _] => destruct b end;
    auto.
Qed.

Lemma literal_word t : t = js "0" ∨ t = js "1" → word t.
Proof.
  intros [-> | ->]; right; right; (split; [done |]);
    repeat constructor; done.
Qed.

(** The string of an accepted reduction, on tokens. *)
Lemma reduced_string_tokens tokens idx :
  Forall word tokens → interactable tokens idx = true →
  reduced_string idx tokens = join_space (reduced_tokens idx tokens)
  ∧ Forall word (reduced_tokens idx tokens)
  ∧ (tokens !! idx = Some SYMBOLS.NOT →
     (length (reduced_tokens idx tokens) + 1 = length tokens)%nat)
  ∧ (tokens !! idx ≠ Some SYMBOLS.NOT →
     (length (reduced_tokens idx tokens) + 2 = length tokens)%nat).
Proof.
  intros Hw Hi. unfold interactable in Hi.
  destruct (tokens !! idx) as [t |] eqn:Ht; [| done].
  assert (Htake : ∀ k, Forall word (take k tokens)) by (intros; by apply Forall_take).
  assert (Hdrop : ∀ k, Forall word (drop k tokens)) by (intros; by apply Forall_drop).
  pose proof (lookup_lt_Some _ _ _ Ht) as Hlt.
  unfold reduced_string, reduced_tokens. rewrite Ht.
  destruct (decide (Some t = Some SYMBOLS.NOT)) as [[= ->] | Hne].
  - (* a negation *)
    assert (Hnext : isVal (tokens !! (idx + 1)%nat) = true).
    { apply orb_true_iff in Hi as [Hi | Hi].
      - by apply andb_true_iff in Hi as [_ ?].
      - by apply andb_true_iff in Hi as [_ ?]. }
    apply isVal_word in Hnext as (v & Hv & _).
    apply lookup_lt_Some in Hv.
    rewrite slice_prefix, slice_suffix by lia. rewrite Nat2Z.id.
    replace (Z.to_nat (Z.of_nat idx + 2)) with (idx + 2)%nat by lia.
    pose proof (literal_word _ (evaluateNot_literal (tokens !! (idx + 1)%nat))).
    split_and!.
    + by apply trim_reduction.
    + apply Forall_app. split; [done |]. by constructor.
    + intros _. rewrite !length_app, length_take, length_drop. simpl. lia.
    + done.
  - (* a binary connective *)
    assert (Hb : isVal (at_index tokens (Z.of_nat idx - 1)) = true
                 ∧ isVal (tokens !! (idx + 1)%nat) = true).
    { apply orb_true_iff in Hi as [Hi | Hi].
      - apply andb_true_iff in Hi as [Hi%bool_decide_eq_true _]. congruence.
      - apply andb_true_iff in Hi as [Hi ?].
        by apply andb_true_iff in Hi as [_ ?]. }
    destruct Hb as [Hprev Hnext].
    apply isVal_word in Hnext as (v & Hv & _). apply lookup_lt_Some in Hv.
    assert (Hidx : (1 ≤ idx)%nat).
    { destruct idx; [| lia]. by apply isVal_word in Hprev as (? & ? & _). }
    assert (Hat : at_index tokens (Z.of_nat idx - 1) = tokens !! (idx - 1)%nat).
    { replace (Z.of_nat idx - 1) with (Z.of_nat (idx - 1)) by lia.
      apply at_index_nat. }
    rewrite Hat. rewrite slice_prefix, slice_suffix by lia.
    replace (Z.to_nat (Z.of_nat idx - 1)) with (idx - 1)%nat by lia.
    replace (Z.to_nat (Z.of_nat idx + 2)) with (idx + 2)%nat by lia.
    pose proof (literal_word _ (evaluateOp_literal (tokens !! (idx - 1)%nat)
                  (Some t) (tokens !! (idx + 1)%nat))).
    split_and!.
    + by apply trim_reduction.
    + apply Forall_app. split; [done |]. by constructor.
    + done.
    + intros _. rewrite !length_app, length_take, length_drop. simpl. lia.
Qed.

Lemma current_tokens_words st idx :
  interactable (current_tokens st) idx = true → Forall word (current_tokens st).
Proof.
  intros Hi. unfold current_tokens in *.
  destruct (last (history st)) as [e |]; [| done].
  destruct (getTokens_words (content e)) as [He | [He | He]]; [| | done];
    rewrite He in Hi; by destruct idx as [| [| ?]].
Qed.

(** An accepted reduction, on tokens: the tokens of the new state are those
    of the reduction after some passes of [tok_strip]. *)
Lemma click_tokens st idx :
  history (click idx st) ≠ history st →
  interactable (current_tokens st) idx = true
  ∧ ∃ k, current_tokens (click idx st)
         = Nat.iter k tok_strip (reduced_tokens idx (current_tokens st)).
Proof.
  intros Hne. unfold click in *.
  destruct (negb (isSolved (current_tokens st))
            && (1 <? length (history st))%nat
            && interactable (current_tokens st) idx) eqn:Hshown; [| done].
  apply andb_true_iff in Hshown as [_ Hi].
  split; [done |].
  pose proof (current_tokens_words st idx Hi) as Hw.
  destruct (handleInteraction_cases idx (current_tokens st) st Hi)
    as (m & _ & _ & Hh).
  rewrite Hh in Hne |- *. case_decide; [done |]. clear Hne Hh.
  destruct (reduced_string_tokens _ _ Hw Hi) as (Hs & Hrw & _).
  destruct (normalize_loop_iter (S (length (reduced_string idx (current_tokens st))))
              (reduced_string idx (current_tokens st))) as [k Hk].
  exists k. unfold current_tokens at 1, addToHistory. simpl history.
  rewrite last_snoc. simpl content. unfold normalize. rewrite Hk, Hs.
  destruct (strip_literals_iter k _ Hrw) as [-> Hw'].
  apply getTokens_join_space; [| done].
  intros Hnil%tok_strip_iter_nil. revert Hnil. unfold reduced_tokens.
  case_decide; by destruct (take _ _).
Qed.

(** C9. An accepted reduction strictly shortens the token sequence: the
    reduction of NOT leaves one token less and that of a binary connective
    two less, and the normalization then only removes parentheses (passes of
    [tok_strip], which keep every other token).  So from a sequence of [L]
    tokens at most [L] reductions are accepted. *)
Theorem C9_reductions_terminate :
  (∀ st idx, history (click idx st) ≠ history st →
     let tokens := current_tokens st in
     ∃ k, current_tokens (click idx st)
          = Nat.iter k tok_strip (reduced_tokens idx tokens)
        ∧ (tokens !! idx = Some SYMBOLS.NOT →
           (length (reduced_tokens idx tokens) + 1 = length tokens)%nat)
        ∧ (tokens !! idx ≠ Some SYMBOLS.NOT →
           (length (reduced_tokens idx tokens) + 2 = length tokens)%nat)
        ∧ (length (current_tokens (click idx st)) < length tokens)%nat)
  ∧ (∀ tokens, (length (tok_strip tokens) ≤ length tokens)%nat
               ∧ filter non_paren (tok_strip tokens) = filter non_paren tokens)
  ∧ (∀ n st st', reductions n st st' → (n ≤ length (current_tokens st))%nat).
Proof.
  assert (Hstep : ∀ st idx, history (click idx st) ≠ history st →
     let tokens := current_tokens st in
     ∃ k, current_tokens (click idx st)
          = Nat.iter k tok_strip (reduced_tokens idx tokens)
        ∧ (tokens !! idx = Some SYMBOLS.NOT →
           (length (reduced_tokens idx tokens) + 1 = length tokens)%nat)
        ∧ (tokens !! idx ≠ Some SYMBOLS.NOT →
           (length (reduced_tokens idx tokens) + 2 = length tokens)%nat)
        ∧ (length (current_tokens (click idx st)) < length tokens)%nat).
  { intros st idx Hne tokens.
    destruct (click_tokens st idx Hne) as (Hi & k & Hk).
    pose proof (current_tokens_words st idx Hi) as Hw.
    destruct (reduced_string_tokens _ _ Hw Hi) as (_ & _ & Hnot & Hbin).
    exists k. split_and!; try done. rewrite Hk.
    pose proof (tok_strip_iter_length k (reduced_tokens idx (current_tokens st))).
    destruct (decide (current_tokens st !! idx = Some SYMBOLS.NOT)) as [Hn | Hn].
    - specialize (Hnot Hn). unfold tokens. lia.
    - specialize (Hbin Hn). unfold tokens. lia. }
  split_and!.
  - exact Hstep.
  - intros tokens. split; [apply tok_strip_length | apply tok_strip_non_paren].
  - intros n st st'. induction 1 as [| n idx st st' Hne _ IH]; [lia |].
    destruct (Hstep st idx Hne) as (_ & _ & _ & _ & Hlt). lia.
Qed.

Lemma C9_reductions_terminate_witness :
  (2 ≤ length (current_tokens (session (js "P ∧ Q ∨ R") (js "1 ∧ 0 ∨ 1"))))%nat
  ∧ (length (current_tokens (click 1 (session (js "P ∧ Q ∨ R") (js "1 ∧ 0 ∨ 1"))))
     < length (current_tokens (session (js "P ∧ Q ∨ R") (js "1 ∧ 0 ∨ 1"))))%nat.
Proof.
  split.
  - refine (proj2 (proj2 C9_reductions_terminate) 2%nat _
              (click 1 (click 1 (session (js "P ∧ Q ∨ R") (js "1 ∧ 0 ∨ 1")))) _).
    apply (reductions_S 1 1); [vm_compute; discriminate |].
    apply (reductions_S 0 1); [vm_compute; discriminate |].
    apply reductions_O.
  - destruct (proj1 C9_reductions_terminate
                (session (js "P ∧ Q ∨ R") (js "1 ∧ 0 ∨ 1")) 1%nat)
      as (k & _ & _ & _ & Hlt); [vm_compute; discriminate | exact Hlt].
Defined.

(** * Further properties of the parser and of the canonical form *)

Lemma count_token_cons x t toks :
  count_token x (t :: toks)
  = ((if decide (t = x) then 1 else 0) + count_token x toks)%nat.
Proof.
  unfold count_token. rewrite filter_cons. by destruct (decide (t = x)).
Qed.

Lemma net_count toks :
  net toks
  = Z.of_nat (count_token RPAREN toks) - Z.of_nat (count_token LPAREN toks).
Proof.
  induction toks as [| t toks IH]; [done |].
  cbn [net]. rewrite !count_token_cons, IH. unfold paren_delta.
  destruct (decide (t = RPAREN)) as [-> | ?].
  - rewrite (decide_False (P := RPAREN = LPAREN)) by sym_neq. lia.
  - destruct (decide (t = LPAREN)); lia.
Qed.

(** X1. [isBalanced] answers true exactly when no prefix of the list closes
    more parentheses than it opens and the whole list closes as many as it
    opens; the other tokens play no part. *)
Theorem isBalanced_counts (toks : list jsstring) :
  isBalanced toks = true ↔
    (∀ n, (count_token RPAREN (take n toks)
           ≤ count_token LPAREN (take n toks))%nat)
    ∧ count_token LPAREN toks = count_token RPAREN toks.
Proof.
  unfold isBalanced. rewrite isBalanced_loop_spec by done.
  rewrite net_count. split.
  - intros [Hpre Htot]. split; [| lia].
    intros n. specialize (Hpre n). rewrite net_count in Hpre. lia.
  - intros [Hpre Htot]. split; [| lia].
    intros n. specialize (Hpre n). rewrite net_count. lia.
Qed.

(** X2. Parentheses around a balanced list do not change its parse; around
    a list that is not balanced they are not a pair and are not removed. *)
Theorem parseToAST_outer_parentheses (m : list jsstring) :
  (isBalanced m = true → parseToAST (LPAREN :: m ++ [RPAREN]) = parseToAST m)
  ∧ (isBalanced m = false →
     strip_outer (LPAREN :: m ++ [RPAREN]) = LPAREN :: m ++ [RPAREN]).
Proof.
  split.
  - intros Hm%isBalanced_balanced.
    rewrite <- (parseToAST_strip (LPAREN :: m ++ [RPAREN])).
    rewrite strip_outer_parens by done. apply parseToAST_strip.
  - intros Hm. apply strip_outer_fixed.
    destruct (strippable (LPAREN :: m ++ [RPAREN])) eqn:Hs; [| done].
    apply strippable_shape in Hs as (m' & Heq & Hm').
    injection Heq as Heq. apply app_inj_tail in Heq as [-> _]. congruence.
Qed.

Lemma parseToAST_outer_parentheses_witness :
  parseToAST [js "("; js "P"; js "∧"; js "Q"; js ")"]
    = parseToAST [js "P"; js "∧"; js "Q"]
  ∧ strip_outer [js "("; js "P"; js ")"; js "∧"; js "("; js "Q"; js ")"]
    = [js "("; js "P"; js ")"; js "∧"; js "("; js "Q"; js ")"].
Proof.
  split.
  - apply (proj1 (parseToAST_outer_parentheses [js "P"; js "∧"; js "Q"])).
    reflexivity.
  - apply (proj2 (parseToAST_outer_parentheses
                    [js "P"; js ")"; js "∧"; js "("; js "Q"])).
    reflexivity.
Defined.

(** Parsing the canonical string of a tree gives the tree back. *)
Lemma parseToAST_toFullString t :
  clean t → parseToAST (tokenize (toFullString t)) = Some t.
Proof.
  intros Ht. rewrite tokenize_toFullString by done.
  by apply parseToAST_canonical_tokens.
Qed.

(** X3. Two trees with operands at the leaves and connectives inside that
    have the same canonical string are the same tree. *)
Theorem toFullString_injective (t1 t2 : ASTNode) :
  clean t1 → clean t2 → toFullString t1 = toFullString t2 → t1 = t2.
Proof.
  intros H1 H2 Heq.
  pose proof (parseToAST_toFullString t1 H1) as E1.
  pose proof (parseToAST_toFullString t2 H2) as E2.
  rewrite Heq in E1. congruence.
Qed.

Lemma toFullString_injective_witness :
  BIN (js "∧") (ATOM (js "P")) (NOT (ATOM (js "Q")))
  = BIN (js "∧") (ATOM (js "P")) (NOT (ATOM (js "Q"))).
Proof.
  assert (Hc : clean (BIN (js "∧") (ATOM (js "P")) (NOT (ATOM (js "Q"))))).
  { split_and!.
    - left; reflexivity.
    - split; [discriminate | by repeat constructor].
    - split; [discriminate | by repeat constructor]. }
  apply (toFullString_injective _ _ Hc Hc). reflexivity.
Defined.

Lemma filter_non_paren_parens m :
  filter non_paren (LPAREN :: m ++ [RPAREN]) = filter non_paren m.
Proof.
  rewrite filter_cons, filter_app, filter_cons, filter_nil.
  rewrite (decide_False (P := non_paren LPAREN)) by (by intros [? _]).
  rewrite (decide_False (P := non_paren RPAREN)) by (by intros [_ ?]).
  by rewrite app_nil_r.
Qed.

Lemma filter_non_paren_strip_loop fuel ts :
  filter non_paren (strip_loop fuel ts) = filter non_paren ts.
Proof.
  revert ts. induction fuel as [| f IH]; intros ts; simpl; [done |].
  destruct (strippable ts) eqn:Hs; [| done].
  apply strippable_shape in Hs as (m & -> & _).
  by rewrite slice_inner, IH, filter_non_paren_parens.
Qed.

Lemma filter_non_paren_strip_outer ts :
  filter non_paren (strip_outer ts) = filter non_paren ts.
Proof. apply filter_non_paren_strip_loop. Qed.

Lemma non_paren_binop op : is_binop op → non_paren op.
Proof. apply binop_not_paren. Qed.

Lemma canonical_tokens_content tokens :
  wf_tokens tokens → ∀ n, parseToAST tokens = Some n →
  filter non_paren (canonical_tokens n) = filter non_paren tokens.
Proof.
  remember (length tokens) as len eqn:Hlen.
  revert tokens Hlen.
  induction (lt_wf len) as [len _ IH]. intros tokens -> Hwf n.
  pose proof (strip_outer_length tokens) as Hsl.
  pose proof (wf_tokens_strip_outer _ Hwf) as Hwfs.
  rewrite <- (filter_non_paren_strip_outer tokens).
  rewrite parseToAST_unfold.
  destruct (parse_body_cases parseToAST tokens)
    as [[He ->] | [(t & He & ->) | [(k & t & H2 & Hk & Ht & Hop & ->) |
        [(H2 & Hk & Ht & ->) | (H2 & Hk & Ht & ->)]]]].
  - by apply wf_tokens_nonempty in Hwfs.
  - intros [= <-]. by rewrite He.
  - apply findSplit_candidate in Hk as (t' & Hc & _).
    assert (t' = t) as ->.
    { destruct Hc as (Ht' & _). congruence. }
    destruct (wf_tokens_candidate _ _ _ Hwfs Hc) as [Hwl Hwr].
    pose proof (lookup_lt_Some _ _ _ Ht) as Hlt.
    destruct (parseToAST_wf_tokens _ Hwl) as (l & El & _).
    destruct (parseToAST_wf_tokens _ Hwr) as (r & Er & _).
    rewrite El, Er. simpl. intros [= <-].
    pose proof (IH (length (take k (strip_outer tokens)))
                  ltac:(rewrite length_take; lia) _ eq_refl Hwl l El) as Hl.
    pose proof (IH (length (drop (S k) (strip_outer tokens)))
                  ltac:(rewrite length_drop; lia) _ eq_refl Hwr r Er) as Hr.
    cbn [canonical_tokens]. rewrite filter_non_paren_parens.
    assert (Hsplit : take k (strip_outer tokens)
                       ++ t :: drop (S k) (strip_outer tokens)
                     = strip_outer tokens).
    { rewrite <- (drop_lookup_cons _ _ _ Ht). apply take_drop. }
    replace (filter non_paren (strip_outer tokens))
      with (filter non_paren (take k (strip_outer tokens)
                              ++ t :: drop (S k) (strip_outer tokens)))
      by (by rewrite Hsplit).
    rewrite !filter_app, !filter_cons.
    rewrite !(decide_True (P := non_paren t)) by (by apply non_paren_binop).
    by rewrite Hl, Hr.
  - pose proof (proj1 (findSplit_none _) Hk) as Hnc.
    destruct (wf_tokens_negation _ Hwfs Hnc) as (ts & Heq & Hts); [| done |].
    { apply strip_outer_exit. }
    rewrite Heq. simpl drop. rewrite drop_0.
    destruct (parseToAST_wf_tokens _ Hts) as (c & Ec & _).
    rewrite Ec. simpl. intros [= <-].
    pose proof (IH (length ts) ltac:(rewrite Heq in Hsl; simpl in Hsl; lia)
                  _ eq_refl Hts c Ec) as Hc.
    cbn [canonical_tokens].
    change (LPAREN :: SYMBOLS.NOT :: canonical_tokens c ++ [RPAREN])
      with (LPAREN :: (SYMBOLS.NOT :: canonical_tokens c) ++ [RPAREN]).
    rewrite (filter_non_paren_parens (SYMBOLS.NOT :: canonical_tokens c)).
    rewrite !filter_cons.
    rewrite !(decide_True (P := non_paren SYMBOLS.NOT))
      by (split; sym_neq).
    by rewrite Hc.
  - exfalso. pose proof (proj1 (findSplit_none _) Hk) as Hnc.
    destruct (wf_tokens_negation _ Hwfs Hnc) as (ts & Heq & Hts); [| done |].
    { apply strip_outer_exit. }
    by rewrite Heq in Ht.
Qed.

(** X4. The canonical string of a well-formed token sequence has the tokens
    of the sequence in their order: only parentheses are added or removed. *)
Theorem canonical_form_keeps_tokens (ts : list jsstring) :
  wf_tokens ts →
  ∃ t, parseToAST ts = Some t ∧
    filter non_paren (tokenize (toFullString t)) = filter non_paren ts.
Proof.
  intros Hwf. destruct (parseToAST_wf_tokens ts Hwf) as (t & Ht & Hclean).
  exists t. split; [done |].
  rewrite tokenize_toFullString by done.
  by apply canonical_tokens_content.
Qed.

Lemma canonical_form_keeps_tokens_witness :
  ∃ t, parseToAST [js "¬"; js "P"; js "∨"; js "Q"] = Some t ∧
    filter non_paren (tokenize (toFullString t))
    = filter non_paren [js "¬"; js "P"; js "∨"; js "Q"].
Proof.
  apply canonical_form_keeps_tokens.
  apply (wf_bin [js "¬"; js "P"] (js "∨") [js "Q"]).
  - right; left; reflexivity.
  - apply wf_not, wf_atom. split; [discriminate | by repeat constructor].
  - apply wf_atom. split; [discriminate | by repeat constructor].
Defined.

(** X5. Evaluating the canonical string of a tree is evaluating the tree,
    so a well-formed formula and its canonical string have the same value
    under every assignment, for operands of any characters and whatever
    [String.prototype.toUpperCase] does. *)
Theorem solveProposition_canonical (upper : jsstring → jsstring)
    (values : gmap jsstring bool) :
  (∀ t, clean t →
     solveProposition_upper upper (toFullString t) values
     = evalAST_upper upper values t)
  ∧ (∀ formula t,
       wf_tokens (tokenize formula) →
       parseToAST (tokenize formula) = Some t →
       solveProposition_upper upper (toFullString t) values
       = solveProposition_upper upper formula values).
Proof.
  assert (H : ∀ t, clean t →
            solveProposition_upper upper (toFullString t) values
            = evalAST_upper upper values t).
  { intros t Ht. unfold solveProposition_upper.
    by rewrite parseToAST_toFullString. }
  split; [done |].
  intros formula t Hwf Ht.
  destruct (parseToAST_wf_tokens _ Hwf) as (t' & Ht' & Hclean).
  assert (t' = t) as -> by congruence.
  rewrite H by done. unfold solveProposition_upper. by rewrite Ht.
Qed.

Lemma solveProposition_canonical_witness :
  solveProposition_upper toUpperCase (toFullString (NOT (ATOM (js "p"))))
    {[ js "P" := true ]}
  = evalAST_upper toUpperCase {[ js "P" := true ]} (NOT (ATOM (js "p"))).
Proof.
  apply (proj1 (solveProposition_canonical toUpperCase {[ js "P" := true ]})).
  split; [discriminate | by repeat constructor].
Defined.

(** * Further properties of the evaluator and of the tokenizers *)

Lemma evaluateOp_digit (values : gmap jsstring bool) (a op b : jsstring) :
  (a = js "0" ∨ a = js "1") → (b = js "0" ∨ b = js "1") →
  evaluateOp (Some a) (Some op) (Some b)
  = digit (evalAST values (BIN op (ATOM a) (ATOM b))).
Proof.
  intros Ha Hb. unfold evaluateOp. cbn [evalAST].
  destruct (decide (op = SYMBOLS.AND)) as [-> | H1].
  { destruct Ha as [-> | ->], Hb as [-> | ->]; reflexivity. }
  rewrite (decide_False (P := Some op = Some SYMBOLS.AND)) by congruence.
  destruct (decide (op = SYMBOLS.OR)) as [-> | H2].
  { destruct Ha as [-> | ->], Hb as [-> | ->]; reflexivity. }
  rewrite (decide_False (P := Some op = Some SYMBOLS.OR)) by congruence.
  destruct (decide (op = SYMBOLS.IMP)) as [-> | H3].
  { destruct Ha as [-> | ->], Hb as [-> | ->]; reflexivity. }
  rewrite (decide_False (P := Some op = Some SYMBOLS.IMP)) by congruence.
  destruct (decide (op = SYMBOLS.IFF)) as [-> | H4].
  { destruct Ha as [-> | ->], Hb as [-> | ->]; reflexivity. }
  rewrite (decide_False (P := Some op = Some SYMBOLS.IFF)) by congruence.
  reflexivity.
Qed.

Lemma evaluateNot_digit (values : gmap jsstring bool) (a : jsstring) :
  (a = js "0" ∨ a = js "1") →
  evaluateNot (Some a) = digit (evalAST values (NOT (ATOM a))).
Proof. intros [-> | ->]; reflexivity. Qed.

Lemma evalAST_digit (values : gmap jsstring bool) b :
  evalAST values (ATOM (digit b)) = b.
Proof. by destruct b. Qed.

(** X6. On the literals 0 and 1 the truth tables of the reduction engine
    ([evaluateOp], [evaluateNot]) are those of the evaluator ([evalAST]),
    for every operator string: an unknown operator gives 0 in both. *)
Theorem evaluateOp_evalAST (values : gmap jsstring bool) (a op b : jsstring) :
  (a = js "0" ∨ a = js "1") → (b = js "0" ∨ b = js "1") →
  evaluateOp (Some a) (Some op) (Some b)
    = digit (evalAST values (BIN op (ATOM a) (ATOM b)))
  ∧ evaluateNot (Some a) = digit (evalAST values (NOT (ATOM a))).
Proof.
  intros Ha Hb. split.
  - by apply evaluateOp_digit.
  - by apply evaluateNot_digit.
Qed.

Lemma evaluateOp_evalAST_witness :
  evaluateOp (Some (js "1")) (Some (js "⇒")) (Some (js "0"))
    = digit (evalAST ∅ (BIN (js "⇒") (ATOM (js "1")) (ATOM (js "0"))))
  ∧ evaluateNot (Some (js "1")) = digit (evalAST ∅ (NOT (ATOM (js "1")))).
Proof.
  apply (evaluateOp_evalAST ∅ (js "1") (js "⇒") (js "0")).
  - right; reflexivity.
  - left; reflexivity.
Defined.

Lemma concat_split_keep cur s : concat (split_keep cur s) = cur ++ s.
Proof.
  revert cur. induction s as [| c rest IH]; intros cur; cbn [split_keep].
  - simpl. by rewrite app_nil_r.
  - destruct (is_sep c).
    + simpl. by rewrite IH.
    + rewrite IH. by rewrite <- app_assoc.
Qed.

Lemma concat_nonempty_pieces l : concat (nonempty_pieces l) = concat l.
Proof.
  induction l as [| t l IH]; [done |].
  rewrite nonempty_pieces_cons. unfold flush.
  destruct (decide (t = [])) as [-> | ?]; simpl; by rewrite IH.
Qed.

Lemma split_keep_pieces cur s :
  Forall (λ c, is_sep c = false ∧ is_ws c = false) cur →
  Forall (λ c, is_ws c = false) s →
  Forall (λ t, (∃ c, t = [c] ∧ is_sep c = true)
               ∨ Forall (λ c, is_sep c = false ∧ is_ws c = false) t)
         (split_keep cur s).
Proof.
  revert cur. induction s as [| c rest IH]; intros cur Hcur Hs; cbn [split_keep].
  - constructor; [by right | constructor].
  - inversion Hs as [| ? ? Hc Hrest]; subst.
    destruct (is_sep c) eqn:Hsep.
    + constructor; [by right |]. constructor; [left; eauto |].
      by apply IH.
    + apply IH; [| done]. apply Forall_app. split; [done |].
      by constructor.
Qed.

Lemma nonempty_pieces_elem t l : t ∈ nonempty_pieces l ↔ t ∈ l ∧ t ≠ [].
Proof.
  unfold nonempty_pieces.
  induction l as [| x l IH]; simpl.
  - split; [by intros ?%elem_of_nil | by intros [?%elem_of_nil _]].
  - destruct (decide (x = [])) as [-> | Hx].
    + rewrite bool_decide_eq_true_2 by done. simpl. rewrite IH.
      rewrite elem_of_cons. naive_solver.
    + rewrite bool_decide_eq_false_2 by done. simpl.
      rewrite !elem_of_cons, IH. naive_solver.
Qed.

Lemma remove_ws_no_ws s : Forall (λ c, is_ws c = false) (remove_ws s).
Proof.
  unfold remove_ws. induction s as [| c s IH]; simpl; [constructor |].
  destruct (is_ws c) eqn:Hc; simpl; [done |]. by constructor.
Qed.

Lemma split_keep_no_adjacent cur s i a b :
  nonempty_pieces (split_keep cur s) !! i = Some a →
  nonempty_pieces (split_keep cur s) !! S i = Some b →
  (∃ c, a = [c] ∧ is_sep c = true) ∨ (∃ c, b = [c] ∧ is_sep c = true).
Proof.
  revert cur i. induction s as [| c rest IH]; intros cur i; cbn [split_keep].
  - rewrite nonempty_pieces_cons. unfold flush.
    destruct (decide (cur = [])); simpl; intros _ Hb.
    + by destruct i.
    + by destruct i.
  - destruct (is_sep c) eqn:Hsep; [| apply IH].
    rewrite !nonempty_pieces_cons. unfold flush.
    rewrite (decide_False (P := [c] = [])) by done.
    destruct (decide (cur = [])); simpl.
    + destruct i as [| i]; simpl.
      * intros [= <-] _. left; eauto.
      * apply IH.
    + destruct i as [| [| i]]; simpl.
      * intros _ [= <-]. right; eauto.
      * intros [= <-] _. left; eauto.
      * apply IH.
Qed.

Lemma concat_tokenize formula : concat (tokenize formula) = remove_ws formula.
Proof. unfold tokenize. by rewrite concat_nonempty_pieces, concat_split_keep. Qed.

Lemma tokenize_tokens formula :
  Forall (λ t, (∃ c, t = [c] ∧ is_sep c = true) ∨ atom_token t)
         (tokenize formula).
Proof.
  unfold tokenize.
  apply Forall_forall. intros t [Ht Hne]%nonempty_pieces_elem.
  pose proof (split_keep_pieces [] (remove_ws formula)
                ltac:(constructor) (remove_ws_no_ws formula)) as Hall.
  rewrite Forall_forall in Hall.
  destruct (Hall t Ht) as [? | ?]; [by left | by right].
Qed.

(** X7. The tokenizer loses nothing but white space: the tokens put
    together are the formula without its white space.  Every token is one
    character of the class [¬∧∨⇒⇔()] or a non-empty run without such a
    character, and two runs are never next to each other. *)
Theorem tokenize_spec (formula : jsstring) :
  concat (tokenize formula) = remove_ws formula
  ∧ Forall (λ t, (∃ c, t = [c] ∧ is_sep c = true) ∨ atom_token t)
           (tokenize formula)
  ∧ ∀ i a b, tokenize formula !! i = Some a →
             tokenize formula !! S i = Some b →
             ¬ (atom_token a ∧ atom_token b).
Proof.
  split_and!.
  - apply concat_tokenize.
  - apply tokenize_tokens.
  - unfold tokenize. intros i a b Ha Hb [Haa Hab].
    destruct (split_keep_no_adjacent _ _ _ _ _ Ha Hb) as [(c & -> & Hc) | (c & -> & Hc)].
    + by apply (atom_token_not_sep [c] c).
    + by apply (atom_token_not_sep [c] c).
Qed.

Lemma words_of_cur_nonempty cur s : cur ≠ [] → words_of false cur s ≠ [].
Proof.
  revert cur. induction s as [| c s IH]; intros cur Hcur.
  - rewrite words_of_nil. unfold flush. by rewrite decide_False.
  - destruct (is_ws c) eqn:Hc.
    + rewrite words_of_ws by done. unfold flush. by rewrite decide_False.
    + rewrite words_of_char by done. apply IH. by destruct cur.
Qed.

Lemma words_of_nonempty cur s :
  Exists (λ c, is_ws c = false) s → words_of false cur s ≠ [].
Proof.
  intros Hex. revert cur. induction Hex as [c s Hc | c s Hex IH]; intros cur.
  - rewrite words_of_char by done. apply words_of_cur_nonempty. by destruct cur.
  - destruct (is_ws c) eqn:Hc.
    + rewrite words_of_ws by done. intros [_ ?]%app_eq_nil. by eapply IH.
    + rewrite words_of_char by done. apply IH.
Qed.

Lemma pad_parens_Exists s :
  Exists (λ c, is_ws c = false) s → Exists (λ c, is_ws c = false) (pad_parens s).
Proof.
  induction 1 as [c s Hc | c s Hex IH]; rewrite pad_parens_cons;
    apply Exists_app; [left | by right].
  destruct (decide (c = 40%N)) as [-> | H40].
  { vm_compute. apply Exists_cons_tl, Exists_cons_hd. done. }
  destruct (decide (c = 41%N)) as [-> | H41].
  { vm_compute. apply Exists_cons_tl, Exists_cons_hd. done. }
  rewrite pad_parens_plain_char by done. by constructor.
Qed.

Lemma pad_parens_all_ws s :
  Forall (λ c, is_ws c = true) s → pad_parens s = s.
Proof.
  induction 1 as [| c s Hc _ IH]; [done |].
  rewrite pad_parens_cons, IH, pad_parens_plain_char; [done | |];
    intros ->; by vm_compute in Hc.
Qed.

(** X8. [getTokens]: the empty string has no token, a string of white space
    only has the empty string as its single token, and any other string is
    cut into parentheses and non-empty runs without white space or
    parenthesis; joining these tokens with spaces and cutting again gives
    the same tokens. *)
Theorem getTokens_spec (str : jsstring) :
  (str = [] → getTokens str = [])
  ∧ (str ≠ [] → Forall (λ c, is_ws c = true) str → getTokens str = [[]])
  ∧ (Exists (λ c, is_ws c = false) str →
     getTokens str ≠ []
     ∧ Forall word (getTokens str)
     ∧ getTokens (join_space (getTokens str)) = getTokens str).
Proof.
  split_and!.
  - by intros ->.
  - intros Hne Hws. rewrite getTokens_words_of, decide_False by done.
    rewrite pad_parens_all_ws by done.
    by rewrite words_of_all_ws by done.
  - intros Hex.
    assert (Hne : str ≠ []) by (by destruct Hex).
    pose proof (words_of_nonempty [] _ (pad_parens_Exists _ Hex)) as Hw.
    pose proof (words_of_pad_parens [] str ltac:(constructor)) as Hall.
    assert (Heq : getTokens str = words_of false [] (pad_parens str)).
    { rewrite getTokens_words_of, decide_False by done.
      by destruct (words_of false [] (pad_parens str)). }
    rewrite Heq. split_and!; [done | done |].
    by apply getTokens_join_space.
Qed.

Lemma getTokens_spec_witness :
  getTokens (js "  ") = [[]]
  ∧ getTokens (js "(1∧ 0)") ≠ []
  ∧ Forall word (getTokens (js "(1∧ 0)"))
  ∧ getTokens (join_space (getTokens (js "(1∧ 0)"))) = getTokens (js "(1∧ 0)").
Proof.
  split.
  - apply (proj1 (proj2 (getTokens_spec (js "  ")))); [discriminate |].
    by repeat constructor.
  - apply (proj2 (proj2 (getTokens_spec (js "(1∧ 0)")))).
    apply Exists_cons_hd. reflexivity.
Defined.

(** * Further properties of the truth table *)

(** ** The order of strings and the sort *)

Lemma string_ltb_irrefl a : string_ltb a a = false.
Proof.
  induction a as [| x a IH]; [done |]. simpl.
  by rewrite N.ltb_irrefl.
Qed.

Lemma string_ltb_asym a b : string_ltb a b = true → string_ltb b a = false.
Proof.
  revert b. induction a as [| x a IH]; intros [| y b]; try done. simpl.
  destruct (N.ltb_spec x y), (N.ltb_spec y x); try done; try lia.
  apply IH.
Qed.

Lemma string_ltb_total a b :
  string_ltb a b = false → string_ltb b a = false → a = b.
Proof.
  revert b. induction a as [| x a IH]; intros [| y b]; try done. simpl.
  destruct (N.ltb_spec x y), (N.ltb_spec y x); try done.
  intros Hab Hba. assert (x = y) as -> by lia. f_equal. by apply IH.
Qed.

(** [x ≤ y ≤ z] gives [x ≤ z], where [x ≤ y] is [string_ltb y x = false]. *)
Lemma string_leb_trans x y z :
  string_ltb y x = false → string_ltb z y = false → string_ltb z x = false.
Proof.
  revert y z. induction x as [| a x IH]; intros [| b y] [| c z]; try done; simpl.
  destruct (N.ltb_spec b a), (N.ltb_spec a b), (N.ltb_spec c b),
    (N.ltb_spec b c), (N.ltb_spec c a), (N.ltb_spec a c);
    try done; try lia.
  apply IH.
Qed.

Section sort_by.
Context {A : Type} (lt : A → A → bool).
Hypothesis lt_asym : ∀ x y, lt x y = true → lt y x = false.
Hypothesis le_trans :
  ∀ x y z, lt y x = false → lt z y = false → lt z x = false.

Lemma insert_sorted_Permutation x l : insert_sorted lt x l ≡ₚ x :: l.
Proof.
  induction l as [| y l IH]; simpl; [done |].
  destruct (lt y x); [| done]. rewrite IH. apply Permutation_swap.
Qed.

Lemma sort_by_Permutation l : sort_by lt l ≡ₚ l.
Proof.
  unfold sort_by. induction l as [| x l IH]; simpl; [done |].
  by rewrite insert_sorted_Permutation, IH.
Qed.

Lemma insert_sorted_sorted x l :
  strongly_sorted (λ a b, lt b a = false) l →
  strongly_sorted (λ a b, lt b a = false) (insert_sorted lt x l).
Proof.
  induction l as [| y l IH]; simpl; [done |].
  intros [Hy Hl]. destruct (lt y x) eqn:Hyx; simpl.
  - split; [| by apply IH].
    rewrite insert_sorted_Permutation. constructor; [| done].
    by apply lt_asym.
  - split_and!; [| done | done].
    constructor; [done |].
    eapply Forall_impl; [apply Hy |]. simpl. intros z Hz.
    by apply (le_trans x y z).
Qed.

Lemma sort_by_sorted l : strongly_sorted (λ a b, lt b a = false) (sort_by lt l).
Proof.
  unfold sort_by. induction l as [| x l IH]; simpl; [done |].
  by apply insert_sorted_sorted.
Qed.
End sort_by.

Lemma strongly_sorted_impl {A} (R S : A → A → Prop) l :
  (∀ x y, x ∈ l → y ∈ l → R x y → S x y) →
  strongly_sorted R l → strongly_sorted S l.
Proof.
  induction l as [| x l IH]; simpl; [done |].
  intros HRS [Hx Hl]. split.
  - apply Forall_forall. intros y Hy. rewrite Forall_forall in Hx.
    apply HRS; [left | by right | by apply Hx].
  - apply IH; [| done]. intros a b Ha Hb. apply HRS; by right.
Qed.

Lemma strongly_sorted_NoDup_strict {A} (R S : A → A → Prop) l :
  (∀ x y, R x y → x ≠ y → S x y) →
  NoDup l → strongly_sorted R l → strongly_sorted S l.
Proof.
  intros HRS. induction l as [| x l IH]; simpl; [done |].
  intros [Hx Hnd]%NoDup_cons [Hall Hl]. split; [| by apply IH].
  apply Forall_forall. intros y Hy. rewrite Forall_forall in Hall.
  apply HRS; [by apply Hall |]. intros ->. done.
Qed.

(** ** The variables of a formula *)

Lemma letter_runs_runs cur s :
  Forall (λ c, is_letter c = true) cur →
  Forall (λ r, r ≠ [] ∧ Forall (λ c, is_letter c = true) r) (letter_runs cur s).
Proof.
  revert cur. induction s as [| c s IH]; intros cur Hcur; cbn [letter_runs].
  - unfold flush. destruct (decide (cur = [])); by repeat constructor.
  - destruct (is_letter c) eqn:Hc.
    + apply IH. apply Forall_app. split; [done | by constructor].
    + apply Forall_app. split; [| by apply IH].
      unfold flush. destruct (decide (cur = [])); by repeat constructor.
Qed.

Lemma toUpperCase_letters r :
  Forall (λ c, is_letter c = true) r →
  Forall (λ c, (65 ≤ c ≤ 90)%N) (toUpperCase r).
Proof.
  unfold toUpperCase. induction 1 as [| c r Hc _ IH]; simpl; constructor; [| done].
  unfold is_letter in Hc.
  destruct (N.leb_spec 97 c), (N.leb_spec c 122), (N.leb_spec 65 c),
    (N.leb_spec c 90); simpl in *; try done; lia.
Qed.

Lemma toUpperCase_nil r : toUpperCase r = [] → r = [].
Proof. by destruct r. Qed.

Lemma elem_of_set_add x y (s : list jsstring) :
  x ∈ set_add y s ↔ x = y ∨ x ∈ s.
Proof.
  unfold set_add. destruct (decide (y ∈ s)).
  - naive_solver.
  - rewrite elem_of_app, list_elem_of_singleton. naive_solver.
Qed.

(** The set [found] after the loop over the matches. *)
Lemma parseVars_found runs (found : list jsstring) x :
  x ∈ foldl (λ found v,
               let upper := toUpperCase v in
               if bool_decide (upper ≠ js "T") && bool_decide (upper ≠ js "F")
               then set_add upper found else found) found runs
  ↔ x ∈ found ∨ ∃ v, v ∈ runs ∧ x = toUpperCase v ∧ x ≠ js "T" ∧ x ≠ js "F".
Proof.
  revert found. induction runs as [| v runs IH]; intros found; simpl.
  - split; [by left |]. intros [? | (v & ?%elem_of_nil & _)]; done.
  - rewrite IH. clear IH.
    assert (Hv : ∀ P : jsstring → Prop,
              (∃ w, w ∈ v :: runs ∧ P w) ↔ P v ∨ ∃ w, w ∈ runs ∧ P w).
    { intros P. setoid_rewrite elem_of_cons. naive_solver. }
    rewrite (Hv (λ w, x = toUpperCase w ∧ x ≠ js "T" ∧ x ≠ js "F")).
    destruct (decide (toUpperCase v ≠ js "T")) as [HT | HT];
      [rewrite (bool_decide_eq_true_2 _ HT)
      | rewrite (bool_decide_eq_false_2 _ HT)]; simpl;
      [destruct (decide (toUpperCase v ≠ js "F")) as [HF | HF];
        [rewrite (bool_decide_eq_true_2 _ HF)
        | rewrite (bool_decide_eq_false_2 _ HF)]; simpl |].
    + rewrite elem_of_set_add. naive_solver.
    + naive_solver.
    + naive_solver.
Qed.

Lemma parseVars_found_NoDup runs (found : list jsstring) :
  NoDup found →
  NoDup (foldl (λ found v,
               let upper := toUpperCase v in
               if bool_decide (upper ≠ js "T") && bool_decide (upper ≠ js "F")
               then set_add upper found else found) found runs).
Proof.
  revert found. induction runs as [| v runs IH]; intros found Hnd; simpl; [done |].
  apply IH. destruct (_ && _); [by apply set_add_NoDup | done].
Qed.

Lemma parseVars_elem str x :
  x ∈ parseVars str ↔
  ∃ v, v ∈ letter_runs [] str ∧ x = toUpperCase v ∧ x ≠ js "T" ∧ x ≠ js "F".
Proof.
  unfold parseVars. rewrite sort_by_Permutation, parseVars_found.
  split; [| by right]. by intros [?%elem_of_nil | ?].
Qed.

Lemma parseVars_NoDup str : NoDup (parseVars str).
Proof.
  unfold parseVars. rewrite sort_by_Permutation.
  apply parseVars_found_NoDup. constructor.
Qed.

Lemma parseVars_capitals str :
  Forall (λ x, x ≠ [] ∧ Forall (λ c, (65 ≤ c ≤ 90)%N) x) (parseVars str).
Proof.
  apply Forall_forall. intros x (v & Hv & -> & HT & HF)%parseVars_elem.
  pose proof (letter_runs_runs [] str ltac:(constructor)) as Hruns.
  rewrite Forall_forall in Hruns. destruct (Hruns v Hv) as [Hne Hlet].
  split; [| by apply toUpperCase_letters].
  by intros ?%toUpperCase_nil.
Qed.

(** X9. The variables of a formula come out in strictly ascending order of
    their code units, hence without repetition; each is a non-empty word of
    capital letters other than T and F, and the variables are exactly the
    maximal runs of letters of the formula put in capitals, T and F left
    out. *)
Theorem parseVars_spec (str : jsstring) :
  strongly_sorted (λ a b, string_ltb a b = true) (parseVars str)
  ∧ NoDup (parseVars str)
  ∧ Forall (λ x, x ≠ [] ∧ Forall (λ c, (65 ≤ c ≤ 90)%N) x
                 ∧ x ≠ js "T" ∧ x ≠ js "F") (parseVars str)
  ∧ ∀ x, x ∈ parseVars str ↔
         ∃ v, v ∈ letter_runs [] str ∧ x = toUpperCase v
              ∧ x ≠ js "T" ∧ x ≠ js "F".
Proof.
  pose proof (parseVars_NoDup str) as Hnd.
  split_and!; [| done | | apply parseVars_elem].
  - apply (strongly_sorted_NoDup_strict (λ a b, string_ltb b a = false));
      [| done |].
    + intros x y Hyx Hne.
      destruct (string_ltb x y) eqn:Hxy; [done |].
      by apply string_ltb_total in Hxy.
    + apply sort_by_sorted; [apply string_ltb_asym | apply string_leb_trans].
  - pose proof (parseVars_capitals str) as Hcap.
    rewrite Forall_forall in Hcap |- *. intros x Hx.
    destruct (Hcap x Hx) as [? ?].
    apply parseVars_elem in Hx as (v & _ & _ & ? & ?). done.
Qed.

(** ** The columns and the rows of the table *)

Lemma compound_renderings_paren n x :
  x ∈ compound_renderings n → ∃ r, x = 40%N :: r.
Proof.
  induction n as [a | n IH | op l IHl r IHr]; cbn [compound_renderings].
  - by intros ?%elem_of_empty.
  - intros [->%elem_of_singleton | ?]%elem_of_union; [| by apply IH].
    cbn [toFullString]. change (js "(") with [40%N]. simpl. eauto.
  - intros [[->%elem_of_singleton | ?]%elem_of_union | ?]%elem_of_union;
      [| by apply IHl | by apply IHr].
    cbn [toFullString]. change (js "(") with [40%N]. simpl. eauto.
Qed.

Lemma elem_of_List_filter {A} (f : A → bool) l x :
  x ∈ List.filter f l ↔ x ∈ l ∧ f x = true.
Proof. by rewrite !list_elem_of_In, filter_In. Qed.

Lemma NoDup_List_filter {A} (f : A → bool) l :
  NoDup l → NoDup (List.filter f l).
Proof.
  induction 1 as [| x l Hx _ IH]; simpl; [constructor |].
  destruct (f x); [| done]. constructor; [| done].
  by intros [? _]%elem_of_List_filter.
Qed.

Lemma isAtom_paren r : isAtom (40%N :: r) = false.
Proof. reflexivity. Qed.

Lemma getSubExpressions_elem ast x :
  x ∈ getSubExpressions ast [] ↔ x ∈ compound_renderings ast.
Proof.
  pose proof (getSubExpressions_elements ast []) as H.
  rewrite <- (elem_of_list_to_set (C := gset jsstring)), H.
  rewrite list_to_set_nil, elem_of_union. split; [| by right].
  by intros [?%elem_of_empty | ?].
Qed.

(** X10. The columns of sub-expressions of the table are the canonical
    strings of the Negation and Binary nodes of the formula other than the
    formula itself, each once, ordered by length (the test for atoms removes
    nothing); every row starts with these columns and its final cell
    empty. *)
Theorem generateTable_subExprs (expr : jsstring) (ast : ASTNode) :
  parseVars expr ≠ [] → parseToAST (tokenize expr) = Some ast →
  let subs := subExprs (generateTable expr) in
  (∀ s, s ∈ subs ↔ s ∈ compound_renderings ast ∧ s ≠ toFullString ast)
  ∧ NoDup subs
  ∧ strongly_sorted (λ a b, (length a ≤ length b)%nat) subs
  ∧ Forall (λ row, subVals row = (λ s, (s, js "")) <$> subs
                   ∧ finalVal row = js "" ∧ statusSub row = []
                   ∧ statusFinal row = js "idle")
           (rows (generateTable expr)).
Proof.
  intros Hne Hast subs.
  set (lt := λ a b : jsstring, (length a <? length b)%nat).
  set (keep := λ s, negb (isAtom s) && negb (bool_decide (s = toFullString ast))).
  assert (Hsubs : subs = sort_by lt (List.filter keep (getSubExpressions ast []))).
  { unfold subs, generateTable. rewrite decide_False by (by destruct (parseVars expr)).
    by rewrite Hast. }
  assert (Hasym : ∀ x y, lt x y = true → lt y x = false).
  { intros x y. unfold lt.
    destruct (Nat.ltb_spec (length x) (length y)),
      (Nat.ltb_spec (length y) (length x)); try done; lia. }
  assert (Htrans : ∀ x y z, lt y x = false → lt z y = false → lt z x = false).
  { intros x y z. unfold lt.
    destruct (Nat.ltb_spec (length y) (length x)),
      (Nat.ltb_spec (length z) (length y)),
      (Nat.ltb_spec (length z) (length x)); try done; lia. }
  split_and!.
  - intros s. rewrite Hsubs, sort_by_Permutation, elem_of_List_filter.
    rewrite getSubExpressions_elem. unfold keep.
    split.
    + intros [Hs [_ Hfull]%andb_prop]. split; [done |].
      by apply negb_true_iff, bool_decide_eq_false in Hfull.
    + intros [Hs Hfull]. split; [done |].
      destruct (compound_renderings_paren _ _ Hs) as (r & ->).
      rewrite isAtom_paren. simpl.
      by rewrite bool_decide_eq_false_2.
  - rewrite Hsubs, sort_by_Permutation. apply NoDup_List_filter.
    apply getSubExpressions_NoDup. constructor.
  - rewrite Hsubs.
    eapply strongly_sorted_impl; [| by apply sort_by_sorted].
    intros x y _ _. unfold lt.
    destruct (Nat.ltb_spec (length y) (length x)); [done | lia].
  - rewrite generateTable_rows by done. fold subs.
    apply Forall_forall. intros row Hrow.
    change (List.map ?f ?l) with (f <$> l) in Hrow.
    apply list_elem_of_fmap in Hrow as (i & -> & _). done.
Qed.

Lemma generateTable_subExprs_witness :
  let subs := subExprs (generateTable (js "¬P ∨ Q")) in
  (∀ s, s ∈ subs ↔ s ∈ compound_renderings
                         (BIN (js "∨") (NOT (ATOM (js "P"))) (ATOM (js "Q")))
                   ∧ s ≠ js "((¬ P) ∨ Q)")
  ∧ NoDup subs
  ∧ strongly_sorted (λ a b, (length a ≤ length b)%nat) subs
  ∧ Forall (λ row, subVals row = (λ s, (s, js "")) <$> subs
                   ∧ finalVal row = js "" ∧ statusSub row = []
                   ∧ statusFinal row = js "idle")
           (rows (generateTable (js "¬P ∨ Q"))).
Proof.
  apply (generateTable_subExprs (js "¬P ∨ Q")
           (BIN (js "∨") (NOT (ATOM (js "P"))) (ATOM (js "Q")))).
  - vm_compute. discriminate.
  - vm_compute. reflexivity.
Defined.

Lemma assignment_index_range f n : 0 ≤ assignment_index f n < 2 ^ Z.of_nat n.
Proof.
  induction n as [| m IH]; [simpl; lia |].
  rewrite Nat2Z.inj_succ, Z.pow_succ_r by lia. cbn [assignment_index].
  destruct (f m); simpl; lia.
Qed.

Lemma assignment_index_bit f n idx :
  (idx < n)%nat →
  Z.testbit (assignment_index f n) (Z.of_nat n - 1 - Z.of_nat idx) = f idx.
Proof.
  induction n as [| m IH]; [lia |]. intros Hidx. cbn [assignment_index].
  destruct (decide (idx = m)) as [-> | Hne].
  - replace (Z.of_nat (S m) - 1 - Z.of_nat m) with 0 by lia.
    apply Z.testbit_0_r.
  - replace (Z.of_nat (S m) - 1 - Z.of_nat idx)
      with (Z.succ (Z.of_nat m - 1 - Z.of_nat idx)) by lia.
    rewrite Z.testbit_succ_r by lia. apply IH. lia.
Qed.

Lemma bits_determine n i j :
  0 ≤ i < 2 ^ n → 0 ≤ j < 2 ^ n → 0 ≤ n →
  (∀ k, 0 ≤ k < n → Z.testbit i k = Z.testbit j k) → i = j.
Proof.
  intros Hi Hj Hn Hbits. apply Z.bits_inj'. intros k Hk.
  destruct (decide (k < n)) as [? | ?]; [apply Hbits; lia |].
  rewrite <- (Z.mod_small i (2 ^ n)), <- (Z.mod_small j (2 ^ n)) by done.
  by rewrite !Z.mod_pow2_bits_high by lia.
Qed.

Lemma bit_of_inj i j k : bit_of i k = bit_of j k → Z.testbit i k = Z.testbit j k.
Proof. unfold bit_of. by destruct (Z.testbit i k), (Z.testbit j k). Qed.

(** X11. In the table of a formula with 1 to 30 variables every combination
    of truth values of the variables is the assignment of exactly one
    row. *)
Theorem generateTable_rows_complete (expr : jsstring) (f : nat → bool) :
  let vars := parseVars expr in
  let table := generateTable expr in
  (1 ≤ length vars ≤ 30)%nat →
  ∃ k row, rows table !! k = Some row
    ∧ inputs row = imap (λ idx v, (v, if f idx then 1 else 0)) vars
    ∧ ∀ k' row', rows table !! k' = Some row' →
        inputs row' = imap (λ idx v, (v, if f idx then 1 else 0)) vars →
        k' = k.
Proof.
  intros vars table Hn. set (n := length vars) in *.
  assert (Hne : vars ≠ []) by (unfold n in Hn; destruct vars; simpl in *; [lia | done]).
  pose proof (pow2_le_30 (Z.of_nat n) ltac:(lia)) as Hpow.
  assert (Hrows : rows table =
    table_row_of vars (subExprs table) <$> reverse (seqZ 0 (2 ^ Z.of_nat n))).
  { unfold table. rewrite generateTable_rows by done.
    fold vars. fold n. by rewrite shl32_pow2 by lia. }
  assert (Hk : ∀ k row, rows table !! k = Some row →
     Z.of_nat k < 2 ^ Z.of_nat n
     ∧ inputs row = assignment_of vars (2 ^ Z.of_nat n - 1 - Z.of_nat k)).
  { intros k row Hrow.
    assert (Hlt : Z.of_nat k < 2 ^ Z.of_nat n).
    { apply lookup_lt_Some in Hrow.
      rewrite Hrows, length_fmap, length_reverse, length_seqZ in Hrow. lia. }
    split; [done |].
    rewrite Hrows, list_lookup_fmap, lookup_count_down in Hrow by done.
    injection Hrow as <-. apply table_row_inputs; lia. }
  assert (Hbits : ∀ i, assignment_of vars i
                       = imap (λ idx v, (v, if f idx then 1 else 0)) vars →
            ∀ idx, (idx < n)%nat →
              Z.testbit i (Z.of_nat n - 1 - Z.of_nat idx) = f idx).
  { intros i Heq idx Hidx.
    destruct (lookup_lt_is_Some_2 vars idx Hidx) as [v Hv].
    apply (f_equal (.!! idx)) in Heq. unfold assignment_of in Heq.
    rewrite !list_lookup_imap, Hv in Heq. simpl in Heq.
    injection Heq as Heq. fold n in Heq. unfold bit_of in Heq.
    destruct (Z.testbit i _), (f idx); done. }
  pose proof (assignment_index_range f n) as Hi.
  set (i := assignment_index f n) in *.
  set (k := Z.to_nat (2 ^ Z.of_nat n - 1 - i)).
  assert (Hrow : rows table !! k
                 = Some (table_row_of vars (subExprs table) i)).
  { rewrite Hrows, list_lookup_fmap, lookup_count_down by (unfold k; lia).
    simpl. do 2 f_equal. unfold k. lia. }
  exists k, (table_row_of vars (subExprs table) i). split_and!.
  - done.
  - rewrite table_row_inputs by lia. unfold assignment_of.
    apply imap_ext. intros idx v Hv. simpl. f_equal.
    apply lookup_lt_Some in Hv. fold n. unfold bit_of, i.
    rewrite assignment_index_bit by done. done.
  - intros k' row' Hrow' Hin'.
    destruct (Hk k' row' Hrow') as [Hlt Hin].
    rewrite Hin in Hin'.
    pose proof (Hbits _ Hin') as Hb'.
    assert (2 ^ Z.of_nat n - 1 - Z.of_nat k' = i) as Heq.
    { apply (bits_determine (Z.of_nat n)); [lia | done | lia |].
      intros p Hp.
      replace p with (Z.of_nat n - 1 - Z.of_nat (Z.to_nat (Z.of_nat n - 1 - p)))
        by lia.
      rewrite Hb' by lia. unfold i.
      by rewrite assignment_index_bit by lia. }
    unfold k. lia.
Qed.

Lemma generateTable_rows_complete_witness :
  ∃ k row, rows (generateTable (js "P ∧ Q")) !! k = Some row
    ∧ inputs row
      = imap (λ idx v, (v, if Nat.even idx then 1 else 0))
          (parseVars (js "P ∧ Q"))
    ∧ ∀ k' row', rows (generateTable (js "P ∧ Q")) !! k' = Some row' →
        inputs row'
        = imap (λ idx v, (v, if Nat.even idx then 1 else 0))
            (parseVars (js "P ∧ Q")) →
        k' = k.
Proof.
  apply (generateTable_rows_complete (js "P ∧ Q") Nat.even).
  vm_compute. split; lia.
Defined.

(** * The syntax section *)

Lemma tokenize_remove_ws a b : remove_ws a = remove_ws b → tokenize a = tokenize b.
Proof. unfold tokenize. by intros ->. Qed.

Lemma node_type_not_ERR ast : node_type ast ≠ js "ERR".
Proof. destruct ast; sym_neq. Qed.

Lemma handleCustomCheck_unfold input ast :
  parseToAST (tokenize input) = Some ast →
  handleCustomCheck input =
    if decide (remove_ws input = remove_ws (toFullString ast))
    then SyntaxResult (js "correct") (js "")
    else SyntaxResult (js "custom_valid_but_loose")
           (js "Sintaxis válida, pero no cumple con la agrupación estricta.").
Proof.
  intros Hast. unfold handleCustomCheck. rewrite Hast.
  by rewrite decide_False by apply node_type_not_ERR.
Qed.

Lemma handleCustomCheck_canonical input t :
  clean t → remove_ws input = remove_ws (toFullString t) →
  handleCustomCheck input = SyntaxResult (js "correct") (js "").
Proof.
  intros Ht Heq.
  assert (Hast' : parseToAST (tokenize input) = Some t).
  { rewrite (tokenize_remove_ws _ _ Heq). by apply parseToAST_toFullString. }
  rewrite (handleCustomCheck_unfold input t Hast').
  by rewrite decide_True.
Qed.

(** X12. [handleCustomCheck] never reports a syntax error: the test
    [ast.type === 'ERR'] never holds (the parse-error node has type ATOM), so
    every input is either correct (it is the canonical string of its own
    parse, white space aside) or valid but loose.  In particular every
    string that is a canonical string up to white space is correct. *)
Theorem handleCustomCheck_spec (input : jsstring) :
  status (handleCustomCheck input) ≠ js "error"
  ∧ (∃ ast, parseToAST (tokenize input) = Some ast
       ∧ (status (handleCustomCheck input) = js "correct"
          ↔ remove_ws input = remove_ws (toFullString ast))
       ∧ (status (handleCustomCheck input) = js "custom_valid_but_loose"
          ↔ remove_ws input ≠ remove_ws (toFullString ast)))
  ∧ (∀ t, clean t → remove_ws input = remove_ws (toFullString t) →
          handleCustomCheck input = SyntaxResult (js "correct") (js "")).
Proof.
  destruct (parseToAST_total (tokenize input)) as [ast Hast].
  pose proof (handleCustomCheck_unfold input ast Hast) as Hu.
  split_and!.
  - rewrite Hu. case_decide; sym_neq.
  - exists ast. split; [done |]. rewrite Hu.
    split; case_decide; simpl; split; try done; intros H'; exfalso;
      revert H'; sym_neq.
  - intros t. apply handleCustomCheck_canonical.
Qed.

Lemma handleCustomCheck_spec_witness :
  handleCustomCheck (js "( P∧Q )") = SyntaxResult (js "correct") (js "").
Proof.
  apply (proj2 (proj2 (handleCustomCheck_spec (js "( P∧Q )")))
           (BIN (js "∧") (ATOM (js "P")) (ATOM (js "Q")))).
  - split_and!.
    + left; reflexivity.
    + split; [discriminate | by repeat constructor].
    + split; [discriminate | by repeat constructor].
  - reflexivity.
Defined.

Lemma remove_parens_app a b :
  remove_parens (a ++ b) = remove_parens a ++ remove_parens b.
Proof. unfold remove_parens. apply List.filter_app. Qed.

Lemma remove_parens_atom a : atom_token a → remove_parens a = a.
Proof.
  intros [_ Ha]. unfold remove_parens.
  induction Ha as [| c a [Hc _] _ IH]; [done |]. simpl.
  destruct (decide (c = 40%N)) as [-> | ?]; [by vm_compute in Hc |].
  destruct (decide (c = 41%N)) as [-> | ?]; [by vm_compute in Hc |].
  rewrite !bool_decide_eq_false_2 by done. simpl. by rewrite IH.
Qed.

Lemma remove_parens_concat ts :
  Forall (λ t, (∃ c, t = [c] ∧ is_sep c = true) ∨ atom_token t) ts →
  remove_parens (concat ts) = concat (filter non_paren ts).
Proof.
  induction 1 as [| t ts Ht _ IH]; [done |].
  simpl. rewrite remove_parens_app, filter_cons, IH.
  destruct Ht as [(c & -> & Hc) | Ha].
  - destruct (decide (c = 40%N)) as [-> | H40].
    { by rewrite (decide_False (P := non_paren [40%N])) by (by intros [? _]). }
    destruct (decide (c = 41%N)) as [-> | H41].
    { by rewrite (decide_False (P := non_paren [41%N])) by (by intros [_ ?]). }
    rewrite (decide_True (P := non_paren [c])).
    + unfold remove_parens. simpl.
      by rewrite !bool_decide_eq_false_2 by done.
    + split; intros [= ->]; done.
  - rewrite remove_parens_atom by done.
    apply atom_token_plain in Ha as (? & ? & _).
    by rewrite (decide_True (P := non_paren t)).
Qed.

(** The canonical string of a well-formed formula has the characters of
    the formula, parentheses and white space aside. *)
Lemma canonical_string_content raw t :
  wf_tokens (tokenize raw) → parseToAST (tokenize raw) = Some t →
  remove_parens (remove_ws (toFullString t)) = remove_parens (remove_ws raw).
Proof.
  intros Hwf Ht.
  destruct (parseToAST_wf_tokens _ Hwf) as (t' & Ht' & Hclean).
  assert (t' = t) as -> by congruence.
  rewrite <- !concat_tokenize.
  rewrite !remove_parens_concat by apply tokenize_tokens.
  rewrite tokenize_toFullString by done.
  by rewrite (canonical_tokens_content _ Hwf t Ht).
Qed.

(** X13. [check] in training mode: the answer is correct exactly when it is
    the expected string up to white space, and is an error otherwise.  When
    the expected string is the canonical string of the problem, an answer
    accepted in training mode is accepted in free mode too, and a wrong
    answer with balanced parentheses that differs from the expected one by
    its parentheses only is told that its grouping is incorrect, not that
    it changed the variables or the connectives. *)
Theorem check_spec (input expected problemRaw : jsstring) :
  let r := check (js "auto") input expected problemRaw in
  (status r = js "correct" ↔ remove_ws input = remove_ws expected)
  ∧ (status r = js "error" ↔ remove_ws input ≠ remove_ws expected)
  ∧ (∀ t, clean t → expected = toFullString t → status r = js "correct" →
       check (js "custom") input expected problemRaw
       = SyntaxResult (js "correct") (js ""))
  ∧ (∀ t, wf_tokens (tokenize problemRaw) →
       parseToAST (tokenize problemRaw) = Some t →
       expected = toFullString t →
       remove_parens (remove_ws problemRaw) = remove_ws problemRaw →
       remove_ws input ≠ remove_ws expected →
       isBalanced (split_chars (remove_ws input)) = true →
       remove_parens (remove_ws input) = remove_parens (remove_ws expected) →
       errorMsg r = js "Agrupación incorrecta. Revisa la jerarquía.").
Proof.
  intros r.
  assert (Hauto : js "auto" ≠ js "custom") by sym_neq.
  assert (Hr : r =
    if decide (remove_ws input = remove_ws expected)
    then SyntaxResult (js "correct") (js "")
    else if negb (isBalanced (split_chars (remove_ws input))) then
      SyntaxResult (js "error") (js "Paréntesis desbalanceados.")
    else if decide (remove_parens (remove_ws input) ≠ remove_ws problemRaw) then
      SyntaxResult (js "error") (js "Has modificado las variables o conectores.")
    else
      SyntaxResult (js "error") (js "Agrupación incorrecta. Revisa la jerarquía.")).
  { unfold r, check. by rewrite (decide_False (P := js "auto" = js "custom")). }
  assert (Hc : status r = js "correct" ↔ remove_ws input = remove_ws expected).
  { rewrite Hr. destruct (decide (remove_ws input = remove_ws expected)); [done |].
    split; [| done].
    destruct (negb _); [intros H'; exfalso; revert H'; sym_neq |].
    case_decide; intros H'; exfalso; revert H'; sym_neq. }
  split_and!.
  - done.
  - rewrite Hr. destruct (decide (remove_ws input = remove_ws expected)).
    + split; [intros H'; exfalso; revert H'; sym_neq | done].
    + split; [done | intros _].
      destruct (negb _); [done |]. by case_decide.
  - intros t Ht -> Hok%Hc. unfold check. rewrite decide_True by done.
    by apply (handleCustomCheck_canonical input t).
  - intros t Hwf Ht -> Hraw Hne Hbal Hpar.
    rewrite Hr, decide_False, Hbal by done. simpl.
    rewrite decide_False; [done |].
    intros Hmod. apply Hmod.
    by rewrite Hpar, (canonical_string_content problemRaw t), Hraw.
Qed.

Lemma check_spec_witness :
  errorMsg (check (js "auto") (js "(P ∧ (Q ∨ R))") (js "((P ∧ Q) ∨ R)")
              (js "P ∧ Q ∨ R"))
  = js "Agrupación incorrecta. Revisa la jerarquía.".
Proof.
  apply (proj2 (proj2 (proj2 (check_spec (js "(P ∧ (Q ∨ R))")
                                (js "((P ∧ Q) ∨ R)") (js "P ∧ Q ∨ R"))))
           (BIN (js "∨") (BIN (js "∧") (ATOM (js "P")) (ATOM (js "Q")))
              (ATOM (js "R")))).
  - change (wf_tokens ([js "P"; js "∧"; js "Q"] ++ js "∨" :: [js "R"])).
    apply wf_bin.
    + right; left; reflexivity.
    + apply (wf_bin [js "P"] (js "∧") [js "Q"]).
      * left; reflexivity.
      * apply wf_atom. split; [discriminate | by repeat constructor].
      * apply wf_atom. split; [discriminate | by repeat constructor].
    + apply wf_atom. split; [discriminate | by repeat constructor].
  - reflexivity.
  - reflexivity.
  - reflexivity.
  - discriminate.
  - reflexivity.
  - reflexivity.
Defined.

(** * Filling and checking the truth table *)

Lemma toUpperCase_capitals x :
  Forall (λ c, (65 ≤ c ≤ 90)%N) x → toUpperCase x = x.
Proof.
  unfold toUpperCase. induction 1 as [| c x Hc _ IH]; [done |]. simpl.
  rewrite IH. f_equal.
  destruct (N.leb_spec 97 c); [lia | done].
Qed.

Lemma obj_get_imap {V} (F : nat → V) (vars : list jsstring) idx v :
  NoDup vars → vars !! idx = Some v →
  obj_get v (imap (λ i x, (x, F i)) vars) = Some (F idx).
Proof.
  intros Hnd. revert F idx. induction Hnd as [| x vars Hx _ IH]; intros F idx Hv.
  - done.
  - rewrite imap_cons. cbn [obj_get]. destruct idx as [| idx]; simpl in Hv.
    + injection Hv as ->. by rewrite decide_True.
    + rewrite decide_False.
      * apply (IH (F ∘ S) idx Hv).
      * intros ->. apply Hx. by eapply list_elem_of_lookup_2.
Qed.

Lemma fst_imap {V} (F : nat → jsstring → V) (vars : list jsstring) :
  (imap (λ i x, (x, F i x)) vars).*1 = vars.
Proof.
  revert F. induction vars as [| x vars IH]; intros F; [done |].
  rewrite imap_cons. simpl. f_equal. apply (IH (λ i, F (S i))).
Qed.

Lemma upper_capitals upper x :
  upper_case upper → Forall (λ c, (65 ≤ c ≤ 90)%N) x → upper x = x.
Proof.
  intros [Hascii _] Hx. rewrite Hascii.
  - by apply toUpperCase_capitals.
  - eapply Forall_impl; [exact Hx |]. intros c Hc. simpl in Hc. lia.
Qed.

Lemma boolInputs_fold (upper : jsstring → jsstring) (h : jsstring → bool)
    (ks : list jsstring) (m : gmap jsstring bool) (x : jsstring) :
  Forall (λ k, upper k = k) ks →
  foldl (λ m k, <[upper k := h k]> m) m ks !! x
  = if decide (x ∈ ks) then Some (h x) else m !! x.
Proof.
  intros Hall. revert m.
  induction Hall as [| k ks Hk _ IH]; intros m; simpl.
  - done.
  - rewrite IH, Hk. destruct (decide (x ∈ ks)) as [Hin | Hnin].
    + by rewrite decide_True by (by right).
    + destruct (decide (x = k)) as [-> | Hne].
      * rewrite decide_True by (by left). by rewrite lookup_insert_eq.
      * rewrite decide_False by (by intros [? | ?]%elem_of_cons).
        by rewrite lookup_insert_ne.
Qed.

Lemma boolInputs_assignment upper vars i :
  upper_case upper →
  NoDup vars → Forall (λ x, Forall (λ c, (65 ≤ c ≤ 90)%N) x) vars →
  (∀ idx v, vars !! idx = Some v →
     boolInputs upper (assignment_of vars i) !! v
     = Some (Z.testbit i (Z.of_nat (length vars) - 1 - Z.of_nat idx)))
  ∧ (∀ key, key ∉ vars →
       boolInputs upper (assignment_of vars i) !! key = None).
Proof.
  intros Hupper Hnd Hcap. unfold boolInputs, assignment_of.
  rewrite (fst_imap (λ idx _, bit_of i (Z.of_nat (length vars) - 1 - Z.of_nat idx))).
  assert (Hup : Forall (λ k, upper k = k) vars).
  { eapply Forall_impl; [apply Hcap |]. intros x. by apply upper_capitals. }
  split.
  - intros idx v Hv. rewrite boolInputs_fold by done.
    rewrite decide_True by (by eapply list_elem_of_lookup_2).
    rewrite (obj_get_imap
               (λ idx, bit_of i (Z.of_nat (length vars) - 1 - Z.of_nat idx))
               vars idx v) by done.
    f_equal. unfold bit_of. destruct (Z.testbit i _).
    + by rewrite bool_decide_eq_true_2.
    + by rewrite bool_decide_eq_false_2.
  - intros key Hkey. rewrite boolInputs_fold by done.
    by rewrite decide_False.
Qed.

(** X14. Filling the final cell of a row with a digit (or blanking it) and
    checking the table: the other rows are left as they are; the assignment
    under which the row is checked gives to each variable the bit of the
    row and has no other key; the final cell is marked correct exactly when
    the digit is the truth value of the formula under this assignment, so
    that a blank cell is always an error.  The formula may have operands
    of any characters; [upper] is [String.prototype.toUpperCase]. *)
Theorem checkTable_final (upper : jsstring → jsstring) (expr : jsstring)
    (k : nat) (d : jsstring) :
  let vars := parseVars expr in
  let n := length vars in
  let table := generateTable expr in
  upper_case upper →
  (1 ≤ n ≤ 30)%nat → Z.of_nat k < 2 ^ Z.of_nat n →
  d = js "0" ∨ d = js "1" ∨ d = js "" →
  ∃ row rows' row',
    rows table !! k = Some row
    ∧ updateRow k (js "final") (js "") d (rows table) = Some rows'
    ∧ (∀ j, j ≠ k → rows' !! j = rows table !! j)
    ∧ checkTable upper expr (subExprs table) rows' !! k = Some row'
    ∧ inputs row' = inputs row ∧ finalVal row' = d
    ∧ (∀ idx v, vars !! idx = Some v →
         boolInputs upper (inputs row) !! v
         = Some (Z.testbit (2 ^ Z.of_nat n - 1 - Z.of_nat k)
                   (Z.of_nat n - 1 - Z.of_nat idx)))
    ∧ (∀ key, key ∉ vars → boolInputs upper (inputs row) !! key = None)
    ∧ (statusFinal row' = js "correct"
       ↔ d = digit (solveProposition_upper upper expr
                      (boolInputs upper (inputs row))))
    ∧ (d = js "" → statusFinal row' = js "error").
Proof.
  intros vars n table Hupper Hn Hk Hd.
  assert (Hne : vars ≠ []) by (unfold n in Hn; destruct vars; simpl in *; [lia | done]).
  pose proof (pow2_le_30 (Z.of_nat n) ltac:(lia)) as Hpow.
  set (i := 2 ^ Z.of_nat n - 1 - Z.of_nat k).
  set (row := table_row_of vars (subExprs table) i).
  assert (Hrow : rows table !! k = Some row).
  { unfold table. rewrite generateTable_rows by done.
    fold vars. fold n. rewrite shl32_pow2 by lia.
    change (List.map ?f ?l) with (f <$> l).
    by rewrite list_lookup_fmap, lookup_count_down by done. }
  assert (Hin : inputs row = assignment_of vars i).
  { apply table_row_inputs; lia. }
  set (new := TableRow (inputs row) (subVals row) d (statusSub row) (js "idle")).
  assert (Hupd : updateRow k (js "final") (js "") d (rows table)
                 = Some (<[k := new]> (rows table))).
  { unfold updateRow. rewrite Hrow.
    rewrite (decide_False (P := js "final" = js "sub")) by sym_neq.
    destruct Hd as [-> | [-> | ->]]; reflexivity. }
  pose proof (lookup_lt_Some _ _ _ Hrow) as Hlt.
  set (values := boolInputs upper (inputs row)).
  eexists row, _, _. split_and!.
  - done.
  - exact Hupd.
  - intros j Hj. by rewrite list_lookup_insert_ne.
  - unfold checkTable. change (List.map ?f ?l) with (f <$> l).
    rewrite list_lookup_fmap, list_lookup_insert_eq by done. reflexivity.
  - done.
  - done.
  - rewrite Hin. apply boolInputs_assignment.
    + done.
    + apply parseVars_NoDup.
    + eapply Forall_impl; [apply parseVars_capitals |]. by intros x [_ ?].
  - rewrite Hin. apply boolInputs_assignment.
    + done.
    + apply parseVars_NoDup.
    + eapply Forall_impl; [apply parseVars_capitals |]. by intros x [_ ?].
  - cbn [statusFinal inputs finalVal new]. fold values.
    destruct (decide (d = digit (solveProposition_upper upper expr values))); [done |].
    split; [| done]. intros H'. exfalso. revert H'. sym_neq.
  - intros ->. cbn [statusFinal inputs finalVal new]. fold values.
    rewrite decide_False; [done |]. by destruct (solveProposition_upper upper expr values).
Qed.

Lemma checkTable_final_witness :
  ∃ row rows' row',
    rows (generateTable (js "p ⇒ q")) !! 1%nat = Some row
    ∧ updateRow 1 (js "final") (js "") (js "0") (rows (generateTable (js "p ⇒ q")))
      = Some rows'
    ∧ (∀ j, j ≠ 1%nat → rows' !! j = rows (generateTable (js "p ⇒ q")) !! j)
    ∧ checkTable toUpperCase (js "p ⇒ q") (subExprs (generateTable (js "p ⇒ q"))) rows' !! 1%nat
      = Some row'
    ∧ inputs row' = inputs row ∧ finalVal row' = js "0"
    ∧ (∀ idx v, parseVars (js "p ⇒ q") !! idx = Some v →
         boolInputs toUpperCase (inputs row) !! v
         = Some (Z.testbit
                   (2 ^ Z.of_nat (length (parseVars (js "p ⇒ q"))) - 1 - Z.of_nat 1)
                   (Z.of_nat (length (parseVars (js "p ⇒ q"))) - 1 - Z.of_nat idx)))
    ∧ (∀ key, key ∉ parseVars (js "p ⇒ q") →
         boolInputs toUpperCase (inputs row) !! key = None)
    ∧ (statusFinal row' = js "correct"
       ↔ js "0" = digit (solveProposition_upper toUpperCase (js "p ⇒ q")
                           (boolInputs toUpperCase (inputs row))))
    ∧ (js "0" = js "" → statusFinal row' = js "error").
Proof.
  apply (checkTable_final toUpperCase (js "p ⇒ q") 1 (js "0")).
  - apply upper_case_toUpperCase.
  - vm_compute. split; lia.
  - vm_compute. reflexivity.
  - left; reflexivity.
Defined.

Lemma obj_get_set_eq {V} key (val : V) obj :
  obj_get key (obj_set key val obj) = Some val.
Proof.
  induction obj as [| [k v] obj IH]; simpl.
  - by rewrite decide_True.
  - destruct (decide (k = key)) as [-> | Hne]; simpl.
    + by rewrite decide_True.
    + by rewrite decide_False.
Qed.

Lemma obj_get_set_ne {V} key key' (val : V) obj :
  key ≠ key' → obj_get key (obj_set key' val obj) = obj_get key obj.
Proof.
  intros Hne. induction obj as [| [k v] obj IH]; simpl.
  - by rewrite decide_False.
  - destruct (decide (k = key')) as [-> | Hne']; simpl.
    + by rewrite !decide_False.
    + destruct (decide (k = key)); [done | apply IH].
Qed.

Lemma obj_get_fold {V} (g : jsstring → V) subs acc s :
  obj_get s (foldl (λ acc sub, obj_set sub (g sub) acc) acc subs)
  = if decide (s ∈ subs) then Some (g s) else obj_get s acc.
Proof.
  revert acc. induction subs as [| x subs IH]; intros acc; simpl; [done |].
  rewrite IH. destruct (decide (s ∈ subs)) as [Hin | Hnin].
  - by rewrite decide_True by (by right).
  - destruct (decide (s = x)) as [-> | Hne].
    + rewrite decide_True by (by left). apply obj_get_set_eq.
    + rewrite decide_False by (by intros [? | ?]%elem_of_cons).
      by apply obj_get_set_ne.
Qed.

Lemma nodes_clean n u : clean n → u ∈ nodes n → clean u.
Proof.
  induction n as [a | n IH | op l IHl r IHr]; cbn [nodes clean].
  - by intros Ha ->%list_elem_of_singleton.
  - intros Hn [-> | Hu]%elem_of_cons; [done | by apply IH].
  - intros (Hop & Hl & Hr) [-> | [Hu | Hu]%elem_of_app]%elem_of_cons.
    + done.
    + by apply IHl.
    + by apply IHr.
Qed.

Lemma compound_renderings_nodes n s :
  s ∈ compound_renderings n →
  ∃ u, u ∈ nodes n ∧ toFullString u = s ∧ ∀ a, u ≠ ATOM a.
Proof.
  induction n as [a | n IH | op l IHl r IHr]; cbn [compound_renderings nodes].
  - by intros ?%elem_of_empty.
  - intros [->%elem_of_singleton | Hs]%elem_of_union.
    + exists (NOT n). split_and!; [by left | done | done].
    + destruct (IH Hs) as (u & Hu & ? & ?). exists u. split; [by right | done].
  - intros [[->%elem_of_singleton | Hs]%elem_of_union | Hs]%elem_of_union.
    + exists (BIN op l r). split_and!; [by left | done | done].
    + destruct (IHl Hs) as (u & Hu & ? & ?). exists u.
      split; [right; apply elem_of_app; by left | done].
    + destruct (IHr Hs) as (u & Hu & ? & ?). exists u.
      split; [right; apply elem_of_app; by right | done].
Qed.

(** X15. Filling the cell of a sub-expression of a well-formed formula in
    a row and checking the table: the column is that of a Negation or
    Binary node of the formula, and the cell is marked correct exactly when
    the digit typed is the value of this node under the assignment of the
    row; a blank cell is an error.  The formula may have operands of any
    characters; [upper] is [String.prototype.toUpperCase]. *)
Theorem checkTable_sub (upper : jsstring → jsstring) (expr : jsstring)
    (ast : ASTNode) (k : nat) (s d : jsstring) :
  let vars := parseVars expr in
  let n := length vars in
  let table := generateTable expr in
  upper_case upper →
  (1 ≤ n ≤ 30)%nat → Z.of_nat k < 2 ^ Z.of_nat n →
  wf_tokens (tokenize expr) → parseToAST (tokenize expr) = Some ast →
  s ∈ subExprs table →
  d = js "0" ∨ d = js "1" ∨ d = js "" →
  ∃ row rows' row' u,
    rows table !! k = Some row
    ∧ updateRow k (js "sub") s d (rows table) = Some rows'
    ∧ (∀ j, j ≠ k → rows' !! j = rows table !! j)
    ∧ checkTable upper expr (subExprs table) rows' !! k = Some row'
    ∧ inputs row' = inputs row
    ∧ obj_get s (subVals row') = Some d
    ∧ u ∈ nodes ast ∧ (∀ a, u ≠ ATOM a) ∧ toFullString u = s
    ∧ (obj_get s (statusSub row') = Some (js "correct")
       ↔ d = digit (evalAST_upper upper (boolInputs upper (inputs row)) u))
    ∧ (d = js "" → obj_get s (statusSub row') = Some (js "error")).
Proof.
  intros vars n table Hupper Hn Hk Hwf Hast Hs Hd.
  assert (Hne : vars ≠ []) by (unfold n in Hn; destruct vars; simpl in *; [lia | done]).
  pose proof (pow2_le_30 (Z.of_nat n) ltac:(lia)) as Hpow.
  set (i := 2 ^ Z.of_nat n - 1 - Z.of_nat k).
  set (row := table_row_of vars (subExprs table) i).
  assert (Hrow : rows table !! k = Some row).
  { unfold table. rewrite generateTable_rows by done.
    fold vars. fold n. rewrite shl32_pow2 by lia.
    change (List.map ?f ?l) with (f <$> l).
    by rewrite list_lookup_fmap, lookup_count_down by done. }
  set (new := TableRow (inputs row) (obj_set s d (subVals row)) (finalVal row)
                (obj_set s (js "idle") (statusSub row)) (statusFinal row)).
  assert (Hupd : updateRow k (js "sub") s d (rows table)
                 = Some (<[k := new]> (rows table))).
  { unfold updateRow. rewrite Hrow.
    rewrite (decide_True (P := js "sub" = js "sub")) by done.
    destruct Hd as [-> | [-> | ->]]; reflexivity. }
  pose proof (lookup_lt_Some _ _ _ Hrow) as Hlt.
  set (values := boolInputs upper (inputs row)).
  (* the node of the column *)
  destruct (parseToAST_wf_tokens _ Hwf) as (ast' & Hast' & Hclean).
  assert (ast' = ast) as -> by congruence.
  assert (Hcomp : s ∈ compound_renderings ast).
  { unfold table, generateTable in Hs.
    rewrite decide_False in Hs by (fold vars; fold n; lia).
    cbn [subExprs] in Hs. rewrite Hast in Hs.
    rewrite sort_by_Permutation, elem_of_List_filter in Hs.
    destruct Hs as [Hs _]. by apply getSubExpressions_elem. }
  destruct (compound_renderings_nodes _ _ Hcomp) as (u & Hu & Hus & Hua).
  assert (Hval : solveProposition_upper upper s values = evalAST_upper upper values u).
  { rewrite <- Hus. unfold solveProposition_upper.
    rewrite parseToAST_toFullString; [done |]. by eapply nodes_clean. }
  set (checked :=
         TableRow (inputs new) (subVals new) (finalVal new)
           (foldl (λ statusSub sub,
              obj_set sub
                (if decide (obj_get sub (subVals new)
                            = Some (digit (solveProposition_upper upper sub values)))
                 then js "correct" else js "error") statusSub)
              [] (subExprs table))
           (if decide (finalVal new = digit (solveProposition_upper upper expr values))
            then js "correct" else js "error")).
  assert (Hstatus : obj_get s (statusSub checked)
          = Some (if decide (d = digit (evalAST_upper upper values u))
                  then js "correct" else js "error")).
  { cbn [statusSub checked].
    rewrite (obj_get_fold
               (λ sub, if decide (obj_get sub (subVals new)
                                  = Some (digit (solveProposition_upper upper sub values)))
                       then js "correct" else js "error")).
    rewrite decide_True by done. f_equal.
    cbn [subVals new]. rewrite obj_get_set_eq, Hval.
    destruct (decide (d = digit (evalAST_upper upper values u))) as [-> | Hne'].
    - by rewrite decide_True.
    - rewrite decide_False; [done | congruence]. }
  exists row, (<[k := new]> (rows table)), checked, u. split_and!.
  - done.
  - exact Hupd.
  - intros j Hj. by rewrite list_lookup_insert_ne.
  - unfold checkTable. change (List.map ?f ?l) with (f <$> l).
    rewrite list_lookup_fmap, list_lookup_insert_eq by done. reflexivity.
  - done.
  - cbn [subVals new checked]. apply obj_get_set_eq.
  - done.
  - done.
  - done.
  - rewrite Hstatus.
    destruct (decide (d = digit (evalAST_upper upper values u))); [done |].
    split; [| done]. intros H'. exfalso. revert H'. sym_neq.
  - intros ->. rewrite Hstatus.
    rewrite decide_False; [done |]. by destruct (evalAST_upper upper values u).
Qed.

Lemma checkTable_sub_witness :
  ∃ row rows' row' u,
    rows (generateTable (js "¬p ∨ q")) !! 0%nat = Some row
    ∧ updateRow 0 (js "sub") (js "(¬ p)") (js "0")
        (rows (generateTable (js "¬p ∨ q"))) = Some rows'
    ∧ (∀ j, j ≠ 0%nat → rows' !! j = rows (generateTable (js "¬p ∨ q")) !! j)
    ∧ checkTable toUpperCase (js "¬p ∨ q") (subExprs (generateTable (js "¬p ∨ q"))) rows'
        !! 0%nat = Some row'
    ∧ inputs row' = inputs row
    ∧ obj_get (js "(¬ p)") (subVals row') = Some (js "0")
    ∧ u ∈ nodes (BIN (js "∨") (NOT (ATOM (js "p"))) (ATOM (js "q")))
    ∧ (∀ a, u ≠ ATOM a) ∧ toFullString u = js "(¬ p)"
    ∧ (obj_get (js "(¬ p)") (statusSub row') = Some (js "correct")
       ↔ js "0" = digit (evalAST_upper toUpperCase
                           (boolInputs toUpperCase (inputs row)) u))
    ∧ (js "0" = js "" →
       obj_get (js "(¬ p)") (statusSub row') = Some (js "error")).
Proof.
  apply (checkTable_sub toUpperCase (js "¬p ∨ q")
           (BIN (js "∨") (NOT (ATOM (js "p"))) (ATOM (js "q")))
           0 (js "(¬ p)") (js "0")).
  - apply upper_case_toUpperCase.
  - vm_compute. split; lia.
  - vm_compute. reflexivity.
  - change (wf_tokens ([js "¬"; js "p"] ++ js "∨" :: [js "q"])).
    apply wf_bin.
    + right; left; reflexivity.
    + apply wf_not, wf_atom. split; [discriminate | by repeat constructor].
    + apply wf_atom. split; [discriminate | by repeat constructor].
  - reflexivity.
  - vm_compute. apply list_elem_of_singleton. reflexivity.
  - left; reflexivity.
Defined.

(** * The reduction engine on fully parenthesized formulas *)

(** ** Parsing fully parenthesized formulas *)

Lemma unit_tokens_wf ts t : unit_tokens ts t → wf_tokens ts ∧ clean t.
Proof.
  induction 1 as [a Ha | ts t _ [IHw IHc] | ts t _ [IHw IHc]
                 | l op r tl tr Hop _ [IHlw IHlc] _ [IHrw IHrc]].
  - split; [by constructor | done].
  - split; [by constructor | done].
  - split; [by constructor | done].
  - split; [| done]. constructor. by constructor.
Qed.

Lemma unit_tokens_balanced ts t : unit_tokens ts t → balanced ts.
Proof. intros [H _]%unit_tokens_wf. by apply wf_tokens_balanced. Qed.

Lemma unit_tokens_nonempty ts t : unit_tokens ts t → ts ≠ [].
Proof. intros [H _]%unit_tokens_wf. by apply wf_tokens_nonempty. Qed.

(** A unit is an operand, a negation or a group. *)
Lemma unit_tokens_shape ts t :
  unit_tokens ts t →
  (∃ a, ts = [a] ∧ atom_token a ∧ t = ATOM a)
  ∨ (∃ ts', ts = SYMBOLS.NOT :: ts')
  ∨ (∃ m, ts = LPAREN :: m ++ [RPAREN] ∧ balanced m).
Proof.
  destruct 1 as [a Ha | ts t Hts | ts t Hts | l op r tl tr Hop Hl Hr].
  - left. eauto.
  - right; right. exists ts. split; [done |]. by eapply unit_tokens_balanced.
  - right; left. eauto.
  - right; right. exists (l ++ op :: r). split; [done |].
    apply balanced_app; [by eapply unit_tokens_balanced |].
    apply (balanced_app [op]); [| by eapply unit_tokens_balanced].
    apply binop_not_paren in Hop as [? ?]. by apply balanced_single.
Qed.

(** A unit that starts with an operand is this operand. *)
Lemma unit_tokens_head_atom a rest t :
  unit_tokens (a :: rest) t → atom_token a → rest = [] ∧ t = ATOM a.
Proof.
  intros Hu Ha. apply atom_token_plain in Ha as (HL & HR & HN & _).
  destruct (unit_tokens_shape _ _ Hu) as [(b & [= -> ->] & _ & ->) |
    [(ts' & [= -> _]) | (m & [= -> _] & _)]]; done.
Qed.

Lemma literal_atom_token v : v = js "0" ∨ v = js "1" → atom_token v.
Proof. intros [-> | ->]; (split; [discriminate | by repeat constructor]). Qed.

(** In a unit every binary connective is inside parentheses. *)
Lemma unit_tokens_inner ts t j u :
  unit_tokens ts t → ts !! j = Some u → is_binop u →
  1 ≤ net (drop (S j) ts).
Proof.
  intros Hu. revert j.
  induction Hu as [a Ha | ts t Hts _ | ts t Hts IH | l op r tl tr Hop Hl _ Hr _];
    intros j Hj Hbin.
  - destruct j as [| j]; [| done]. injection Hj as ->.
    by apply atom_token_plain in Ha as (_ & _ & _ & ?).
  - apply (group_inner (LPAREN :: ts ++ [RPAREN]) j u); [| done | done].
    right. exists ts. split; [done |]. by eapply unit_tokens_balanced.
  - destruct j as [| j]; simpl in Hj.
    + injection Hj as <-. by apply PRECEDENCE_binop in Hbin as [? _].
    + change (drop (S (S j)) (SYMBOLS.NOT :: ts)) with (drop (S j) ts).
      by apply IH.
  - apply (group_inner (LPAREN :: (l ++ op :: r) ++ [RPAREN]) j u); [| done | done].
    right. exists (l ++ op :: r). split; [done |].
    apply balanced_app; [by eapply unit_tokens_balanced |].
    apply (balanced_app [op]); [| by eapply unit_tokens_balanced].
    apply binop_not_paren in Hop as [? ?]. by apply balanced_single.
Qed.

Lemma unit_tokens_not_strippable l t x :
  unit_tokens l t → x ≠ [] → strippable (l ++ x) = false.
Proof.
  intros Hu Hx.
  destruct (unit_tokens_shape _ _ Hu) as [(a & -> & Ha & _) |
    [(ts' & ->) | (m & -> & Hm)]].
  - apply group_not_strippable; [| done]. left. eauto.
  - done.
  - apply group_not_strippable; [| done]. right. eauto.
Qed.

Lemma candidate_between_units l op r tl tr j u :
  unit_tokens l tl → unit_tokens r tr → is_binop op →
  candidate (l ++ op :: r) j u → j = length l.
Proof.
  intros Hl Hr Hop (Hj & Hu & Hnet).
  pose proof (unit_tokens_balanced _ _ Hr) as [Hnr _].
  destruct (Nat.lt_trichotomy j (length l)) as [Hlt | [-> | Hgt]]; [| done |];
    exfalso.
  - rewrite lookup_app_l in Hj by done.
    pose proof (unit_tokens_inner _ _ _ _ Hl Hj Hu) as Hin.
    rewrite drop_app_le in Hnet by lia.
    rewrite net_app in Hnet. cbn [net] in Hnet.
    rewrite (paren_delta_binop op Hop) in Hnet. lia.
  - rewrite lookup_app_r in Hj by lia.
    destruct (j - length l)%nat as [| j'] eqn:Hj'; [lia |]. simpl in Hj.
    pose proof (unit_tokens_inner _ _ _ _ Hr Hj Hu) as Hin.
    replace (S j) with (length l + S (S j'))%nat in Hnet by lia.
    rewrite drop_app_add in Hnet.
    change (drop (S (S j')) (op :: r)) with (drop (S j') r) in Hnet. lia.
Qed.

Lemma findSplit_between_units l op r tl tr :
  unit_tokens l tl → unit_tokens r tr → is_binop op →
  findSplit (l ++ op :: r) = Z.of_nat (length l).
Proof.
  intros Hl Hr Hop.
  destruct (findSplit_spec (l ++ op :: r)) as [[_ Hnone] | (k & Hk & (u & Hc & _))].
  - exfalso. apply (Hnone (length l) op). split_and!; [| done |].
    + by apply list_lookup_middle.
    + rewrite drop_S_middle. by apply unit_tokens_balanced in Hr as [? _].
  - rewrite Hk. f_equal. by eapply candidate_between_units.
Qed.

Lemma findSplit_negation_unit ts t :
  unit_tokens ts t → findSplit (SYMBOLS.NOT :: ts) = -1.
Proof.
  intros Hu. apply findSplit_none. intros j u (Hj & Hbin & Hnet).
  destruct j as [| j]; simpl in Hj.
  - injection Hj as <-. by apply PRECEDENCE_binop in Hbin as [? _].
  - pose proof (unit_tokens_inner _ _ _ _ Hu Hj Hbin) as Hin.
    change (drop (S (S j)) (SYMBOLS.NOT :: ts)) with (drop (S j) ts) in Hnet.
    lia.
Qed.

Lemma parseToAST_parens m :
  balanced m → parseToAST (LPAREN :: m ++ [RPAREN]) = parseToAST m.
Proof.
  intros Hm. rewrite <- (parseToAST_strip (LPAREN :: m ++ [RPAREN])).
  rewrite strip_outer_parens by done. apply parseToAST_strip.
Qed.

(** The parser reads a fully parenthesized formula as the tree it
    denotes. *)
Lemma parseToAST_unit ts t : unit_tokens ts t → parseToAST ts = Some t.
Proof.
  induction 1 as [a Ha | ts t Hts IH | ts t Hts IH
                 | l op r tl tr Hop Hl IHl Hr IHr].
  - apply (parseToAST_canonical_tokens (ATOM a)). done.
  - rewrite parseToAST_parens; [done |]. by eapply unit_tokens_balanced.
  - assert (Hs : strip_outer (SYMBOLS.NOT :: ts) = SYMBOLS.NOT :: ts).
    { by apply strip_outer_fixed. }
    rewrite parseToAST_unfold, parse_body_not; rewrite Hs.
    + simpl. rewrite drop_0. by rewrite IH.
    + apply unit_tokens_nonempty in Hts. destruct ts; [done |]. simpl. lia.
    + by eapply findSplit_negation_unit.
    + done.
  - rewrite parseToAST_parens.
    2:{ apply balanced_app; [by eapply unit_tokens_balanced |].
        apply (balanced_app [op]); [| by eapply unit_tokens_balanced].
        apply binop_not_paren in Hop as [? ?]. by apply balanced_single. }
    assert (Hs : strip_outer (l ++ op :: r) = l ++ op :: r).
    { apply strip_outer_fixed. by eapply unit_tokens_not_strippable. }
    rewrite parseToAST_unfold.
    rewrite (parse_body_split _ _ (length l) op); rewrite Hs.
    + rewrite take_app_length, drop_S_middle. by rewrite IHl, IHr.
    + rewrite length_app. simpl. apply unit_tokens_nonempty in Hl.
      destruct l; [done |]. simpl. lia.
    + by eapply findSplit_between_units.
    + by apply list_lookup_middle.
Qed.

(** ** A reducible token inside its formula *)

Lemma lookup_context {A} (a s b : list A) j :
  (j < length s)%nat → (a ++ s ++ b) !! (length a + j)%nat = s !! j.
Proof.
  intros Hj. rewrite lookup_app_r by lia.
  replace (length a + j - length a)%nat with j by lia.
  by apply lookup_app_l.
Qed.

Lemma isVal_next_context (a s b : list jsstring) j :
  (j < length s)%nat → isVal (head b) = false →
  isVal ((a ++ s ++ b) !! (length a + j + 1)%nat) = isVal (s !! (j + 1)%nat).
Proof.
  intros Hj Hb.
  destruct (decide (j + 1 < length s)%nat) as [Hlt | Hge].
  - replace (length a + j + 1)%nat with (length a + (j + 1))%nat by lia.
    by rewrite lookup_context.
  - rewrite (lookup_ge_None_2 s) by lia.
    rewrite lookup_app_r, lookup_app_r by lia.
    replace (length a + j + 1 - length a - length s)%nat with 0%nat by lia.
    by rewrite <- head_lookup, Hb.
Qed.

Lemma isVal_prev_context (a s b : list jsstring) j :
  (j < length s)%nat → isVal (last a) = false →
  isVal (at_index (a ++ s ++ b) (Z.of_nat (length a + j) - 1))
  = isVal (at_index s (Z.of_nat j - 1)).
Proof.
  intros Hj Ha. destruct j as [| j].
  - replace (at_index s (Z.of_nat 0 - 1)) with (@None jsstring) by done.
    destruct a as [| x a] using rev_ind.
    + done.
    + rewrite last_snoc in Ha.
      replace (Z.of_nat (length (a ++ [x]) + 0) - 1) with (Z.of_nat (length a))
        by (rewrite length_app; simpl; lia).
      rewrite at_index_nat, <- app_assoc, lookup_app_r by done.
      by rewrite Nat.sub_diag.
  - replace (Z.of_nat (length a + S j) - 1) with (Z.of_nat (length a + j)) by lia.
    replace (Z.of_nat (S j) - 1) with (Z.of_nat j) by lia.
    rewrite !at_index_nat. rewrite lookup_context by lia. done.
Qed.

Lemma interactable_context (a s b : list jsstring) j :
  (j < length s)%nat → isVal (last a) = false → isVal (head b) = false →
  interactable (a ++ s ++ b) (length a + j) = interactable s j.
Proof.
  intros Hj Ha Hb. unfold interactable.
  rewrite lookup_context by done.
  destruct (s !! j) as [t |]; [| done].
  by rewrite isVal_next_context, isVal_prev_context.
Qed.

Lemma rank_at_context (a s b : list jsstring) j :
  (j < length s)%nat → rank_at (a ++ s ++ b) (length a + j) = rank_at s j.
Proof. intros Hj. unfold rank_at. by rewrite lookup_context. Qed.

Lemma interactable_lt tokens idx :
  interactable tokens idx = true → (idx < length tokens)%nat.
Proof.
  unfold interactable. destruct (tokens !! idx) eqn:Ht; [| done].
  intros _. by eapply lookup_lt_Some.
Qed.

(** What makes a token reducible: a negation before a literal, or a binary
    connective between two literals. *)
Lemma interactable_inv tokens idx :
  interactable tokens idx = true →
  (tokens !! idx = Some SYMBOLS.NOT
   ∧ ∃ v, tokens !! (idx + 1)%nat = Some v ∧ (v = js "1" ∨ v = js "0"))
  ∨ (∃ op v1 v2, tokens !! idx = Some op ∧ is_binop op ∧ (1 ≤ idx)%nat
       ∧ tokens !! (idx - 1)%nat = Some v1 ∧ (v1 = js "1" ∨ v1 = js "0")
       ∧ tokens !! (idx + 1)%nat = Some v2 ∧ (v2 = js "1" ∨ v2 = js "0")).
Proof.
  unfold interactable. destruct (tokens !! idx) as [t |] eqn:Ht; [| done].
  intros [Hu | Hb]%orb_true_iff.
  - apply andb_true_iff in Hu as [->%bool_decide_eq_true Hv%isVal_word].
    left. split; [done |]. destruct Hv as (v & ? & ?). eauto.
  - apply andb_true_iff in Hb as [Hb Hn%isVal_word].
    apply andb_true_iff in Hb as [Hop Hp%isVal_word].
    destruct Hn as (v2 & Hv2 & ?), Hp as (v1 & Hv1 & ?).
    assert (Hidx : (1 ≤ idx)%nat) by (destruct idx; [done | lia]).
    replace (Z.of_nat idx - 1) with (Z.of_nat (idx - 1)) in Hv1 by lia.
    rewrite at_index_nat in Hv1.
    right. exists t, v1, v2. split_and!; try done.
    unfold is_binary_symbol in Hop. apply bool_decide_eq_true in Hop.
    unfold is_binop. set_solver.
Qed.

Lemma reduced_tokens_context (a s b : list jsstring) j :
  interactable s j = true →
  reduced_tokens (length a + j) (a ++ s ++ b) = a ++ reduced_tokens j s ++ b.
Proof.
  intros Hi. pose proof (interactable_lt _ _ Hi) as Hj.
  unfold reduced_tokens. rewrite lookup_context by done.
  destruct (interactable_inv _ _ Hi) as [[Ht (v & Hv & _)] |
    (op & v1 & v2 & Ht & Hop & Hidx & Hv1 & _ & Hv2 & _)].
  - apply lookup_lt_Some in Hv.
    rewrite Ht, !decide_True by done.
    rewrite take_app_add, take_app_le by lia.
    replace (length a + j + 1)%nat with (length a + (j + 1))%nat by lia.
    rewrite lookup_context by lia.
    replace (length a + j + 2)%nat with (length a + (j + 2))%nat by lia.
    rewrite drop_app_add, drop_app_le by lia.
    by rewrite <- !app_assoc.
  - apply lookup_lt_Some in Hv2.
    assert (Hne : s !! j ≠ Some SYMBOLS.NOT).
    { rewrite Ht. intros [= ->]. by apply PRECEDENCE_binop in Hop as [? _]. }
    rewrite !decide_False by done.
    replace (length a + j - 1)%nat with (length a + (j - 1))%nat by lia.
    rewrite take_app_add, take_app_le by lia.
    rewrite (lookup_context a s b (j - 1)) by lia.
    replace (length a + j + 1)%nat with (length a + (j + 1))%nat by lia.
    rewrite lookup_context by lia.
    replace (length a + j + 2)%nat with (length a + (j + 2))%nat by lia.
    rewrite drop_app_add, drop_app_le by lia.
    by rewrite <- !app_assoc.
Qed.

(** ** One reduction *)

(** A unit that ends with a literal is this literal, or its token before
    the last is a negation. *)
Lemma unit_tokens_last_literal l tl v :
  unit_tokens l tl → last l = Some v → v = js "1" ∨ v = js "0" →
  (l = [v] ∧ tl = ATOM v)
  ∨ (∃ i, l !! i = Some SYMBOLS.NOT ∧ (i + 2 = length l)%nat).
Proof.
  intros Hu. revert v.
  induction Hu as [a Ha | ts t Hts _ | ts t Hts IH | l op r tl tr Hop Hl _ Hr _];
    intros v Hlast Hv.
  - left. simpl in Hlast. by injection Hlast as ->.
  - exfalso. rewrite app_comm_cons, last_snoc in Hlast.
    injection Hlast as <-. destruct Hv as [H | H]; revert H; sym_neq.
  - right. pose proof (unit_tokens_nonempty _ _ Hts) as Hne.
    rewrite last_cons in Hlast.
    destruct (last ts) as [y |] eqn:Hy.
    + injection Hlast as ->.
      destruct (IH v eq_refl Hv) as [[-> _] | (i & Hi & Hlen)].
      * by exists 0%nat.
      * exists (S i). split; [done | simpl; lia].
    + apply last_None in Hy. done.
  - exfalso. rewrite app_comm_cons, last_snoc in Hlast.
    injection Hlast as <-. destruct Hv as [H | H]; revert H; sym_neq.
Qed.

Lemma isVal_literal v : v = js "1" ∨ v = js "0" → isVal (Some v) = true.
Proof. by intros [-> | ->]. Qed.

Lemma isVal_binop op : is_binop op → isVal (Some op) = false.
Proof. intros [-> | [-> | [-> | ->]]]; reflexivity. Qed.

Lemma rank_at_NOT tokens i : tokens !! i = Some SYMBOLS.NOT → rank_at tokens i = 5.
Proof. intros H. unfold rank_at. by rewrite H. Qed.

Lemma rank_at_binop tokens i op :
  tokens !! i = Some op → is_binop op → rank_at tokens i ≤ 4.
Proof.
  intros H Hop. unfold rank_at. rewrite H. simpl.
  pose proof (rank_binop op Hop) as Hr. unfold rank in Hr.
  destruct (PRECEDENCE op); simpl in *; lia.
Qed.

(** A reducible token inside a part [s] of the tokens, with nothing
    reducible across the borders of [s]. *)
Lemma reduce_inside (a s b : list jsstring) idx :
  interactable (a ++ s ++ b) idx = true →
  (length a ≤ idx < length a + length s)%nat →
  isVal (last a) = false → isVal (head b) = false →
  (∀ j, interactable (a ++ s ++ b) j = true →
        rank_at (a ++ s ++ b) j ≤ rank_at (a ++ s ++ b) idx) →
  interactable s (idx - length a) = true
  ∧ (∀ j, interactable s j = true → rank_at s j ≤ rank_at s (idx - length a))
  ∧ reduced_tokens idx (a ++ s ++ b)
    = a ++ reduced_tokens (idx - length a) s ++ b.
Proof.
  intros Hi Hidx Ha Hb Hmax.
  set (j := (idx - length a)%nat).
  assert (Hj : idx = (length a + j)%nat) by (unfold j; lia).
  assert (Hjs : (j < length s)%nat) by (unfold j; lia).
  rewrite Hj in Hi, Hmax |- *. clearbody j. clear Hj Hidx.
  rewrite interactable_context in Hi by done.
  split_and!.
  - done.
  - intros j' Hj'. pose proof (interactable_lt _ _ Hj') as Hlt.
    specialize (Hmax (length a + j')%nat).
    rewrite interactable_context, !rank_at_context in Hmax by done.
    by apply Hmax.
  - by apply reduced_tokens_context.
Qed.

Lemma bin_tokens_left (l : list jsstring) op r :
  LPAREN :: (l ++ op :: r) ++ [RPAREN] = [LPAREN] ++ l ++ (op :: r ++ [RPAREN]).
Proof. simpl. by rewrite <- app_assoc. Qed.

Lemma bin_tokens_right (l : list jsstring) op r :
  LPAREN :: (l ++ op :: r) ++ [RPAREN] = (LPAREN :: l ++ [op]) ++ r ++ [RPAREN].
Proof. simpl. by rewrite <- !app_assoc. Qed.

Lemma interactable_NOT tokens i v :
  tokens !! i = Some SYMBOLS.NOT → tokens !! (i + 1)%nat = Some v →
  v = js "1" ∨ v = js "0" → interactable tokens i = true.
Proof.
  intros Hi Hv Hval. unfold interactable. rewrite Hi, Hv.
  rewrite bool_decide_eq_true_2 by done. by rewrite isVal_literal.
Qed.

Lemma interactable_binop tokens i op v1 v2 :
  tokens !! S i = Some op → is_binop op →
  tokens !! i = Some v1 → tokens !! S (S i) = Some v2 →
  v1 = js "1" ∨ v1 = js "0" → v2 = js "1" ∨ v2 = js "0" →
  interactable tokens (S i) = true.
Proof.
  intros Hi Hop Hv1 Hv2 Hval1 Hval2. unfold interactable. rewrite Hi.
  replace (Z.of_nat (S i) - 1) with (Z.of_nat i) by lia.
  rewrite at_index_nat, Hv1. replace (S i + 1)%nat with (S (S i)) by lia.
  rewrite Hv2, !isVal_literal by done.
  assert (is_binary_symbol op = true) as ->.
  { unfold is_binary_symbol. apply bool_decide_eq_true.
    destruct Hop as [-> | [-> | [-> | ->]]]; set_solver. }
  by rewrite orb_true_r.
Qed.

(** The reduction of a token of highest rank among the reducible ones in
    a fully parenthesized formula over 0 and 1 leaves a fully parenthesized
    formula with the same value. *)
Lemma unit_reduce (values : gmap jsstring bool) ts t idx :
  unit_tokens ts t → literals t →
  interactable ts idx = true →
  (∀ j, interactable ts j = true → rank_at ts j ≤ rank_at ts idx) →
  ∃ t', unit_tokens (reduced_tokens idx ts) t' ∧ literals t'
        ∧ evalAST values t' = evalAST values t.
Proof.
  intros Hu. revert idx.
  induction Hu as [a Ha | ts t Hts IH | ts t Hts IH
                  | l op r tl tr Hop Hl IHl Hr IHr];
    intros idx Hlit Hi Hmax.
  - (* an operand *)
    exfalso. apply interactable_token in Hi as (u & Hu & Hnb).
    destruct idx as [| idx]; [| done]. injection Hu as <-.
    apply atom_token_plain in Ha as (_ & _ & ? & ?). by destruct Hnb.
  - (* parentheses *)
    change (LPAREN :: ts ++ [RPAREN]) with ([LPAREN] ++ ts ++ [RPAREN]) in *.
    pose proof (interactable_lt _ _ Hi) as Hlt.
    rewrite !length_app in Hlt. simpl in Hlt.
    pose proof (interactable_token _ _ Hi) as (u & Hu & Hnb).
    assert (Hin : (length [LPAREN] ≤ idx < length [LPAREN] + length ts)%nat).
    { simpl. destruct idx as [| idx].
      - injection Hu as <-. exfalso.
        destruct Hnb as [H | H%binop_not_paren]; [revert H; sym_neq | by destruct H].
      - split; [lia |]. destruct (decide (idx < length ts)%nat); [lia |].
        exfalso. simpl in Hu. rewrite lookup_app_r in Hu by lia.
        replace (idx - length ts)%nat with 0%nat in Hu by lia.
        injection Hu as <-.
        destruct Hnb as [H | H%binop_not_paren]; [revert H; sym_neq | by destruct H]. }
    destruct (reduce_inside [LPAREN] ts [RPAREN] idx Hi Hin eq_refl eq_refl Hmax)
      as (Hi' & Hmax' & ->).
    destruct (IH _ Hlit Hi' Hmax') as (t' & Ht' & Hlit' & Hev).
    exists t'. split_and!; [| done | done].
    by apply unit_paren.
  - (* a negation *)
    destruct idx as [| idx].
    + destruct (interactable_inv _ _ Hi) as [[_ (v & Hv & Hval)] |
        (? & ? & ? & _ & _ & ? & _)]; [| lia].
      simpl in Hv. destruct ts as [| v' rest]; [done |].
      injection Hv as ->.
      assert (Hlv : v = js "0" ∨ v = js "1") by (by destruct Hval; [right | left]).
      destruct (unit_tokens_head_atom _ _ _ Hts (literal_atom_token _ Hlv))
        as [-> ->].
      exists (ATOM (evaluateNot (Some v))).
      assert (Hred : reduced_tokens 0 [SYMBOLS.NOT; v] = [evaluateNot (Some v)])
        by done.
      rewrite Hred. split_and!.
      * apply unit_atom, literal_atom_token, evaluateNot_literal.
      * apply evaluateNot_literal.
      * rewrite (evaluateNot_digit values) by done. apply evalAST_digit.
    + assert (Hw : SYMBOLS.NOT :: ts = [SYMBOLS.NOT] ++ ts ++ [])
        by (by rewrite app_nil_r).
      rewrite Hw in Hi, Hmax |- *.
      pose proof (interactable_lt _ _ Hi) as Hlt.
      rewrite !length_app in Hlt. simpl in Hlt.
      assert (Hin : (length [SYMBOLS.NOT] ≤ S idx
                     < length [SYMBOLS.NOT] + length ts)%nat) by (simpl; lia).
      destruct (reduce_inside [SYMBOLS.NOT] ts [] (S idx) Hi Hin eq_refl eq_refl Hmax)
        as (Hi' & Hmax' & ->).
      destruct (IH _ Hlit Hi' Hmax') as (t' & Ht' & Hlit' & Hev).
      exists (NOT t'). rewrite app_nil_r. split_and!.
      * by apply unit_not.
      * done.
      * simpl. by rewrite Hev.
  - (* a binary connective in its parentheses *)
    destruct Hlit as [Hlitl Hlitr].
    pose proof (interactable_lt _ _ Hi) as Hlt.
    pose proof (interactable_token _ _ Hi) as (u & Hu & Hnb).
    assert (Hnp : u ≠ LPAREN ∧ u ≠ RPAREN).
    { destruct Hnb as [-> | H%binop_not_paren]; [split; sym_neq | done]. }
    pose proof (unit_tokens_nonempty _ _ Hl) as Hnel.
    assert (Hlenl : (1 ≤ length l)%nat) by (destruct l; [done | simpl; lia]).
    simpl in Hlt. rewrite !length_app in Hlt. simpl in Hlt.
    destruct (decide (idx = 0%nat)) as [-> | H0].
    { exfalso. injection Hu as <-. by destruct Hnp. }
    destruct (decide (idx < 1 + length l)%nat) as [Hinl | Hnl].
    { (* in the left operand *)
      rewrite bin_tokens_left in Hi, Hmax |- *.
      assert (Hin : (length [LPAREN] ≤ idx < length [LPAREN] + length l)%nat)
        by (simpl; lia).
      destruct (reduce_inside [LPAREN] l (op :: r ++ [RPAREN]) idx Hi Hin eq_refl
                  (isVal_binop op Hop) Hmax) as (Hi' & Hmax' & ->).
      destruct (IHl _ Hlitl Hi' Hmax') as (t' & Ht' & Hlit' & Hev).
      exists (BIN op t' tr). rewrite <- bin_tokens_left. split_and!.
      - by apply unit_bin.
      - done.
      - simpl. by rewrite Hev. }
    destruct (decide (idx = 1 + length l)%nat) as [-> | Hnop].
    { (* the connective itself *)
      assert (Hop' : (LPAREN :: (l ++ op :: r) ++ [RPAREN]) !! (1 + length l)%nat
                     = Some op).
      { simpl. rewrite <- app_assoc. by apply list_lookup_middle. }
      destruct (interactable_inv _ _ Hi) as [[HN _] |
        (op' & v1 & v2 & _ & _ & _ & Hv1 & Hval1 & Hv2 & Hval2)].
      { exfalso. rewrite Hop' in HN. injection HN as ->.
        by apply PRECEDENCE_binop in Hop as [? _]. }
      (* the right operand is the literal [v2] *)
      rewrite bin_tokens_right in Hv2.
      replace (1 + length l + 1)%nat
        with (length (LPAREN :: l ++ [op]) + 0)%nat in Hv2
        by (simpl; rewrite length_app; simpl; lia).
      pose proof (unit_tokens_nonempty _ _ Hr) as Hner.
      rewrite lookup_context in Hv2 by (destruct r; [done | simpl; lia]).
      destruct r as [| v2' rest]; [done |]. injection Hv2 as ->.
      assert (Hlv2 : v2 = js "0" ∨ v2 = js "1") by (by destruct Hval2; [right | left]).
      destruct (unit_tokens_head_atom _ _ _ Hr (literal_atom_token _ Hlv2))
        as [-> ->].
      (* the left operand is the literal [v1] *)
      rewrite bin_tokens_left in Hv1.
      replace (1 + length l - 1)%nat
        with (length [LPAREN] + (length l - 1))%nat in Hv1 by (simpl; lia).
      rewrite lookup_context in Hv1 by lia.
      assert (Hlast : last l = Some v1).
      { rewrite last_lookup. rewrite <- Hv1. f_equal. lia. }
      destruct (unit_tokens_last_literal _ _ _ Hl Hlast Hval1)
        as [[-> ->] | (i & HiN & Hilen)].
      2:{ exfalso.
          assert (Hil : interactable l i = true).
          { apply (interactable_NOT l i v1); [done | | done].
            rewrite <- Hv1. f_equal. lia. }
          specialize (Hmax (length [LPAREN] + i)%nat).
          rewrite bin_tokens_left in Hmax.
          rewrite interactable_context, rank_at_context in Hmax
            by (done || lia || by apply isVal_binop).
          specialize (Hmax Hil).
          rewrite (rank_at_NOT l i HiN) in Hmax.
          rewrite <- bin_tokens_left in Hmax.
          pose proof (rank_at_binop _ _ _ Hop' Hop). lia. }
      exists (ATOM (evaluateOp (Some v1) (Some op) (Some v2))).
      assert (Hred : reduced_tokens (1 + length [v1])
                       (LPAREN :: ([v1] ++ op :: [v2]) ++ [RPAREN])
                     = LPAREN :: [evaluateOp (Some v1) (Some op) (Some v2)]
                         ++ [RPAREN]).
      { unfold reduced_tokens. simpl.
        rewrite decide_False; [done |]. intros [= ->].
        by apply PRECEDENCE_binop in Hop as [? _]. }
      rewrite Hred.
      assert (Hlv1 : v1 = js "0" ∨ v1 = js "1") by (by destruct Hval1; [right | left]).
      split_and!.
      - apply unit_paren, unit_atom, literal_atom_token, evaluateOp_literal.
      - apply evaluateOp_literal.
      - rewrite (evaluateOp_digit values) by done. apply evalAST_digit. }
    (* in the right operand *)
    assert (Hla : length (LPAREN :: l ++ [op]) = (2 + length l)%nat).
    { simpl. rewrite length_app. simpl. lia. }
    assert (Hinr : (idx < 2 + length l + length r)%nat).
    { destruct (decide (idx < 2 + length l + length r)%nat); [done |].
      exfalso. rewrite bin_tokens_right in Hu.
      rewrite lookup_app_r, lookup_app_r in Hu by lia.
      replace (idx - length (LPAREN :: l ++ [op]) - length r)%nat with 0%nat in Hu
        by lia.
      injection Hu as <-. by destruct Hnp. }
    rewrite bin_tokens_right in Hi, Hmax |- *.
    assert (Hin : (length (LPAREN :: l ++ [op]) ≤ idx
                   < length (LPAREN :: l ++ [op]) + length r)%nat) by lia.
    assert (Hlasta : isVal (last (LPAREN :: l ++ [op])) = false).
    { rewrite app_comm_cons, last_snoc. by apply isVal_binop. }
    destruct (reduce_inside (LPAREN :: l ++ [op]) r [RPAREN] idx Hi Hin Hlasta
                eq_refl Hmax) as (Hi' & Hmax' & ->).
    destruct (IHr _ Hlitr Hi' Hmax') as (t' & Ht' & Hlit' & Hev).
    exists (BIN op tl t'). rewrite <- bin_tokens_right. split_and!.
    + by apply unit_bin.
    + done.
    + simpl. by rewrite Hev.
Qed.

(** ** Normalization of fully parenthesized formulas *)

Lemma literal_in_parens_app t rest b :
  (2 ≤ length rest)%nat →
  literal_in_parens t (rest ++ b) ↔ literal_in_parens t rest.
Proof.
  intros Hlen. destruct rest as [| v [| c rest']]; simpl in Hlen; try lia.
  unfold literal_in_parens. split.
  - intros (v' & r' & -> & [= <- <- _] & Hv). eauto.
  - intros (v' & r' & -> & [= <- <- <-] & Hv). eauto.
Qed.

(** [tok_strip] goes through a list whose suffixes close at least what they
    open without looking at what follows. *)
Lemma tok_strip_app a b :
  (∀ n, 0 ≤ net (drop n a)) → tok_strip (a ++ b) = tok_strip a ++ tok_strip b.
Proof.
  remember (length a) as len eqn:Hlen. revert a Hlen.
  induction (lt_wf len) as [len _ IH]. intros a -> Hsafe.
  destruct a as [| t rest]; [done |].
  assert (Hrest : ∀ n, 0 ≤ net (drop n rest)).
  { intros n. apply (Hsafe (S n)). }
  destruct rest as [| v [| c rest']].
  - (* one token: not an opening parenthesis *)
    assert (t ≠ LPAREN).
    { intros ->. specialize (Hsafe 0%nat). simpl in Hsafe.
      rewrite net_LPAREN in Hsafe. lia. }
    simpl app. rewrite tok_strip_skip; [done |].
    by intros (? & ? & ? & _).
  - (* two tokens *)
    assert (Hv : v ≠ LPAREN).
    { intros ->. specialize (Hsafe 1%nat). simpl in Hsafe.
      rewrite net_LPAREN in Hsafe. lia. }
    assert (Ht : ¬ literal_in_parens t ([v] ++ b)).
    { intros (v' & r' & -> & [= <- _] & Hv').
      specialize (Hsafe 0%nat). simpl in Hsafe.
      rewrite net_LPAREN in Hsafe.
      rewrite paren_delta_plain in Hsafe; [lia | |];
        destruct Hv' as [-> | ->]; sym_neq. }
    change ((t :: [v]) ++ b) with (t :: [v] ++ b).
    rewrite tok_strip_skip by done. simpl app.
    rewrite tok_strip_skip by (by intros (? & ? & ? & _)).
    done.
  - (* three tokens or more *)
    destruct (literal_in_parens_dec t (v :: c :: rest'))
      as [(v' & r' & -> & [= <- -> <-] & Hv) | Hn].
    + change ((LPAREN :: v :: RPAREN :: rest') ++ b)
        with (LPAREN :: v :: RPAREN :: (rest' ++ b)).
      rewrite !tok_strip_match by done.
      rewrite (IH (length rest') ltac:(simpl; lia) rest' eq_refl); [done |].
      intros n. apply (Hsafe (S (S (S n)))).
    + change ((t :: v :: c :: rest') ++ b) with (t :: (v :: c :: rest') ++ b).
      rewrite tok_strip_skip.
      2:{ rewrite literal_in_parens_app; [done | simpl; lia]. }
      rewrite (tok_strip_skip t (v :: c :: rest')) by done.
      rewrite (IH (length (v :: c :: rest')) ltac:(simpl; lia) _ eq_refl); done.
Qed.

Lemma unit_tokens_safe ts t : unit_tokens ts t → ∀ n, 0 ≤ net (drop n ts).
Proof. intros [_ H]%unit_tokens_balanced. done. Qed.

(** A pass of [tok_strip] on a fully parenthesized formula leaves a fully
    parenthesized formula of the same tree. *)
Lemma tok_strip_unit ts t : unit_tokens ts t → unit_tokens (tok_strip ts) t.
Proof.
  induction 1 as [a Ha | ts t Hts IH | ts t Hts IH
                 | l op r tl tr Hop Hl IHl Hr IHr].
  - by constructor.
  - destruct (literal_in_parens_dec LPAREN (ts ++ [RPAREN]))
      as [(v & r' & _ & Heq & Hv) | Hn].
    + (* the literal loses its parentheses *)
      destruct ts as [| v' rest]; [by destruct r' |].
      simpl in Heq. injection Heq as -> Heq.
      destruct (unit_tokens_head_atom _ _ _ Hts (literal_atom_token _ Hv))
        as [-> ->].
      change (LPAREN :: [v] ++ [RPAREN]) with (LPAREN :: v :: RPAREN :: []).
      rewrite tok_strip_match by done.
      by apply unit_atom, literal_atom_token.
    + rewrite tok_strip_skip by done.
      rewrite tok_strip_app by (by eapply unit_tokens_safe).
      by apply unit_paren.
  - rewrite tok_strip_skip.
    + by apply unit_not.
    + intros (? & ? & H & _). revert H. sym_neq.
  - assert (Hn : ¬ literal_in_parens LPAREN ((l ++ op :: r) ++ [RPAREN])).
    { intros (v & r' & _ & Heq & Hv).
      destruct l as [| v' rest]; [by apply unit_tokens_nonempty in Hl |].
      simpl in Heq. injection Heq as -> Heq.
      destruct (unit_tokens_head_atom _ _ _ Hl (literal_atom_token _ Hv))
        as [-> _].
      simpl in Heq. injection Heq as -> _.
      by apply binop_not_paren in Hop as [_ ?]. }
    rewrite tok_strip_skip by done.
    rewrite <- app_assoc.
    rewrite tok_strip_app by (by eapply unit_tokens_safe).
    change ((op :: r) ++ [RPAREN]) with (op :: r ++ [RPAREN]).
    rewrite (tok_strip_skip op).
    2:{ intros (? & ? & -> & _). by apply binop_not_paren in Hop as [? _]. }
    rewrite tok_strip_app by (by eapply unit_tokens_safe).
    change (tok_strip [RPAREN]) with [RPAREN].
    replace (LPAREN :: tok_strip l ++ op :: tok_strip r ++ [RPAREN])
      with (LPAREN :: (tok_strip l ++ op :: tok_strip r) ++ [RPAREN]);
      [by apply unit_bin |].
    by rewrite <- app_assoc.
Qed.

Lemma tok_strip_iter_unit k ts t :
  unit_tokens ts t → unit_tokens (Nat.iter k tok_strip ts) t.
Proof.
  intros Hu. induction k as [| k IH]; [done |]. simpl. by apply tok_strip_unit.
Qed.

(** A pass of [tok_strip] shortens a list with a literal between
    parentheses. *)
Lemma tok_strip_shorter tokens :
  has_literal_in_parens tokens →
  (length (tok_strip tokens) < length tokens)%nat.
Proof.
  intros (a & v & b & -> & Hv).
  induction a as [| t a IH].
  - change ([] ++ LPAREN :: v :: RPAREN :: b) with (LPAREN :: v :: RPAREN :: b).
    rewrite tok_strip_match by done.
    pose proof (tok_strip_length b). simpl. lia.
  - change ((t :: a) ++ LPAREN :: v :: RPAREN :: b)
      with (t :: (a ++ LPAREN :: v :: RPAREN :: b)).
    destruct (literal_in_parens_dec t (a ++ LPAREN :: v :: RPAREN :: b))
      as [(v' & r' & -> & Heq & Hv') | Hn].
    + rewrite Heq. rewrite tok_strip_match by done.
      pose proof (tok_strip_length r'). simpl. lia.
    + rewrite tok_strip_skip by done. simpl. lia.
Qed.

Lemma tok_strip_fixed_normal tokens :
  tok_strip tokens = tokens → ¬ has_literal_in_parens tokens.
Proof.
  intros Heq Hp. apply tok_strip_shorter in Hp. rewrite Heq in Hp. lia.
Qed.

Lemma has_literal_in_parens_context a s b :
  has_literal_in_parens s → has_literal_in_parens (a ++ s ++ b).
Proof.
  intros (a' & v & b' & -> & Hv).
  exists (a ++ a'), v, (b' ++ b). split; [| done].
  by rewrite <- !app_assoc.
Qed.

(** ** Progress *)

(** A fully parenthesized formula over 0 and 1 without a literal between
    parentheses is a literal or has a reducible token. *)
Lemma unit_progress ts t :
  unit_tokens ts t → literals t → ¬ has_literal_in_parens ts →
  (∃ v, ts = [v] ∧ (v = js "0" ∨ v = js "1"))
  ∨ ∃ i, interactable ts i = true.
Proof.
  induction 1 as [a Ha | ts t Hts IH | ts t Hts IH
                 | l op r tl tr Hop Hl IHl Hr IHr]; intros Hlit Hnorm.
  - left. eauto.
  - right.
    destruct IH as [(v & -> & Hv) | (i & Hi)]; [done | | |].
    + intros Hp. apply Hnorm.
      by apply (has_literal_in_parens_context [LPAREN] ts [RPAREN]).
    + exfalso. apply Hnorm. exists [], v, []. done.
    + exists (length [LPAREN] + i)%nat.
      change (LPAREN :: ts ++ [RPAREN]) with ([LPAREN] ++ ts ++ [RPAREN]).
      rewrite interactable_context; [done | by eapply interactable_lt | done | done].
  - right.
    destruct IH as [(v & -> & Hv) | (i & Hi)]; [done | | |].
    + intros Hp. apply Hnorm.
      apply (has_literal_in_parens_context [SYMBOLS.NOT] ts []) in Hp.
      by rewrite app_nil_r in Hp.
    + exists 0%nat. apply (interactable_NOT _ 0 v); [done | done |].
      by destruct Hv; [right | left].
    + exists (length [SYMBOLS.NOT] + i)%nat.
      replace (SYMBOLS.NOT :: ts) with ([SYMBOLS.NOT] ++ ts ++ [])
        by (by rewrite app_nil_r).
      rewrite interactable_context; [done | by eapply interactable_lt | done | done].
  - right. destruct Hlit as [Hlitl Hlitr].
    destruct IHl as [(v1 & -> & Hv1) | (i & Hi)]; [done | | |].
    + intros Hp. apply Hnorm. rewrite bin_tokens_left.
      by apply has_literal_in_parens_context.
    + destruct IHr as [(v2 & -> & Hv2) | (i & Hi)]; [done | | |].
      * intros Hp. apply Hnorm. rewrite bin_tokens_right.
        by apply has_literal_in_parens_context.
      * exists 2%nat.
        apply (interactable_binop _ 1 op v1 v2); try done.
        -- by destruct Hv1; [right | left].
        -- by destruct Hv2; [right | left].
      * exists (length (LPAREN :: [v1] ++ [op]) + i)%nat.
        rewrite bin_tokens_right.
        rewrite interactable_context;
          [done | by eapply interactable_lt | by apply isVal_binop | done].
    + exists (length [LPAREN] + i)%nat.
      rewrite bin_tokens_left.
      rewrite interactable_context;
        [done | by eapply interactable_lt | done | by apply isVal_binop].
Qed.

(** ** Accepted clicks *)

(** What an accepted click does: its token is reducible and of the highest
    rank among the reducible tokens, and the new entry of the history is
    the joined string of normalized tokens. *)
Lemma click_accepted st idx :
  history (click idx st) ≠ history st →
  interactable (current_tokens st) idx = true
  ∧ (∀ j, interactable (current_tokens st) j = true →
          rank_at (current_tokens st) j ≤ rank_at (current_tokens st) idx)
  ∧ ∃ ts',
      (∃ k, ts' = Nat.iter k tok_strip (reduced_tokens idx (current_tokens st)))
      ∧ history (click idx st)
        = history st
            ++ [HistoryEntry (length (history st)) (join_space ts')
                  (js "reduction")]
      ∧ Forall word ts' ∧ ts' ≠ []
      ∧ tok_strip ts' = ts'
      ∧ current_tokens (click idx st) = ts'.
Proof.
  intros Hne. unfold click in *.
  destruct (negb (isSolved (current_tokens st))
            && (1 <? length (history st))%nat
            && interactable (current_tokens st) idx) eqn:Hshown; [| done].
  apply andb_true_iff in Hshown as [_ Hi].
  pose proof (current_tokens_words st idx Hi) as Hw.
  destruct (handleInteraction_cases idx (current_tokens st) st Hi)
    as (m & [_ Hmax] & Hle & Hh).
  rewrite Hh in Hne |- *. case_decide as Hlt; [done |]. clear Hne Hh.
  split; [done |]. split.
  { intros j Hj. specialize (Hmax j Hj). lia. }
  destruct (reduced_string_tokens _ _ Hw Hi) as (Hs & Hrw & _).
  set (s := reduced_string idx (current_tokens st)) in *.
  destruct (normalize_loop_iter (S (length s)) s) as [k Hk].
  set (ts' := Nat.iter k tok_strip (reduced_tokens idx (current_tokens st))).
  destruct (strip_literals_iter k _ Hrw) as [Hjoin Hw']. fold ts' in Hjoin, Hw'.
  assert (Hnorm : normalize s = join_space ts').
  { unfold normalize. by rewrite Hk, Hs. }
  assert (Hne' : ts' ≠ []).
  { unfold ts'. intros Hnil%tok_strip_iter_nil. revert Hnil.
    unfold reduced_tokens. case_decide; by destruct (take _ _). }
  exists ts'. split_and!.
  - by exists k.
  - unfold addToHistory. simpl. by rewrite Hnorm.
  - done.
  - done.
  - pose proof (normalize_fixed s) as Hfix.
    rewrite Hnorm, strip_literals_join_space in Hfix by done.
    apply (f_equal getTokens) in Hfix.
    rewrite !getTokens_join_space in Hfix; try done.
    + by intros ?%tok_strip_nil.
    + by apply tok_strip_words.
  - unfold current_tokens at 1, addToHistory. simpl history.
    rewrite last_snoc. simpl content. rewrite Hnorm.
    by apply getTokens_join_space.
Qed.

Lemma remove_ws_join_space tokens :
  Forall word tokens → remove_ws (join_space tokens) = concat tokens.
Proof.
  induction 1 as [| t rest Ht Hrest IH]; [done |].
  assert (Hid : remove_ws t = t).
  { unfold remove_ws. apply word_not_ws in Ht.
    induction Ht as [| c t Hc _ IHt]; [done |]. simpl. by rewrite Hc, IHt. }
  destruct rest as [| t' rest'].
  - simpl. by rewrite app_nil_r.
  - rewrite join_space_cons by done.
    rewrite !remove_ws_app, Hid, IH. done.
Qed.

Lemma concat_parens (m : list jsstring) :
  concat (LPAREN :: m ++ [RPAREN]) = 40%N :: concat m ++ [41%N].
Proof.
  rewrite concat_cons, concat_app. change LPAREN with [40%N].
  change (concat [RPAREN]) with [41%N]. done.
Qed.

Lemma tokenize_parens s :
  tokenize (40%N :: s ++ [41%N]) = LPAREN :: tokenize s ++ [RPAREN].
Proof.
  rewrite tokenize_sep_head by done.
  rewrite (tokenize_sep s 41%N []) by done. by rewrite tokenize_nil.
Qed.

Lemma tokenize_concat_unit ts t : unit_tokens ts t → tokenize (concat ts) = ts.
Proof.
  induction 1 as [a Ha | ts t Hts IH | ts t Hts IH
                 | l op r tl tr Hop Hl IHl Hr IHr].
  - simpl. rewrite app_nil_r. by apply tokenize_atom.
  - by rewrite concat_parens, tokenize_parens, IH.
  - rewrite concat_cons. change SYMBOLS.NOT with [172%N]. simpl app.
    rewrite tokenize_sep_head by done. by rewrite IH.
  - destruct (binop_char op Hop) as (c & -> & Hc).
    rewrite concat_parens, tokenize_parens.
    rewrite concat_app, concat_cons. simpl app.
    rewrite (tokenize_sep (concat l) c) by done.
    by rewrite IHl, IHr.
Qed.

Lemma word_tokens_no_ws tokens :
  Forall word tokens → Forall (λ c, is_ws c = false) (concat tokens).
Proof.
  induction 1 as [| t rest Ht _ IH]; [constructor |].
  simpl. apply Forall_app. split; [by apply word_not_ws | done].
Qed.

Lemma remove_ws_no_ws_id s : Forall (λ c, is_ws c = false) s → remove_ws s = s.
Proof.
  unfold remove_ws. induction 1 as [| c s Hc _ IH]; [done |].
  simpl. by rewrite Hc, IH.
Qed.

(** The evaluator reads the joined string of a fully parenthesized formula
    as the tree of the formula. *)
Lemma solveProposition_join_unit ts t values :
  unit_tokens ts t → Forall word ts →
  solveProposition (join_space ts) values = evalAST values t.
Proof.
  intros Hu Hw. unfold solveProposition.
  assert (Htok : tokenize (join_space ts) = ts).
  { rewrite <- (tokenize_concat_unit ts t Hu) at 2.
    apply tokenize_remove_ws. rewrite remove_ws_join_space by done.
    symmetry. by apply remove_ws_no_ws_id, word_tokens_no_ws. }
  rewrite Htok. by rewrite (parseToAST_unit ts t).
Qed.

Lemma unit_tokens_functional ts t t' :
  unit_tokens ts t → unit_tokens ts t' → t = t'.
Proof.
  intros H1%parseToAST_unit H2%parseToAST_unit. congruence.
Qed.

(** An accepted click on a fully parenthesized formula over 0 and 1. *)
Lemma click_sound st idx t :
  unit_tokens (current_tokens st) t → literals t →
  history (click idx st) ≠ history st →
  ∃ t' ts',
    history (click idx st)
    = history st
        ++ [HistoryEntry (length (history st)) (join_space ts') (js "reduction")]
    ∧ current_tokens (click idx st) = ts'
    ∧ unit_tokens ts' t' ∧ literals t' ∧ Forall word ts'
    ∧ ¬ has_literal_in_parens ts'
    ∧ (∀ values, evalAST values t' = evalAST values t)
    ∧ (length ts' < length (current_tokens st))%nat.
Proof.
  intros Hu Hlit Hne.
  destruct (click_accepted st idx Hne)
    as (Hi & Hmax & ts' & [k Hk] & Hhist & Hw & Hnil & Hfix & Hcur).
  destruct (unit_reduce ∅ _ _ idx Hu Hlit Hi Hmax) as (t' & Hu' & Hlit' & _).
  assert (Hu'' : unit_tokens ts' t').
  { rewrite Hk. by apply tok_strip_iter_unit. }
  exists t', ts'. split_and!; try done.
  - by apply tok_strip_fixed_normal.
  - intros values.
    destruct (unit_reduce values _ _ idx Hu Hlit Hi Hmax) as (t2 & Hu2 & _ & Hev).
    by rewrite (unit_tokens_functional _ _ _ Hu' Hu2).
  - pose proof (current_tokens_words st idx Hi) as Hwords.
    destruct (reduced_string_tokens _ _ Hwords Hi) as (_ & _ & HN & HB).
    pose proof (tok_strip_iter_length k (reduced_tokens idx (current_tokens st))).
    rewrite <- Hk in *.
    destruct (decide (current_tokens st !! idx = Some SYMBOLS.NOT)) as [E | E].
    + specialize (HN E). lia.
    + specialize (HB E). lia.
Qed.

Lemma isSolved_literal tokens :
  isSolved tokens = true ↔ ∃ v, tokens = [v] ∧ (v = js "0" ∨ v = js "1").
Proof.
  unfold isSolved. rewrite andb_true_iff, orb_true_iff, !bool_decide_eq_true.
  split.
  - intros [Hlen Hv]. destruct tokens as [| v [| ? ?]]; try done.
    exists v. split; [done |]. simpl in Hv.
    destruct Hv as [[= ->] | [= ->]]; [by right | by left].
  - intros (v & -> & Hv). split; [done |]. simpl.
    destruct Hv as [-> | ->]; [by right | by left].
Qed.

Lemma unit_literal_value v t values :
  unit_tokens [v] t → v = js "0" ∨ v = js "1" →
  v = digit (evalAST values t).
Proof.
  intros Hu Hv.
  destruct (unit_tokens_head_atom _ _ _ Hu (literal_atom_token _ Hv)) as [_ ->].
  by destruct Hv as [-> | ->].
Qed.

(** X16. Soundness of the reduction engine on fully parenthesized formulas
    over 0 and 1 (the formulas of a generated session): every accepted click
    leaves a fully parenthesized formula without a literal in parentheses,
    whose value is that of the formula before the click; the string recorded
    in the history evaluates with [solveProposition] to this value, and a
    solved session shows the value of the formula.  Without the parentheses
    around each connective this fails: on 0 ⇒ 1 ∧ (0 ⇔ 1) the first click on
    ⇒ is accepted and the session ends on 0, while the formula is true. *)
Theorem reduction_sound (st : eval_state) (idx : nat) (t : ASTNode) :
  (unit_tokens (current_tokens st) t → literals t →
   history (click idx st) ≠ history st →
   ∃ t' e,
     history (click idx st) = history st ++ [e]
     ∧ unit_tokens (current_tokens (click idx st)) t' ∧ literals t'
     ∧ ¬ has_literal_in_parens (current_tokens (click idx st))
     ∧ (∀ values, evalAST values t' = evalAST values t)
     ∧ (∀ values, solveProposition (content e) values = evalAST values t)
     ∧ (isSolved (current_tokens (click idx st)) = true →
        current_tokens (click idx st) = [digit (evalAST ∅ t)]))
  ∧ solveProposition (js "0 ⇒ 1 ∧ (0 ⇔ 1)") ∅ = true
  ∧ content <$> last (history
        (click 1 (click 4 (click 1
           (session (js "P ⇒ Q ∧ (R ⇔ S)") (js "0 ⇒ 1 ∧ (0 ⇔ 1)"))))))
    = Some (js "0").
Proof.
  split; [| split; vm_compute; reflexivity].
  intros Hu Hlit Hne.
  destruct (click_sound st idx t Hu Hlit Hne)
    as (t' & ts' & Hhist & Hcur & Hu' & Hlit' & Hw & Hnorm & Hev & _).
  exists t', (HistoryEntry (length (history st)) (join_space ts') (js "reduction")).
  rewrite Hcur. split_and!; try done.
  - intros values. simpl. rewrite (solveProposition_join_unit ts' t') by done.
    apply Hev.
  - intros (v & -> & Hv)%isSolved_literal. f_equal.
    rewrite (unit_literal_value v t' ∅ Hu' Hv). by rewrite Hev.
Qed.

Lemma reduction_sound_witness :
  ∃ t' e,
    history (click 2 (session (js "(P ∧ Q)") (js "(1 ∧ 0)")))
    = history (session (js "(P ∧ Q)") (js "(1 ∧ 0)")) ++ [e]
    ∧ unit_tokens (current_tokens (click 2 (session (js "(P ∧ Q)") (js "(1 ∧ 0)")))) t'
    ∧ literals t'
    ∧ ¬ has_literal_in_parens
          (current_tokens (click 2 (session (js "(P ∧ Q)") (js "(1 ∧ 0)"))))
    ∧ (∀ values, evalAST values t'
                 = evalAST values (BIN (js "∧") (ATOM (js "1")) (ATOM (js "0"))))
    ∧ (∀ values, solveProposition (content e) values
                 = evalAST values (BIN (js "∧") (ATOM (js "1")) (ATOM (js "0"))))
    ∧ (isSolved (current_tokens (click 2 (session (js "(P ∧ Q)") (js "(1 ∧ 0)"))))
       = true →
       current_tokens (click 2 (session (js "(P ∧ Q)") (js "(1 ∧ 0)")))
       = [digit (evalAST ∅ (BIN (js "∧") (ATOM (js "1")) (ATOM (js "0"))))]).
Proof.
  apply (proj1 (reduction_sound (session (js "(P ∧ Q)") (js "(1 ∧ 0)")) 2
                  (BIN (js "∧") (ATOM (js "1")) (ATOM (js "0"))))).
  - change (unit_tokens (LPAREN :: ([js "1"] ++ js "∧" :: [js "0"]) ++ [RPAREN])
              (BIN (js "∧") (ATOM (js "1")) (ATOM (js "0")))).
    apply unit_bin.
    + left; reflexivity.
    + apply unit_atom. split; [discriminate | by repeat constructor].
    + apply unit_atom. split; [discriminate | by repeat constructor].
  - split; [right | left]; reflexivity.
  - vm_compute. discriminate.
Defined.

(** A session that is not solved has a click that is accepted. *)
Lemma click_exists st t :
  unit_tokens (current_tokens st) t → literals t →
  ¬ has_literal_in_parens (current_tokens st) →
  (1 < length (history st))%nat →
  isSolved (current_tokens st) = false →
  ∃ idx, history (click idx st) ≠ history st.
Proof.
  intros Hu Hlit Hnorm Hlen Hns.
  destruct (unit_progress _ _ Hu Hlit Hnorm) as [Hv | (i & Hi)].
  { apply isSolved_literal in Hv. congruence. }
  destruct (candidates_max _ _ Hi) as (m & _ & (j & Hj & Hjm) & Hmax).
  exists j. unfold click. rewrite Hns, Hj.
  destruct (Nat.ltb_spec 1 (length (history st))); [| lia]. simpl.
  destruct (handleInteraction_cases j (current_tokens st) st Hj)
    as (m' & [(j' & Hj' & Hjm') Hmax'] & Hle & ->).
  rewrite decide_False.
  - unfold addToHistory. simpl. intros Heq.
    apply (f_equal length) in Heq. rewrite length_app in Heq. simpl in Heq. lia.
  - specialize (Hmax j' Hj'). lia.
Qed.

(** A click on a reducible token of the highest rank is accepted. *)
Lemma click_exists_interactable st i :
  interactable (current_tokens st) i = true →
  (1 < length (history st))%nat →
  isSolved (current_tokens st) = false →
  ∃ idx, history (click idx st) ≠ history st.
Proof.
  intros Hi Hlen Hns.
  destruct (candidates_max _ _ Hi) as (m & _ & (j & Hj & Hjm) & Hmax).
  exists j. unfold click. rewrite Hns, Hj.
  destruct (Nat.ltb_spec 1 (length (history st))); [| lia]. simpl.
  destruct (handleInteraction_cases j (current_tokens st) st Hj)
    as (m' & [(j' & Hj' & Hjm') Hmax'] & Hle & ->).
  rewrite decide_False.
  - unfold addToHistory. simpl. intros Heq.
    apply (f_equal length) in Heq. rewrite length_app in Heq. simpl in Heq. lia.
  - specialize (Hmax j' Hj'). lia.
Qed.

(** Some sequence of accepted clicks solves the session. *)
Lemma reductions_solve st t :
  unit_tokens (current_tokens st) t → literals t →
  ¬ has_literal_in_parens (current_tokens st) →
  (1 < length (history st))%nat →
  ∃ n st', reductions n st st'
    ∧ isSolved (current_tokens st') = true
    ∧ current_tokens st' = [digit (evalAST ∅ t)].
Proof.
  intros Hu Hlit Hnorm Hlen.
  remember (length (current_tokens st)) as len eqn:Hl.
  revert st t Hl Hu Hlit Hnorm Hlen.
  induction (lt_wf len) as [len _ IH]. intros st t -> Hu Hlit Hnorm Hlen.
  destruct (isSolved (current_tokens st)) eqn:Hs.
  - exists 0%nat, st. split_and!; [constructor | done |].
    apply isSolved_literal in Hs as (v & Hv & Hlitv). rewrite Hv in Hu |- *.
    f_equal. by apply unit_literal_value.
  - destruct (click_exists st t Hu Hlit Hnorm Hlen Hs) as (idx & Hne).
    destruct (click_sound st idx t Hu Hlit Hne)
      as (t' & ts' & Hhist & Hcur & Hu' & Hlit' & Hw & Hnorm' & Hev & Hshort).
    rewrite <- Hcur in Hu', Hnorm', Hshort.
    assert (Hlen' : (1 < length (history (click idx st)))%nat).
    { rewrite Hhist, length_app. simpl. lia. }
    destruct (IH _ Hshort (click idx st) t' eq_refl Hu' Hlit' Hnorm' Hlen')
      as (n & st' & Hred & Hsol & Hfin).
    exists (S n), st'. split_and!.
    + by econstructor.
    + done.
    + by rewrite Hfin, Hev.
Qed.

(** X17. Completeness of the reduction engine on fully parenthesized
    formulas over 0 and 1: once the tokens shown have no literal between
    parentheses (as after any accepted click), a session that is not solved
    always has a click that is accepted, and some sequence of accepted
    clicks solves it, the token left being the value of the formula. *)
Theorem reduction_complete (st : eval_state) (t : ASTNode) :
  unit_tokens (current_tokens st) t → literals t →
  ¬ has_literal_in_parens (current_tokens st) →
  (1 < length (history st))%nat →
  (isSolved (current_tokens st) = false →
   ∃ idx, history (click idx st) ≠ history st)
  ∧ ∃ n st', reductions n st st'
       ∧ isSolved (current_tokens st') = true
       ∧ current_tokens st' = [digit (evalAST ∅ t)].
Proof.
  intros Hu Hlit Hnorm Hlen. split.
  - by eapply click_exists.
  - by apply reductions_solve.
Qed.

Lemma reduction_complete_witness :
  (isSolved (current_tokens (session (js "(P ∧ Q)") (js "(1 ∧ 0)"))) = false →
   ∃ idx, history (click idx (session (js "(P ∧ Q)") (js "(1 ∧ 0)")))
          ≠ history (session (js "(P ∧ Q)") (js "(1 ∧ 0)")))
  ∧ ∃ n st',
      reductions n (session (js "(P ∧ Q)") (js "(1 ∧ 0)")) st'
      ∧ isSolved (current_tokens st') = true
      ∧ current_tokens st'
        = [digit (evalAST ∅ (BIN (js "∧") (ATOM (js "1")) (ATOM (js "0"))))].
Proof.
  apply (reduction_complete (session (js "(P ∧ Q)") (js "(1 ∧ 0)"))
           (BIN (js "∧") (ATOM (js "1")) (ATOM (js "0")))).
  - change (unit_tokens (LPAREN :: ([js "1"] ++ js "∧" :: [js "0"]) ++ [RPAREN])
              (BIN (js "∧") (ATOM (js "1")) (ATOM (js "0")))).
    apply unit_bin.
    + left; reflexivity.
    + apply unit_atom. split; [discriminate | by repeat constructor].
    + apply unit_atom. split; [discriminate | by repeat constructor].
  - split; [right | left]; reflexivity.
  - apply tok_strip_fixed_normal. reflexivity.
  - vm_compute. lia.
Defined.

(** * Generated sessions *)

Lemma pick_elem a i : (i < length a)%nat → pick a i ∈ a.
Proof.
  intros Hi. unfold pick. apply list_elem_of_In, nth_In. done.
Qed.

Lemma getRandomVar_VARS d : draw_ok d → getRandomVar d ∈ VARS.
Proof. intros Hd. apply pick_elem, Hd. simpl. lia. Qed.

(** The generator returns a formula, written as [structured_string] writes
    a tree over the variables. *)
Lemma generateStructuredFormula_fuel_spec fuel random depth maxDepth i :
  (∀ k, draw_ok (random k)) → (maxDepth ≤ depth + fuel)%nat →
  ∃ t i', generateStructuredFormula_fuel fuel random depth maxDepth i
          = Some (structured_string t, i')
          ∧ tree_over VARS t ∧ (i < i')%nat.
Proof.
  intros Hok. revert depth i.
  induction fuel as [| fuel IH]; intros depth i Hfuel; cbn [generateStructuredFormula_fuel].
  - rewrite (proj2 (Nat.leb_le maxDepth depth)) by lia.
    exists (ATOM (getRandomVar (random i))), (S i).
    split_and!; [done | by apply getRandomVar_VARS | lia].
  - destruct (maxDepth <=? depth)%nat.
    { exists (ATOM (getRandomVar (random i))), (S i).
      split_and!; [done | by apply getRandomVar_VARS | lia]. }
    set (p := if (0 <? depth)%nat then (below (random i) 20, S i) else (false, i)).
    assert (Hp : (i ≤ p.2)%nat).
    { unfold p. destruct (0 <? depth)%nat; simpl; lia. }
    destruct p as [stop j]. simpl in Hp. destruct stop.
    { exists (ATOM (getRandomVar (random j))), (S j).
      split_and!; [done | by apply getRandomVar_VARS | lia]. }
    destruct (below (random j) 30).
    + destruct (IH (depth + 1)%nat (S j) ltac:(lia)) as (t & j' & -> & Ht & Hj').
      exists (NOT t), j'. split_and!; [done | done | lia].
    + destruct (IH (depth + 1)%nat (S j) ltac:(lia)) as (l & j1 & -> & Hl & Hj1).
      simpl.
      destruct (IH (depth + 1)%nat j1 ltac:(lia)) as (r & j2 & -> & Hr & Hj2).
      simpl.
      set (op := pick _ _).
      exists (BIN op l r), (S j2). split_and!; [done | | lia].
      cbn [tree_over]. split_and!; [| done | done].
      assert (Hin : op ∈ [SYMBOLS.AND; SYMBOLS.OR; SYMBOLS.IMP; SYMBOLS.IFF]).
      { apply pick_elem, Hok. simpl. lia. }
      unfold is_binop. set_solver.
Qed.

Lemma generateStructuredFormula_total random depth maxDepth i :
  (∀ k, draw_ok (random k)) →
  ∃ t i', generateStructuredFormula random depth maxDepth i
          = Some (structured_string t, i')
          ∧ tree_over VARS t ∧ (i < i')%nat.
Proof.
  intros Hok. apply generateStructuredFormula_fuel_spec; [done | lia].
Qed.

(** ** The tokens of a generated formula *)

Lemma words_of_paren_token t s :
  t = LPAREN ∨ t = RPAREN →
  words_of false [] (pad_parens t ++ s) = t :: words_of false [] s.
Proof.
  intros Ht.
  assert (Hpad : pad_parens t ++ s = 32%N :: t ++ 32%N :: s).
  { by destruct Ht as [-> | ->]. }
  rewrite Hpad. rewrite words_of_ws by done. simpl.
  assert (Hc : ∃ c, t = [c] ∧ is_ws c = false).
  { destruct Ht as [-> | ->]; eexists; split; reflexivity. }
  destruct Hc as (c & -> & Hc). simpl.
  rewrite words_of_char by done. rewrite words_of_ws by done. done.
Qed.

Lemma pad_parens_boundary rest :
  (rest = [] ∨ ∃ c r, rest = c :: r ∧ (is_ws c = true ∨ c = 40%N ∨ c = 41%N)) →
  pad_parens rest = [] ∨ ∃ c r, pad_parens rest = c :: r ∧ is_ws c = true.
Proof.
  intros [-> | (c & r & -> & Hc)]; [by left | right].
  rewrite pad_parens_cons.
  destruct Hc as [Hc | [-> | ->]].
  - rewrite pad_parens_plain_char by (intros ->; by vm_compute in Hc).
    simpl. eauto.
  - exists 32%N. eexists. split; [reflexivity | done].
  - exists 32%N. eexists. split; [reflexivity | done].
Qed.

Lemma words_of_pad_ws c s :
  is_ws c = true →
  words_of false [] (pad_parens (c :: s)) = words_of false [] (pad_parens s).
Proof.
  intros Hc. rewrite pad_parens_cons.
  rewrite pad_parens_plain_char by (intros ->; by vm_compute in Hc).
  simpl. by rewrite words_of_ws.
Qed.

Lemma word_NOT : word SYMBOLS.NOT.
Proof. right; right. split; [done |]. by repeat constructor. Qed.

Lemma word_binop op : is_binop op → word op.
Proof.
  intros [-> | [-> | [-> | ->]]]; right; right; (split; [done |]);
    by repeat constructor.
Qed.

(** The words of a formula written by the generator, followed by [rest]. *)
Lemma words_of_structured atoms t rest :
  tree_over atoms t → Forall word atoms →
  (rest = [] ∨ ∃ c r, rest = c :: r ∧ (is_ws c = true ∨ c = 40%N ∨ c = 41%N)) →
  words_of false [] (pad_parens (structured_string t ++ rest))
  = structured_tokens t ++ words_of false [] (pad_parens rest).
Proof.
  intros Ht Hatoms. revert rest Ht.
  induction t as [a | c IH | op l IHl r IHr]; intros rest Ht Hrest;
    cbn [tree_over structured_string structured_tokens] in *.
  - rewrite Forall_forall in Hatoms. rewrite pad_parens_app.
    rewrite words_of_word; [done | by apply Hatoms |].
    by apply pad_parens_boundary.
  - rewrite <- !app_assoc.
    rewrite pad_parens_app. rewrite words_of_word; [| apply word_NOT |].
    2:{ apply pad_parens_boundary. right. exists 32%N. eexists.
        split; [reflexivity | by left]. }
    change (js " (" ++ ?x) with (32%N :: (LPAREN ++ x)).
    rewrite words_of_pad_ws by done.
    rewrite pad_parens_app, words_of_paren_token by (by left).
    rewrite IH; [| done |].
    2:{ right. exists 41%N. eexists. split; [reflexivity | by right; right]. }
    change (js ")" ++ rest) with (RPAREN ++ rest).
    rewrite pad_parens_app, words_of_paren_token by (by right).
    simpl. by rewrite <- app_assoc.
  - destruct Ht as (Hop & Hl & Hr).
    rewrite <- !app_assoc.
    change (js "(" ++ ?x) with (LPAREN ++ x).
    rewrite pad_parens_app, words_of_paren_token by (by left).
    rewrite IHl; [| done |].
    2:{ right. exists 32%N. eexists. split; [reflexivity | by left]. }
    change (js " " ++ ?x) with (32%N :: x).
    rewrite words_of_pad_ws by done.
    rewrite pad_parens_app, words_of_word; [| by apply word_binop |].
    2:{ apply pad_parens_boundary. right. exists 32%N. eexists.
        split; [reflexivity | by left]. }
    change (js " " ++ ?x) with (32%N :: x).
    rewrite words_of_pad_ws by done.
    rewrite IHr; [| done |].
    2:{ right. exists 41%N. eexists. split; [reflexivity | by right; right]. }
    change (js ")" ++ rest) with (RPAREN ++ rest).
    rewrite pad_parens_app, words_of_paren_token by (by right).
    simpl. rewrite <- ?app_assoc. simpl. by rewrite <- ?app_assoc.
Qed.

Lemma structured_tokens_nonempty t : structured_tokens t ≠ [].
Proof. by destruct t. Qed.

Lemma structured_string_nonempty atoms t :
  tree_over atoms t → Forall word atoms → structured_string t ≠ [].
Proof.
  destruct t; cbn [tree_over structured_string]; try done.
  intros Ha Hall. rewrite Forall_forall in Hall.
  by apply word_nonempty, Hall.
Qed.

Lemma getTokens_structured atoms t :
  tree_over atoms t → Forall word atoms →
  getTokens (structured_string t) = structured_tokens t.
Proof.
  intros Ht Hatoms. rewrite getTokens_words_of.
  rewrite decide_False by (by eapply structured_string_nonempty).
  pose proof (words_of_structured atoms t [] Ht Hatoms ltac:(by left)) as Hw.
  rewrite !app_nil_r in Hw. rewrite Hw.
  pose proof (structured_tokens_nonempty t).
  by destruct (structured_tokens t).
Qed.

Lemma unit_structured_tokens atoms t :
  tree_over atoms t → Forall atom_token atoms →
  unit_tokens (structured_tokens t) t.
Proof.
  intros Ht Hatoms. rewrite Forall_forall in Hatoms.
  induction t as [a | c IH | op l IHl r IHr];
    cbn [tree_over structured_tokens] in *.
  - by apply unit_atom, Hatoms.
  - apply unit_not, unit_paren. by apply IH.
  - destruct Ht as (Hop & Hl & Hr). apply unit_bin; [done | by apply IHl | by apply IHr].
Qed.

(** ** The substitution of the values *)

Lemma replace_char_id k val s :
  Forall (λ c, c ≠ k) s → replace_char k val s = s.
Proof.
  unfold replace_char. induction 1 as [| c s Hc _ IH]; [done |].
  simpl. rewrite decide_False by done. by rewrite IH.
Qed.

Lemma tree_over_mono A B t :
  (∀ a, a ∈ A → a ∈ B) → tree_over A t → tree_over B t.
Proof.
  intros HAB. induction t as [a | c IH | op l IHl r IHr]; cbn [tree_over].
  - apply HAB.
  - done.
  - intros (? & ? & ?). split_and!; [done | by apply IHl | by apply IHr].
Qed.

Lemma tree_over_map_atoms A f t :
  tree_over A t → tree_over (f <$> A) (map_atoms f t).
Proof.
  induction t as [a | c IH | op l IHl r IHr]; cbn [tree_over map_atoms].
  - apply list_elem_of_fmap_2.
  - done.
  - intros (? & ? & ?). split_and!; [done | by apply IHl | by apply IHr].
Qed.

Lemma map_atoms_compose f g t :
  map_atoms g (map_atoms f t) = map_atoms (g ∘ f) t.
Proof.
  induction t as [a | c IH | op l IHl r IHr]; cbn [map_atoms]; [done | |].
  - by rewrite IH.
  - by rewrite IHl, IHr.
Qed.

Lemma replace_char_syntax c val s :
  (80 ≤ c ≤ 85)%N →
  s ∈ [js "("; js ")"; js " "; js " ("; SYMBOLS.NOT;
       SYMBOLS.AND; SYMBOLS.OR; SYMBOLS.IMP; SYMBOLS.IFF] →
  replace_char c val s = s.
Proof.
  intros Hc Hs. apply replace_char_id.
  repeat (apply elem_of_cons in Hs as [-> | Hs];
          [repeat constructor; intros <-; vm_compute in Hc; destruct Hc as [H1 H2];
           (by apply H1) || (by apply H2) |]).
  by apply elem_of_nil in Hs.
Qed.

(** One replacement, on a formula whose operands are single characters. *)
Lemma replace_key_structured A c val t :
  (80 ≤ c ≤ 85)%N → tree_over A t → Forall (λ a, ∃ d, a = [d]) A →
  replace_key [c] val (structured_string t)
  = structured_string (map_atoms (λ a, if decide (a = [c]) then val else a) t).
Proof.
  intros Hc Ht HA. rewrite Forall_forall in HA. unfold replace_key.
  induction t as [a | ch IH | op l IHl r IHr];
    cbn [tree_over structured_string map_atoms] in *.
  - destruct (HA a Ht) as (d & ->). unfold replace_char. simpl.
    rewrite app_nil_r.
    destruct (decide (d = c)) as [-> | Hne].
    + by rewrite decide_True.
    + rewrite decide_False; [done | congruence].
  - rewrite !replace_char_app, IH by done.
    rewrite !(replace_char_syntax c val) by (done || set_solver). done.
  - destruct Ht as (Hop & Hl & Hr).
    rewrite !replace_char_app, IHl, IHr by done.
    rewrite !(replace_char_syntax c val (js "(")) by (done || set_solver).
    rewrite !(replace_char_syntax c val (js ")")) by (done || set_solver).
    rewrite !(replace_char_syntax c val (js " ")) by (done || set_solver).
    rewrite (replace_char_syntax c val op); [done | done |].
    destruct Hop as [-> | [-> | [-> | ->]]]; set_solver.
Qed.

Lemma map_atoms_ext f g t :
  (∀ a, f a = g a) → map_atoms f t = map_atoms g t.
Proof.
  intros Hfg. induction t as [a | c IH | op l IHl r IHr]; cbn [map_atoms].
  - by rewrite Hfg.
  - by rewrite IH.
  - by rewrite IHl, IHr.
Qed.

Lemma map_atoms_id t : map_atoms (λ a, a) t = t.
Proof.
  induction t as [a | c IH | op l IHl r IHr]; cbn [map_atoms]; congruence.
Qed.

Lemma subst_atom_cons k v rest a :
  subst_atom ((k, v) :: rest) a
  = subst_atom rest (if decide (a = k) then v else a).
Proof. done. Qed.

(** All the replacements of [handleSubstitute] on a generated formula. *)
Lemma substitute_structured variables A t :
  Forall (λ kv : jsstring * jsstring,
            (∃ c, kv.1 = [c] ∧ (80 ≤ c ≤ 85)%N)
            ∧ (kv.2 = js "0" ∨ kv.2 = js "1")) variables →
  tree_over A t → Forall (λ a, ∃ d, a = [d]) A →
  foldl (λ next kv, replace_key kv.1 kv.2 next) (structured_string t) variables
  = structured_string (map_atoms (subst_atom variables) t).
Proof.
  intros Hvars. revert A t.
  induction Hvars as [| [k v] rest [(c & Hk & Hc) Hv] _ IH]; intros A t Ht HA.
  - simpl. by rewrite (map_atoms_ext _ (λ a, a)), map_atoms_id.
  - simpl in Hk, Hv. subst k. cbn [foldl fst snd].
    rewrite (replace_key_structured A c v t) by done.
    rewrite (IH ((λ a, if decide (a = [c]) then v else a) <$> A)).
    + rewrite map_atoms_compose. apply f_equal, map_atoms_ext.
      intros a. by rewrite subst_atom_cons.
    + by apply tree_over_map_atoms.
    + apply Forall_fmap. eapply Forall_impl; [apply HA |].
      intros a (d & ->). simpl. case_decide; [| eauto].
      destruct Hv as [-> | ->]; eexists; reflexivity.
Qed.

Lemma subst_atom_fixed variables a :
  Forall (λ kv : jsstring * jsstring, a ≠ kv.1) variables →
  subst_atom variables a = a.
Proof.
  unfold subst_atom. induction 1 as [| kv rest Hkv _ IH]; [done |].
  simpl. by rewrite decide_False.
Qed.

Lemma subst_atom_literal variables a :
  Forall (λ kv : jsstring * jsstring,
            kv.1 ≠ js "0" ∧ kv.1 ≠ js "1"
            ∧ (kv.2 = js "0" ∨ kv.2 = js "1")) variables →
  a ∈ variables.*1 →
  subst_atom variables a = js "0" ∨ subst_atom variables a = js "1".
Proof.
  intros Hvars. revert a.
  induction Hvars as [| [k v] rest (H0 & H1 & Hv) Hrest IH]; intros a Ha.
  - by apply elem_of_nil in Ha.
  - simpl in H0, H1, Hv, Ha. rewrite subst_atom_cons.
    destruct (decide (a = k)) as [-> | Hne].
    + rewrite subst_atom_fixed; [done |].
      eapply Forall_impl; [apply Hrest |]. intros kv (? & ? & _).
      destruct Hv as [-> | ->]; congruence.
    + apply IH. apply elem_of_cons in Ha as [? | ?]; done.
Qed.

Lemma literals_subst variables t :
  Forall (λ kv : jsstring * jsstring,
            kv.1 ≠ js "0" ∧ kv.1 ≠ js "1"
            ∧ (kv.2 = js "0" ∨ kv.2 = js "1")) variables →
  tree_over (variables.*1) t → literals (map_atoms (subst_atom variables) t).
Proof.
  intros Hvars.
  induction t as [a | c IH | op l IHl r IHr]; cbn [tree_over map_atoms literals].
  - by apply subst_atom_literal.
  - done.
  - intros (_ & ? & ?). split; [by apply IHl | by apply IHr].
Qed.

Lemma draw_values_spec random varsFound i :
  (draw_values random varsFound i).1.*1 = varsFound
  ∧ Forall (λ kv : jsstring * jsstring, kv.2 = js "0" ∨ kv.2 = js "1")
           (draw_values random varsFound i).1.
Proof.
  revert i. induction varsFound as [| v rest IH]; intros i; cbn [draw_values].
  - split; [done | constructor].
  - destruct (IH (S i)) as [IH1 IH2].
    destruct (draw_values random rest (S i)) as [obj i']. simpl in *.
    split; [by f_equal |].
    constructor; [| done]. simpl. destruct (below (random i) 50); auto.
Qed.

Lemma VARS_letter a : a ∈ VARS → ∃ c, a = [c] ∧ (80 ≤ c ≤ 85)%N.
Proof.
  unfold VARS. intros Ha.
  repeat (apply elem_of_cons in Ha as [-> | Ha];
          [eexists; split; [reflexivity | vm_compute; split; discriminate] |]).
  by apply elem_of_nil in Ha.
Qed.

Lemma match_PQRSTU_app a b :
  match_PQRSTU (a ++ b) = match_PQRSTU a ++ match_PQRSTU b.
Proof. unfold match_PQRSTU. by rewrite List.filter_app, List.map_app. Qed.

(** Every variable of a generated formula is found by the match. *)
Lemma tree_over_match t :
  tree_over VARS t → tree_over (match_PQRSTU (structured_string t)) t.
Proof.
  induction t as [a | c IH | op l IHl r IHr]; cbn [tree_over structured_string].
  - intros (c & -> & Hc)%VARS_letter. unfold match_PQRSTU. simpl.
    destruct (N.leb_spec 80 c), (N.leb_spec c 85); try lia. simpl. by left.
  - intros Hc. eapply tree_over_mono; [| by apply IH].
    intros a Ha. rewrite !match_PQRSTU_app, !elem_of_app. auto.
  - intros (Hop & Hl & Hr). split_and!; [done | |].
    + eapply tree_over_mono; [| by apply IHl].
      intros a Ha. rewrite !match_PQRSTU_app, !elem_of_app. auto.
    + eapply tree_over_mono; [| by apply IHr].
      intros a Ha. rewrite !match_PQRSTU_app, !elem_of_app. auto 10.
Qed.

Lemma elem_of_set_of_list x l : x ∈ set_of_list l ↔ x ∈ l.
Proof.
  unfold set_of_list.
  assert (H : ∀ s, x ∈ foldl (λ s x, set_add x s) s l ↔ x ∈ s ∨ x ∈ l).
  { induction l as [| y l IH]; intros s; simpl.
    - split; [by left | by intros [? | ?%elem_of_nil]].
    - rewrite IH, elem_of_set_add, elem_of_cons. naive_solver. }
  rewrite H. split; [by intros [?%elem_of_nil | ?] | by right].
Qed.

Lemma match_PQRSTU_letter x s :
  x ∈ match_PQRSTU s → ∃ c, x = [c] ∧ (80 ≤ c ≤ 85)%N.
Proof.
  unfold match_PQRSTU. change (List.map ?f ?l) with (f <$> l).
  intros (c & -> & Hc)%list_elem_of_fmap.
  apply elem_of_List_filter in Hc as [_ Hc].
  exists c. split; [done |].
  destruct (N.leb_spec 80 c), (N.leb_spec c 85); simpl in Hc; done.
Qed.

(** ** The session that [generate] starts *)

Lemma generate_formula_spec fuel random i formula j :
  (∀ k, draw_ok (random k)) →
  generate_formula fuel random i = Some (formula, j) →
  ∃ t, formula = structured_string t ∧ tree_over VARS t
       ∧ (15 ≤ length formula)%nat.
Proof.
  intros Hok. revert i.
  induction fuel as [| fuel IH]; intros i; cbn [generate_formula]; [done |].
  destruct (generateStructuredFormula_total random 0 4 i Hok)
    as (t & i1 & -> & Ht & _).
  simpl. destruct (Nat.ltb_spec (length (structured_string t)) 15) as [Hlt | Hge].
  - apply IH.
  - intros [= <- <-]. eauto.
Qed.

Lemma tree_over_literals A f t :
  tree_over A t → literals (map_atoms f t) →
  tree_over [js "0"; js "1"] (map_atoms f t).
Proof.
  induction t as [a | c IH | op l IHl r IHr]; cbn [tree_over map_atoms literals].
  - intros _ [-> | ->]; set_solver.
  - done.
  - intros (? & ? & ?) (? & ?). split_and!; [done | by apply IHl | by apply IHr].
Qed.

Lemma VARS_words : Forall word VARS ∧ Forall atom_token VARS.
Proof.
  split; repeat constructor; try discriminate; try done;
    right; right; (split; [discriminate |]); by repeat constructor.
Qed.

Lemma literal_words :
  Forall word [js "0"; js "1"] ∧ Forall atom_token [js "0"; js "1"].
Proof.
  split; repeat constructor; try discriminate; try done;
    right; right; (split; [discriminate |]); by repeat constructor.
Qed.

(** The session that [generate] starts and its state after
    [handleSubstitute]. *)
Lemma generate_substituted fuel random i st variables i' :
  (∀ k, draw_ok (random k)) →
  generate fuel random i = Some (st, variables, i') →
  ∃ t,
    st = EvalState [HistoryEntry 0 (structured_string t) (js "formula")] (js "")
    ∧ tree_over VARS t ∧ (15 ≤ length (structured_string t))%nat
    ∧ tree_over [js "0"; js "1"] (map_atoms (subst_atom variables) t)
    ∧ literals (map_atoms (subst_atom variables) t)
    ∧ handleSubstitute variables st
      = EvalState
          [HistoryEntry 0 (structured_string t) (js "formula");
           HistoryEntry 1
             (structured_string (map_atoms (subst_atom variables) t))
             (js "substituted")] (js "").
Proof.
  intros Hok. unfold generate.
  destruct (generate_formula fuel random i) as [[formula j] |] eqn:Hgen; [| done].
  destruct (generate_formula_spec _ _ _ _ _ Hok Hgen) as (t & -> & Ht & Hlen).
  simpl.
  set (varsFound := sort_by string_ltb
                      (set_of_list (match_PQRSTU (structured_string t)))).
  destruct (draw_values_spec random varsFound j) as [Hkeys Hvals].
  destruct (draw_values random varsFound j) as [varsObj j'] eqn:Hdraw.
  simpl in Hkeys, Hvals. intros [= <- <- <-].
  (* the object [variables] *)
  assert (Hfound : ∀ x, x ∈ varsFound → ∃ c, x = [c] ∧ (80 ≤ c ≤ 85)%N).
  { intros x Hx. unfold varsFound in Hx.
    rewrite sort_by_Permutation, elem_of_set_of_list in Hx.
    by eapply match_PQRSTU_letter. }
  assert (Hvars1 : Forall (λ kv : jsstring * jsstring,
                     (∃ c, kv.1 = [c] ∧ (80 ≤ c ≤ 85)%N)
                     ∧ (kv.2 = js "0" ∨ kv.2 = js "1")) varsObj).
  { apply Forall_forall. intros kv Hkv. rewrite Forall_forall in Hvals.
    split; [| by apply Hvals]. apply Hfound. rewrite <- Hkeys.
    by apply list_elem_of_fmap_2. }
  assert (Hvars2 : Forall (λ kv : jsstring * jsstring,
                     kv.1 ≠ js "0" ∧ kv.1 ≠ js "1"
                     ∧ (kv.2 = js "0" ∨ kv.2 = js "1")) varsObj).
  { eapply Forall_impl; [apply Hvars1 |]. intros kv [(c & -> & Hc) Hv].
    split_and!; [| | done]; intros [= ->]; vm_compute in Hc;
      destruct Hc as [H1 H2]; (by apply H1) || (by apply H2). }
  assert (Hall : tree_over (varsObj.*1) t).
  { rewrite Hkeys. eapply tree_over_mono; [| by apply tree_over_match].
    intros a Ha. unfold varsFound.
    by rewrite sort_by_Permutation, elem_of_set_of_list. }
  set (t1 := map_atoms (subst_atom varsObj) t).
  assert (Hlit : literals t1) by (by apply literals_subst).
  assert (Ht1 : tree_over [js "0"; js "1"] t1) by (by eapply tree_over_literals).
  exists t. split_and!; try done.
  unfold handleSubstitute. cbn [history length lookup].
  rewrite decide_False by (simpl; lia). simpl.
  rewrite (substitute_structured varsObj VARS t); [done | done | done |].
  eapply Forall_impl; [apply Forall_forall; intros a Ha; exact (VARS_letter a Ha) |].
  intros a (c & -> & _). eauto.
Qed.

(** X18. The session that [generate] starts, for any numbers that
    [Math.random()] may return: [generateStructuredFormula] always returns
    a formula; the formula kept has at least 15 characters and is fully
    parenthesized over the variables P to U; its tokens do not react before
    the substitution; [handleSubstitute] records the formula with every
    variable replaced by its value, a fully parenthesized formula over 0
    and 1, and does nothing when called again. *)
Theorem generate_session (fuel : nat) (random : nat → draw) (i : nat)
    (st : eval_state) (variables : list (jsstring * jsstring)) (i' : nat) :
  (∀ k, draw_ok (random k)) →
  (∀ depth maxDepth j, ∃ t j',
     generateStructuredFormula random depth maxDepth j
     = Some (structured_string t, j') ∧ tree_over VARS t)
  ∧ (generate fuel random i = Some (st, variables, i') →
     ∃ t,
       history st = [HistoryEntry 0 (structured_string t) (js "formula")]
       ∧ tree_over VARS t ∧ (15 ≤ length (structured_string t))%nat
       ∧ unit_tokens (current_tokens st) t
       ∧ (∀ idx, click idx st = st)
       ∧ let st1 := handleSubstitute variables st in
         let t1 := map_atoms (subst_atom variables) t in
         history st1
         = history st
             ++ [HistoryEntry 1 (structured_string t1) (js "substituted")]
         ∧ unit_tokens (current_tokens st1) t1 ∧ literals t1
         ∧ handleSubstitute variables st1 = st1).
Proof.
  intros Hok. split.
  { intros depth maxDepth j.
    destruct (generateStructuredFormula_total random depth maxDepth j Hok)
      as (t & j' & ? & ? & _). eauto. }
  intros Hgen.
  destruct (generate_substituted _ _ _ _ _ _ Hok Hgen)
    as (t & -> & Ht & Hlen & Ht1 & Hlit & Hsub).
  destruct VARS_words as [HVw HVa]. destruct literal_words as [HLw HLa].
  exists t. cbn [history]. split_and!.
  - done.
  - done.
  - done.
  - unfold current_tokens. simpl.
    rewrite (getTokens_structured VARS) by done.
    by apply (unit_structured_tokens VARS).
  - intros idx. unfold click. cbn [history length].
    by rewrite andb_false_r.
  - rewrite Hsub. done.
  - rewrite Hsub. unfold current_tokens. simpl.
    rewrite (getTokens_structured [js "0"; js "1"]) by done.
    by apply (unit_structured_tokens [js "0"; js "1"]).
  - done.
  - rewrite Hsub. unfold handleSubstitute. cbn [history length].
    by rewrite decide_True by (simpl; lia).
Qed.

Lemma quarters_ok k : (k < 4)%nat → draw_ok (quarters k).
Proof.
  intros Hk n Hn. change (k * n / 4 < n)%nat.
  apply Nat.Div0.div_lt_upper_bound. nia.
Qed.

Lemma generate_session_witness :
  ∃ t,
    history (EvalState [HistoryEntry 0 (js "(¬ ((¬ (Q) ⇔ (P ⇒ Q))) ⇒ Q)")
                          (js "formula")] (js ""))
    = [HistoryEntry 0 (structured_string t) (js "formula")]
    ∧ tree_over VARS t ∧ (15 ≤ length (structured_string t))%nat
    ∧ unit_tokens
        (current_tokens
           (EvalState [HistoryEntry 0 (js "(¬ ((¬ (Q) ⇔ (P ⇒ Q))) ⇒ Q)")
                         (js "formula")] (js ""))) t
    ∧ (∀ idx,
         click idx (EvalState [HistoryEntry 0 (js "(¬ ((¬ (Q) ⇔ (P ⇒ Q))) ⇒ Q)")
                                 (js "formula")] (js ""))
         = EvalState [HistoryEntry 0 (js "(¬ ((¬ (Q) ⇔ (P ⇒ Q))) ⇒ Q)")
                        (js "formula")] (js ""))
    ∧ let st1 :=
        handleSubstitute [(js "P", js "0"); (js "Q", js "1")]
          (EvalState [HistoryEntry 0 (js "(¬ ((¬ (Q) ⇔ (P ⇒ Q))) ⇒ Q)")
                        (js "formula")] (js "")) in
      let t1 :=
        map_atoms (subst_atom [(js "P", js "0"); (js "Q", js "1")]) t in
      history st1
      = history (EvalState [HistoryEntry 0 (js "(¬ ((¬ (Q) ⇔ (P ⇒ Q))) ⇒ Q)")
                              (js "formula")] (js ""))
          ++ [HistoryEntry 1 (structured_string t1) (js "substituted")]
      ∧ unit_tokens (current_tokens st1) t1 ∧ literals t1
      ∧ handleSubstitute [(js "P", js "0"); (js "Q", js "1")] st1 = st1.
Proof.
  apply (proj2 (generate_session 1 (λ i, quarters ((i + 2) mod 4)) 0
                  (EvalState [HistoryEntry 0 (js "(¬ ((¬ (Q) ⇔ (P ⇒ Q))) ⇒ Q)")
                                (js "formula")] (js ""))
                  [(js "P", js "0"); (js "Q", js "1")] 19
                  (λ k, quarters_ok ((k + 2) mod 4)
                          (Nat.mod_upper_bound (k + 2) 4 (Nat.neq_succ_0 3))))).
  vm_compute. reflexivity.
Defined.

Lemma no_candidates tokens :
  candidates tokens = [] → ∀ idx, interactable tokens idx = false.
Proof.
  intros Hc idx. destruct (interactable tokens idx) eqn:Hi; [| done].
  destruct (interactable_token _ _ Hi) as (t & Ht & _).
  assert (H : Reducible idx t (PRECEDENCE t) ∈ candidates tokens).
  { apply candidates_elem. eauto. }
  rewrite Hc in H. by apply elem_of_nil in H.
Qed.

(** X19. [generate] can start a session that cannot be finished: for the
    draws 0.25, 0.25, ... the formula is ¬ (¬ (¬ (¬ (Q)))), and after the
    substitution the formula is not solved and no token reacts to a click,
    as [handleSubstitute] does not remove the parentheses around a value. *)
Theorem generate_stuck :
  ∃ random st variables i',
    (∀ k, draw_ok (random k))
    ∧ generate 1 random 0 = Some (st, variables, i')
    ∧ content <$> history st = [js "¬ (¬ (¬ (¬ (Q))))"]
    ∧ isSolved (current_tokens (handleSubstitute variables st)) = false
    ∧ ∀ idx, click idx (handleSubstitute variables st)
             = handleSubstitute variables st.
Proof.
  exists (λ _, quarters 1).
  exists (EvalState [HistoryEntry 0 (js "¬ (¬ (¬ (¬ (Q))))") (js "formula")]
            (js "")), [(js "Q", js "1")], 9%nat.
  split_and!.
  - intros _. apply quarters_ok. lia.
  - vm_compute. reflexivity.
  - reflexivity.
  - vm_compute. reflexivity.
  - intros idx. unfold click.
    rewrite no_candidates; [by rewrite andb_false_r |].
    vm_compute. reflexivity.
Qed.

(** * Problems of the syntax section *)

Lemma is_sep_connective c :
  c ≠ 40%N → c ≠ 41%N → is_sep c = is_connective c.
Proof.
  intros H40 H41. unfold is_sep, is_connective.
  apply bool_decide_ext. rewrite !elem_of_cons.
  unfold LPAREN, RPAREN. simpl. split; [| tauto].
  intros [? | [? | [? | [? | [? | [[= ?] | [[= ?] | ?]]]]]]]; tauto.
Qed.

Lemma split_connectives_split_keep cur s :
  Forall (λ c, c ≠ 40%N ∧ c ≠ 41%N) s →
  split_connectives cur s = split_keep cur s.
Proof.
  intros Hs. revert cur. induction Hs as [| c s [H40 H41] _ IH]; intros cur.
  - done.
  - simpl. rewrite is_sep_connective by done.
    destruct (is_connective c); by rewrite IH.
Qed.

Lemma is_connective_sep c : is_connective c = true → is_sep c = true.
Proof.
  unfold is_connective, is_sep. rewrite !bool_decide_eq_true, !elem_of_cons.
  tauto.
Qed.

Lemma connectives_app a b : connectives (a ++ b) = (connectives a + connectives b)%nat.
Proof. unfold connectives. by rewrite List.filter_app, length_app. Qed.

Lemma connectives_atom a : atom_token a → connectives a = 0%nat.
Proof.
  intros [_ Ha]. unfold connectives.
  induction Ha as [| c a [Hc _] _ IH]; [done |]. simpl.
  destruct (is_connective c) eqn:E; [| done].
  apply is_connective_sep in E. congruence.
Qed.

Lemma connectives_binop op : is_binop op → connectives op = 1%nat.
Proof. by intros [-> | [-> | [-> | ->]]]. Qed.

Lemma VARS_atom v : v ∈ VARS → atom_token v.
Proof.
  intros Hv. destruct VARS_words as [_ Ha].
  rewrite Forall_forall in Ha. by apply Ha.
Qed.

Lemma atom_token_no_paren_char a :
  atom_token a → Forall (λ c, c ≠ 40%N ∧ c ≠ 41%N) a.
Proof.
  intros [_ Ha]. eapply Forall_impl; [exact Ha |].
  intros c [Hs _]. split; intros ->; done.
Qed.

Lemma atom_token_word a : atom_token a → word a.
Proof.
  intros [Hne Ha]. right; right. split; [done |].
  eapply Forall_impl; [exact Ha |]. intros c [Hs Hw].
  split_and!; [done | |]; intros ->; done.
Qed.

(** What the proofs need of a token list: it is a formula, its tokens are
    words other than parentheses, and its string has no parenthesis. *)
Definition plain_formula (ts : list jsstring) : Prop :=
  wf_tokens ts ∧ ts ≠ [] ∧ Forall word ts ∧ filter non_paren ts = ts
  ∧ Forall (λ c, c ≠ 40%N ∧ c ≠ 41%N) (join_space ts).

Lemma plain_term tt :
  is_term tt → plain_formula tt ∧ (connectives (join_space tt) ≤ 1)%nat.
Proof.
  intros (v & Hv & Htt).
  pose proof (VARS_atom v Hv) as Ha.
  pose proof (atom_token_word v Ha) as Hw.
  pose proof (atom_token_plain v Ha) as (H1 & H2 & _).
  pose proof (atom_token_no_paren_char v Ha) as Hc.
  pose proof (connectives_atom v Ha) as Hn.
  destruct Htt as [-> | ->].
  - split; [| simpl; lia]. split_and!.
    + by constructor.
    + done.
    + by constructor.
    + rewrite filter_cons, decide_True by done. done.
    + done.
  - split.
    + split_and!.
      * by constructor; constructor.
      * done.
      * constructor; [apply word_NOT | by constructor].
      * rewrite !filter_cons, filter_nil.
        rewrite (decide_True (P := non_paren SYMBOLS.NOT)) by (split; sym_neq).
        by rewrite decide_True.
      * rewrite join_space_cons by done. simpl.
        constructor; [done |]. constructor; [done |]. done.
    + rewrite join_space_cons by done. simpl join_space.
      rewrite !connectives_app, Hn. simpl. lia.
Qed.

Lemma join_space_flat_step (ts : list jsstring) op (tt : list jsstring) :
  ts ≠ [] → tt ≠ [] →
  join_space (ts ++ op :: tt)
  = join_space ts ++ js " " ++ op ++ js " " ++ join_space tt.
Proof.
  intros Hts Htt. rewrite join_space_app by done.
  by rewrite join_space_cons by done.
Qed.

Lemma flat_plain k ts :
  flat k ts →
  plain_formula ts ∧ (k ≤ connectives (join_space ts))%nat.
Proof.
  induction 1 as [tt Htt | k ts op tt Hts IH Hop Htt].
  - destruct (plain_term tt Htt) as [? _]. split; [done | lia].
  - destruct IH as [(Hwf & Hne & Hw & Hf & Hc) Hk].
    destruct (plain_term tt Htt) as [(Hwf' & Hne' & Hw' & Hf' & Hc') _].
    pose proof (join_space_flat_step ts op tt Hne Hne') as Hj.
    split.
    + split_and!.
      * by constructor.
      * by destruct ts.
      * apply Forall_app. split; [done |]. constructor; [by apply word_binop | done].
      * rewrite filter_app, filter_cons, Hf, Hf'.
        by rewrite decide_True by (by apply non_paren_binop).
      * rewrite Hj. rewrite !Forall_app. split_and!; try done.
        -- by repeat constructor.
        -- destruct Hop as [-> | [-> | [-> | ->]]]; by repeat constructor.
        -- by repeat constructor.
    + rewrite Hj, !connectives_app, (connectives_binop op Hop). simpl. lia.
Qed.

Lemma flat_term_spec random i :
  draw_ok (random (S i)) →
  ∃ tt, is_term tt ∧ flat_term random i = (join_space tt, S (S i)).
Proof.
  intros Hok. unfold flat_term.
  pose proof (getRandomVar_VARS _ Hok) as Hv.
  destruct (below (random i) 30).
  - exists [SYMBOLS.NOT; getRandomVar (random (S i))]. split; [| done].
    eexists. split; [exact Hv |]. by right.
  - exists [getRandomVar (random (S i))]. split; [| done].
    eexists. split; [exact Hv |]. by left.
Qed.

Lemma flat_loop_spec n random formula i k ts :
  (∀ j, draw_ok (random j)) →
  flat k ts → formula ≠ [] → join_space formula = join_space ts →
  ∃ ts',
    flat (k + n) ts'
    ∧ flat_loop n random formula i
      = ((flat_loop n random formula i).1, (i + 3 * n)%nat)
    ∧ join_space (flat_loop n random formula i).1 = join_space ts'.
Proof.
  intros Hok. revert formula i k ts.
  induction n as [| n IH]; intros formula i k ts Hts Hne Hj.
  - exists ts. split_and!.
    + by rewrite Nat.add_0_r.
    + simpl. f_equal. lia.
    + done.
  - cbn [flat_loop].
    set (op := if below (random i) 25 then SYMBOLS.OR
               else if below (random i) 50 then SYMBOLS.IMP
               else if below (random i) 75 then SYMBOLS.IFF
               else SYMBOLS.AND).
    assert (Hop : is_binop op).
    { unfold op, is_binop.
      destruct (below (random i) 25); [tauto |].
      destruct (below (random i) 50); [tauto |].
      destruct (below (random i) 75); tauto. }
    destruct (flat_term_spec random (S i) (Hok _)) as (tt & Htt & ->).
    destruct (flat_plain k ts Hts) as [(_ & Hne' & _) _].
    destruct (plain_term tt Htt) as [(_ & Hnt & _) _].
    destruct (IH (formula ++ [op; join_space tt]) (S (S (S i))) (S k)
                (ts ++ op :: tt)) as (ts' & Hflat & Hi & Hjoin).
    + by constructor.
    + by destruct formula.
    + rewrite !join_space_flat_step by done. by rewrite Hj.
    + exists ts'. split_and!.
      * by replace (k + S n)%nat with (S k + n)%nat by lia.
      * rewrite Hi at 1. simpl. f_equal. lia.
      * done.
Qed.

Lemma generateFlatFormula_spec random n i :
  (∀ j, draw_ok (random j)) →
  ∃ ts, flat n ts
        ∧ generateFlatFormula random n i = (join_space ts, (i + 2 + 3 * n)%nat).
Proof.
  intros Hok. unfold generateFlatFormula.
  destruct (flat_term_spec random i (Hok _)) as (tt & Htt & ->).
  destruct (flat_loop_spec n random [join_space tt] (S (S i)) 0 tt Hok)
    as (ts & Hflat & Hi & Hj).
  - by constructor.
  - done.
  - done.
  - exists ts. split; [done |]. rewrite Hi, Hj. f_equal. lia.
Qed.

Lemma tokenize_concat_wf ts : wf_tokens ts → tokenize (concat ts) = ts.
Proof.
  induction 1 as [a Ha | ts Hts IH | l op r Hop Hl IHl Hr IHr | ts Hts IH].
  - simpl. rewrite app_nil_r. by apply tokenize_atom.
  - rewrite concat_cons. change SYMBOLS.NOT with [172%N]. simpl app.
    rewrite tokenize_sep_head by done. by rewrite IH.
  - destruct (binop_char op Hop) as (c & -> & Hc).
    rewrite concat_app, concat_cons. simpl app.
    rewrite (tokenize_sep (concat l) c) by done.
    by rewrite IHl, IHr.
  - by rewrite concat_parens, tokenize_parens, IH.
Qed.

Lemma tokenize_join_space_wf ts :
  wf_tokens ts → Forall word ts → tokenize (join_space ts) = ts.
Proof.
  intros Hwf Hw. rewrite <- (tokenize_concat_wf ts Hwf) at 2.
  apply tokenize_remove_ws. rewrite remove_ws_join_space by done.
  symmetry. by apply remove_ws_no_ws_id, word_tokens_no_ws.
Qed.

Lemma content_tokens_nonempty t :
  filter non_paren (canonical_tokens t) ≠ [] ∨ ¬ clean t.
Proof.
  destruct (decide (filter non_paren (canonical_tokens t) = [])) as [E | ?];
    [| by left].
  right. intros Hc. revert E.
  induction t as [a | c IH | op l IHl r IHr]; cbn [canonical_tokens].
  - destruct (atom_token_plain a Hc) as (? & ? & _).
    by rewrite filter_cons, decide_True.
  - change (LPAREN :: SYMBOLS.NOT :: canonical_tokens c ++ [RPAREN])
      with (LPAREN :: (SYMBOLS.NOT :: canonical_tokens c) ++ [RPAREN]).
    rewrite filter_non_paren_parens, filter_cons.
    by rewrite decide_True by (split; sym_neq).
  - destruct Hc as (Hop & Hl & Hr).
    rewrite filter_non_paren_parens, filter_app, filter_cons.
    rewrite decide_True by (by apply non_paren_binop).
    by destruct (filter non_paren (canonical_tokens l)).
Qed.

(** The canonical string is as long as its tokens other than parentheses
    joined by spaces, plus two for each connective. *)
Lemma toFullString_length t :
  clean t →
  length (toFullString t)
  = (length (join_space (filter non_paren (canonical_tokens t)))
     + 2 * connectives (join_space (filter non_paren (canonical_tokens t))))%nat.
Proof.
  induction t as [a | c IH | op l IHl r IHr];
    cbn [canonical_tokens toFullString clean].
  - intros Ha. destruct (atom_token_plain a Ha) as (? & ? & _).
    rewrite filter_cons, decide_True by done. simpl.
    rewrite (connectives_atom a Ha). lia.
  - intros Hc. specialize (IH Hc).
    change (LPAREN :: SYMBOLS.NOT :: canonical_tokens c ++ [RPAREN])
      with (LPAREN :: (SYMBOLS.NOT :: canonical_tokens c) ++ [RPAREN]).
    rewrite filter_non_paren_parens, filter_cons.
    rewrite decide_True by (split; sym_neq).
    destruct (content_tokens_nonempty c) as [Hne | ?]; [| done].
    rewrite join_space_cons by done.
    rewrite !connectives_app, !length_app, IH. simpl. lia.
  - intros (Hop & Hl & Hr). specialize (IHl Hl). specialize (IHr Hr).
    rewrite filter_non_paren_parens, filter_app, filter_cons.
    rewrite decide_True by (by apply non_paren_binop).
    destruct (content_tokens_nonempty l) as [Hnl | ?]; [| done].
    destruct (content_tokens_nonempty r) as [Hnr | ?]; [| done].
    rewrite join_space_flat_step by done.
    rewrite !connectives_app, !length_app, IHl, IHr.
    rewrite (connectives_binop op Hop). simpl. lia.
Qed.

Lemma isBalanced_no_parens s :
  Forall (λ c, c ≠ 40%N ∧ c ≠ 41%N) s → isBalanced (split_chars s) = true.
Proof.
  unfold isBalanced, split_chars.
  induction 1 as [| c s [H40 H41] _ IH]; [done |].
  simpl. rewrite decide_False by (intros [= ?]; done).
  rewrite decide_False by (intros [= ?]; done). done.
Qed.

Lemma remove_parens_no_parens s :
  Forall (λ c, c ≠ 40%N ∧ c ≠ 41%N) s → remove_parens s = s.
Proof.
  unfold remove_parens. induction 1 as [| c s [H40 H41] _ IH]; [done |].
  simpl. rewrite !bool_decide_eq_false_2 by done. simpl. by rewrite IH.
Qed.

Lemma remove_ws_Forall (P : N → Prop) s : Forall P s → Forall P (remove_ws s).
Proof.
  unfold remove_ws. induction 1 as [| c s Hc _ IH]; [constructor |].
  simpl. destruct (negb (is_ws c)); [by constructor | done].
Qed.

(** X20. [newProblem], for any numbers that [Math.random()] may return: the
    first formula drawn is kept, so the loop runs once.  The problem is a
    formula without parentheses with three or four binary connectives; the
    expected answer is the canonical string of its parse, two characters
    longer than the problem for each connective of the problem.  Checking
    the problem as it is shown reports an incorrect grouping, and the
    expected answer is accepted. *)
Theorem newProblem_spec (random : nat → draw) (i : nat) :
  (∀ k, draw_ok (random k)) →
  ∃ raw t,
    newProblem random i
    = (SyntaxState (Some raw) (Some (toFullString t)) (Some raw)
         (SyntaxResult (js "idle") (js "")) false,
       1%nat, (i + 3 * (floor_times (random i) 2 + 3) + 3)%nat)
    ∧ wf_tokens (tokenize raw) ∧ parseToAST (tokenize raw) = Some t ∧ clean t
    ∧ Forall (λ c, c ≠ 40%N ∧ c ≠ 41%N) raw
    ∧ (floor_times (random i) 2 + 3 ≤ connectives raw)%nat
    ∧ length (toFullString t) = (length raw + 2 * connectives raw)%nat
    ∧ check (js "auto") raw (toFullString t) raw
      = SyntaxResult (js "error")
          (js "Agrupación incorrecta. Revisa la jerarquía.")
    ∧ check (js "auto") (toFullString t) (toFullString t) raw
      = SyntaxResult (js "correct") (js "").
Proof.
  intros Hok. set (n := (floor_times (random i) 2 + 3)%nat).
  destruct (generateFlatFormula_spec random n (S i) Hok) as (ts & Hflat & Hgen).
  destruct (flat_plain n ts Hflat) as [(Hwf & Hne & Hw & Hf & Hc) Hn].
  set (raw := join_space ts) in *.
  assert (Htok : tokenize raw = ts) by (by apply tokenize_join_space_wf).
  destruct (parseToAST_wf_tokens ts Hwf) as (t & Ht & Hclean).
  pose proof (canonical_tokens_content ts Hwf t Ht) as Hcont.
  rewrite Hf in Hcont.
  pose proof (toFullString_length t Hclean) as Hlen.
  rewrite Hcont in Hlen. fold raw in Hlen.
  assert (Hauto : js "auto" ≠ js "custom") by sym_neq.
  exists raw, t. split_and!.
  - unfold newProblem. cbn [newProblem_loop]. fold n. rewrite Hgen.
    rewrite split_connectives_split_keep by (by apply remove_ws_Forall).
    fold (tokenize raw). rewrite Htok, Ht. cbn zeta.
    rewrite (proj2 (Nat.ltb_lt _ _)) by (unfold n in Hn; lia).
    cbn iota. f_equal. lia.
  - by rewrite Htok.
  - by rewrite Htok.
  - done.
  - done.
  - done.
  - done.
  - unfold check. rewrite decide_False by done. cbn zeta.
    rewrite decide_False.
    + rewrite isBalanced_no_parens by (by apply remove_ws_Forall). simpl.
      rewrite decide_False; [done |]. intros Hmod. apply Hmod.
      by apply remove_parens_no_parens, remove_ws_Forall.
    + intros Heq.
      assert (Hp : Forall (λ c, c ≠ 40%N ∧ c ≠ 41%N)
                     (remove_ws (toFullString t))).
      { rewrite <- Heq. by apply remove_ws_Forall. }
      destruct t as [a | c | op l r].
      * simpl in Hcont. destruct (atom_token_plain a Hclean) as (? & ? & _).
        rewrite filter_cons, decide_True in Hcont by done.
        unfold raw in Hn. rewrite <- Hcont in Hn. simpl in Hn.
        rewrite (connectives_atom a Hclean) in Hn. unfold n in Hn. lia.
      * simpl in Hp. apply Forall_cons in Hp as [[? _] _]. done.
      * simpl in Hp. apply Forall_cons in Hp as [[? _] _]. done.
  - unfold check. rewrite decide_False by done. cbn zeta.
    by rewrite decide_True.
Qed.

Lemma newProblem_spec_witness :
  ∃ raw t,
    newProblem (λ i, quarters (i mod 4)) 0
    = (SyntaxState (Some raw) (Some (toFullString t)) (Some raw)
         (SyntaxResult (js "idle") (js "")) false,
       1%nat,
       (0 + 3 * (floor_times ((λ i, quarters (i mod 4)) 0%nat) 2 + 3) + 3)%nat)
    ∧ wf_tokens (tokenize raw) ∧ parseToAST (tokenize raw) = Some t ∧ clean t
    ∧ Forall (λ c, c ≠ 40%N ∧ c ≠ 41%N) raw
    ∧ (floor_times ((λ i, quarters (i mod 4)) 0%nat) 2 + 3 ≤ connectives raw)%nat
    ∧ length (toFullString t) = (length raw + 2 * connectives raw)%nat
    ∧ check (js "auto") raw (toFullString t) raw
      = SyntaxResult (js "error")
          (js "Agrupación incorrecta. Revisa la jerarquía.")
    ∧ check (js "auto") (toFullString t) (toFullString t) raw
      = SyntaxResult (js "correct") (js "").
Proof.
  apply (newProblem_spec (λ i, quarters (i mod 4)) 0).
  intros k. apply quarters_ok. apply Nat.mod_upper_bound. lia.
Defined.

(** * Generated truth tables *)

Lemma generateRestrictedFormula_fuel_spec fuel random depth maxDepth i :
  (∀ k, draw_ok (random k)) → (maxDepth ≤ depth + fuel)%nat →
  ∃ t i', generateRestrictedFormula_fuel fuel random depth maxDepth i
          = Some (structured_string t, i')
          ∧ tree_over tableVars t
          ∧ (depth = 0%nat → (0 < maxDepth)%nat → ∀ a, t ≠ ATOM a).
Proof.
  intros Hok. revert depth i.
  assert (Hleaf : ∀ j, pick tableVars (floor_times (random j) (length tableVars))
                       ∈ tableVars).
  { intros j. apply pick_elem, Hok. simpl. lia. }
  induction fuel as [| fuel IH]; intros depth i Hfuel;
    cbn [generateRestrictedFormula_fuel].
  - rewrite (proj2 (Nat.leb_le maxDepth depth)) by lia.
    eexists (ATOM _), (S i). split_and!; [done | apply Hleaf | lia].
  - destruct (Nat.leb_spec maxDepth depth).
    { eexists (ATOM _), (S i). split_and!; [done | apply Hleaf | lia]. }
    destruct (Nat.ltb_spec 0 depth) as [Hd | Hd].
    + destruct (below (random i) 20).
      { eexists (ATOM _), (S (S i)). split_and!; [done | apply Hleaf | lia]. }
      destruct (below (random (S i)) 30).
      * destruct (IH (depth + 1)%nat (S (S i)) ltac:(lia)) as (t & j' & -> & Ht & _).
        exists (NOT t), j'. split_and!; [done | done | done].
      * destruct (IH (depth + 1)%nat (S (S i)) ltac:(lia))
          as (l & j1 & -> & Hl & _).
        simpl.
        destruct (IH (depth + 1)%nat j1 ltac:(lia)) as (r & j2 & -> & Hr & _).
        simpl. set (op := pick _ _).
        exists (BIN op l r), (S j2). split_and!; [done | | done].
        cbn [tree_over]. split_and!; [| done | done].
        assert (Hin : op ∈ [SYMBOLS.AND; SYMBOLS.OR; SYMBOLS.IMP; SYMBOLS.IFF]).
        { apply pick_elem, Hok. simpl. lia. }
        unfold is_binop. set_solver.
    + destruct (below (random i) 30).
      * destruct (IH (depth + 1)%nat (S i) ltac:(lia)) as (t & j' & -> & Ht & _).
        exists (NOT t), j'. split_and!; [done | done | done].
      * destruct (IH (depth + 1)%nat (S i) ltac:(lia))
          as (l & j1 & -> & Hl & _).
        simpl.
        destruct (IH (depth + 1)%nat j1 ltac:(lia)) as (r & j2 & -> & Hr & _).
        simpl. set (op := pick _ _).
        exists (BIN op l r), (S j2). split_and!; [done | | done].
        cbn [tree_over]. split_and!; [| done | done].
        assert (Hin : op ∈ [SYMBOLS.AND; SYMBOLS.OR; SYMBOLS.IMP; SYMBOLS.IFF]).
        { apply pick_elem, Hok. simpl. lia. }
        unfold is_binop. set_solver.
Qed.

Lemma generateRestrictedFormula_total random i :
  (∀ k, draw_ok (random k)) →
  ∃ t i', generateRestrictedFormula random 0 3 i
          = Some (structured_string t, i')
          ∧ tree_over tableVars t ∧ ∀ a, t ≠ ATOM a.
Proof.
  intros Hok.
  destruct (generateRestrictedFormula_fuel_spec 3 random 0 3 i Hok ltac:(lia))
    as (t & i' & Hg & Ht & Hna).
  exists t, i'. split_and!; [done | done |]. apply Hna; lia.
Qed.

Lemma tableVars_cases a :
  a ∈ tableVars → a = js "P" ∨ a = js "Q" ∨ a = js "R".
Proof. unfold tableVars. rewrite !elem_of_cons, elem_of_nil. tauto. Qed.

Lemma tableVars_words : Forall word tableVars ∧ Forall atom_token tableVars.
Proof.
  split; repeat constructor; try discriminate; try done;
    right; right; (split; [discriminate |]); by repeat constructor.
Qed.

Lemma structured_string_length t :
  tree_over tableVars t → (∀ a, t ≠ ATOM a) →
  (5 ≤ length (structured_string t))%nat.
Proof.
  destruct tableVars_words as [Hw _].
  destruct t as [a | c | op l r]; cbn [tree_over structured_string].
  - intros _ Hna. by destruct (Hna a).
  - intros Hc _. pose proof (structured_string_nonempty _ _ Hc Hw).
    rewrite !length_app. simpl. destruct (structured_string c); [done |].
    simpl. lia.
  - intros (Hop & _) _. rewrite !length_app.
    destruct Hop as [-> | [-> | [-> | ->]]]; simpl; lia.
Qed.

Lemma remove_ws_structured t :
  tree_over tableVars t →
  remove_ws (structured_string t) = concat (structured_tokens t).
Proof.
  induction t as [a | c IH | op l IHl r IHr];
    cbn [tree_over structured_string structured_tokens].
  - intros Ha. simpl. rewrite app_nil_r.
    by destruct (tableVars_cases a Ha) as [-> | [-> | ->]].
  - intros Hc. rewrite !remove_ws_app, IH by done.
    rewrite !concat_cons, concat_app. simpl. by rewrite ?app_nil_r.
  - intros (Hop & Hl & Hr). rewrite !remove_ws_app, IHl, IHr by done.
    rewrite concat_cons, !concat_app, concat_cons. simpl.
    rewrite ?app_nil_r, <- ?app_assoc. simpl.
    by destruct Hop as [-> | [-> | [-> | ->]]].
Qed.

Lemma tokenize_structured t :
  tree_over tableVars t → tokenize (structured_string t) = structured_tokens t.
Proof.
  intros Ht. destruct tableVars_words as [Hw Ha].
  pose proof (unit_structured_tokens tableVars t Ht Ha) as Hu.
  rewrite <- (tokenize_concat_unit _ _ Hu).
  apply tokenize_remove_ws. rewrite remove_ws_structured by done.
  symmetry. apply remove_ws_no_ws_id.
  rewrite <- remove_ws_structured by done.
  unfold remove_ws. apply Forall_forall. intros c Hc%list_elem_of_In.
  apply filter_In in Hc as [_ Hc]. by destruct (is_ws c).
Qed.

Lemma letter_runs_nonletter c s :
  is_letter c = false → letter_runs [] (c :: s) = letter_runs [] s.
Proof. intros Hc. cbn [letter_runs]. by rewrite Hc. Qed.

Lemma letter_runs_structured t rest :
  tree_over tableVars t →
  (rest = [] ∨ ∃ c r, rest = c :: r ∧ is_letter c = false) →
  letter_runs [] (structured_string t ++ rest)
  = leaves t ++ letter_runs [] rest.
Proof.
  revert rest.
  induction t as [a | c IH | op l IHl r IHr]; intros rest;
    cbn [tree_over structured_string leaves].
  - intros Ha Hrest.
    assert (Hl : ∃ x, a = [x] ∧ is_letter x = true).
    { destruct (tableVars_cases a Ha) as [-> | [-> | ->]]; by eexists. }
    destruct Hl as (x & -> & Hx). simpl. rewrite Hx.
    destruct Hrest as [-> | (c & r & -> & Hc)]; [done |].
    cbn [letter_runs]. by rewrite Hc.
  - intros Hc Hrest. simpl.
    rewrite <- app_assoc. rewrite IH; [| done | right; by eexists _, _].
    change (js ")" ++ rest) with (41%N :: rest).
    by rewrite letter_runs_nonletter.
  - intros (Hop & Hl & Hr) Hrest.
    assert (Hopc : ∃ x, op = [x] ∧ is_letter x = false).
    { destruct Hop as [-> | [-> | [-> | ->]]]; by eexists. }
    destruct Hopc as (x & -> & Hx). simpl.
    rewrite <- !app_assoc. rewrite IHl; [| done | right; by eexists _, _].
    simpl. rewrite Hx. simpl. rewrite <- app_assoc.
    rewrite IHr; [| done | right; by eexists _, _].
    change (js ")" ++ rest) with (41%N :: rest).
    rewrite letter_runs_nonletter by done. done.
Qed.

Lemma leaves_tree_over A t : tree_over A t → Forall (λ a, a ∈ A) (leaves t).
Proof.
  induction t as [a | c IH | op l IHl r IHr]; cbn [tree_over leaves].
  - by repeat constructor.
  - done.
  - intros (_ & Hl & Hr). apply Forall_app. auto.
Qed.

Lemma leaves_nonempty t : leaves t ≠ [].
Proof.
  induction t as [a | c IH | op l IHl r IHr]; cbn [leaves]; [done | done |].
  by destruct (leaves l).
Qed.

Lemma parseVars_structured t x :
  tree_over tableVars t →
  x ∈ parseVars (structured_string t) ↔ x ∈ leaves t.
Proof.
  intros Ht. rewrite parseVars_elem.
  rewrite <- (app_nil_r (structured_string t)).
  rewrite letter_runs_structured by (done || by left).
  simpl. rewrite app_nil_r.
  pose proof (leaves_tree_over _ _ Ht) as Hl. rewrite Forall_forall in Hl.
  split.
  - intros (v & Hv & -> & _).
    by destruct (tableVars_cases v (Hl v Hv)) as [-> | [-> | ->]].
  - intros Hx. exists x. split; [done |].
    destruct (tableVars_cases x (Hl x Hx)) as [-> | [-> | ->]];
      split_and!; done || sym_neq.
Qed.

(** X21. [handleGenerate], for any numbers that [Math.random()] may return:
    the first formula drawn is set, as a formula of depth 0 is never a
    single variable and so has at least 5 characters (the loop draws
    nothing).  The formula is fully parenthesized over P, Q and R and is
    parsed as the tree it was written from; the table has the variables of
    the formula, 2, 4 or 8 rows, and a column for each Negation or Binary
    node of the formula other than the formula itself. *)
Theorem handleGenerate_spec (fuel : nat) (random : nat → draw) (i : nat) :
  (∀ k, draw_ok (random k)) →
  ∃ t i',
    generateRestrictedFormula random 0 3 i = Some (structured_string t, i')
    ∧ handleGenerate fuel random i
      = Some (structured_string t, generateTable (structured_string t), i')
    ∧ tree_over tableVars t ∧ (5 ≤ length (structured_string t))%nat
    ∧ parseToAST (tokenize (structured_string t)) = Some t
    ∧ let table := generateTable (structured_string t) in
      (∀ x, x ∈ variables table ↔ x ∈ leaves t)
      ∧ (1 ≤ length (variables table) ≤ 3)%nat
      ∧ Z.of_nat (length (rows table))
        = 2 ^ Z.of_nat (length (variables table))
      ∧ ∀ s, s ∈ subExprs table
             ↔ s ∈ compound_renderings t ∧ s ≠ toFullString t.
Proof.
  intros Hok.
  destruct (generateRestrictedFormula_total random i Hok)
    as (t & i' & Hgen & Ht & Hna).
  pose proof (structured_string_length t Ht Hna) as Hlen.
  destruct tableVars_words as [Hw Ha].
  set (f := structured_string t) in *.
  assert (Hast : parseToAST (tokenize f) = Some t).
  { unfold f. rewrite tokenize_structured by done.
    by apply parseToAST_unit, (unit_structured_tokens tableVars). }
  assert (Hvars : ∀ x, x ∈ parseVars f ↔ x ∈ leaves t).
  { intros x. by apply parseVars_structured. }
  assert (Hne : parseVars f ≠ []).
  { intros Hnil. pose proof (leaves_nonempty t) as Hl.
    destruct (leaves t) as [| a l] eqn:E; [done |].
    assert (Hin : a ∈ parseVars f) by (apply Hvars; left).
    rewrite Hnil in Hin. by apply elem_of_nil in Hin. }
  assert (Hn : (1 ≤ length (parseVars f) ≤ 3)%nat).
  { split.
    - destruct (parseVars f); [done | simpl; lia].
    - change 3%nat with (length tableVars).
      apply submseteq_length, NoDup_submseteq; [apply parseVars_NoDup |].
      intros x Hx%Hvars.
      pose proof (leaves_tree_over _ _ Ht) as Hl. rewrite Forall_forall in Hl.
      by apply Hl. }
  assert (Htable : variables (generateTable f) = parseVars f).
  { unfold generateTable. rewrite decide_False; [done |].
    by destruct (parseVars f). }
  exists t, i'. split_and!.
  - done.
  - unfold handleGenerate. rewrite Hgen. simpl.
    destruct fuel; cbn [handleGenerate_loop];
      rewrite (proj2 (Nat.ltb_ge _ _)) by done; done.
  - done.
  - done.
  - done.
  - intros table. unfold table. clear table. fold f. split_and!.
    + intros x. by rewrite Htable.
    + rewrite Htable. lia.
    + rewrite Htable. lia.
    + rewrite Htable, generateTable_rows by done.
      rewrite length_map, length_reverse, length_seqZ.
      rewrite shl32_pow2 by lia.
      pose proof (pow2_le_30 (Z.of_nat (length (parseVars f))) ltac:(lia)). lia.
    + intros s.
      set (keep := λ s, negb (isAtom s)
                        && negb (bool_decide (s = toFullString t))).
      assert (Hsubs : subExprs (generateTable f)
                = sort_by (λ a b, (length a <? length b)%nat)
                    (List.filter keep (getSubExpressions t []))).
      { unfold generateTable. rewrite decide_False by (by destruct (parseVars f)).
        by rewrite Hast. }
      rewrite Hsubs, sort_by_Permutation, elem_of_List_filter.
      rewrite getSubExpressions_elem. unfold keep. split.
      * intros [Hs [_ Hfull]%andb_prop]. split; [done |].
        by apply negb_true_iff, bool_decide_eq_false in Hfull.
      * intros [Hs Hfull]. split; [done |].
        destruct (compound_renderings_paren _ _ Hs) as (r & ->).
        rewrite isAtom_paren. simpl.
        by rewrite bool_decide_eq_false_2.
Qed.

Lemma handleGenerate_spec_witness :
  ∃ t i',
    generateRestrictedFormula (λ i, quarters ((i + 2) mod 4)) 0 3 0
    = Some (structured_string t, i')
    ∧ handleGenerate 0 (λ i, quarters ((i + 2) mod 4)) 0
      = Some (structured_string t, generateTable (structured_string t), i')
    ∧ tree_over tableVars t ∧ (5 ≤ length (structured_string t))%nat
    ∧ parseToAST (tokenize (structured_string t)) = Some t
    ∧ let table := generateTable (structured_string t) in
      (∀ x, x ∈ variables table ↔ x ∈ leaves t)
      ∧ (1 ≤ length (variables table) ≤ 3)%nat
      ∧ Z.of_nat (length (rows table))
        = 2 ^ Z.of_nat (length (variables table))
      ∧ ∀ s, s ∈ subExprs table
             ↔ s ∈ compound_renderings t ∧ s ≠ toFullString t.
Proof.
  apply (handleGenerate_spec 0 (λ i, quarters ((i + 2) mod 4)) 0).
  intros k. apply quarters_ok. apply Nat.mod_upper_bound. lia.
Defined.

(** * The colours of the parentheses *)

Example getParenthesisColors_example :
  getParenthesisColors (js "((¬ P) ∨ (Q ⇒ R)))(")
  = [Some (js "text-green-600"); Some (js "text-red-600"); None; None; None;
     Some (js "text-red-600"); None; None; None;
     Some (js "text-purple-600"); None; None; None; None; None;
     Some (js "text-purple-600"); Some (js "text-green-600"); None; None].
Proof. vm_compute. reflexivity. Qed.

Lemma color_loop_app s a n m st :
  color_loop s a (n + m) st = color_loop s (a + n) m (color_loop s a n st).
Proof. unfold color_loop. by rewrite seq_app, foldl_app. Qed.

Lemma color_loop_one s a st : color_loop s a 1 st = color_step s st a.
Proof. done. Qed.

(** Characters other than parentheses change nothing. *)
Lemma color_loop_plain s a n st :
  (∀ j c, (a ≤ j < a + n)%nat → s !! j = Some c → c ≠ 40%N ∧ c ≠ 41%N) →
  color_loop s a n st = st.
Proof.
  revert a st. induction n as [| n IH]; intros a st Hs; [done |].
  change (S n) with (1 + n)%nat. rewrite color_loop_app, color_loop_one.
  assert (Hstep : color_step s st a = st).
  { unfold color_step. destruct st as [colors stack].
    destruct (s !! a) as [c |] eqn:E.
    - destruct (Hs a c ltac:(lia) E) as [H40 H41].
      rewrite !decide_False; [done | |]; by intros [= ?].
    - by rewrite !decide_False. }
  rewrite Hstep. apply IH. intros j c Hj. apply Hs. lia.
Qed.

Lemma atom_char a c :
  atom_token a → c ∈ a → c ≠ 40%N ∧ c ≠ 41%N ∧ is_connective c = false.
Proof.
  intros [_ Ha] Hc. rewrite Forall_forall in Ha.
  destruct (Ha c Hc) as [Hs _]. split_and!.
  - by intros ->.
  - by intros ->.
  - destruct (is_connective c) eqn:E; [| done].
    apply is_connective_sep in E. congruence.
Qed.

Lemma findMainOp_step_deep st c :
  c ≠ 40%N → c ≠ 41%N → main_balance st ≠ 0 → findMainOp_step st c = st.
Proof.
  intros H40 H41 Hb. unfold findMainOp_step.
  by rewrite !decide_False.
Qed.

Lemma findMainOp_step_plain st c :
  c ≠ 40%N → c ≠ 41%N → is_connective c = false → findMainOp_step st c = st.
Proof.
  intros H40 H41 Hc. unfold findMainOp_step.
  rewrite !(decide_False (P := c = _)) by done.
  rewrite Hc. by destruct (decide _).
Qed.

Lemma findMainOp_atom st a :
  atom_token a → foldl findMainOp_step st a = st.
Proof.
  intros Ha.
  assert (H : ∀ c, c ∈ a → findMainOp_step st c = st).
  { intros c Hc. destruct (atom_char a c Ha Hc) as (? & ? & ?).
    by apply findMainOp_step_plain. }
  clear Ha. induction a as [| c a IH]; [done |].
  simpl. rewrite H by left. apply IH. intros c' Hc'. apply H. by right.
Qed.

Lemma binop_code op :
  is_binop op →
  ∃ c p, op = [c] ∧ c ≠ 40%N ∧ c ≠ 41%N ∧ is_connective c = true
         ∧ PRECEDENCE [c] = Some p ∧ 1 ≤ p ≤ 4.
Proof.
  intros [-> | [-> | [-> | ->]]]; eexists _, _;
    (split; [reflexivity |]); split_and!; try done; try reflexivity; lia.
Qed.

Lemma findMainOp_step_open m o b :
  findMainOp_step (MainState m o b) 40%N = MainState m o (b + 1).
Proof. unfold findMainOp_step. by rewrite decide_True. Qed.

Lemma findMainOp_step_close m o b :
  findMainOp_step (MainState m o b) 41%N = MainState m o (b - 1).
Proof.
  unfold findMainOp_step. rewrite decide_False by done. by rewrite decide_True.
Qed.

Lemma findMainOp_step_connective m o x p :
  x ≠ 40%N → x ≠ 41%N → is_connective x = true → PRECEDENCE [x] = Some p →
  p ≤ m → findMainOp_step (MainState m o 0) x = MainState p [x] 0.
Proof.
  intros H40 H41 Hconn Hprec Hp. unfold findMainOp_step.
  rewrite !(decide_False (P := x = _)) by done.
  rewrite decide_True by done. rewrite Hconn, Hprec. simpl.
  by rewrite (proj2 (Z.leb_le p m)).
Qed.

(** The scan of [findMainOp] leaves a whole canonical string behind without
    a change. *)
Lemma findMainOp_canonical t m o b :
  clean t → 0 ≤ b →
  foldl findMainOp_step (MainState m o b) (toFullString t) = MainState m o b.
Proof.
  revert b. induction t as [a | c IH | op l IHl r IHr]; intros b;
    cbn [toFullString clean].
  - intros Ha _. by apply findMainOp_atom.
  - intros Hc Hb.
    change (js "(" ++ SYMBOLS.NOT ++ js " " ++ toFullString c ++ js ")")
      with (40%N :: 172%N :: 32%N :: toFullString c ++ [41%N]).
    cbn [foldl]. rewrite findMainOp_step_open.
    rewrite !(findMainOp_step_deep (MainState m o (b + 1)))
      by (done || (simpl; lia)).
    rewrite foldl_app, IH by (done || lia). cbn [foldl].
    rewrite findMainOp_step_close. f_equal. lia.
  - intros (Hop & Hl & Hr) Hb.
    destruct (binop_code op Hop) as (x & p & -> & H40 & H41 & _).
    change (js "(" ++ toFullString l ++ js " " ++ [x] ++ js " "
              ++ toFullString r ++ js ")")
      with (40%N :: toFullString l ++ 32%N :: x :: 32%N :: toFullString r
              ++ [41%N]).
    cbn [foldl]. rewrite findMainOp_step_open.
    rewrite foldl_app, IHl by (done || lia). cbn [foldl].
    rewrite !(findMainOp_step_deep (MainState m o (b + 1)))
      by (done || (simpl; lia)).
    rewrite foldl_app, IHr by (done || lia). cbn [foldl].
    rewrite findMainOp_step_close. f_equal. lia.
Qed.

Lemma findMainOp_inside pre X post :
  findMainOp (pre ++ 40%N :: X ++ 41%N :: post) (length pre)
    (length pre + 1 + length X)
  = op_color (mainOp (foldl findMainOp_step (MainState 100 (js "DEFAULT") 0) X)).
Proof.
  unfold findMainOp, op_color.
  replace (pre ++ 40%N :: X ++ 41%N :: post)
    with ((pre ++ [40%N]) ++ X ++ 41%N :: post) by (by rewrite <- app_assoc).
  replace (length pre + 1)%nat with (length (pre ++ [40%N]))
    by (rewrite length_app; simpl; lia).
  rewrite drop_app_length.
  replace (length (pre ++ [40%N]) + length X - length (pre ++ [40%N]))%nat
    with (length X) by lia.
  by rewrite take_app_length.
Qed.

Lemma insert_pair {A} (cpre mid cpost : list A) (x y : A) :
  <[(length cpre + 1 + length mid)%nat := x]>
    (<[length cpre := x]> (cpre ++ y :: mid ++ y :: cpost))
  = cpre ++ x :: mid ++ x :: cpost.
Proof.
  rewrite insert_app_r_alt by lia. rewrite Nat.sub_diag. simpl.
  rewrite insert_app_r_alt by lia.
  replace (length cpre + 1 + length mid - length cpre)%nat
    with (S (length mid)) by lia.
  simpl. rewrite insert_app_r_alt by lia. rewrite Nat.sub_diag. done.
Qed.

(** The loop over a group: an opening parenthesis, characters that leave
    the stack as it is, a closing parenthesis. *)
Lemma color_loop_group pre X post cpre mid cpost stack :
  length cpre = length pre → length mid = length X →
  (∀ stack',
     color_loop (pre ++ 40%N :: X ++ 41%N :: post) (length pre + 1) (length X)
       (cpre ++ None :: replicate (length X) None ++ None :: cpost, stack')
     = (cpre ++ None :: mid ++ None :: cpost, stack')) →
  color_loop (pre ++ 40%N :: X ++ 41%N :: post) (length pre)
    (1 + (length X + 1))
    (cpre ++ None :: replicate (length X) None ++ None :: cpost, stack)
  = (cpre
       ++ Some (findMainOp (pre ++ 40%N :: X ++ 41%N :: post) (length pre)
                  (length pre + 1 + length X))
       :: mid
       ++ Some (findMainOp (pre ++ 40%N :: X ++ 41%N :: post) (length pre)
                  (length pre + 1 + length X))
       :: cpost, stack).
Proof.
  intros Hpre Hmid Hin.
  set (s := pre ++ 40%N :: X ++ 41%N :: post) in *.
  assert (Hopen : s !! length pre = Some 40%N).
  { unfold s. by rewrite list_lookup_middle. }
  assert (Hclose : s !! (length pre + 1 + length X)%nat = Some 41%N).
  { unfold s.
    replace (pre ++ 40%N :: X ++ 41%N :: post)
      with ((pre ++ 40%N :: X) ++ 41%N :: post)
      by (by rewrite <- app_assoc).
    rewrite list_lookup_middle; [done |]. rewrite length_app. simpl. lia. }
  rewrite color_loop_app, color_loop_one. unfold color_step at 1.
  rewrite decide_True by done.
  rewrite color_loop_app, Hin, color_loop_one. unfold color_step.
  rewrite decide_False by (rewrite Hclose; by intros [= ?]).
  rewrite decide_True by done.
  f_equal. rewrite <- Hpre, <- Hmid. apply insert_pair.
Qed.

Lemma canonical_colors_length t :
  length (canonical_colors t) = length (toFullString t).
Proof.
  induction t as [a | c IH | op l IHl r IHr]; cbn [canonical_colors toFullString].
  - by rewrite length_replicate.
  - rewrite !length_app, IH. simpl. lia.
  - rewrite !length_app, !length_replicate, IHl, IHr. simpl. lia.
Qed.

(** The loop over the canonical string of a tree, anywhere in a string. *)
Lemma color_loop_canonical t :
  clean t → ∀ pre post cpre cpost stack,
  length cpre = length pre →
  color_loop (pre ++ toFullString t ++ post) (length pre)
    (length (toFullString t))
    (cpre ++ replicate (length (toFullString t)) None ++ cpost, stack)
  = (cpre ++ canonical_colors t ++ cpost, stack).
Proof.
  induction t as [a | c IH | op l IHl r IHr];
    intros Hclean pre post cpre cpost stack Hpre;
    cbn [toFullString canonical_colors clean] in *.
  - apply color_loop_plain. intros j x Hj Hx.
    rewrite lookup_app_r in Hx by lia.
    rewrite lookup_app_l in Hx by lia.
    apply list_elem_of_lookup_2 in Hx.
    destruct (atom_char a x Hclean Hx) as (? & ? & _). done.
  - set (F := toFullString c) in *.
    set (X := 172%N :: 32%N :: F).
    change (js "(" ++ SYMBOLS.NOT ++ js " " ++ F ++ js ")")
      with (40%N :: X ++ [41%N]).
    replace (pre ++ (40%N :: X ++ [41%N]) ++ post)
      with (pre ++ 40%N :: X ++ 41%N :: post)
      by (simpl; by rewrite <- !app_assoc).
    replace (length (40%N :: X ++ [41%N])) with (1 + (length X + 1))%nat
      by (simpl; rewrite length_app; simpl; lia).
    replace (cpre ++ replicate (1 + (length X + 1)) None ++ cpost)
      with (cpre ++ None :: replicate (length X) None ++ None :: cpost).
    2:{ rewrite replicate_add. simpl. rewrite replicate_add. simpl.
        by rewrite <- !app_assoc. }
    rewrite (color_loop_group pre X post cpre
               ([None; None] ++ canonical_colors c) cpost stack).
    + rewrite findMainOp_inside. unfold X. cbn [foldl].
      change (findMainOp_step (findMainOp_step
                (MainState 100 (js "DEFAULT") 0) 172%N) 32%N)
        with (MainState 5 SYMBOLS.NOT 0).
      unfold F. rewrite findMainOp_canonical by done. simpl.
      by rewrite <- !app_assoc.
    + done.
    + simpl. by rewrite canonical_colors_length.
    + intros stack'. unfold X.
      change (length (172%N :: 32%N :: F)) with (2 + length F)%nat.
      rewrite color_loop_app.
      rewrite (color_loop_plain _ (length pre + 1) 2).
      2:{ intros j x Hj Hx. rewrite lookup_app_r in Hx by lia.
          destruct (j - length pre)%nat as [| [| [| k]]] eqn:E; try lia;
            simpl in Hx; injection Hx as <-; done. }
      specialize (IH Hclean (pre ++ [40%N; 172%N; 32%N]) (41%N :: post)
                    (cpre ++ [None; None; None]) (None :: cpost) stack').
      rewrite !length_app in IH. simpl in IH.
      replace (length pre + 1 + 2)%nat with (length pre + 3)%nat by lia.
      rewrite <- !app_assoc in IH. simpl in IH.
      simpl. apply IH. lia.
  - destruct Hclean as (Hop & Hl & Hr).
    destruct (binop_code op Hop) as (x & p & -> & H40 & H41 & Hconn & Hprec & Hp).
    set (L := toFullString l) in *. set (R := toFullString r) in *.
    set (X := L ++ 32%N :: x :: 32%N :: R).
    replace (js "(" ++ L ++ js " " ++ [x] ++ js " " ++ R ++ js ")")
      with (40%N :: X ++ [41%N])
      by (unfold X; simpl; by rewrite <- !app_assoc).
    replace (pre ++ (40%N :: X ++ [41%N]) ++ post)
      with (pre ++ 40%N :: X ++ 41%N :: post)
      by (simpl; by rewrite <- !app_assoc).
    replace (length (40%N :: X ++ [41%N])) with (1 + (length X + 1))%nat
      by (simpl; rewrite length_app; simpl; lia).
    replace (cpre ++ replicate (1 + (length X + 1)) None ++ cpost)
      with (cpre ++ None :: replicate (length X) None ++ None :: cpost).
    2:{ rewrite replicate_add. simpl. rewrite replicate_add. simpl.
        by rewrite <- !app_assoc. }
    rewrite (color_loop_group pre X post cpre
               (canonical_colors l ++ [None; None; None] ++ canonical_colors r)
               cpost stack).
    + rewrite findMainOp_inside. unfold X.
      rewrite foldl_app. unfold L. rewrite findMainOp_canonical by done.
      cbn [foldl].
      assert (Hstep : findMainOp_step (findMainOp_step (findMainOp_step
                        (MainState 100 (js "DEFAULT") 0) 32%N) x) 32%N
                      = MainState p [x] 0).
      { rewrite (findMainOp_step_plain (MainState 100 (js "DEFAULT") 0) 32%N)
          by done.
        rewrite (findMainOp_step_connective 100 (js "DEFAULT") x p)
          by (done || lia).
        by apply findMainOp_step_plain. }
      rewrite Hstep. unfold R. rewrite findMainOp_canonical by done. simpl.
      rewrite <- ?app_assoc. simpl. by rewrite <- ?app_assoc.
    + done.
    + unfold X. rewrite !length_app, !canonical_colors_length. done.
    + intros stack'. unfold X.
      rewrite length_app.
      change (length (32%N :: x :: 32%N :: R)) with (3 + length R)%nat.
      rewrite color_loop_app.
      pose proof (IHl Hl (pre ++ [40%N]) (32%N :: x :: 32%N :: R ++ 41%N :: post)
                    (cpre ++ [None])
                    (replicate (3 + length R) None ++ None :: cpost) stack')
        as IH1.
      rewrite !length_app in IH1. simpl in IH1.
      rewrite <- !app_assoc in IH1. simpl in IH1.
      rewrite replicate_add. rewrite <- !app_assoc. simpl.
      fold L in IH1. rewrite IH1 by lia. clear IH1.
      change (S (S (S (length R)))) with (3 + length R)%nat.
      rewrite color_loop_app.
      rewrite (color_loop_plain _ (length pre + 1 + length L) 3).
      2:{ intros j y Hj Hy. rewrite lookup_app_r in Hy by lia.
          rewrite lookup_cons_ne_0 in Hy by lia.
          rewrite lookup_app_r in Hy by lia.
          destruct (Init.Nat.pred (j - length pre) - length L)%nat
            as [| [| [| k]]] eqn:E; try lia;
            simpl in Hy; injection Hy as <-; done. }
      pose proof (IHr Hr (pre ++ 40%N :: L ++ [32%N; x; 32%N]) (41%N :: post)
                    (cpre ++ None :: canonical_colors l ++ [None; None; None])
                    (None :: cpost) stack') as IH2.
      rewrite !length_app in IH2. simpl in IH2.
      rewrite !length_app in IH2. simpl in IH2.
      rewrite canonical_colors_length in IH2. fold L R in IH2.
      rewrite <- !app_assoc in IH2. simpl in IH2.
      rewrite <- !app_assoc in IH2. simpl in IH2.
      replace (length pre + 1 + length L + 3)%nat
        with (length pre + S (length L + 3))%nat by lia.
      apply IH2. lia.
Qed.

(** X22. On the canonical string of a tree the parentheses of every
    Negation and Binary node get the colour of the connective of the node,
    and nothing else is coloured. *)
Theorem getParenthesisColors_canonical (t : ASTNode) :
  clean t → getParenthesisColors (toFullString t) = canonical_colors t.
Proof.
  intros Ht. unfold getParenthesisColors.
  pose proof (color_loop_canonical t Ht [] [] [] [] [] eq_refl) as H.
  simpl in H. rewrite !app_nil_r in H. by rewrite H.
Qed.

Lemma getParenthesisColors_canonical_witness :
  getParenthesisColors
    (toFullString (BIN (js "⇒") (NOT (ATOM (js "P")))
                     (BIN (js "∧") (ATOM (js "Q")) (ATOM (js "R")))))
  = canonical_colors (BIN (js "⇒") (NOT (ATOM (js "P")))
                        (BIN (js "∧") (ATOM (js "Q")) (ATOM (js "R")))).
Proof.
  apply getParenthesisColors_canonical.
  assert (HP : atom_token (js "P")) by (apply VARS_atom; set_solver).
  assert (HQ : atom_token (js "Q")) by (apply VARS_atom; set_solver).
  assert (HR : atom_token (js "R")) by (apply VARS_atom; set_solver).
  exact (conj (or_intror (or_intror (or_introl eq_refl)))
           (conj HP (conj (or_introl eq_refl) (conj HQ HR)))).
Defined.

Lemma findMainOp_class s p q : findMainOp s p q ∈ color_classes.
Proof.
  unfold findMainOp.
  set (chars := take _ _). set (st0 := MainState 100 (js "DEFAULT") 0).
  assert (H : mainOp (foldl findMainOp_step st0 chars) = js "DEFAULT"
              ∨ ∃ x, mainOp (foldl findMainOp_step st0 chars) = [x]
                     ∧ is_connective x = true).
  { assert (H0 : mainOp st0 = js "DEFAULT"
                 ∨ ∃ x, mainOp st0 = [x] ∧ is_connective x = true) by (by left).
    revert H0. generalize st0. clear st0.
    induction chars as [| c chars IH]; intros st Hst; [done |].
    simpl. apply IH. unfold findMainOp_step.
    repeat case_decide; try done.
    destruct (is_connective c) eqn:Hc; [| done].
    destruct (_ <=? _); [| done]. right. by exists c. }
  destruct H as [-> | (x & -> & Hx)]; [set_solver |].
  unfold is_connective in Hx. apply bool_decide_eq_true in Hx.
  rewrite !elem_of_cons, elem_of_nil in Hx.
  destruct Hx as [-> | [-> | [-> | [-> | [-> | []]]]]]; set_solver.
Qed.

Lemma seg_nil s a : seg s a a = [].
Proof. unfold seg. by rewrite Nat.sub_diag. Qed.

Lemma seg_app s a b c :
  (a ≤ b ≤ c)%nat → seg s a c = seg s a b ++ seg s b c.
Proof.
  intros H. unfold seg, split_chars. rewrite <- map_app. f_equal.
  replace (c - a)%nat with ((b - a) + (c - b))%nat by lia.
  rewrite <- take_take_drop, drop_drop.
  by replace (a + (b - a))%nat with b by lia.
Qed.

Lemma seg_one s k c : s !! k = Some c → seg s k (k + 1) = [[c]].
Proof.
  intros Hk. unfold seg. replace (k + 1 - k)%nat with 1%nat by lia.
  by rewrite (drop_S _ _ _ Hk).
Qed.

Lemma seg_snoc s a k c :
  (a ≤ k)%nat → s !! k = Some c → seg s a (k + 1) = seg s a k ++ [[c]].
Proof.
  intros Ha Hk. rewrite (seg_app s a k (k + 1)) by lia.
  by rewrite (seg_one s k c).
Qed.

Lemma net_seg_snoc s a k c :
  (a ≤ k)%nat → s !! k = Some c →
  net (seg s a (k + 1)) = net (seg s a k) + paren_delta [c].
Proof.
  intros Ha Hk. rewrite (seg_snoc s a k c), net_app by done. simpl. lia.
Qed.

Lemma paren_delta_char c : c ≠ 40%N → c ≠ 41%N → paren_delta [c] = 0.
Proof.
  intros H40 H41. unfold paren_delta.
  rewrite !decide_False; [done | |]; by intros [= ?].
Qed.

Lemma balanced_nil : balanced [].
Proof. split; [done |]. intros n. by rewrite drop_nil. Qed.

Lemma stack_ok_lt s k stack p : stack_ok s k stack → p ∈ stack → (p < k)%nat.
Proof.
  revert k. induction stack as [| q rest IH]; intros k; [by intros _ ?%elem_of_nil |].
  intros (Hq & _ & _ & Hrest) [-> | Hp]%elem_of_cons; [done |].
  specialize (IH q Hrest Hp). lia.
Qed.

Lemma stack_ok_extend s a b stack :
  stack_ok s a stack → (a ≤ b)%nat → balanced (seg s a b) → stack_ok s b stack.
Proof.
  destruct stack as [| p rest]; [done |].
  intros (Hp & Hs & Hbal & Hrest) Hab Hseg. split_and!; [lia | done | | done].
  rewrite (seg_app s (p + 1) a b) by lia. by apply balanced_app.
Qed.

Lemma color_inv_fresh s k colors stack :
  color_inv s k (colors, stack) → (k < length s)%nat → colors !! k = Some None.
Proof.
  intros (Hlen & _ & _ & Hpair & _) Hk. simpl in *.
  destruct (lookup_lt_is_Some_2 colors k ltac:(lia)) as [[c |] Hc]; [| done].
  destruct (Hpair k c Hc) as (p & q & Hq & Hkpq & Hpq & _). lia.
Qed.

Lemma color_inv_colored_lt s k colors stack j c :
  color_inv s k (colors, stack) → colors !! j = Some (Some c) → (j < k)%nat.
Proof.
  intros (_ & _ & _ & Hpair & _) Hc. simpl in *.
  destruct (Hpair j c Hc) as (p & q & Hq & Hj & Hpq & _). lia.
Qed.

Lemma colored_pair_same s colors colors' p q c :
  colors' !! p = colors !! p → colors' !! q = colors !! q →
  colored_pair s colors p q c → colored_pair s colors' p q c.
Proof.
  intros Hp Hq (? & ? & ? & ? & ? & ? & ?).
  unfold colored_pair. rewrite Hp, Hq. done.
Qed.

(** A step on a character that is not a parenthesis. *)
Lemma color_inv_plain s k colors stack c :
  color_inv s k (colors, stack) → s !! k = Some c → c ≠ 40%N → c ≠ 41%N →
  color_inv s (k + 1) (colors, stack).
Proof.
  intros Hinv Hk H40 H41.
  pose proof Hinv as (Hlen & Hstack & Hnone & Hpair & Hopen & Hbal & Hun).
  simpl in *.
  pose proof (net_seg_snoc s 0 k c ltac:(lia) Hk) as Hnet.
  rewrite paren_delta_char in Hnet by done.
  split_and!; simpl.
  - done.
  - apply (stack_ok_extend s k); [done | lia |].
    rewrite (seg_one s k c Hk). apply balanced_single; by intros [= ?].
  - done.
  - intros j x Hx. destruct (Hpair j x Hx) as (p & q & ? & ? & ?).
    exists p, q. split_and!; [lia | done | done].
  - intros j Hj Hj40. apply Hopen; [| done].
    destruct (decide (j = k)) as [-> | ?]; [congruence | lia].
  - intros Hdip. destruct Hbal as [Hb1 Hb2].
    { intros m Hm. apply Hdip. lia. }
    split; [lia |]. intros j Hj Hj41. apply Hb2; [| done].
    destruct (decide (j = k)) as [-> | ?]; [congruence | lia].
  - intros j Hj Hfirst. apply Hun; [| done].
    destruct (decide (j = k)) as [-> | ?]; [| lia].
    destruct Hfirst as (? & _). congruence.
Qed.

(** A step on an opening parenthesis. *)
Lemma color_inv_open s k colors stack :
  color_inv s k (colors, stack) → s !! k = Some 40%N →
  color_inv s (k + 1) (colors, k :: stack).
Proof.
  intros Hinv Hk.
  pose proof Hinv as (Hlen & Hstack & Hnone & Hpair & Hopen & Hbal & Hun).
  simpl in *.
  pose proof (lookup_lt_Some _ _ _ Hk) as Hklt.
  pose proof (net_seg_snoc s 0 k 40%N ltac:(lia) Hk) as Hnet.
  change (paren_delta [40%N]) with (-1) in Hnet.
  split_and!; simpl.
  - done.
  - split_and!; [lia | done | | done]. rewrite seg_nil. apply balanced_nil.
  - intros p [-> | Hp]%elem_of_cons; [| by apply Hnone].
    by apply (color_inv_fresh s k colors stack).
  - intros j x Hx. destruct (Hpair j x Hx) as (p & q & ? & ? & ?).
    exists p, q. split_and!; [lia | done | done].
  - intros j Hj Hj40. destruct (decide (j = k)) as [-> | ?]; [left; left |].
    destruct (Hopen j ltac:(lia) Hj40) as [? | ?]; [left; by right | by right].
  - intros Hdip. destruct Hbal as [Hb1 Hb2].
    { intros m Hm. apply Hdip. lia. }
    split; [lia |]. intros j Hj Hj41. apply Hb2; [| done].
    destruct (decide (j = k)) as [-> | ?]; [congruence | lia].
  - intros j Hj Hfirst. apply Hun; [| done].
    destruct (decide (j = k)) as [-> | ?]; [| lia].
    destruct Hfirst as (? & _). congruence.
Qed.

(** A step on a closing parenthesis with an empty stack. *)
Lemma color_inv_unmatched s k colors :
  color_inv s k (colors, []) → s !! k = Some 41%N →
  color_inv s (k + 1) (colors, []).
Proof.
  intros Hinv Hk.
  pose proof Hinv as (Hlen & Hstack & Hnone & Hpair & Hopen & Hbal & Hun).
  simpl in *.
  pose proof (lookup_lt_Some _ _ _ Hk) as Hklt.
  pose proof (net_seg_snoc s 0 k 41%N ltac:(lia) Hk) as Hnet.
  change (paren_delta [41%N]) with 1 in Hnet.
  split_and!; simpl.
  - done.
  - done.
  - done.
  - intros j x Hx. destruct (Hpair j x Hx) as (p & q & ? & ? & ?).
    exists p, q. split_and!; [lia | done | done].
  - intros j Hj Hj40. apply Hopen; [| done].
    destruct (decide (j = k)) as [-> | ?]; [congruence | lia].
  - intros Hdip. exfalso. destruct Hbal as [Hb1 _].
    { intros m Hm. apply Hdip. lia. }
    specialize (Hdip (k + 1)%nat ltac:(lia)). lia.
  - intros j Hj Hfirst.
    destruct (decide (j = k)) as [-> | ?]; [| apply Hun; [lia | done]].
    by apply (color_inv_fresh s k colors []).
Qed.

(** A step on a closing parenthesis that has a partner on the stack. *)
Lemma color_inv_close s k colors start rest :
  color_inv s k (colors, start :: rest) → s !! k = Some 41%N →
  color_inv s (k + 1)
    (<[k := Some (findMainOp s start k)]>
       (<[start := Some (findMainOp s start k)]> colors), rest).
Proof.
  intros Hinv Hk.
  pose proof Hinv as (Hlen & Hstack & Hnone & Hpair & Hopen & Hbal & Hun).
  simpl in *.
  destruct Hstack as (Hstart & Hs40 & Hseg & Hrest).
  pose proof (lookup_lt_Some _ _ _ Hk) as Hklt.
  pose proof (net_seg_snoc s 0 k 41%N ltac:(lia) Hk) as Hnet.
  change (paren_delta [41%N]) with 1 in Hnet.
  set (col := findMainOp s start k).
  set (colors' := <[k := Some col]> (<[start := Some col]> colors)).
  assert (Hstart_none : colors !! start = Some None) by (apply Hnone; left).
  assert (Hk' : colors' !! k = Some (Some col)).
  { unfold colors'. apply list_lookup_insert_eq. rewrite length_insert. lia. }
  assert (Hstart' : colors' !! start = Some (Some col)).
  { unfold colors'. rewrite list_lookup_insert_ne by lia.
    apply list_lookup_insert_eq. lia. }
  assert (Hother : ∀ j, j ≠ start → j ≠ k → colors' !! j = colors !! j).
  { intros j ? ?. unfold colors'. by rewrite !list_lookup_insert_ne. }
  assert (Hkeep : ∀ j c, colors !! j = Some (Some c) → colors' !! j = colors !! j).
  { intros j c Hc. apply Hother.
    - intros ->. congruence.
    - pose proof (color_inv_colored_lt s k colors _ j c Hinv Hc). lia. }
  assert (Hnew : colored_pair s colors' start k col).
  { split_and!; try done.  }
  split_and!; simpl.
  - unfold colors'. by rewrite !length_insert.
  - apply (stack_ok_extend s start); [done | lia |].
    rewrite (seg_app s start (start + 1) (k + 1)) by lia.
    rewrite (seg_one s start 40%N Hs40).
    rewrite (seg_snoc s (start + 1) k 41%N) by (done || lia).
    apply (balanced_parens _ Hseg).
  - intros p Hp. pose proof (stack_ok_lt s start rest p Hrest Hp).
    rewrite Hother by lia. apply Hnone. by right.
  - intros j x Hx.
    destruct (decide (j = k)) as [-> | Hjk].
    { exists start, k. split_and!; [lia | by right |].
      rewrite Hk' in Hx. by injection Hx as <-. }
    destruct (decide (j = start)) as [-> | Hjs].
    { exists start, k. split_and!; [lia | by left |].
      rewrite Hstart' in Hx. by injection Hx as <-. }
    rewrite Hother in Hx by done.
    destruct (Hpair j x Hx) as (p & q & Hq & Hj & Hpq).
    exists p, q. split_and!; [lia | done |].
    pose proof Hpq as (_ & _ & _ & Hcp & Hcq & _).
    eapply colored_pair_same; [| | exact Hpq]; by eapply Hkeep.
  - intros j Hj Hj40.
    destruct (decide (j = k)) as [-> | ?]; [congruence |].
    destruct (Hopen j ltac:(lia) Hj40) as [[-> | ?]%elem_of_cons | [c Hc]].
    + right. by exists col.
    + by left.
    + right. exists c. by rewrite (Hkeep j c).
  - intros Hdip. destruct Hbal as [Hb1 Hb2].
    { intros m Hm. apply Hdip. lia. }
    split; [lia |]. intros j Hj Hj41.
    destruct (decide (j = k)) as [-> | ?]; [by exists col |].
    destruct (Hb2 j ltac:(lia) Hj41) as [c Hc].
    exists c. by rewrite (Hkeep j c).
  - intros j Hj Hfirst.
    destruct (decide (j = k)) as [-> | ?].
    + exfalso. destruct Hfirst as (_ & Hz & Hdip).
      destruct Hbal as [Hb1 _]; [done |]. lia.
    + rewrite Hother; [apply Hun; [lia | done] | | done].
      intros ->. destruct Hfirst as (? & _). congruence.
Qed.

Lemma color_inv_step s k st :
  color_inv s k st → (k < length s)%nat →
  color_inv s (k + 1) (color_step s st k).
Proof.
  intros Hinv Hk. destruct st as [colors stack].
  destruct (lookup_lt_is_Some_2 s k Hk) as [c Hc].
  unfold color_step. rewrite Hc.
  destruct (decide (c = 40%N)) as [-> | H40].
  { rewrite decide_True by done. by apply color_inv_open. }
  rewrite decide_False by (by intros [= ?]).
  destruct (decide (c = 41%N)) as [-> | H41].
  - rewrite decide_True by done. destruct stack as [| start rest].
    + by apply color_inv_unmatched.
    + by apply color_inv_close.
  - rewrite decide_False by (by intros [= ?]). by eapply color_inv_plain.
Qed.

Lemma color_inv_start s : color_inv s 0 (replicate (length s) None, []).
Proof.
  split_and!; simpl.
  - by rewrite length_replicate.
  - done.
  - by intros p ?%elem_of_nil.
  - intros j c [Hc _]%lookup_replicate. done.
  - intros j Hj. lia.
  - intros _. split; [done | intros j Hj; lia].
  - intros j Hj. lia.
Qed.

Lemma color_inv_loop s k :
  (k ≤ length s)%nat →
  color_inv s k (color_loop s 0 k (replicate (length s) None, [])).
Proof.
  induction k as [| k IH]; intros Hk; [apply color_inv_start |].
  replace (S k) with (k + 1)%nat by lia.
  rewrite color_loop_app, color_loop_one. simpl.
  apply color_inv_step; [apply IH; lia | lia].
Qed.

Lemma seg_prefix s m : seg s 0 m = take m (split_chars s).
Proof.
  unfold seg, split_chars. rewrite Nat.sub_0_r, drop_0.
  change (List.map ?f ?l) with (f <$> l). by rewrite fmap_take.
Qed.

Lemma seg_all s : seg s 0 (length s) = split_chars s.
Proof.
  rewrite seg_prefix. apply take_ge. unfold split_chars.
  by rewrite length_map.
Qed.

(** X23. [getParenthesisColors] on any string: the result has the length of
    the string; a colour is one of the six classes and is found only on a
    pair of parentheses that enclose a balanced run, both with the colour
    that [findMainOp] gives for the pair; every parenthesis is coloured
    exactly when the string is balanced in the sense of [isBalanced]. *)
Theorem getParenthesisColors_spec (inputStr : jsstring) :
  let colors := getParenthesisColors inputStr in
  length colors = length inputStr
  ∧ (∀ i c, colors !! i = Some (Some c) →
       c ∈ color_classes
       ∧ ∃ p q, (i = p ∨ i = q) ∧ colored_pair inputStr colors p q c)
  ∧ (isBalanced (split_chars inputStr) = true
     ↔ ∀ i, inputStr !! i = Some 40%N ∨ inputStr !! i = Some 41%N →
            ∃ c, colors !! i = Some (Some c)).
Proof.
  intros colors. set (s := inputStr) in *.
  pose proof (color_inv_loop s (length s) ltac:(done)) as Hinv.
  unfold colors, getParenthesisColors. clear colors.
  destruct (color_loop s 0 (length s) (replicate (length s) None, []))
    as [cs stack] eqn:Hloop.
  set (n := length s) in *.
  pose proof Hinv as (Hlen & Hstack & Hnone & Hpair & Hopen & Hbal & Hun).
  simpl in *.
  split_and!.
  - done.
  - intros i c Hc. destruct (Hpair i c Hc) as (p & q & _ & Hi & Hpq).
    split; [| by exists p, q].
    destruct Hpq as (_ & _ & _ & _ & _ & -> & _). apply findMainOp_class.
  - rewrite isBalanced_balanced. split.
    + intros [Hz Hsuf].
      assert (Hdip : ∀ m, (m ≤ n)%nat → net (seg s 0 m) ≤ 0).
      { intros m _. rewrite seg_prefix.
        pose proof (net_take_drop (split_chars s) m).
        specialize (Hsuf m). lia. }
      destruct (Hbal Hdip) as [Hstk Hclosed].
      unfold n in Hstk. rewrite seg_all, Hz in Hstk.
      destruct stack; [| simpl in Hstk; lia].
      intros i [Hi | Hi].
      * pose proof (lookup_lt_Some _ _ _ Hi).
        destruct (Hopen i ltac:(done) Hi) as [?%elem_of_nil | ?]; done.
      * pose proof (lookup_lt_Some _ _ _ Hi). by apply Hclosed.
    + intros Hall.
      assert (Hdip : ∀ k, (k ≤ n)%nat → ∀ m, (m ≤ k)%nat → net (seg s 0 m) ≤ 0).
      { induction k as [| k IH]; intros Hk m Hm.
        - replace m with 0%nat by lia. by rewrite seg_nil.
        - destruct (decide (m ≤ k)%nat) as [? | ?]; [apply IH; lia |].
          replace m with (k + 1)%nat by lia.
          destruct (lookup_lt_is_Some_2 s k ltac:(unfold n in Hk; lia)) as [c Hc].
          rewrite (net_seg_snoc s 0 k c) by (done || lia).
          pose proof (IH ltac:(lia) k ltac:(lia)) as Hk0.
          unfold paren_delta.
          destruct (decide ([c] = RPAREN)) as [[= ->] | ?];
            [| destruct (decide ([c] = LPAREN)); lia].
          destruct (decide (net (seg s 0 k) = 0)) as [Hz | ?]; [| lia].
          exfalso.
          assert (Hfirst : first_unmatched s k).
          { split_and!; [done | done |]. intros m' Hm'. apply IH; lia. }
          pose proof (Hun k ltac:(lia) Hfirst) as Hk_none.
          destruct (Hall k (or_intror Hc)) as [x Hx]. congruence. }
      destruct (Hbal (Hdip n ltac:(done))) as [Hstk _].
      unfold n in Hstk. rewrite seg_all in Hstk.
      assert (Hempty : stack = []).
      { destruct stack as [| p rest]; [done |]. exfalso.
        destruct Hstack as (_ & Hp & _).
        pose proof (Hnone p ltac:(left)) as Hp_none.
        destruct (Hall p (or_introl Hp)) as [x Hx]. congruence. }
      rewrite Hempty in Hstk. simpl in Hstk.
      split; [lia |]. intros m.
      pose proof (net_take_drop (split_chars s) m) as Htd.
      destruct (decide (m ≤ n)%nat) as [Hm | Hm].
      * pose proof (Hdip n ltac:(done) m Hm) as Hm0.
        rewrite seg_prefix in Hm0. lia.
      * rewrite drop_ge; [done |]. unfold split_chars. rewrite length_map.
        unfold n in Hm. lia.
Qed.

Lemma getParenthesisColors_spec_witness :
  (js "text-blue-600" ∈ color_classes
   ∧ ∃ p q, (0%nat = p ∨ 0%nat = q)
       ∧ colored_pair (js "(P ∧ Q)") (getParenthesisColors (js "(P ∧ Q)"))
           p q (js "text-blue-600"))
  ∧ ∀ i, js "(P ∧ Q)" !! i = Some 40%N ∨ js "(P ∧ Q)" !! i = Some 41%N →
         ∃ c, getParenthesisColors (js "(P ∧ Q)") !! i = Some (Some c).
Proof.
  pose proof (getParenthesisColors_spec (js "(P ∧ Q)")) as H.
  cbv zeta in H. destruct H as (_ & Hpair & Hbal). split.
  - apply (Hpair 0%nat). reflexivity.
  - apply Hbal. reflexivity.
Defined.

(** * Generated sessions that can be finished *)

Lemma structured_tokens_head t v :
  head (structured_tokens t) = Some v → v = js "1" ∨ v = js "0" → t = ATOM v.
Proof.
  destruct t; simpl; intros [= <-]; [done | |]; intros [? | ?]; done.
Qed.

Lemma structured_tokens_last t v :
  last (structured_tokens t) = Some v → v = js "1" ∨ v = js "0" → t = ATOM v.
Proof.
  destruct t as [a | c | op l r]; cbn [structured_tokens].
  - by intros [= <-].
  - change (SYMBOLS.NOT :: LPAREN :: structured_tokens c ++ [RPAREN])
      with ((SYMBOLS.NOT :: LPAREN :: structured_tokens c) ++ [RPAREN]).
    rewrite last_snoc. intros [= <-] [? | ?]; done.
  - change (LPAREN :: (structured_tokens l ++ op :: structured_tokens r)
              ++ [RPAREN])
      with ((LPAREN :: structured_tokens l ++ op :: structured_tokens r)
              ++ [RPAREN]).
    rewrite last_snoc. intros [= <-] [? | ?]; done.
Qed.

Lemma operand_pair_BIN op l r :
  operand_pair (BIN op l r) = true ↔
  (∃ v1 v2, l = ATOM v1 ∧ r = ATOM v2)
  ∨ operand_pair l = true ∨ operand_pair r = true.
Proof.
  destruct l as [v1 | c | op' l' r'], r as [v2 | d | op'' l'' r''];
    cbn [operand_pair]; rewrite ?orb_true_iff; split;
    try naive_solver.
Qed.

Lemma literal_not_operator v :
  v ∈ [js "0"; js "1"] → v ≠ SYMBOLS.NOT ∧ ¬ is_binop v.
Proof.
  rewrite !elem_of_cons, elem_of_nil.
  intros [-> | [-> | []]]; (split; [done |]);
    intros [? | [? | [? | ?]]]; done.
Qed.

Lemma interactable_operator tokens j :
  interactable tokens j = true →
  ∃ tok, tokens !! j = Some tok ∧ (tok = SYMBOLS.NOT ∨ is_binop tok).
Proof.
  intros [(? & _) | (op & _ & _ & ? & ? & _)]%interactable_inv; eauto.
Qed.

(** In the tokens of a generated formula a token reacts to a click exactly
    when the formula has a binary connective between two operands. *)
Lemma interactable_structured t :
  tree_over [js "0"; js "1"] t →
  (∃ j, interactable (structured_tokens t) j = true) ↔ operand_pair t = true.
Proof.
  induction t as [v | c IH | op l IHl r IHr]; cbn [tree_over].
  - intros Hv. split; [| done]. intros [j Hj]. exfalso.
    pose proof (interactable_lt _ _ Hj) as Hlt. simpl in Hlt.
    destruct (interactable_operator _ _ Hj) as (tok & Htok & Hop).
    destruct j; [| lia]. injection Htok as <-.
    destruct (literal_not_operator v Hv) as [? ?]. by destruct Hop.
  - intros Hc. specialize (IH Hc). cbn [operand_pair structured_tokens].
    rewrite <- IH. clear IH.
    set (tc := structured_tokens c).
    change (SYMBOLS.NOT :: LPAREN :: tc ++ [RPAREN])
      with ([SYMBOLS.NOT; LPAREN] ++ tc ++ [RPAREN]).
    split.
    + intros [j Hj].
      pose proof (interactable_lt _ _ Hj) as Hlt.
      rewrite !length_app in Hlt. simpl in Hlt.
      destruct (decide (2 ≤ j < 2 + length tc)%nat) as [Hin | Hout].
      * exists (j - 2)%nat.
        rewrite <- (interactable_context [SYMBOLS.NOT; LPAREN] tc [RPAREN])
          by (done || lia).
        simpl length. by replace (2 + (j - 2))%nat with j by lia.
      * exfalso.
        destruct (interactable_inv _ _ Hj)
          as [(Htok & v & Hv & Hlit) | (op & v1 & v2 & Htok & Hop & _)].
        -- destruct j as [| [| j]].
           ++ simpl in Hv. injection Hv as <-. by destruct Hlit.
           ++ simpl in Htok. done.
           ++ assert (j = length tc) as -> by lia.
              simpl in Htok. rewrite lookup_app_r in Htok by lia.
              rewrite Nat.sub_diag in Htok. simpl in Htok. done.
        -- destruct j as [| [| j]].
           ++ simpl in Htok. injection Htok as <-.
              destruct Hop as [? | [? | [? | ?]]]; done.
           ++ simpl in Htok. injection Htok as <-.
              destruct Hop as [? | [? | [? | ?]]]; done.
           ++ assert (j = length tc) as -> by lia.
              simpl in Htok. rewrite lookup_app_r in Htok by lia.
              rewrite Nat.sub_diag in Htok. simpl in Htok.
              injection Htok as <-.
              destruct Hop as [? | [? | [? | ?]]]; done.
    + intros [j Hj]. exists (2 + j)%nat.
      pose proof (interactable_lt _ _ Hj) as Hlt.
      rewrite <- (interactable_context [SYMBOLS.NOT; LPAREN] tc [RPAREN]) in Hj
        by (done || lia).
      done.
  - intros (Hop & Hl & Hr). specialize (IHl Hl). specialize (IHr Hr).
    rewrite operand_pair_BIN, <- IHl, <- IHr. clear IHl IHr.
    cbn [structured_tokens].
    set (tl := structured_tokens l). set (tr := structured_tokens r).
    pose proof (structured_tokens_nonempty l) as Hnl.
    pose proof (structured_tokens_nonempty r) as Hnr.
    fold tl in Hnl. fold tr in Hnr.
    assert (Hleft : ∀ j, (j < length tl)%nat →
              interactable (LPAREN :: (tl ++ op :: tr) ++ [RPAREN]) (1 + j)
              = interactable tl j).
    { intros j Hj.
      replace (LPAREN :: (tl ++ op :: tr) ++ [RPAREN])
        with ([LPAREN] ++ tl ++ (op :: tr ++ [RPAREN]))
        by (simpl; by rewrite <- app_assoc).
      apply (interactable_context [LPAREN] tl); [done | done |].
      simpl. by apply isVal_binop. }
    assert (Hright : ∀ j, (j < length tr)%nat →
              interactable (LPAREN :: (tl ++ op :: tr) ++ [RPAREN])
                (length tl + 2 + j)
              = interactable tr j).
    { intros j Hj.
      replace (LPAREN :: (tl ++ op :: tr) ++ [RPAREN])
        with ((LPAREN :: tl ++ [op]) ++ tr ++ [RPAREN])
        by (simpl; rewrite <- !app_assoc; done).
      replace (length tl + 2 + j)%nat
        with (length (LPAREN :: tl ++ [op]) + j)%nat
        by (simpl; rewrite length_app; simpl; lia).
      apply interactable_context; [done | | done].
      change (LPAREN :: tl ++ [op]) with ((LPAREN :: tl) ++ [op]).
      rewrite last_snoc. by apply isVal_binop. }
    assert (Hmid : (LPAREN :: (tl ++ op :: tr) ++ [RPAREN]) !! (length tl + 1)%nat
                   = Some op).
    { replace (LPAREN :: (tl ++ op :: tr) ++ [RPAREN])
        with ((LPAREN :: tl) ++ op :: (tr ++ [RPAREN]))
        by (simpl; rewrite <- !app_assoc; done).
      rewrite list_lookup_middle; [done |]. simpl. lia. }
    assert (Hprev : (LPAREN :: (tl ++ op :: tr) ++ [RPAREN]) !! length tl
                    = last tl).
    { replace (LPAREN :: (tl ++ op :: tr) ++ [RPAREN])
        with ((LPAREN :: tl) ++ op :: (tr ++ [RPAREN]))
        by (simpl; rewrite <- !app_assoc; done).
      rewrite lookup_app_l by (simpl; lia).
      rewrite last_lookup. destruct tl; [done |]. done. }
    assert (Hnext : (LPAREN :: (tl ++ op :: tr) ++ [RPAREN]) !! (length tl + 2)%nat
                    = head tr).
    { replace (LPAREN :: (tl ++ op :: tr) ++ [RPAREN])
        with ((LPAREN :: tl ++ [op]) ++ tr ++ [RPAREN])
        by (simpl; rewrite <- !app_assoc; done).
      rewrite lookup_app_r by (simpl; rewrite length_app; simpl; lia).
      replace (length tl + 2 - length (LPAREN :: tl ++ [op]))%nat with 0%nat
        by (simpl; rewrite length_app; simpl; lia).
      by destruct tr. }
    split.
    + intros [j Hj].
      pose proof (interactable_lt _ _ Hj) as Hlt.
      simpl in Hlt. rewrite !length_app in Hlt. simpl in Hlt.
      destruct (interactable_operator _ _ Hj) as (tok & Htok & Htokop).
      destruct (decide (1 ≤ j < 1 + length tl)%nat) as [Hin | Hout].
      { right; left. exists (j - 1)%nat. rewrite <- Hleft by lia.
        by replace (1 + (j - 1))%nat with j by lia. }
      destruct (decide (length tl + 2 ≤ j < length tl + 2 + length tr)%nat)
        as [Hin | Hout'].
      { right; right. exists (j - (length tl + 2))%nat. rewrite <- Hright by lia.
        by replace (length tl + 2 + (j - (length tl + 2)))%nat with j by lia. }
      destruct (decide (j = 0%nat)) as [-> | Hj0].
      { exfalso. simpl in Htok. injection Htok as <-.
        destruct Htokop as [? | [? | [? | [? | ?]]]]; done. }
      destruct (decide (j = (length tl + 1)%nat)) as [-> | Hjm].
      { left.
        destruct (interactable_inv _ _ Hj)
          as [(Htok' & _) | (op' & v1 & v2 & _ & _ & _ & Hv1 & Hl1 & Hv2 & Hl2)].
        - exfalso. rewrite Hmid in Htok'. injection Htok' as ->.
          destruct Hop as [? | [? | [? | ?]]]; done.
        - replace (length tl + 1 - 1)%nat with (length tl) in Hv1 by lia.
          replace (length tl + 1 + 1)%nat with (length tl + 2)%nat in Hv2 by lia.
          rewrite Hprev in Hv1. rewrite Hnext in Hv2.
          exists v1, v2. split.
          + by apply structured_tokens_last.
          + by apply structured_tokens_head. }
      exfalso. assert (j = (length tl + 2 + length tr)%nat) as -> by lia.
      replace (LPAREN :: (tl ++ op :: tr) ++ [RPAREN])
        with ((LPAREN :: tl ++ op :: tr) ++ [RPAREN]) in Htok by done.
      rewrite list_lookup_middle in Htok
        by (simpl; rewrite length_app; simpl; lia).
      injection Htok as <-.
      destruct Htokop as [? | [? | [? | [? | ?]]]]; done.
    + intros [(v1 & v2 & -> & ->) | [[j Hj] | [j Hj]]].
      * exists 2%nat. simpl in Hl, Hr.
        apply (interactable_binop _ 1 op v1 v2); try done.
        -- rewrite !elem_of_cons, elem_of_nil in Hl. naive_solver.
        -- rewrite !elem_of_cons, elem_of_nil in Hr. naive_solver.
      * exists (1 + j)%nat. rewrite Hleft; [done |]. by eapply interactable_lt.
      * exists (length tl + 2 + j)%nat. rewrite Hright; [done |].
        by eapply interactable_lt.
Qed.

Lemma operand_pair_map_atoms f t :
  operand_pair (map_atoms f t) = operand_pair t.
Proof.
  induction t as [a | c IH | op l IHl r IHr]; cbn [map_atoms operand_pair].
  - done.
  - done.
  - rewrite <- IHl, <- IHr. by destruct l, r.
Qed.

Lemma structured_tokens_length t :
  (∀ a, t ≠ ATOM a) → (3 ≤ length (structured_tokens t))%nat.
Proof.
  destruct t as [a | c | op l r]; cbn [structured_tokens]; intros Hna.
  - by destruct (Hna a).
  - pose proof (structured_tokens_nonempty c).
    simpl. rewrite length_app. simpl. lia.
  - simpl. rewrite !length_app. simpl. lia.
Qed.

Lemma isSolved_long tokens : (2 ≤ length tokens)%nat → isSolved tokens = false.
Proof.
  intros Hlen. unfold isSolved. by rewrite bool_decide_eq_false_2 by lia.
Qed.

(** X24. Which generated sessions can be finished.  After the substitution
    the session of [generate] can be solved by some sequence of accepted
    clicks, ending on the value of the substituted formula, when the
    formula has a binary connective between two variables; when it has
    none, the session is not solved and no click is ever accepted. *)
Theorem generated_session_solvable (fuel : nat) (random : nat → draw) (i : nat)
    (st : eval_state) (variables : list (jsstring * jsstring)) (i' : nat) :
  (∀ k, draw_ok (random k)) →
  generate fuel random i = Some (st, variables, i') →
  ∃ t,
    history st = [HistoryEntry 0 (structured_string t) (js "formula")]
    ∧ let st1 := handleSubstitute variables st in
      let t1 := map_atoms (subst_atom variables) t in
      (operand_pair t = true →
         ∃ n st', reductions n st1 st'
           ∧ isSolved (current_tokens st') = true
           ∧ current_tokens st' = [digit (evalAST ∅ t1)])
      ∧ (operand_pair t = false →
         isSolved (current_tokens st1) = false
         ∧ ∀ idx, click idx st1 = st1).
Proof.
  intros Hok Hgen.
  destruct (generate_substituted _ _ _ _ _ _ Hok Hgen)
    as (t & -> & Ht & Hlen & Ht1 & Hlit & Hsub).
  destruct literal_words as [HLw HLa].
  exists t. split; [done |]. intros st1 t1.
  assert (Hcur : current_tokens st1 = structured_tokens t1).
  { unfold st1. rewrite Hsub. unfold current_tokens. simpl.
    by apply (getTokens_structured [js "0"; js "1"]). }
  assert (Hu : unit_tokens (current_tokens st1) t1).
  { rewrite Hcur. by apply (unit_structured_tokens [js "0"; js "1"]). }
  assert (Hhist : (1 < length (history st1))%nat).
  { unfold st1. rewrite Hsub. simpl. lia. }
  assert (Hna : ∀ a, t1 ≠ ATOM a).
  { intros a Ha. destruct t as [v | |]; try done.
    simpl in Ht. destruct (VARS_letter v Ht) as (c & -> & _).
    simpl in Hlen. lia. }
  assert (Hns : isSolved (current_tokens st1) = false).
  { apply isSolved_long. rewrite Hcur.
    pose proof (structured_tokens_length t1 Hna). lia. }
  pose proof (interactable_structured t1 Ht1) as Hiff.
  unfold t1 in Hiff at 2. rewrite operand_pair_map_atoms in Hiff.
  rewrite <- Hcur in Hiff.
  split.
  - intros [j Hj]%Hiff.
    destruct (click_exists_interactable st1 j Hj Hhist Hns) as (idx & Hne).
    destruct (click_sound st1 idx t1 Hu Hlit Hne)
      as (t' & ts' & Hh' & Hcur' & Hu' & Hlit' & Hw & Hnorm' & Hev & _).
    rewrite <- Hcur' in Hu', Hnorm'.
    assert (Hlen' : (1 < length (history (click idx st1)))%nat).
    { rewrite Hh', length_app. simpl. lia. }
    destruct (reductions_solve (click idx st1) t' Hu' Hlit' Hnorm' Hlen')
      as (n & st' & Hred & Hsol & Hfin).
    exists (S n), st'. split_and!.
    + by econstructor.
    + done.
    + by rewrite Hfin, Hev.
  - intros Hnone. split; [done |]. intros idx. unfold click.
    destruct (interactable (current_tokens st1) idx) eqn:Hi.
    + assert (operand_pair t = true) by (apply Hiff; by exists idx). congruence.
    + by rewrite andb_false_r.
Qed.

Lemma generated_session_solvable_witness :
  ∃ t,
    history (EvalState [HistoryEntry 0 (js "(¬ ((¬ (Q) ⇔ (P ⇒ Q))) ⇒ Q)")
                          (js "formula")] (js ""))
    = [HistoryEntry 0 (structured_string t) (js "formula")]
    ∧ let st1 :=
        handleSubstitute [(js "P", js "0"); (js "Q", js "1")]
          (EvalState [HistoryEntry 0 (js "(¬ ((¬ (Q) ⇔ (P ⇒ Q))) ⇒ Q)")
                        (js "formula")] (js "")) in
      let t1 :=
        map_atoms (subst_atom [(js "P", js "0"); (js "Q", js "1")]) t in
      (operand_pair t = true →
         ∃ n st', reductions n st1 st'
           ∧ isSolved (current_tokens st') = true
           ∧ current_tokens st' = [digit (evalAST ∅ t1)])
      ∧ (operand_pair t = false →
         isSolved (current_tokens st1) = false
         ∧ ∀ idx, click idx st1 = st1).
Proof.
  apply (generated_session_solvable 1 (λ i, quarters ((i + 2) mod 4)) 0
           (EvalState [HistoryEntry 0 (js "(¬ ((¬ (Q) ⇔ (P ⇒ Q))) ⇒ Q)")
                         (js "formula")] (js ""))
           [(js "P", js "0"); (js "Q", js "1")] 19).
  - intros k. apply quarters_ok. apply Nat.mod_upper_bound. lia.
  - vm_compute. reflexivity.
Defined.
